(** * gentab: the evaluation core of [gentab/data/dataset.py]

    A shallow embedding of the [Dataset] class: the categorical codec
    ([compute_categories], [encode_categories], [decode_categories]), the
    encoded view handed to the metrics ([get_single_encoded_data]), the
    distance and privacy pass ([compute_distances_hits] and the four scores
    read off its result), the Jensen-Shannon pass, the correlation ratio,
    and a store of data frames for the methods that update a frame in place.

    Numbers.  A pandas/numpy float is modelled as an exact real number or one
    of the three IEEE special values; rounding error and signed zeros are left
    out.  Missing entries are NaN in a float column and [None] in an object
    column.  Row labels are positional (a default [RangeIndex]).  The tables
    handed to the codec have rows: what [DataFrame.apply] does on a table
    without rows is left out. *)

From Stdlib Require Import List Sorted ZArith String Ascii Bool Lia Reals Lra Psatz.
Import ListNotations.

Set Implicit Arguments.

(** ** Exceptions *)

Inductive exn : Type := KeyError | ValueError | TypeError.

Inductive result (A : Type) : Type :=
| Ok (a : A)
| Raise (e : exn).

Arguments Ok {A} a.
Arguments Raise {A} e.

Definition bind {A B : Type} (m : result A) (f : A -> result B) : result B :=
  match m with
  | Ok a => f a
  | Raise e => Raise e
  end.

Declare Scope py_scope.
Delimit Scope py_scope with py.
Notation "x <- m ;; k" := (bind m (fun x => k))
  (at level 61, m at next level, right associativity) : py_scope.
Notation "' p <- m ;; k" := (bind m (fun x => match x with p => k end))
  (at level 61, p pattern, m at next level, right associativity) : py_scope.
Local Open Scope py_scope.

Fixpoint mapM {A B : Type} (f : A -> result B) (l : list A) : result (list B) :=
  match l with
  | [] => Ok []
  | a :: l' => b <- f a ;; bs <- mapM f l' ;; Ok (b :: bs)
  end.

(** ** Floats *)

Inductive ereal : Type :=
| Fin (r : R)
| PInf
| NInf.

(** [None] is NaN. *)
Definition float : Type := option ereal.

Definition NaN : float := None.
Definition F (r : R) : float := Some (Fin r).
Definition inf : float := Some PInf.

Definition Rltb (a b : R) : bool := if Rlt_dec a b then true else false.
Definition Reqb (a b : R) : bool := if Req_dec_T a b then true else false.

Definition ereal_ltb (a b : ereal) : bool :=
  match a, b with
  | Fin x, Fin y => Rltb x y
  | Fin _, PInf => true
  | NInf, Fin _ => true
  | NInf, PInf => true
  | _, _ => false
  end.

Definition fltb (a b : float) : bool :=
  match a, b with
  | Some x, Some y => ereal_ltb x y
  | _, _ => false
  end.

Definition feqb (a b : float) : bool :=
  match a, b with
  | Some (Fin x), Some (Fin y) => Reqb x y
  | Some PInf, Some PInf => true
  | Some NInf, Some NInf => true
  | _, _ => false
  end.

Definition fleb (a b : float) : bool := fltb a b || feqb a b.

Definition fneg (a : float) : float :=
  match a with
  | Some (Fin x) => F (- x)
  | Some PInf => Some NInf
  | Some NInf => Some PInf
  | None => NaN
  end.

Definition fadd (a b : float) : float :=
  match a, b with
  | Some (Fin x), Some (Fin y) => F (x + y)
  | Some PInf, Some NInf => NaN
  | Some NInf, Some PInf => NaN
  | Some PInf, Some _ => Some PInf
  | Some _, Some PInf => Some PInf
  | Some NInf, Some _ => Some NInf
  | Some _, Some NInf => Some NInf
  | _, _ => NaN
  end.

Definition fsub (a b : float) : float := fadd a (fneg b).

(** -1, 0 or 1. *)
Definition Rsign (x : R) : Z :=
  if Rlt_dec 0 x then 1%Z else if Rlt_dec x 0 then (-1)%Z else 0%Z.

Definition esign (a : ereal) : Z :=
  match a with
  | Fin x => Rsign x
  | PInf => 1%Z
  | NInf => (-1)%Z
  end.

Definition signed_inf (s : Z) : float :=
  match s with
  | Z0 => NaN
  | Zpos _ => Some PInf
  | Zneg _ => Some NInf
  end.

Definition fmul (a b : float) : float :=
  match a, b with
  | Some (Fin x), Some (Fin y) => F (x * y)
  | Some x, Some y => signed_inf (esign x * esign y)
  | _, _ => NaN
  end.

(** Division as numpy does it: a zero divisor gives an infinity, or NaN for
    [0 / 0], and no exception. *)
Definition fdiv (a b : float) : float :=
  match a, b with
  | Some (Fin x), Some (Fin y) =>
      if Reqb y 0 then signed_inf (Rsign x) else F (x / y)
  | Some (Fin _), Some _ => F 0
  | Some x, Some (Fin y) =>
      if Rltb y 0 then signed_inf (- esign x) else signed_inf (esign x)
  | _, _ => NaN
  end.

Definition fsqrt (a : float) : float :=
  match a with
  | Some (Fin x) => if Rltb x 0 then NaN else F (sqrt x)
  | Some PInf => Some PInf
  | _ => NaN
  end.

Definition fabs (a : float) : float :=
  match a with
  | Some (Fin x) => F (Rabs x)
  | Some _ => Some PInf
  | None => NaN
  end.

(** [x ** 2] *)
Definition fsqr (a : float) : float := fmul a a.

(** [np.sum] of a one-dimensional array. *)
Definition fsum (l : list float) : float := fold_left fadd l (F 0).

Definition isnan (a : float) : bool :=
  match a with
  | None => true
  | Some _ => false
  end.

Definition isfinite (a : float) : bool :=
  match a with
  | Some (Fin _) => true
  | _ => false
  end.

Definition of_int (z : Z) : float := F (IZR z).
Definition of_nat (n : nat) : float := F (INR n).

Arguments fadd : simpl never.
Arguments fsub : simpl never.
Arguments fneg : simpl never.
Arguments fmul : simpl never.
Arguments fdiv : simpl never.
Arguments fsqrt : simpl never.
Arguments fabs : simpl never.
Arguments fsqr : simpl never.
Arguments fsum : simpl never.
Arguments fltb : simpl never.
Arguments feqb : simpl never.
Arguments fleb : simpl never.
Arguments F : simpl never.
Arguments of_int : simpl never.
Arguments of_nat : simpl never.

(** ** Sorted distinct values

    [np.unique], the categories of [pd.Categorical] and the classes of a
    [LabelEncoder] are the distinct values of a sequence in increasing
    order. *)

Section SortUnique.
Context {A : Type} (ltb : A -> A -> bool).

Fixpoint insert_unique (x : A) (l : list A) : list A :=
  match l with
  | [] => [x]
  | y :: l' =>
      if ltb x y then x :: l
      else if ltb y x then y :: insert_unique x l'
      else l
  end.

Definition sort_unique (l : list A) : list A :=
  fold_right insert_unique [] l.

Definition same (x y : A) : bool := negb (ltb x y) && negb (ltb y x).

Fixpoint index_of (x : A) (l : list A) : option nat :=
  match l with
  | [] => None
  | y :: l' => if same x y then Some 0%nat else option_map S (index_of x l')
  end.

Fixpoint count (x : A) (l : list A) : nat :=
  match l with
  | [] => 0%nat
  | y :: l' => if same x y then S (count x l') else count x l'
  end.

Definition increasing (l : list A) : Prop :=
  StronglySorted (fun a b => ltb a b = true) l.

(** [ltb] is a strict total order. *)
Record strict_total : Prop := {
  st_irrefl : forall a, ltb a a = false;
  st_trans : forall a b c, ltb a b = true -> ltb b c = true -> ltb a c = true;
  st_total : forall a b, ltb a b = false -> ltb b a = false -> a = b
}.
End SortUnique.

Fixpoint somes {A : Type} (l : list (option A)) : list A :=
  match l with
  | [] => []
  | Some a :: l' => a :: somes l'
  | None :: l' => somes l'
  end.

Definition is_none {A : Type} (o : option A) : bool :=
  match o with
  | None => true
  | Some _ => false
  end.

(** ** pandas: categoricals, columns, frames *)

(** [pd.Categorical]: integer codes into the sorted distinct values; a
    missing entry has code -1. *)
Record Categorical (A : Type) : Type := mkCategorical {
  codes : list Z;
  categories : list A
}.

Section CategoricalOps.
Context {A : Type} (ltb : A -> A -> bool).

Definition code_of (cs : list A) (v : option A) : Z :=
  match v with
  | None => (-1)%Z
  | Some a =>
      match index_of ltb a cs with
      | Some i => Z.of_nat i
      | None => (-1)%Z
      end
  end.

(** [pd.Categorical(col)] *)
Definition pd_Categorical (col : list (option A)) : Categorical A :=
  let cs := sort_unique ltb (somes col) in
  {| codes := map (code_of cs) col; categories := cs |}.

(** One entry of [pd.Categorical.from_codes]: codes run from -1 (missing)
    to [len(categories) - 1]. *)
Definition from_code (cs : list A) (c : Z) : result (option A) :=
  if (c =? -1)%Z then Ok None
  else if (c <? -1)%Z then Raise ValueError
  else match nth_error cs (Z.to_nat c) with
       | Some a => Ok (Some a)
       | None => Raise ValueError
       end.

Definition from_codes (cds : list Z) (cs : list A) : result (list (option A)) :=
  mapM (from_code cs) cds.

(** The classes of a fitted [LabelEncoder]: sorted distinct labels, a missing
    label last. *)
Definition fit_classes (l : list (option A)) : list (option A) :=
  map Some (sort_unique ltb (somes l))
  ++ (if existsb is_none l then [None] else []).

Definition class_index (classes : list (option A)) (v : option A) : option nat :=
  match v with
  | Some a => index_of ltb a (somes classes)
  | None =>
      if existsb is_none classes then Some (List.length (somes classes)) else None
  end.

(** [LabelEncoder.transform]: a label that was not seen in [fit] is a
    [ValueError]. *)
Definition transform_labels (classes : list (option A)) (l : list (option A))
  : result (list Z) :=
  mapM (fun v => match class_index classes v with
                 | Some i => Ok (Z.of_nat i)
                 | None => Raise ValueError
                 end) l.
End CategoricalOps.

(** A column is homogeneous: labels (object dtype), floats or integers. *)
Inductive column : Type :=
| ObjCol (l : list (option string))
| FloatCol (l : list float)
| IntCol (l : list Z).

Inductive categorical : Type :=
| CatObj (c : Categorical string)
| CatFloat (c : Categorical ereal)
| CatInt (c : Categorical Z).

Definition Categorical_of (col : column) : categorical :=
  match col with
  | ObjCol l => CatObj (pd_Categorical String.ltb l)
  | FloatCol l => CatFloat (pd_Categorical ereal_ltb l)
  | IntCol l => CatInt (pd_Categorical Z.ltb (map Some l))
  end.

Definition cat_codes (c : categorical) : list Z :=
  match c with
  | CatObj k => codes k
  | CatFloat k => codes k
  | CatInt k => codes k
  end.

(** The values of an integer categorical: integers, or floats with NaN when
    some code is -1. *)
Definition int_values (l : list (option Z)) : column :=
  if existsb is_none l
  then FloatCol (map (fun o => match o with
                               | Some z => of_int z
                               | None => NaN
                               end) l)
  else IntCol (somes l).

(** [pd.Categorical.from_codes(col, categories)], as the values it denotes.
    The codes must be integers. *)
Definition Categorical_from_codes (col : column) (c : categorical)
  : result column :=
  match col with
  | IntCol cds =>
      match c with
      | CatObj k => l <- from_codes cds (categories k) ;; Ok (ObjCol l)
      | CatFloat k => l <- from_codes cds (categories k) ;; Ok (FloatCol l)
      | CatInt k => l <- from_codes cds (categories k) ;; Ok (int_values l)
      end
  | _ => Raise ValueError
  end.

Definition column_length (c : column) : nat :=
  match c with
  | ObjCol l => List.length l
  | FloatCol l => List.length l
  | IntCol l => List.length l
  end.

(** A data frame: named columns, in order. *)
Definition DataFrame : Type := list (string * column).

Definition nrows (df : DataFrame) : nat :=
  match df with
  | [] => 0%nat
  | (_, c) :: _ => column_length c
  end.

Fixpoint lookup {B : Type} (n : string) (df : list (string * B)) : option B :=
  match df with
  | [] => None
  | (m, c) :: df' => if String.eqb n m then Some c else lookup n df'
  end.

(** [df[names]] *)
Definition getitem (df : DataFrame) (names : list string) : result DataFrame :=
  mapM (fun n => match lookup n df with
                 | Some c => Ok (n, c)
                 | None => Raise KeyError
                 end) names.

(** [df[n] = c]: overwrite the column in place, or append a new one. *)
Fixpoint set_column (df : DataFrame) (n : string) (c : column) : DataFrame :=
  match df with
  | [] => [(n, c)]
  | (m, d) :: df' =>
      if String.eqb n m then (m, c) :: df' else (m, d) :: set_column df' n c
  end.

(** [df[names] = cols] *)
Definition setitem (df cols : DataFrame) : DataFrame :=
  fold_left (fun d nc => set_column d (fst nc) (snd nc)) cols df.

(** [df.apply(f)], column by column. *)
Definition apply (f : column -> column) (df : DataFrame) : DataFrame :=
  map (fun nc => (fst nc, f (snd nc))) df.

(** ** The dataset *)

Record Config : Type := mkConfig {
  name : string;
  download : option string;
  categorical_columns : list string;
  binary_columns : list string;
  y_label : string
}.

Inductive LabelEncoder : Type :=
| LEObj (classes : list (option string))
| LEFloat (classes : list float)
| LEInt (classes : list (option Z)).

Record Dataset : Type := mkDataset {
  config : Config;
  X : DataFrame;
  X_val : DataFrame;
  X_test : DataFrame;
  y : DataFrame;
  y_val : DataFrame;
  y_test : DataFrame;
  X_gen : DataFrame;
  y_gen : DataFrame;
  cats : list string;
  X_cats : list (string * categorical);
  label_encoder : LabelEncoder
}.

(** [self.config.exists("download") and self.config["download"] == "imbalanced"] *)
Definition imbalanced (cfg : Config) : bool :=
  match download cfg with
  | Some d => String.eqb d "imbalanced"
  | None => false
  end.

Definition compute_categories (ds : Dataset) : result Dataset :=
  let cs := categorical_columns (config ds) ++ binary_columns (config ds) in
  sub <- getitem (X ds) cs ;;
  Ok {| config := config ds;
        X := X ds; X_val := X_val ds; X_test := X_test ds;
        y := y ds; y_val := y_val ds; y_test := y_test ds;
        X_gen := X_gen ds; y_gen := y_gen ds;
        cats := cs;
        X_cats := map (fun nc => (fst nc, Categorical_of (snd nc))) sub;
        label_encoder := label_encoder ds |}.

Definition get_categories (ds : Dataset) : list string := cats ds.

(** [self.X.columns.difference(self.cats + [y_label])]: the remaining column
    names, sorted. *)
Definition columns_difference (columns other : list string) : list string :=
  sort_unique String.ltb
    (filter (fun n => negb (existsb (String.eqb n) other)) columns).

Definition get_continuous (ds : Dataset) : list string :=
  columns_difference (map fst (X ds)) (cats ds ++ [y_label (config ds)]).

(** The codec columns are replaced by the codes of their own categories, in
    a copy of the table. *)
Definition encode_categories (ds : Dataset) (df : DataFrame) : result DataFrame :=
  if imbalanced (config ds) then Ok df
  else
    sub <- getitem df (cats ds) ;;
    Ok (setitem df (apply (fun col => IntCol (cat_codes (Categorical_of col))) sub)).

Definition decode_categories (ds : Dataset) (df : DataFrame) : result DataFrame :=
  if imbalanced (config ds) then Ok df
  else
    let cat_columns := map fst (X_cats ds) in
    sub <- getitem df cat_columns ;;
    dec <- mapM (fun nc =>
                   match lookup (fst nc) (X_cats ds) with
                   | Some c => col <- Categorical_from_codes (snd nc) c ;;
                               Ok (fst nc, col)
                   | None => Raise KeyError
                   end) sub ;;
    Ok (setitem df dec).

(** [LabelEncoder().fit(y)] on a one-column frame. *)
Definition fit_label_encoder (yf : DataFrame) : result LabelEncoder :=
  match yf with
  | [(_, ObjCol l)] => Ok (LEObj (fit_classes String.ltb l))
  | [(_, FloatCol l)] => Ok (LEFloat (fit_classes ereal_ltb l))
  | [(_, IntCol l)] => Ok (LEInt (fit_classes Z.ltb (map Some l)))
  | _ => Raise ValueError
  end.

Definition get_label_encoders (ds : Dataset) : result Dataset :=
  le <- fit_label_encoder (y ds) ;;
  Ok {| config := config ds;
        X := X ds; X_val := X_val ds; X_test := X_test ds;
        y := y ds; y_val := y_val ds; y_test := y_test ds;
        X_gen := X_gen ds; y_gen := y_gen ds;
        cats := cats ds; X_cats := X_cats ds;
        label_encoder := le |}.

Definition encode_labels (ds : Dataset) (df : DataFrame) : result (list Z) :=
  match df, label_encoder ds with
  | [(_, ObjCol l)], LEObj cl => transform_labels String.ltb cl l
  | [(_, FloatCol l)], LEFloat cl => transform_labels ereal_ltb cl l
  | [(_, IntCol l)], LEInt cl => transform_labels Z.ltb cl (map Some l)
  | _, _ => Raise ValueError
  end.

(** A column stretched to [n] rows: the rows it lacks are missing, and an
    integer column that lacks rows becomes a float column. *)
Definition pad_column (n : nat) (c : column) : column :=
  match c with
  | ObjCol l => ObjCol (l ++ repeat None (n - List.length l))
  | FloatCol l => FloatCol (l ++ repeat NaN (n - List.length l))
  | IntCol l =>
      if Nat.ltb (List.length l) n
      then FloatCol (map of_int l ++ repeat NaN (n - List.length l))
      else IntCol l
  end.

(** [pd.concat([a, b], axis=1)] of two frames with positional row labels:
    the columns of both, over the rows of the longer one. *)
Definition concat_axis1 (a b : DataFrame) : DataFrame :=
  apply (pad_column (Nat.max (nrows a) (nrows b))) (a ++ b).

(** The encoded features with the encoded label as last column, for the real
    and for the synthetic data.  The features and the codes of the label are
    put side by side over the rows of the longer of the two; the rows that
    the shorter one lacks are missing. *)
Definition get_single_encoded_data (ds : Dataset) : result (DataFrame * DataFrame) :=
  X_real <- encode_categories ds (X ds) ;;
  X_gen' <- encode_categories ds (X_gen ds) ;;
  y_real <- encode_labels ds (y ds) ;;
  y_gen' <- encode_labels ds (y_gen ds) ;;
  let real_data := concat_axis1 X_real [(y_label (config ds), IntCol y_real)] in
  let gen_data := concat_axis1 X_gen' [(y_label (config ds), IntCol y_gen')] in
  Ok (real_data, gen_data).

(** Two columns of one dtype that hold the same set of values (missing
    entries aside). *)
Definition same_values (c1 c2 : column) : Prop :=
  match c1, c2 with
  | ObjCol l1, ObjCol l2 => forall s, In (Some s) l1 <-> In (Some s) l2
  | FloatCol l1, FloatCol l2 => forall x, In (Some x) l1 <-> In (Some x) l2
  | IntCol l1, IntCol l2 => forall z, In z l1 <-> In z l2
  | _, _ => False
  end.

Definition col_of (df : DataFrame) (n : string) : column :=
  match lookup n df with
  | Some c => c
  | None => IntCol []
  end.

Definition has_missing (c : column) : bool :=
  match c with
  | ObjCol l => existsb is_none l
  | FloatCol l => existsb isnan l
  | IntCol _ => false
  end.

(** No entry of the frame is missing. *)
Definition no_missing (df : DataFrame) : Prop :=
  forall n c, In (n, c) df -> has_missing c = false.

(** The named columns are integer codes, none of them negative. *)
Definition no_sentinel (names : list string) (df : DataFrame) : Prop :=
  forall n, In n names ->
    exists l, lookup n df = Some (IntCol l) /\ Forall (fun z => (0 <= z)%Z) l.

(** ** A small dataset

    One categorical, one binary and one continuous feature, three training
    rows. *)

Definition toy_config : Config :=
  {| name := "toy";
     download := None;
     categorical_columns := ["c"%string];
     binary_columns := ["b"%string];
     y_label := "label" |}.

Definition toy_raw : Dataset :=
  {| config := toy_config;
     X := [("c"%string, ObjCol [Some "a"; Some "b"; Some "a"]%string);
           ("b"%string, IntCol [1; 0; 1]%Z);
           ("x"%string, FloatCol [F 1; F 2; F 4])];
     X_val := [("c"%string, ObjCol [Some "b"%string]);
               ("b"%string, IntCol [0%Z]);
               ("x"%string, FloatCol [F 3])];
     X_test := [("c"%string, ObjCol [Some "a"%string]);
                ("b"%string, IntCol [1%Z]);
                ("x"%string, FloatCol [F 2])];
     y := [("label"%string, ObjCol [Some "u"; Some "v"; Some "u"]%string)];
     y_val := [("label"%string, ObjCol [Some "v"%string])];
     y_test := [("label"%string, ObjCol [Some "u"%string])];
     X_gen := [("c"%string, ObjCol [Some "b"; Some "b"; Some "a"]%string);
               ("b"%string, IntCol [0; 1; 1]%Z);
               ("x"%string, FloatCol [F 2; F 2; F 3])];
     y_gen := [("label"%string, ObjCol [Some "v"; Some "u"; Some "u"]%string)];
     cats := [];
     X_cats := [];
     label_encoder := LEObj [] |}.

(** The dataset after [get_label_encoders] and [compute_categories]. *)
Definition toy : Dataset :=
  {| config := toy_config;
     X := X toy_raw; X_val := X_val toy_raw; X_test := X_test toy_raw;
     y := y toy_raw; y_val := y_val toy_raw; y_test := y_test toy_raw;
     X_gen := X_gen toy_raw; y_gen := y_gen toy_raw;
     cats := ["c"; "b"]%string;
     X_cats := [("c"%string,
                 CatObj {| codes := [0; 1; 0]%Z;
                           categories := ["a"; "b"]%string |});
                ("b"%string,
                 CatInt {| codes := [1; 0; 1]%Z; categories := [0; 1]%Z |})];
     label_encoder := LEObj [Some "u"; Some "v"]%string |}.

(** A validation-like table in which only the category ["b"] occurs. *)
Definition only_b : DataFrame :=
  [("c"%string, ObjCol [Some "b"; Some "b"]%string);
   ("b"%string, IntCol [1; 1]%Z);
   ("x"%string, FloatCol [F 5; F 6])].

(** A table with the training categories in another order and a missing
    continuous entry. *)
Definition shuffled : DataFrame :=
  [("c"%string, ObjCol [Some "b"; Some "a"]%string);
   ("b"%string, IntCol [0; 1]%Z);
   ("x"%string, FloatCol [F 5; NaN])].

(** [toy] with a missing category in the second training row and a missing
    continuous value in the third. *)
Definition toy_missing : Dataset :=
  {| config := toy_config;
     X := [("c"%string, ObjCol [Some "a"; None; Some "b"]%string);
           ("b"%string, IntCol [1; 0; 1]%Z);
           ("x"%string, FloatCol [F 1; F 2; NaN])];
     X_val := X_val toy; X_test := X_test toy;
     y := y toy; y_val := y_val toy; y_test := y_test toy;
     X_gen := X_gen toy; y_gen := y_gen toy;
     cats := cats toy;
     X_cats := [("c"%string,
                 CatObj {| codes := [0; -1; 1]%Z;
                           categories := ["a"; "b"]%string |});
                ("b"%string,
                 CatInt {| codes := [1; 0; 1]%Z; categories := [0; 1]%Z |})];
     label_encoder := label_encoder toy |}.

(** ** numpy *)

Definition matrix : Type := list (list float).

(** An elementwise operation on two one-dimensional arrays, with numpy's
    broadcasting: equal lengths, or one of the two has a single entry. *)
Definition broadcast {B : Type} (op : float -> float -> B) (a b : list float)
  : result (list B) :=
  if Nat.eqb (List.length a) (List.length b)
  then Ok (map (fun xy => op (fst xy) (snd xy)) (combine a b))
  else match a, b with
       | [x], _ => Ok (map (op x) b)
       | _, [y] => Ok (map (fun x => op x y) a)
       | _, _ => Raise ValueError
       end.

(** The order of [np.sort]: increasing, NaN last. *)
Definition sort_leb (a b : float) : bool :=
  match a, b with
  | _, None => true
  | None, Some _ => false
  | Some x, Some y => negb (ereal_ltb y x)
  end.

Fixpoint insert_sorted (x : float) (l : list float) : list float :=
  match l with
  | [] => [x]
  | y :: l' => if sort_leb x y then x :: l else y :: insert_sorted x l'
  end.

Definition np_sort (l : list float) : list float :=
  fold_right insert_sorted [] l.

(** [np.partition(a, 1)[0:2]]: the smallest and the second smallest entry;
    [kth = 1] is out of bounds for fewer than two entries. *)
Definition partition_two (a : list float) : result (float * float) :=
  match np_sort a with
  | first :: second :: _ => Ok (first, second)
  | _ => Raise ValueError
  end.

Definition np_minimum (a b : float) : float :=
  match a, b with
  | Some x, Some y => if ereal_ltb y x then b else a
  | _, _ => NaN
  end.

Definition np_maximum (a b : float) : float :=
  match a, b with
  | Some x, Some y => if ereal_ltb x y then b else a
  | _, _ => NaN
  end.

(** [a.min()]: NaN when some entry is NaN, an error on an empty array. *)
Definition np_min (a : list float) : result float :=
  match a with
  | [] => Raise ValueError
  | x :: a' => Ok (fold_left np_minimum a' x)
  end.

(** [np.mean] *)
Definition np_mean (a : list float) : float :=
  fdiv (fsum a) (of_nat (List.length a)).

(** Round half to even. *)
Definition Rround (x : R) : Z :=
  let f := Int_part x in
  let d := (x - IZR f)%R in
  if Rltb d (1 / 2) then f
  else if Rltb (1 / 2) d then (f + 1)%Z
  else if Z.even f then f else (f + 1)%Z.

(** [np.round] *)
Definition np_round (a : float) : float :=
  match a with
  | Some (Fin x) => F (IZR (Rround x))
  | _ => a
  end.

(** The counts of [np.unique(a, return_counts=True)]: one per distinct value
    in increasing order, the NaN entries counted together at the end. *)
Definition unique_counts (a : list float) : list nat :=
  map (fun v => count ereal_ltb v (somes a)) (sort_unique ereal_ltb (somes a))
  ++ (if existsb isnan a then [List.length (filter isnan a)] else []).

(** ** scipy *)

(** [scipy.special.entr] *)
Definition entr (x : float) : float :=
  match x with
  | Some (Fin r) =>
      if Rltb 0 r then F (- r * ln r)
      else if Reqb r 0 then F 0
      else Some NInf
  | Some PInf => Some NInf
  | Some NInf => Some NInf
  | None => NaN
  end.

(** [scipy.stats.entropy(pk)]: the counts are normalised to sum to one. *)
Definition entropy (pk : list float) : float :=
  let total := fsum pk in
  fsum (map (fun c => entr (fdiv c total)) pk).

(** [scipy.special.rel_entr] *)
Definition rel_entr (x y : float) : float :=
  match x, y with
  | Some (Fin a), Some (Fin b) =>
      if Rltb 0 a && Rltb 0 b then F (a * ln (a / b))
      else if Reqb a 0 && negb (Rltb b 0) then F 0
      else inf
  | Some (Fin a), Some PInf =>
      if Rltb 0 a then Some NInf else if Reqb a 0 then F 0 else inf
  | Some PInf, Some (Fin b) => inf
  | Some PInf, Some PInf => NaN
  | Some _, Some _ => inf
  | _, _ => NaN
  end.

(** [scipy.spatial.distance.jensenshannon(p, q)] with the natural
    logarithm. *)
Definition jensenshannon (p q : list float) : result float :=
  let p := map (fun x => fdiv x (fsum p)) p in
  let q := map (fun x => fdiv x (fsum q)) q in
  s <- broadcast fadd p q ;;
  let m := map (fun x => fdiv x (F 2)) s in
  left <- broadcast rel_entr p m ;;
  right <- broadcast rel_entr q m ;;
  let js := fadd (fsum left) (fsum right) in
  Ok (fsqrt (fdiv js (F 2))).

(** ** pandas reductions *)

(** The numbers of a column; arithmetic on an object column is a
    [TypeError]. *)
Definition to_floats (c : column) : result (list float) :=
  match c with
  | ObjCol _ => Raise TypeError
  | FloatCol l => Ok l
  | IntCol l => Ok (map of_int l)
  end.

Definition row_at (cols : list (list float)) (i : nat) : list float :=
  map (fun c => nth i c NaN) cols.

(** [df.values], row by row. *)
Definition values (df : DataFrame) : result matrix :=
  cols <- mapM (fun nc => to_floats (snd nc)) df ;;
  Ok (map (row_at cols) (seq 0 (nrows df))).

(** The reduction of a column that skips NaN; NaN when nothing is left. *)
Definition skipna_fold (op : float -> float -> float) (l : list float) : float :=
  match map Some (somes l) with
  | [] => NaN
  | x :: l' => fold_left op l' x
  end.

(** [col.max()], [col.min()] and [col.mean()] *)
Definition col_max (l : list float) : float := skipna_fold np_maximum l.
Definition col_min (l : list float) : float := skipna_fold np_minimum l.

Definition col_mean (l : list float) : float :=
  match somes l with
  | [] => NaN
  | xs => fdiv (fsum (map Some xs)) (of_nat (List.length xs))
  end.

(** ** Distances and hits *)

Record synth_stats : Type := mkSynth {
  s_r_l2_min_1 : float;
  s_r_l2_min_2 : float
}.

Record real_stats : Type := mkReal {
  hit : bool;
  r_s_diff_min : float;
  r_r_diff_min : float
}.

Definition column_entropy (column : list float) : float :=
  let counts := unique_counts (map np_round column) in
  entropy (map of_nat counts).

Definition euclidean_distance (source : list float) (target : matrix)
           (w : option (list float)) : result (list float) :=
  match w with
  | None =>
      mapM (fun t => d <- broadcast fsub source t ;;
                     Ok (fsqrt (fsum (map fsqr d)))) target
  | Some w =>
      mapM (fun t => d <- broadcast fsub source t ;;
                     d <- broadcast fdiv d w ;;
                     Ok (fsqrt (fsum (map fsqr d)))) target
  end.

Definition min_l2_distance (row : list float) (real_array : matrix)
  : result synth_stats :=
  distance_array <- euclidean_distance row real_array None ;;
  '(first, second) <- partition_two distance_array ;;
  Ok (if fltb first second then mkSynth first second
      else mkSynth second first).

Definition min_dist_real_synth (row : list float) (real_array fake_array : matrix)
           (thres w : list float) : result real_stats :=
  fake_distance <- mapM (broadcast fsub row) fake_array ;;
  hits <- mapM (fun d => b <- broadcast (fun x t => fleb (fabs x) t) d thres ;;
                         Ok (forallb (fun h => h) b)) fake_distance ;;
  fake_distance <- mapM (fun d => d <- broadcast fdiv d w ;;
                                  Ok (fsqrt (fsum (map fsqr d))))
                        fake_distance ;;
  real_distance <- euclidean_distance row real_array (Some w) ;;
  '(first, second) <- partition_two real_distance ;;
  let min_real_dist := if fltb first second then second else first in
  fake_min <- np_min fake_distance ;;
  Ok (mkReal (existsb (fun h => h) hits) fake_min min_real_dist).

(** The per-column thresholds: a share of the range, and zero for the codec
    columns and the label. *)
Definition thresholds (ds : Dataset) (thres_percent : float)
           (real_data : DataFrame) : result (list float) :=
  mapM (fun nc =>
          l <- to_floats (snd nc) ;;
          Ok (if existsb (String.eqb (fst nc))
                         (get_categories ds ++ [y_label (config ds)])
              then F 0
              else fmul thres_percent (fsub (col_max l) (col_min l))))
       real_data.

Definition compute_distances_hits (ds : Dataset) (thres_percent : float)
  : result (list synth_stats * list real_stats) :=
  '(real_data, gen_data) <- get_single_encoded_data ds ;;
  real_array <- values real_data ;;
  fake_array <- values gen_data ;;
  synth_dists <- mapM (fun row => min_l2_distance row real_array) fake_array ;;
  thres <- thresholds ds thres_percent real_data ;;
  w <- mapM (fun nc => l <- to_floats (snd nc) ;; Ok (column_entropy l))
            real_data ;;
  real_hits_diffs <-
    mapM (fun row => min_dist_real_synth row real_array fake_array thres w)
         real_array ;;
  Ok (synth_dists, real_hits_diffs).

Definition count_true (l : list bool) : nat := List.length (filter (fun b => b) l).

Definition hitting_rate (ds : Dataset) (stats : list real_stats) : float :=
  fdiv (of_nat (count_true (map hit stats))) (of_nat (nrows (X ds))).

Definition epsilon_identifiability_risk (ds : Dataset) (stats : list real_stats)
  : float :=
  let r_diff := map (fun s => fsub (r_s_diff_min s) (r_r_diff_min s)) stats in
  fdiv (of_nat (count_true (map (fun d => fltb d (F 0)) r_diff)))
       (of_nat (nrows (X ds))).

Definition mean_distance_closest_record (stats : list synth_stats) : float :=
  col_mean (map s_r_l2_min_1 stats).

Definition nearest_neighbor_distance_ratio (stats : list synth_stats) : float :=
  np_mean (map (fun s => fdiv (s_r_l2_min_1 s) (s_r_l2_min_2 s)) stats).

(** ** The Jensen-Shannon pass *)

(** One distance per codec column: [jensenshannon] applied to the encoded
    real column and the encoded synthetic column. *)
Definition jensen_shannon_distance (ds : Dataset)
  : result (list (string * float)) :=
  '(real_data, gen_data) <- get_single_encoded_data ds ;;
  real_data <- getitem real_data (get_categories ds) ;;
  gen_data <- getitem gen_data (get_categories ds) ;;
  mapM (fun nx =>
          match lookup (fst nx) gen_data with
          | Some g =>
              p <- to_floats (snd nx) ;;
              q <- to_floats g ;;
              d <- jensenshannon p q ;;
              Ok (fst nx, d)
          | None => Raise KeyError
          end) real_data.

(** ** Auxiliary notions for the statements *)

Definition finite (x : float) : Prop := exists r, x = F r.

Definition nonneg (x : float) : Prop := exists r, x = F r /\ (0 <= r)%R.

(** The entry is an infinity or NaN. *)
Definition not_finite (x : float) : Prop := isfinite x = false.

Definition zip_with {B : Type} (op : float -> float -> B) (a b : list float)
  : list B :=
  map (fun xy => op (fst xy) (snd xy)) (combine a b).

(** The unweighted and the weighted distance between two rows of one
    width. *)
Definition l2 (a b : list float) : float :=
  fsqrt (fsum (map fsqr (zip_with fsub a b))).

Definition weighted_l2 (w a b : list float) : float :=
  fsqrt (fsum (map fsqr (zip_with fdiv (zip_with fsub a b) w))).

(** Every row has width [p]. *)
Definition width (p : nat) (m : matrix) : Prop :=
  Forall (fun r => List.length r = p) m.

Definition finite_matrix (m : matrix) : Prop := Forall (Forall finite) m.

(** The number of rows with a true hit flag, and the number of rows whose
    least distance to the synthetic set is strictly below their second least
    distance to the real set. *)
Definition hit_count (stats : list real_stats) : nat :=
  count_true (map hit stats).

Definition closer_count (stats : list real_stats) : nat :=
  count_true (map (fun s => fltb (r_s_diff_min s) (r_r_diff_min s)) stats).

Definition toy_stats : list real_stats :=
  [mkReal true (F 0) (F 1); mkReal false (F 2) (F 1); mkReal true (F 1) (F 1)].

(** Every entry of the difference is within its threshold. *)
Definition within (thres a b : list float) : bool :=
  forallb (fun h => h)
          (zip_with (fun x t => fleb (fabs x) t) (zip_with fsub a b) thres).

Definition not_ninf (x : float) : Prop := x <> Some NInf.

(** Every column of the frame is numeric with [N] finite entries. *)
Definition finite_frame (N : nat) (df : DataFrame) : Prop :=
  forall n c, In (n, c) df ->
    exists l, to_floats c = Ok l /\ List.length l = N /\ Forall finite l.

(** [toy] with the real tables given back as synthetic tables. *)
Definition toy_copy : Dataset :=
  {| config := toy_config;
     X := X toy; X_val := X_val toy; X_test := X_test toy;
     y := y toy; y_val := y_val toy; y_test := y_test toy;
     X_gen := X toy; y_gen := y toy;
     cats := cats toy; X_cats := X_cats toy;
     label_encoder := label_encoder toy |}.

(** The encoded real table of [toy] and of [toy_copy]. *)
Definition toy_encoded : DataFrame :=
  [("c"%string, IntCol [0; 1; 0]%Z);
   ("b"%string, IntCol [1; 0; 1]%Z);
   ("x"%string, FloatCol [F 1; F 2; F 4]);
   ("label"%string, IntCol [0; 1; 0]%Z)].

(** A dataset with a single training row, copied as synthetic data. *)
Definition one_row : Dataset :=
  {| config := toy_config;
     X := [("c"%string, ObjCol [Some "a"%string]);
           ("b"%string, IntCol [1%Z]);
           ("x"%string, FloatCol [F 1])];
     X_val := X_val toy; X_test := X_test toy;
     y := [("label"%string, ObjCol [Some "u"%string])];
     y_val := y_val toy; y_test := y_test toy;
     X_gen := [("c"%string, ObjCol [Some "a"%string]);
               ("b"%string, IntCol [1%Z]);
               ("x"%string, FloatCol [F 1])];
     y_gen := [("label"%string, ObjCol [Some "u"%string])];
     cats := ["c"; "b"]%string;
     X_cats := [("c"%string,
                 CatObj {| codes := [0%Z]; categories := ["a"%string] |});
                ("b"%string,
                 CatInt {| codes := [0%Z]; categories := [1%Z] |})];
     label_encoder := LEObj [Some "u"%string] |}.

Arguments jensenshannon : simpl never.
Arguments rel_entr : simpl never.
Arguments entr : simpl never.
Arguments column_entropy : simpl never.

(** The distribution the spec names: how often each of the [k] codes of the
    codebook occurs in an encoded column. *)
Definition value_counts (k : nat) (col : list Z) : list float :=
  map (fun i => of_nat (count_occ Z.eq_dec col (Z.of_nat i))) (seq 0 k).

(** Two rows, one categorical feature; the synthetic table holds the same
    two categories in the other order. *)
Definition swapped_config : Config :=
  {| name := "swapped";
     download := None;
     categorical_columns := ["c"%string];
     binary_columns := [];
     y_label := "label" |}.

Definition swapped : Dataset :=
  {| config := swapped_config;
     X := [("c"%string, ObjCol [Some "a"; Some "b"]%string)];
     X_val := [("c"%string, ObjCol [Some "a"%string])];
     X_test := [("c"%string, ObjCol [Some "b"%string])];
     y := [("label"%string, ObjCol [Some "u"; Some "v"]%string)];
     y_val := [("label"%string, ObjCol [Some "u"%string])];
     y_test := [("label"%string, ObjCol [Some "v"%string])];
     X_gen := [("c"%string, ObjCol [Some "b"; Some "a"]%string)];
     y_gen := [("label"%string, ObjCol [Some "v"; Some "u"]%string)];
     cats := ["c"%string];
     X_cats := [("c"%string,
                 CatObj {| codes := [0; 1]%Z;
                           categories := ["a"; "b"]%string |})];
     label_encoder := LEObj [Some "u"; Some "v"]%string |}.

(** ** The correlation ratio *)

Section Factorize.
Context {A : Type} (ltb : A -> A -> bool).

(** The distinct values in order of first appearance. *)
Fixpoint uniques (l : list A) : list A :=
  match l with
  | [] => []
  | x :: l' => x :: filter (fun v => negb (same ltb x v)) (uniques l')
  end.

(** The codes of [pd.factorize]: the position of each value among the
    distinct values in order of first appearance, -1 for a missing value. *)
Definition pd_factorize (col : list (option A)) : list Z :=
  map (code_of ltb (uniques (somes col))) col.
End Factorize.

Definition factorize_column (c : column) : list Z :=
  match c with
  | ObjCol l => pd_factorize String.ltb l
  | FloatCol l => pd_factorize ereal_ltb l
  | IntCol l => pd_factorize Z.ltb (map Some l)
  end.

(** [np.max] of an integer array. *)
Definition np_max_int (a : list Z) : result Z :=
  match a with
  | [] => Raise ValueError
  | x :: a' => Ok (fold_left Z.max a' x)
  end.

(** [measurements[np.argwhere(fcat == i).flatten()]] *)
Definition select (fcat : list Z) (measurements : list float) (i : nat)
  : list float :=
  map snd (filter (fun cx => (fst cx =? Z.of_nat i)%Z) (combine fcat measurements)).

(** [np.average] *)
Definition np_average (a : list float) : float :=
  fdiv (fsum a) (of_nat (List.length a)).

(** [np.sum] of a pandas series: NaN entries are skipped. *)
Definition series_sum (l : list float) : float :=
  fsum (filter (fun x => negb (isnan x)) l).

(** The body of [correlation_ratio] once the categories are factorized. *)
Definition ratio_of_codes (fcat : list Z) (measurements : column) : result float :=
  mx <- np_max_int fcat ;;
  let cat_num := Z.to_nat (mx + 1) in
  measurements <- to_floats measurements ;;
  let cat_measures := map (select fcat measurements) (seq 0 cat_num) in
  let n_array := map (fun g => of_nat (List.length g)) cat_measures in
  let y_avg_array := map np_average cat_measures in
  let y_total_avg :=
    fdiv (fsum (zip_with fmul y_avg_array n_array)) (fsum n_array) in
  let numerator :=
    fsum (zip_with fmul n_array
            (map (fun a => fsqr (fsub a y_total_avg)) y_avg_array)) in
  let denominator :=
    series_sum (map (fun x => fsqr (fsub x y_total_avg)) measurements) in
  Ok (if feqb numerator (F 0) then F 0 else fdiv numerator denominator).

Definition correlation_ratio (categories measurements : column) : result float :=
  let fcat := factorize_column categories in
  ratio_of_codes fcat measurements.

(** A numpy array with one or with two axes. *)
Inductive ndarray : Type :=
| Vec (v : list float)
| Mat (m : matrix).

(** [df[n]] *)
Definition getcol (df : DataFrame) (n : string) : result column :=
  match lookup n df with
  | Some c => Ok c
  | None => Raise KeyError
  end.

(** The matrix has one row per continuous column and one column per
    categorical column; the loop runs over the categorical columns first. *)
Definition ratio_mat (df : DataFrame)
           (continuous_columns categorical_columns : list string)
  : result ndarray :=
  if Nat.eqb (List.length categorical_columns) 0
     || Nat.eqb (List.length continuous_columns) 0
  then Ok (Vec [F 0])
  else
    by_cat <- mapM (fun cat_col =>
                mapM (fun cont_col =>
                        c <- getcol df cat_col ;;
                        m <- getcol df cont_col ;;
                        correlation_ratio c m)
                     continuous_columns)
              categorical_columns ;;
    Ok (Mat (map (row_at by_cat) (seq 0 (List.length continuous_columns)))).

(** *** The correlation ratio in the words of the spec

    Groups are the rows that share a value of the categorical column. *)

Definition Rsum (l : list R) : R := fold_right Rplus 0%R l.

Definition Rmean (l : list R) : R := (Rsum l / INR (List.length l))%R.

Section EtaSquared.
Context {A : Type} (ltb : A -> A -> bool).

(** The measurements of the rows whose category is [g]. *)
Definition selR (g : A) (rows : list (A * R)) : list R :=
  map snd (filter (fun cx => same ltb g (fst cx)) rows).

Definition members (g : A) (cats : list A) (xs : list R) : list R :=
  selR g (combine cats xs).

Definition between_group_variance (cats : list A) (xs : list R) : R :=
  (Rsum (map (fun g =>
                let m := members g cats xs in
                INR (List.length m) * (Rmean m - Rmean xs) ^ 2)
             (uniques ltb cats))
   / INR (List.length xs))%R.

Definition total_variance (xs : list R) : R :=
  (Rsum (map (fun x => (x - Rmean xs) ^ 2) xs) / INR (List.length xs))%R.

(** eta squared, and 0 when the measurements do not vary. *)
Definition eta_squared (cats : list A) (xs : list R) : R :=
  if Reqb (total_variance xs) 0 then 0%R
  else (between_group_variance cats xs / total_variance xs)%R.
End EtaSquared.

(** The correlation ratio of a categorical column without missing
    entries. *)
Definition column_eta_squared (categories : column) (xs : list R) : R :=
  match categories with
  | ObjCol l => eta_squared String.ltb (somes l) xs
  | FloatCol l => eta_squared ereal_ltb (somes l) xs
  | IntCol l => eta_squared Z.ltb l xs
  end.

(** The numbers of a numeric column of finite values. *)
Definition finite_values (c : column) : list R :=
  match c with
  | ObjCol _ => []
  | FloatCol l => map (fun x => match x with
                                | Some (Fin r) => r
                                | _ => 0%R
                                end) l
  | IntCol l => map IZR l
  end.


(** ** The store of data frames

    A data frame is an object: [df.copy()], [df[names]] and [pd.concat] make
    a new one, [df[names] = ...] and [fillna(inplace=True)] update one in
    place, and two names can denote the same one. *)

Definition loc : Type := nat.

Definition Store : Type := list DataFrame.

(** A computation on the store; the store survives an exception. *)
Definition M (A : Type) : Type := Store -> result A * Store.

Definition ret {A : Type} (a : A) : M A := fun h => (Ok a, h).

Definition bindM {A B : Type} (m : M A) (f : A -> M B) : M B :=
  fun h => match m h with
           | (Ok a, h') => f a h'
           | (Raise e, h') => (Raise e, h')
           end.

Notation "x <~ m ;; k" := (bindM m (fun x => k))
  (at level 61, m at next level, right associativity) : py_scope.
Notation "' p <~ m ;; k" := (bindM m (fun x => match x with p => k end))
  (at level 61, p pattern, m at next level, right associativity) : py_scope.

Definition lift {A : Type} (r : result A) : M A := fun h => (r, h).

Definition new (df : DataFrame) : M loc :=
  fun h => (Ok (List.length h), h ++ [df]).

Definition read (l : loc) : M DataFrame :=
  fun h => match nth_error h l with
           | Some df => (Ok df, h)
           | None => (Raise ValueError, h)
           end.

Fixpoint update (h : Store) (l : loc) (df : DataFrame) : Store :=
  match h, l with
  | [], _ => []
  | _ :: h', O => df :: h'
  | d :: h', S l' => d :: update h' l' df
  end.

Definition write (l : loc) (df : DataFrame) : M unit :=
  fun h => (Ok tt, update h l df).

Fixpoint forM_ {A : Type} (f : A -> M unit) (l : list A) : M unit :=
  match l with
  | [] => ret tt
  | a :: l' => _ <~ f a ;; forM_ f l'
  end.

(** [df.copy()] *)
Definition df_copy (df : loc) : M loc := d <~ read df ;; new d.

(** [df[names]] *)
Definition df_getitem (df : loc) (names : list string) : M loc :=
  d <~ read df ;; sub <~ lift (getitem d names) ;; new sub.

(** [df.apply(f)] *)
Definition df_apply (f : column -> column) (df : loc) : M loc :=
  d <~ read df ;; new (apply f d).

(** [df[names] = other] *)
Definition df_setitem (df other : loc) : M unit :=
  d <~ read df ;; o <~ read other ;; write df (setitem d o).

(** [pd.concat([df, pd.Series(values, name=n)], axis=1)] *)
Definition pd_concat (df : loc) (n : string) (values : list Z) : M loc :=
  d <~ read df ;; new (concat_axis1 d [(n, IntCol values)]).

(** The eight tables of the container. *)
Record Tables : Type := mkTables {
  rX : loc; rX_val : loc; rX_test : loc;
  ry : loc; ry_val : loc; ry_test : loc;
  rX_gen : loc; ry_gen : loc
}.

Definition table_locs (t : Tables) : list loc :=
  [rX t; rX_val t; rX_test t; ry t; ry_val t; ry_test t; rX_gen t; ry_gen t].

(** What the container's tables hold. *)
Definition container_state (h : Store) (t : Tables) : list (option DataFrame) :=
  map (nth_error h) (table_locs t).

Section Modes.
Context {A : Type} (ltb : A -> A -> bool).

(** The most frequent value, the smallest one among equally frequent. *)
Fixpoint most_frequent (u l : list A) : option A :=
  match u with
  | [] => None
  | g :: u' =>
      match most_frequent u' l with
      | None => Some g
      | Some b => if Nat.leb (count ltb b l) (count ltb g l) then Some g else Some b
      end
  end.

(** [col.mode()[0]]; there is none in a column without values. *)
Definition mode (l : list (option A)) : result A :=
  match most_frequent (sort_unique ltb (somes l)) (somes l) with
  | Some m => Ok m
  | None => Raise KeyError
  end.

Definition fillna (v : A) (l : list (option A)) : list (option A) :=
  map (fun x => match x with
                | None => Some v
                | Some _ => x
                end) l.
End Modes.

(** [col.fillna(col.mode()[0])] *)
Definition fill_cate (c : column) : result column :=
  match c with
  | ObjCol l => m <- mode String.ltb l ;; Ok (ObjCol (fillna m l))
  | FloatCol l => m <- mode ereal_ltb l ;; Ok (FloatCol (fillna m l))
  | IntCol l => _ <- mode Z.ltb (map Some l) ;; Ok (IntCol l)
  end.

(** [col.fillna(col.mean())]; the mean of labels is a [TypeError], and the
    mean of a column of labels without a present entry is NaN, which fills
    nothing. *)
Definition fill_cont (c : column) : result column :=
  match c with
  | ObjCol l =>
      match somes l with
      | [] => Ok (ObjCol l)
      | _ :: _ => Raise TypeError
      end
  | FloatCol l =>
      Ok (FloatCol (map (fun x => if isnan x then col_mean l else x) l))
  | IntCol l => Ok (IntCol l)
  end.

(** The loops of [fillNa_cont] and [fillNa_cate]: column after column, each
    updated in place. *)
Definition fillNa_with (fill : column -> result column) (df : loc) : M loc :=
  d <~ read df ;;
  _ <~ forM_ (fun col =>
                d <~ read df ;;
                c <~ lift (getcol d col) ;;
                c <~ lift (fill c) ;;
                write df (set_column d col c))
             (map fst d) ;;
  ret df.

Definition fillNa_cont (df : loc) : M loc := fillNa_with fill_cont df.

Definition fillNa_cate (df : loc) : M loc := fillNa_with fill_cate df.

Section Metrics.

(** The library routines whose values do not matter here. *)
Variable corrcoef : DataFrame -> result matrix.
Variable theils_u : column -> column -> result float.
Variable norm_of_difference : matrix -> matrix -> result float.
Variable norm_of_difference_nd : ndarray -> ndarray -> result float.
Variable pearson_abs_difference : DataFrame -> DataFrame -> result matrix.
Variable wasserstein : list float -> list float -> result float.

(** The codec, the label encoder and the configuration of the container;
    its tables are in the store. *)
Variable self : Dataset.
Variable tables : Tables.

Definition encode_categories_st (df : loc) : M loc :=
  if imbalanced (config self) then ret df
  else
    X_enc <~ df_copy df ;;
    sub <~ df_getitem X_enc (cats self) ;;
    enc <~ df_apply (fun col => IntCol (cat_codes (Categorical_of col))) sub ;;
    _ <~ df_setitem X_enc enc ;;
    ret X_enc.

Definition encode_labels_st (df : loc) : M (list Z) :=
  d <~ read df ;; lift (encode_labels self d).

Definition get_single_encoded_data_st : M (loc * loc) :=
  X_real <~ encode_categories_st (rX tables) ;;
  X_gen' <~ encode_categories_st (rX_gen tables) ;;
  y_real <~ encode_labels_st (ry tables) ;;
  y_gen' <~ encode_labels_st (ry_gen tables) ;;
  real_data <~ pd_concat X_real (y_label (config self)) y_real ;;
  gen_data <~ pd_concat X_gen' (y_label (config self)) y_gen' ;;
  ret (real_data, gen_data).

(** [self.get_continuous()] reads the columns of the training table. *)
Definition get_continuous_st : M (list string) :=
  d <~ read (rX tables) ;;
  ret (columns_difference (map fst d) (cats self ++ [y_label (config self)])).

Definition theils_u_mat (d : DataFrame) : result matrix :=
  mapM (fun ci => mapM (fun cj => theils_u (snd ci) (snd cj)) d) d.

Definition compute_correlations_st (df : loc) : M (matrix * matrix * ndarray) :=
  continuous <~ get_continuous_st ;;
  num_mat <~ df_getitem df continuous ;;
  cat_mat <~ df_getitem df (get_categories self) ;;
  num_mat <~ fillNa_cont num_mat ;;
  cat_mat <~ fillNa_cate cat_mat ;;
  n <~ read num_mat ;;
  pearson_sub_matrix <~ lift (corrcoef n) ;;
  c <~ read cat_mat ;;
  theils_u_matrix <~ lift (theils_u_mat c) ;;
  continuous <~ get_continuous_st ;;
  d <~ read df ;;
  correl_ratio_mat <~ lift (ratio_mat d continuous (get_categories self)) ;;
  ret (pearson_sub_matrix, theils_u_matrix, correl_ratio_mat).

Definition get_correlations_st : M (float * float * float) :=
  '(real_data, gen_data) <~ get_single_encoded_data_st ;;
  '(real_pear, real_theils, real_ratio) <~ compute_correlations_st real_data ;;
  '(gen_pear, gen_theils, gen_ratio) <~ compute_correlations_st gen_data ;;
  a <~ lift (norm_of_difference real_pear gen_pear) ;;
  b <~ lift (norm_of_difference real_theils gen_theils) ;;
  c <~ lift (norm_of_difference_nd real_ratio gen_ratio) ;;
  ret (a, b, c).

Definition get_pearson_correlation_st : M matrix :=
  '(real_data, gen_data) <~ get_single_encoded_data_st ;;
  r <~ read real_data ;;
  g <~ read gen_data ;;
  lift (pearson_abs_difference r g).

Definition bool_column (l : list bool) : column :=
  IntCol (map (fun b : bool => if b then 1%Z else 0%Z) l).

Definition compute_distances_hits_st (thres_percent : float)
  : M (list synth_stats * list real_stats) :=
  '(real_data, gen_data) <~ get_single_encoded_data_st ;;
  real_ddf <~ df_copy real_data ;;
  gen_ddf <~ df_copy gen_data ;;
  r <~ read real_ddf ;;
  real_array <~ lift (values r) ;;
  g <~ read gen_ddf ;;
  fake_array <~ lift (values g) ;;
  synth_dists <~ lift (mapM (fun row => min_l2_distance row real_array)
                            fake_array) ;;
  _ <~ write gen_ddf
         (setitem g [("s_r_l2_min_1"%string,
                      FloatCol (map s_r_l2_min_1 synth_dists));
                     ("s_r_l2_min_2"%string,
                      FloatCol (map s_r_l2_min_2 synth_dists))]) ;;
  d <~ read real_data ;;
  thres <~ lift (thresholds self thres_percent d) ;;
  w <~ lift (mapM (fun nc => l <- to_floats (snd nc) ;; Ok (column_entropy l))
                  d) ;;
  real_hits_diffs <~
    lift (mapM (fun row => min_dist_real_synth row real_array fake_array thres w)
               real_array) ;;
  _ <~ write real_ddf
         (setitem r [("hit"%string, bool_column (map hit real_hits_diffs));
                     ("r_s_diff_min"%string,
                      FloatCol (map r_s_diff_min real_hits_diffs));
                     ("r_r_diff_min"%string,
                      FloatCol (map r_r_diff_min real_hits_diffs))]) ;;
  ret (synth_dists, real_hits_diffs).

Definition jensen_shannon_distance_st : M (list (string * float)) :=
  '(real_data, gen_data) <~ get_single_encoded_data_st ;;
  real_data <~ df_getitem real_data (get_categories self) ;;
  gen_data <~ df_getitem gen_data (get_categories self) ;;
  r <~ read real_data ;;
  g <~ read gen_data ;;
  lift (mapM (fun nx =>
                match lookup (fst nx) g with
                | Some c =>
                    p <- to_floats (snd nx) ;;
                    q <- to_floats c ;;
                    d <- jensenshannon p q ;;
                    Ok (fst nx, d)
                | None => Raise KeyError
                end) r).

Definition wasserstein_distance_st : M (list (string * float)) :=
  '(real_data, gen_data) <~ get_single_encoded_data_st ;;
  continuous <~ get_continuous_st ;;
  real_data <~ df_getitem real_data continuous ;;
  continuous <~ get_continuous_st ;;
  gen_data <~ df_getitem gen_data continuous ;;
  r <~ read real_data ;;
  g <~ read gen_data ;;
  lift (mapM (fun nx =>
                match lookup (fst nx) g with
                | Some c =>
                    p <- to_floats (snd nx) ;;
                    q <- to_floats c ;;
                    d <- wasserstein p q ;;
                    Ok (fst nx, d)
                | None => Raise KeyError
                end) r).
End Metrics.

(** The dataset that a store and the container's references denote. *)
Definition snapshot (self : Dataset) (t : Tables) (h : Store) : Dataset :=
  let at_ l := match nth_error h l with
               | Some d => d
               | None => []
               end in
  {| config := config self;
     X := at_ (rX t); X_val := at_ (rX_val t); X_test := at_ (rX_test t);
     y := at_ (ry t); y_val := at_ (ry_val t); y_test := at_ (ry_test t);
     X_gen := at_ (rX_gen t); y_gen := at_ (ry_gen t);
     cats := cats self; X_cats := X_cats self;
     label_encoder := label_encoder self |}.

(** The store still holds, at every location it had, what it held. *)
Definition extends (h0 h : Store) : Prop := firstn (List.length h0) h = h0.

Definition fresh (h0 : Store) (l : loc) : Prop := (List.length h0 <= l)%nat.

(** Run from a store that extends [h0], the computation ends in a store that
    extends [h0], and a value it returns satisfies [Q]. *)
Definition keeps {A : Type} (h0 : Store) (m : M A) (Q : A -> Prop) : Prop :=
  forall h, extends h0 h ->
    extends h0 (snd (m h)) /\ (forall a, fst (m h) = Ok a -> Q a).

(** Every table of the container is in the store. *)
Definition allocated (h : Store) (t : Tables) : Prop :=
  Forall (fun l => (l < List.length h)%nat) (table_locs t).

(** [toy] with its eight tables in a store. *)
Definition toy_store : Store :=
  [X toy; X_val toy; X_test toy; y toy; y_val toy; y_test toy;
   X_gen toy; y_gen toy].

Definition toy_tables : Tables :=
  {| rX := 0; rX_val := 1; rX_test := 2;
     ry := 3; ry_val := 4; ry_test := 5;
     rX_gen := 6; ry_gen := 7 |}.

(** [toy_missing] with its own tables given back as synthetic tables, and
    no missing category: the second row misses its continuous value. *)
Definition gap_copy : Dataset :=
  {| config := toy_config;
     X := [("c"%string, ObjCol [Some "a"; Some "b"; Some "a"]%string);
           ("b"%string, IntCol [1; 0; 1]%Z);
           ("x"%string, FloatCol [F 1; NaN; F 4])];
     X_val := X_val toy; X_test := X_test toy;
     y := y toy; y_val := y_val toy; y_test := y_test toy;
     X_gen := [("c"%string, ObjCol [Some "a"; Some "b"; Some "a"]%string);
               ("b"%string, IntCol [1; 0; 1]%Z);
               ("x"%string, FloatCol [F 1; NaN; F 4])];
     y_gen := y toy;
     cats := cats toy; X_cats := X_cats toy;
     label_encoder := label_encoder toy |}.

Definition gap_encoded : DataFrame :=
  [("c"%string, IntCol [0; 1; 0]%Z);
   ("b"%string, IntCol [1; 0; 1]%Z);
   ("x"%string, FloatCol [F 1; NaN; F 4]);
   ("label"%string, IntCol [0; 1; 0]%Z)].

Definition gap_array : matrix :=
  [[of_int 0; of_int 1; F 1; of_int 0];
   [of_int 1; of_int 0; NaN; of_int 1];
   [of_int 0; of_int 1; F 4; of_int 0]].

(** ** Values of any dtype *)

Inductive value : Type :=
| VObj (s : string)
| VFloat (x : ereal)
| VInt (z : Z).

(** The order of two values of one dtype. *)
Definition value_ltb (a b : value) : bool :=
  match a, b with
  | VObj x, VObj y => String.ltb x y
  | VFloat x, VFloat y => ereal_ltb x y
  | VInt x, VInt y => Z.ltb x y
  | _, _ => false
  end.

(** The entries of a column; [None] is a missing entry. *)
Definition entries (c : column) : list (option value) :=
  match c with
  | ObjCol l => map (option_map VObj) l
  | FloatCol l => map (option_map VFloat) l
  | IntCol l => map (fun z => Some (VInt z)) l
  end.

(** [c.categories] *)
Definition category_values (c : categorical) : list value :=
  match c with
  | CatObj k => map VObj (categories k)
  | CatFloat k => map VFloat (categories k)
  | CatInt k => map VInt (categories k)
  end.

Definition n_categories (c : categorical) : nat :=
  List.length (category_values c).

(** [decode_categories] on the store: the table it is given is updated in
    place and returned. *)
Definition decode_categories_st (self : Dataset) (df : loc) : M loc :=
  if imbalanced (config self) then ret df
  else
    let cat_columns := map fst (X_cats self) in
    sub <~ df_getitem df cat_columns ;;
    s <~ read sub ;;
    dec <~ lift (mapM (fun nc =>
                         match lookup (fst nc) (X_cats self) with
                         | Some c => col <- Categorical_from_codes (snd nc) c ;;
                                     Ok (fst nc, col)
                         | None => Raise KeyError
                         end) s) ;;
    dec <~ new dec ;;
    _ <~ df_setitem df dec ;;
    ret df.

(** ** Decoding labels *)

(** [LabelEncoder.inverse_transform]: a code outside [0, len(classes))] is a
    [ValueError]. *)
Definition inverse_transform_labels {A : Type} (classes : list (option A))
           (cds : list Z) : result (list (option A)) :=
  mapM (fun c => if (c <? 0)%Z then Raise ValueError
                 else match nth_error classes (Z.to_nat c) with
                      | Some v => Ok v
                      | None => Raise ValueError
                      end) cds.

(** The inverse transform of an empty array is an empty float array,
    whatever the classes are. *)
Definition decode_labels (ds : Dataset) (cds : list Z) : result column :=
  match cds with
  | [] => Ok (FloatCol [])
  | _ =>
      match label_encoder ds with
      | LEObj cl => l <- inverse_transform_labels cl cds ;; Ok (ObjCol l)
      | LEFloat cl => l <- inverse_transform_labels cl cds ;; Ok (FloatCol l)
      | LEInt cl => l <- inverse_transform_labels cl cds ;; Ok (int_values l)
      end
  end.

(** [len(label_encoder.classes_)] *)
Definition n_classes (le : LabelEncoder) : nat :=
  match le with
  | LEObj cl => List.length cl
  | LEFloat cl => List.length cl
  | LEInt cl => List.length cl
  end.

(** Every label of [c] occurs in [fitted], a column of the same dtype. *)
Definition seen (c fitted : column) : Prop :=
  match c, fitted with
  | ObjCol l1, ObjCol l2 => incl l1 l2
  | FloatCol l1, FloatCol l2 => incl l1 l2
  | IntCol l1, IntCol l2 => incl l1 l2
  | _, _ => False
  end.

(** Some label of [c] does not occur in [fitted], a column of the same
    dtype. *)
Definition unseen (c fitted : column) : Prop :=
  match c, fitted with
  | ObjCol l1, ObjCol l2 => exists v, In v l1 /\ ~ In v l2
  | FloatCol l1, FloatCol l2 => exists v, In v l1 /\ ~ In v l2
  | IntCol l1, IntCol l2 => exists v, In v l1 /\ ~ In v l2
  | _, _ => False
  end.

(** ** Rows: oversampling, removal and selection *)

Unset Implicit Arguments.

Definition set_X_y (ds : Dataset) (X' y' : DataFrame) : Dataset :=
  {| config := config ds;
     X := X'; X_val := X_val ds; X_test := X_test ds;
     y := y'; y_val := y_val ds; y_test := y_test ds;
     X_gen := X_gen ds; y_gen := y_gen ds;
     cats := cats ds; X_cats := X_cats ds;
     label_encoder := label_encoder ds |}.

Definition set_gen (ds : Dataset) (X' y' : DataFrame) : Dataset :=
  {| config := config ds;
     X := X ds; X_val := X_val ds; X_test := X_test ds;
     y := y ds; y_val := y_val ds; y_test := y_test ds;
     X_gen := X'; y_gen := y';
     cats := cats ds; X_cats := X_cats ds;
     label_encoder := label_encoder ds |}.

(** An operation on the rows of a column, whatever its dtype. *)
Definition on_rows (f : forall B : Type, list B -> list B) (c : column) : column :=
  match c with
  | ObjCol l => ObjCol (f _ l)
  | FloatCol l => FloatCol (f _ l)
  | IntCol l => IntCol (f _ l)
  end.

(** [m] copies of a list, one after the other. *)
Fixpoint copies (m : nat) (B : Type) (l : list B) : list B :=
  match m with
  | O => []
  | S m' => l ++ copies m' B l
  end.

(** [pd.concat([df] * multiplier, ignore_index=True)]: there is nothing to
    concatenate when the multiplier is not positive. *)
Definition concat_copies (multiplier : Z) (df : DataFrame) : result DataFrame :=
  if (multiplier <=? 0)%Z then Raise ValueError
  else Ok (apply (on_rows (copies (Z.to_nat multiplier))) df).

Definition oversample (multiplier : Z) (ds : Dataset) : result Dataset :=
  X' <- concat_copies multiplier (X ds) ;;
  y' <- concat_copies multiplier (y ds) ;;
  Ok (set_X_y ds X' y').

(** The entries of a list whose position is not in [rows]. *)
Definition drop_positions (rows : list nat) (B : Type) (l : list B) : list B :=
  map snd (filter (fun ix => negb (existsb (Nat.eqb (fst ix)) rows))
                  (combine (seq 0 (List.length l)) l)).

(** [df.drop(rows)] followed by [reset_index(drop=True)]: a label that is
    not a row of the frame is a [KeyError]. *)
Definition df_drop (rows : list nat) (df : DataFrame) : result DataFrame :=
  if forallb (fun r => Nat.ltb r (nrows df)) rows
  then Ok (apply (on_rows (drop_positions rows)) df)
  else Raise KeyError.

(** [remove] updates the features first and the labels next: when the
    labels raise, the features have been cut already. *)
Definition remove (rows_to_remove : list nat) (ds : Dataset)
  : result unit * Dataset :=
  match df_drop rows_to_remove (X ds) with
  | Raise e => (Raise e, ds)
  | Ok X' =>
      match df_drop rows_to_remove (y ds) with
      | Raise e => (Raise e, set_X_y ds X' (y ds))
      | Ok y' => (Ok tt, set_X_y ds X' y')
      end
  end.

(** [df.head(n).index]: the first [n] rows, or all but the last [-n] rows
    when [n] is negative. *)
Definition head_index (n : Z) (df : DataFrame) : list nat :=
  if (0 <=? n)%Z then seq 0 (Nat.min (Z.to_nat n) (nrows df))
  else seq 0 (nrows df - Z.to_nat (- n)).

Definition drop_first_n (n : Z) (ds : Dataset) : result unit * Dataset :=
  remove (head_index n (X ds)) ds.

(** [col == cls] for a string [cls]: an entry that is missing or not a
    string is not equal to it. *)
Definition eq_str (cls : string) (c : column) : list bool :=
  match c with
  | ObjCol l => map (fun v => match v with
                              | Some s => String.eqb s cls
                              | None => false
                              end) l
  | FloatCol l => map (fun _ => false) l
  | IntCol l => map (fun _ => false) l
  end.

(** The row labels at which the mask is true. *)
Definition where_true (mask : list bool) : list nat :=
  map fst (filter snd (combine (seq 0 (List.length mask)) mask)).

(** The entries of a list at the positions [idx], in that order. *)
Definition take_positions (idx : list nat) (B : Type) (l : list B) : list B :=
  somes (map (nth_error l) idx).

(** [df.loc[idx]]: a label that is not a row of the frame is a
    [KeyError]. *)
Definition df_loc (idx : list nat) (df : DataFrame) : result DataFrame :=
  if forallb (fun r => Nat.ltb r (nrows df)) idx
  then Ok (apply (on_rows (take_positions idx)) df)
  else Raise KeyError.

Definition class_rows (cls : string) (labels features : DataFrame)
           (y_label : string) : result DataFrame :=
  c <- getcol labels y_label ;;
  let idx := where_true (eq_str cls c) in
  df_loc idx features.

Definition get_class_rows (ds : Dataset) (cls : string) : result DataFrame :=
  class_rows cls (y ds) (X ds) (y_label (config ds)).

Definition get_gen_class_rows (ds : Dataset) (cls : string) : result DataFrame :=
  class_rows cls (y_gen ds) (X_gen ds) (y_label (config ds)).

(** A table with at least one column, every column of [N] rows. *)
Definition table (N : nat) (df : DataFrame) : Prop :=
  df <> [] /\ Forall (fun nc => column_length (snd nc) = N) df.

(** ** Sizes *)

Definition row_count (ds : Dataset) : nat := nrows (X ds).
Definition generated_row_count (ds : Dataset) : nat := nrows (X_gen ds).
Definition num_features (ds : Dataset) : nat := List.length (X ds).
Definition get_feature_names (ds : Dataset) : list string := map fst (X ds).
Definition get_train_samples (ds : Dataset) : nat := (nrows (X ds) + nrows (X_val ds))%nat.
Definition get_test_samples (ds : Dataset) : nat := nrows (X_test ds).

Set Implicit Arguments.

(** ** One table of features and label *)

Definition get_single_df (ds : Dataset) : DataFrame :=
  concat_axis1 (X ds) (y ds).

(** [set_split_result] takes the features first and the label next: when
    [data] has no label column the label raises, and the features have been
    replaced already. *)
Definition set_split_result (data : DataFrame) (ds : Dataset)
  : result unit * Dataset :=
  let y_label := y_label (config ds) in
  let X' := filter (fun nc => negb (String.eqb (fst nc) y_label)) data in
  match filter (fun nc => String.eqb (fst nc) y_label) data with
  | [] => (Raise KeyError, set_gen ds X' (y_gen ds))
  | y' => (Ok tt, set_gen ds X' y')
  end.

(** ** Classes *)

Section ValueCounts.
Context {A : Type} (ltb : A -> A -> bool).

(** The order of entries, the missing entry last. *)
Definition opt_ltb (a b : option A) : bool :=
  match a, b with
  | Some x, Some y => ltb x y
  | Some _, None => true
  | _, _ => false
  end.

Fixpoint insert_by_count (x : A * nat) (l : list (A * nat)) : list (A * nat) :=
  match l with
  | [] => [x]
  | y :: l' =>
      if Nat.leb (snd y) (snd x) then x :: l else y :: insert_by_count x l'
  end.

(** [series.value_counts()]: how often each value that is not missing
    occurs, by decreasing count; values that occur equally often are in
    order of first appearance. *)
Definition pd_value_counts (l : list (option A)) : list (A * nat) :=
  fold_right insert_by_count []
    (map (fun v => (v, count ltb v (somes l))) (uniques ltb (somes l))).
End ValueCounts.

Definition series_value_counts (c : column) : list (value * nat) :=
  match c with
  | ObjCol l =>
      map (fun vn => (VObj (fst vn), snd vn)) (pd_value_counts String.ltb l)
  | FloatCol l =>
      map (fun vn => (VFloat (fst vn), snd vn)) (pd_value_counts ereal_ltb l)
  | IntCol l =>
      map (fun vn => (VInt (fst vn), snd vn)) (pd_value_counts Z.ltb (map Some l))
  end.

(** [series.unique()]: the distinct entries in order of first appearance,
    the missing entry among them. *)
Definition series_unique (c : column) : list (option value) :=
  match c with
  | ObjCol l => map (option_map VObj) (uniques (opt_ltb String.ltb) l)
  | FloatCol l => map (option_map VFloat) (uniques (opt_ltb ereal_ltb) l)
  | IntCol l => map (fun z => Some (VInt z)) (uniques Z.ltb l)
  end.

(** [series.nunique()]: the number of distinct values, the missing entry
    not counted. *)
Definition series_nunique (c : column) : nat :=
  match c with
  | ObjCol l => List.length (uniques String.ltb (somes l))
  | FloatCol l => List.length (uniques ereal_ltb (somes l))
  | IntCol l => List.length (uniques Z.ltb l)
  end.

(** [self.y[self.config["y_label"]]] *)
Definition label_column (ds : Dataset) : result column :=
  getcol (y ds) (y_label (config ds)).

Definition num_classes (ds : Dataset) : result nat :=
  c <- label_column ds ;; Ok (series_nunique c).

Definition class_names (ds : Dataset) : result (list (option value)) :=
  c <- label_column ds ;; Ok (series_unique c).

Definition class_counts (ds : Dataset) : result (list (value * nat)) :=
  c <- label_column ds ;; Ok (series_value_counts c).

(** The least count; NaN when there is no class. *)
Definition min_class_count (ds : Dataset) : result float :=
  cc <- class_counts ds ;;
  Ok (col_min (map (fun vn => of_nat (snd vn)) cc)).

Definition get_imbalance_ratio (ds : Dataset) : result float :=
  class_counts <- class_counts ds ;;
  let counts := map (fun vn => of_nat (snd vn)) class_counts in
  let majority_class_count := col_max counts in
  Ok (col_max (map (fun n => fdiv majority_class_count n) counts)).

(* ================================================================== *)
(** * Properties *)

Unset Implicit Arguments.

(** ** The result monad *)

Lemma bind_Ok_inv {A B : Type} (m : result A) (f : A -> result B) (b : B) :
  bind m f = Ok b -> exists a, m = Ok a /\ f a = Ok b.
Proof.
  destruct m as [a|e]; simpl; intros H; [eauto | discriminate].
Qed.

Lemma mapM_Ok_map {A B : Type} (f : A -> result B) (g : A -> B) (l : list A) :
  (forall a, In a l -> f a = Ok (g a)) -> mapM f l = Ok (map g l).
Proof.
  induction l as [|a l IH]; simpl; intros H; [reflexivity|].
  rewrite (H a) by auto. simpl. rewrite IH by auto. reflexivity.
Qed.

Lemma mapM_Ok_length {A B : Type} (f : A -> result B) (l : list A) (r : list B) :
  mapM f l = Ok r -> List.length r = List.length l.
Proof.
  revert r; induction l as [|a l IH]; simpl; intros r H.
  - inversion H; reflexivity.
  - apply bind_Ok_inv in H as (b & _ & H).
    apply bind_Ok_inv in H as (bs & Hbs & H).
    inversion H; subst; simpl. f_equal. auto.
Qed.

Lemma mapM_Ok_Forall2 {A B : Type} (f : A -> result B) (l : list A) (r : list B) :
  mapM f l = Ok r -> Forall2 (fun a b => f a = Ok b) l r.
Proof.
  revert r; induction l as [|a l IH]; simpl; intros r H.
  - inversion H; constructor.
  - apply bind_Ok_inv in H as (b & Hb & H).
    apply bind_Ok_inv in H as (bs & Hbs & H).
    inversion H; subst. constructor; auto.
Qed.

(** ** Sorted distinct values *)

Section SortUniqueFacts.
Context {A : Type} (ltb : A -> A -> bool).
Hypothesis Hord : strict_total ltb.
Let ltb_irrefl : forall a, ltb a a = false := st_irrefl Hord.
Let ltb_trans :
  forall a b c, ltb a b = true -> ltb b c = true -> ltb a c = true :=
  st_trans Hord.
Let ltb_total :
  forall a b, ltb a b = false -> ltb b a = false -> a = b := st_total Hord.

Lemma same_true_iff (a b : A) : same ltb a b = true <-> a = b.
Proof.
  unfold same. split.
  - intros H. apply andb_true_iff in H as [H1 H2].
    apply negb_true_iff in H1, H2. auto.
  - intros ->. rewrite ltb_irrefl. reflexivity.
Qed.

Lemma In_insert_unique (a x : A) (l : list A) :
  In a (insert_unique ltb x l) <-> a = x \/ In a l.
Proof.
  induction l as [|b l IH]; simpl.
  - intuition congruence.
  - destruct (ltb x b) eqn:E1; [simpl; intuition congruence|].
    destruct (ltb b x) eqn:E2; simpl.
    + rewrite IH. intuition congruence.
    + assert (x = b) by auto. subst. intuition congruence.
Qed.

Lemma In_sort_unique (a : A) (l : list A) :
  In a (sort_unique ltb l) <-> In a l.
Proof.
  induction l as [|b l IH]; simpl; [tauto|].
  rewrite In_insert_unique, IH. intuition congruence.
Qed.

Lemma increasing_insert_unique (x : A) (l : list A) :
  increasing ltb l -> increasing ltb (insert_unique ltb x l).
Proof.
  unfold increasing. induction 1 as [|b l Hs IH Hb]; simpl.
  - repeat constructor.
  - destruct (ltb x b) eqn:E1.
    + constructor; [constructor; assumption|].
      constructor; [assumption|].
      rewrite Forall_forall in *. eauto.
    + destruct (ltb b x) eqn:E2.
      * constructor; [assumption|].
        rewrite Forall_forall in *. intros c Hc.
        apply In_insert_unique in Hc as [->|Hc]; auto.
      * constructor; assumption.
Qed.

Lemma increasing_sort_unique (l : list A) : increasing ltb (sort_unique ltb l).
Proof.
  induction l as [|a l IH]; simpl.
  - constructor.
  - apply increasing_insert_unique, IH.
Qed.

Lemma increasing_unique (l1 l2 : list A) :
  increasing ltb l1 -> increasing ltb l2 ->
  (forall a, In a l1 <-> In a l2) -> l1 = l2.
Proof.
  unfold increasing. intros H1; revert l2.
  induction H1 as [|a l1 Hs1 IH Ha]; intros l2 H2 Hin.
  - destruct l2 as [|b l2]; [reflexivity|].
    exfalso. apply (Hin b). left; reflexivity.
  - destruct H2 as [|b l2 Hs2 Hb].
    + exfalso. apply (Hin a). left; reflexivity.
    + rewrite Forall_forall in Ha, Hb.
      assert (a = b) as <-.
      { destruct (proj1 (Hin a) (or_introl eq_refl)) as [E|Ia]; [auto|].
        destruct (proj2 (Hin b) (or_introl eq_refl)) as [E|Ib]; [auto|].
        pose proof (ltb_trans _ _ _ (Ha _ Ib) (Hb _ Ia)) as C.
        rewrite ltb_irrefl in C. discriminate. }
      f_equal. apply IH; [assumption|].
      intros c. split; intros Hc.
      * destruct (proj1 (Hin c) (or_intror Hc)) as [E|]; [|assumption].
        subst c. pose proof (Ha _ Hc) as C. rewrite ltb_irrefl in C. discriminate.
      * destruct (proj2 (Hin c) (or_intror Hc)) as [E|]; [|assumption].
        subst c. pose proof (Hb _ Hc) as C. rewrite ltb_irrefl in C. discriminate.
Qed.

(** The sorted distinct values depend only on which values occur. *)
Lemma sort_unique_ext (l1 l2 : list A) :
  (forall a, In a l1 <-> In a l2) -> sort_unique ltb l1 = sort_unique ltb l2.
Proof.
  intros H. apply increasing_unique; try apply increasing_sort_unique.
  intros a. rewrite !In_sort_unique. apply H.
Qed.

Lemma index_of_In (a : A) (l : list A) :
  In a l -> exists i, index_of ltb a l = Some i /\ nth_error l i = Some a.
Proof.
  induction l as [|b l IH]; simpl; [tauto|].
  intros H. destruct (same ltb a b) eqn:E.
  - apply same_true_iff in E. subst. exists 0%nat. auto.
  - destruct H as [->|H].
    + rewrite (proj2 (same_true_iff a a) eq_refl) in E. discriminate.
    + destruct (IH H) as (i & -> & Hi). exists (S i). auto.
Qed.

Lemma index_of_Some (a : A) (l : list A) (i : nat) :
  index_of ltb a l = Some i -> nth_error l i = Some a.
Proof.
  revert i; induction l as [|b l IH]; simpl; intros i; [discriminate|].
  destruct (same ltb a b) eqn:E.
  - apply same_true_iff in E. subst. intros [= <-]. reflexivity.
  - destruct (index_of ltb a l) as [j|]; simpl; [|discriminate].
    intros [= <-]. simpl. auto.
Qed.

Lemma somes_In (a : A) (l : list (option A)) : In a (somes l) <-> In (Some a) l.
Proof.
  induction l as [|[b|] l IH]; simpl; [tauto| |].
  - rewrite IH. intuition congruence.
  - rewrite IH. intuition congruence.
Qed.

Lemma from_code_code_of (cs : list A) (v : option A) :
  (forall a, v = Some a -> In a cs) ->
  from_code cs (code_of ltb cs v) = Ok v.
Proof.
  intros H. destruct v as [a|]; simpl; [|reflexivity].
  destruct (index_of_In a cs (H a eq_refl)) as (i & Hi & Hn).
  rewrite Hi. unfold from_code.
  destruct (Z.eqb_spec (Z.of_nat i) (-1)); [lia|].
  destruct (Z.ltb_spec (Z.of_nat i) (-1)); [lia|].
  rewrite Nat2Z.id, Hn. reflexivity.
Qed.

(** Decoding the codes of a column with the categories of a column that
    holds the same values gives the column back. *)
Lemma from_codes_pd_Categorical (col fitted : list (option A)) :
  (forall a, In (Some a) col <-> In (Some a) fitted) ->
  from_codes (codes (pd_Categorical ltb col))
             (categories (pd_Categorical ltb fitted)) = Ok col.
Proof.
  intros H. unfold pd_Categorical, from_codes; simpl.
  assert (E : sort_unique ltb (somes fitted) = sort_unique ltb (somes col)).
  { apply sort_unique_ext. intros a. rewrite !somes_In. symmetry. apply H. }
  rewrite E. set (cs := sort_unique ltb (somes col)).
  assert (G : forall v, In v col ->
                from_code cs (code_of ltb cs v) = Ok v).
  { intros v Hv. apply from_code_code_of. intros a ->.
    apply In_sort_unique, somes_In, Hv. }
  clearbody cs. clear E H.
  induction col as [|v col IH]; simpl; [reflexivity|].
  rewrite G by (left; reflexivity). simpl.
  rewrite IH by (intros; apply G; right; assumption). reflexivity.
Qed.

Lemma code_of_nonneg (cs : list A) (a : A) :
  In a cs -> (0 <= code_of ltb cs (Some a))%Z.
Proof.
  intros H. simpl. destruct (index_of_In a cs H) as (i & -> & _). lia.
Qed.
End SortUniqueFacts.

(** ** The three orders *)

Lemma ascii_compare_Lt_trans (a b c : ascii) :
  Ascii.compare a b = Lt -> Ascii.compare b c = Lt -> Ascii.compare a c = Lt.
Proof.
  unfold Ascii.compare. rewrite !N.compare_lt_iff. apply N.lt_trans.
Qed.

Lemma string_compare_Lt_trans (a b c : string) :
  String.compare a b = Lt -> String.compare b c = Lt -> String.compare a c = Lt.
Proof.
  revert b c. induction a as [|x a IH]; intros [|y b] [|z c]; simpl;
    try discriminate; try reflexivity.
  destruct (Ascii.compare x y) eqn:Exy; try discriminate.
  - apply Ascii.compare_eq_iff in Exy. subst y.
    destruct (Ascii.compare x z); try discriminate; auto. apply IH.
  - intros _. destruct (Ascii.compare y z) eqn:Eyz; try discriminate.
    + apply Ascii.compare_eq_iff in Eyz. subst z. rewrite Exy. reflexivity.
    + rewrite (ascii_compare_Lt_trans _ _ _ Exy Eyz). reflexivity.
Qed.

Lemma string_ltb_irrefl (a : string) : String.ltb a a = false.
Proof.
  unfold String.ltb. pose proof (String.compare_antisym a a) as H.
  destruct (String.compare a a); simpl in H; try reflexivity; discriminate.
Qed.

Lemma string_ltb_trans (a b c : string) :
  String.ltb a b = true -> String.ltb b c = true -> String.ltb a c = true.
Proof.
  unfold String.ltb.
  destruct (String.compare a b) eqn:E1; try discriminate.
  destruct (String.compare b c) eqn:E2; try discriminate.
  rewrite (string_compare_Lt_trans _ _ _ E1 E2). reflexivity.
Qed.

Lemma string_ltb_total (a b : string) :
  String.ltb a b = false -> String.ltb b a = false -> a = b.
Proof.
  unfold String.ltb. rewrite (String.compare_antisym b a).
  destruct (String.compare a b) eqn:E; simpl; try discriminate.
  intros _ _. apply String.compare_eq_iff, E.
Qed.

Lemma Z_ltb_irrefl (a : Z) : (a <? a)%Z = false.
Proof. apply Z.ltb_irrefl. Qed.

Lemma Z_ltb_trans (a b c : Z) :
  (a <? b)%Z = true -> (b <? c)%Z = true -> (a <? c)%Z = true.
Proof. rewrite !Z.ltb_lt. lia. Qed.

Lemma Z_ltb_total (a b : Z) :
  (a <? b)%Z = false -> (b <? a)%Z = false -> a = b.
Proof. rewrite !Z.ltb_ge. lia. Qed.

Lemma Rltb_true (a b : R) : Rltb a b = true <-> (a < b)%R.
Proof. unfold Rltb. destruct (Rlt_dec a b); intuition discriminate. Qed.

Lemma Rltb_false (a b : R) : Rltb a b = false <-> (b <= a)%R.
Proof.
  unfold Rltb. destruct (Rlt_dec a b); split; intros; try discriminate;
    try reflexivity; lra.
Qed.

Lemma Reqb_true (a b : R) : Reqb a b = true <-> a = b.
Proof. unfold Reqb. destruct (Req_dec_T a b); intuition discriminate. Qed.

Lemma Reqb_false (a b : R) : Reqb a b = false <-> a <> b.
Proof. unfold Reqb. destruct (Req_dec_T a b); intuition discriminate. Qed.

Lemma ereal_ltb_irrefl (a : ereal) : ereal_ltb a a = false.
Proof. destruct a; simpl; try reflexivity. apply Rltb_false. lra. Qed.

Lemma ereal_ltb_trans (a b c : ereal) :
  ereal_ltb a b = true -> ereal_ltb b c = true -> ereal_ltb a c = true.
Proof.
  destruct a, b, c; simpl; try discriminate; try reflexivity.
  rewrite !Rltb_true. lra.
Qed.

Lemma ereal_ltb_total (a b : ereal) :
  ereal_ltb a b = false -> ereal_ltb b a = false -> a = b.
Proof.
  destruct a, b; simpl; try discriminate; try reflexivity.
  rewrite !Rltb_false. intros. f_equal. lra.
Qed.

Lemma string_order : strict_total String.ltb.
Proof.
  split; [exact string_ltb_irrefl|exact string_ltb_trans|exact string_ltb_total].
Qed.

Lemma Z_order : strict_total Z.ltb.
Proof. split; [exact Z_ltb_irrefl|exact Z_ltb_trans|exact Z_ltb_total]. Qed.

Lemma ereal_order : strict_total ereal_ltb.
Proof.
  split; [exact ereal_ltb_irrefl|exact ereal_ltb_trans|exact ereal_ltb_total].
Qed.

(** ** Frames *)

Lemma existsb_eqb_In (n : string) (l : list string) :
  existsb (String.eqb n) l = true <-> In n l.
Proof.
  rewrite existsb_exists. split.
  - intros (m & Hm & E). apply String.eqb_eq in E. subst. assumption.
  - intros H. exists n. split; [assumption|apply String.eqb_refl].
Qed.

Lemma lookup_set_column (n m : string) (c : column) (df : DataFrame) :
  lookup n (set_column df m c) = if String.eqb n m then Some c else lookup n df.
Proof.
  induction df as [|[k d] df IH]; simpl.
  - reflexivity.
  - destruct (String.eqb_spec m k) as [->|Hmk]; simpl.
    + destruct (String.eqb n k); reflexivity.
    + rewrite IH. destruct (String.eqb_spec n k) as [->|Hnk].
      * destruct (String.eqb_spec k m); [congruence|reflexivity].
      * reflexivity.
Qed.

Lemma names_set_column (m : string) (c : column) (df : DataFrame) :
  In m (map fst df) -> map fst (set_column df m c) = map fst df.
Proof.
  induction df as [|[k d] df IH]; simpl; [tauto|].
  intros H. destruct (String.eqb_spec m k) as [->|Hmk]; simpl; [reflexivity|].
  f_equal. apply IH. destruct H; congruence.
Qed.

Lemma lookup_In_names {B : Type} (n : string) (df : list (string * B)) :
  In n (map fst df) <-> lookup n df <> None.
Proof.
  induction df as [|[k d] df IH]; simpl; [intuition congruence|].
  destruct (String.eqb_spec n k) as [->|H].
  - intuition congruence.
  - rewrite <- IH. intuition congruence.
Qed.

Lemma lookup_of_function {B : Type} (h : string -> B) (l : list (string * B))
      (n : string) :
  (forall nc, In nc l -> snd nc = h (fst nc)) ->
  In n (map fst l) -> lookup n l = Some (h n).
Proof.
  induction l as [|[k d] l IH]; simpl; [tauto|].
  intros H Hn. destruct (String.eqb_spec n k) as [->|Hnk].
  - f_equal. apply (H (k, d)). auto.
  - apply IH; [auto|]. destruct Hn; congruence.
Qed.

Lemma lookup_setitem (g : string -> column) (cols df : DataFrame) (n : string) :
  (forall nc, In nc cols -> snd nc = g (fst nc)) ->
  lookup n (setitem df cols)
  = if existsb (String.eqb n) (map fst cols) then Some (g n) else lookup n df.
Proof.
  unfold setitem. revert df.
  induction cols as [|[k d] cols IH]; simpl; intros df H; [reflexivity|].
  rewrite IH by auto. rewrite lookup_set_column.
  destruct (existsb (String.eqb n) (map fst cols)).
  - rewrite orb_true_r. reflexivity.
  - rewrite orb_false_r. destruct (String.eqb_spec n k) as [->|]; [|reflexivity].
    f_equal. apply (H (k, d)). auto.
Qed.

Lemma names_setitem (cols df : DataFrame) :
  (forall n, In n (map fst cols) -> In n (map fst df)) ->
  map fst (setitem df cols) = map fst df.
Proof.
  unfold setitem. revert df.
  induction cols as [|[k d] cols IH]; simpl; intros df H; [reflexivity|].
  rewrite IH.
  - apply names_set_column. auto.
  - intros n Hn. rewrite names_set_column by auto. auto.
Qed.

Lemma frame_ext (a b : DataFrame) :
  map fst a = map fst b -> NoDup (map fst a) ->
  (forall n, lookup n a = lookup n b) -> a = b.
Proof.
  revert b. induction a as [|[k d] a IH]; intros [|[k' d'] b]; simpl;
    try discriminate; [reflexivity|].
  intros [= <- Hn] Hnd Hl. inversion Hnd as [|? ? Hk Hnd']; subst.
  pose proof (Hl k) as Hk'. rewrite String.eqb_refl in Hk'.
  injection Hk' as <-. f_equal. apply IH; [assumption|assumption|].
  intros n. specialize (Hl n).
  destruct (String.eqb_spec n k) as [Enk|]; [|assumption].
  rewrite Enk. transitivity (@None column).
  - destruct (lookup k a) eqn:E; [|reflexivity].
    exfalso. apply Hk. apply lookup_In_names. congruence.
  - destruct (lookup k b) eqn:E; [|reflexivity].
    exfalso. apply Hk. rewrite Hn. apply lookup_In_names. congruence.
Qed.

Lemma getitem_Ok (df : DataFrame) (names : list string) :
  (forall n, In n names -> In n (map fst df)) ->
  getitem df names = Ok (map (fun n => (n, col_of df n)) names).
Proof.
  intros H. unfold getitem. apply mapM_Ok_map. intros n Hn.
  apply H, lookup_In_names in Hn. unfold col_of.
  destruct (lookup n df); [reflexivity|congruence].
Qed.

Lemma getitem_Ok_inv (df sub : DataFrame) (names : list string) :
  getitem df names = Ok sub ->
  (forall n, In n names -> In n (map fst df))
  /\ sub = map (fun n => (n, col_of df n)) names.
Proof.
  intros H.
  assert (G : forall n, In n names -> In n (map fst df)).
  { unfold getitem in H. apply mapM_Ok_Forall2 in H.
    intros n Hn. apply lookup_In_names.
    induction H as [|m nc names' sub' Hm _ IH]; [contradiction|].
    destruct Hn as [->|Hn]; [|auto].
    destruct (lookup n df); [discriminate|discriminate]. }
  split; [assumption|]. rewrite (getitem_Ok df names G) in H. congruence.
Qed.

(** ** The codec *)

Lemma somes_map_Some {A : Type} (l : list A) : somes (map Some l) = l.
Proof. induction l; simpl; congruence. Qed.

Lemma existsb_is_none_map_Some {A : Type} (l : list A) :
  existsb is_none (map Some l) = false.
Proof. induction l; simpl; auto. Qed.

Lemma decode_encode_column (c fitted : column) :
  same_values c fitted ->
  Categorical_from_codes (IntCol (cat_codes (Categorical_of c)))
                         (Categorical_of fitted) = Ok c.
Proof.
  destruct c as [l|l|l], fitted as [l'|l'|l']; intros H;
    try (exfalso; exact H);
    cbn [Categorical_of cat_codes Categorical_from_codes].
  - rewrite (from_codes_pd_Categorical String.ltb string_order l l' H).
    reflexivity.
  - rewrite (from_codes_pd_Categorical ereal_ltb ereal_order l l' H).
    reflexivity.
  - rewrite (from_codes_pd_Categorical Z.ltb Z_order
               (map Some l) (map Some l')).
    + simpl. unfold int_values.
      rewrite existsb_is_none_map_Some, somes_map_Some. reflexivity.
    + intros a. rewrite !in_map_iff. split; intros (z & E & Hz);
        exists z; (split; [assumption|]); apply H; assumption.
Qed.

Lemma compute_categories_Ok (ds0 ds : Dataset) :
  compute_categories ds0 = Ok ds ->
  config ds = config ds0
  /\ cats ds = categorical_columns (config ds0) ++ binary_columns (config ds0)
  /\ (forall n, In n (cats ds) -> In n (map fst (X ds0)))
  /\ X_cats ds = map (fun n => (n, Categorical_of (col_of (X ds0) n))) (cats ds).
Proof.
  unfold compute_categories. intros H.
  apply bind_Ok_inv in H as (sub & Hsub & H). injection H as <-. simpl.
  apply getitem_Ok_inv in Hsub as [Hin ->].
  repeat split; [assumption|]. rewrite map_map. reflexivity.
Qed.

(** C1.  With the codec fitted on the training table, a table whose
    categorical and binary columns hold exactly the values of the training
    columns is encoded without error, and decoding the result gives the
    table back, column for column. *)
Theorem codec_round_trip (ds0 ds : Dataset) (T : DataFrame) :
  compute_categories ds0 = Ok ds ->
  NoDup (map fst T) ->
  (forall n, In n (cats ds) ->
     exists c, lookup n T = Some c /\ same_values c (col_of (X ds0) n)) ->
  exists E, encode_categories ds T = Ok E /\ decode_categories ds E = Ok T.
Proof.
  intros Hfit Hnd Hcols.
  apply compute_categories_Ok in Hfit as (Hcfg & _ & HinX & HXc).
  unfold encode_categories, decode_categories.
  destruct (imbalanced (config ds)); [exists T; split; reflexivity|].
  assert (HinT : forall n, In n (cats ds) -> In n (map fst T)).
  { intros n Hn. destruct (Hcols n Hn) as (c & Hc & _).
    apply lookup_In_names. congruence. }
  rewrite (getitem_Ok T (cats ds) HinT). simpl.
  set (f := fun col => IntCol (cat_codes (Categorical_of col))).
  set (g := fun n => f (col_of T n)).
  set (E := setitem T (apply f (map (fun n => (n, col_of T n)) (cats ds)))).
  assert (HsubE : forall nc,
             In nc (apply f (map (fun n => (n, col_of T n)) (cats ds))) ->
             snd nc = g (fst nc)).
  { intros nc Hnc. unfold apply in Hnc. rewrite map_map in Hnc.
    apply in_map_iff in Hnc as (n & <- & _). reflexivity. }
  assert (HnamesE :
            map fst (apply f (map (fun n => (n, col_of T n)) (cats ds)))
            = cats ds).
  { unfold apply. rewrite !map_map. simpl. apply map_id. }
  assert (HlookE : forall n, lookup n E
             = if existsb (String.eqb n) (cats ds) then Some (g n)
               else lookup n T).
  { intros n. unfold E. rewrite (lookup_setitem g _ T n HsubE), HnamesE.
    reflexivity. }
  assert (HnE : map fst E = map fst T).
  { unfold E. apply names_setitem. rewrite HnamesE. exact HinT. }
  exists E. split; [reflexivity|].
  assert (Hcc : map fst (X_cats ds) = cats ds).
  { rewrite HXc, map_map. simpl. apply map_id. }
  rewrite Hcc.
  rewrite (getitem_Ok E (cats ds)) by (rewrite HnE; exact HinT). simpl.
  rewrite (mapM_Ok_map _ (fun nc => (fst nc, col_of T (fst nc)))).
  - simpl. rewrite map_map. simpl.
    f_equal. apply frame_ext.
    + rewrite names_setitem; [exact HnE|].
      rewrite map_map. simpl. rewrite map_id, HnE. exact HinT.
    + rewrite names_setitem; [rewrite HnE; exact Hnd|].
      rewrite map_map. simpl. rewrite map_id, HnE. exact HinT.
    + intros n. rewrite (lookup_setitem (col_of T)).
      * rewrite map_map. simpl. rewrite map_id, HlookE.
        destruct (existsb (String.eqb n) (cats ds)) eqn:En; [|reflexivity].
        apply existsb_eqb_In in En. destruct (Hcols n En) as (c & Hc & _).
        unfold col_of. rewrite Hc. reflexivity.
      * intros nc Hnc. apply in_map_iff in Hnc as (m & <- & _). reflexivity.
  - intros nc Hnc. apply in_map_iff in Hnc as (n & <- & Hn). simpl.
    rewrite HXc.
    rewrite (lookup_of_function (fun n => Categorical_of (col_of (X ds0) n))).
    + unfold col_of at 1. rewrite HlookE.
      rewrite (proj2 (existsb_eqb_In n (cats ds)) Hn).
      destruct (Hcols n Hn) as (c & Hc & Hsame).
      unfold g, f, col_of at 1. rewrite Hc.
      rewrite (decode_encode_column _ _ Hsame). simpl.
      unfold col_of. rewrite Hc. reflexivity.
    + intros mc Hmc. apply in_map_iff in Hmc as (m & <- & _). reflexivity.
    + rewrite map_map. simpl. rewrite map_id. exact Hn.
Qed.

Example toy_is_fitted :
  (ds <- get_label_encoders toy_raw ;; compute_categories ds) = Ok toy.
Proof. reflexivity. Qed.

Example toy_missing_is_fitted : compute_categories toy_missing = Ok toy_missing.
Proof. reflexivity. Qed.

Lemma codec_round_trip_witness :
  compute_categories toy = Ok toy
  /\ exists E, encode_categories toy shuffled = Ok E
               /\ decode_categories toy E = Ok shuffled.
Proof.
  split; [reflexivity|].
  apply (codec_round_trip toy toy shuffled).
  - reflexivity.
  - simpl. repeat constructor; simpl; intuition discriminate.
  - intros n Hn. simpl in Hn.
    destruct Hn as [<-|[<-|[]]]; eexists; (split; [reflexivity|]);
      simpl; intuition.
Defined.

(** C2.  The codes do not come from the training codebook: [pd.Categorical]
    numbers the values of the table being encoded, and [encode_categories]
    returns the same result whatever [X_cats] holds.  In a table where only
    ["b"] occurs, ["b"] is encoded as 0, while its position in the training
    codebook is 1 and the training table itself encodes it as 1; decoding
    the result with the codebook gives ["a"]. *)
Theorem encode_categories_ignores_codebook :
  (forall cfg x xv xt yy yv yt xg yg cs le K1 K2 df,
     encode_categories (mkDataset cfg x xv xt yy yv yt xg yg cs K1 le) df
     = encode_categories (mkDataset cfg x xv xt yy yv yt xg yg cs K2 le) df)
  /\ lookup "c" (X_cats toy)
     = Some (CatObj {| codes := [0; 1; 0]%Z; categories := ["a"; "b"]%string |})
  /\ code_of String.ltb ["a"; "b"]%string (Some "b"%string) = 1%Z
  /\ (E <- encode_categories toy (X toy) ;; Ok (lookup "c" E))
     = Ok (Some (IntCol [0; 1; 0]%Z))
  /\ (E <- encode_categories toy only_b ;; Ok (lookup "c" E))
     = Ok (Some (IntCol [0; 0]%Z))
  /\ (E <- encode_categories toy only_b ;; D <- decode_categories toy E ;;
      Ok (lookup "c" D))
     = Ok (Some (ObjCol [Some "a"; Some "a"]%string)).
Proof.
  split.
  - intros. unfold encode_categories. reflexivity.
  - repeat split.
Qed.

(** ** Missing values and the encoded view *)

Lemma lookup_In {B : Type} (n : string) (df : list (string * B)) (c : B) :
  lookup n df = Some c -> In (n, c) df.
Proof.
  induction df as [|[k d] df IH]; simpl; [discriminate|].
  destruct (String.eqb_spec n k) as [->|]; [|auto].
  intros [= ->]. auto.
Qed.

Lemma lookup_app {B : Type} (n : string) (a b : list (string * B)) :
  In n (map fst a) -> lookup n (a ++ b) = lookup n a.
Proof.
  induction a as [|[k d] a IH]; simpl; [tauto|].
  intros H. destruct (String.eqb_spec n k); [reflexivity|].
  apply IH. destruct H; congruence.
Qed.

Lemma In_set_column (nc : string * column) (df : DataFrame) (m : string)
      (c : column) :
  In nc (set_column df m c) -> In nc df \/ nc = (m, c).
Proof.
  induction df as [|[k d] df IH]; simpl.
  - intuition.
  - destruct (String.eqb_spec m k) as [->|]; simpl; intuition.
Qed.

Lemma In_setitem (nc : string * column) (cols df : DataFrame) :
  In nc (setitem df cols) -> In nc df \/ In nc cols.
Proof.
  unfold setitem. revert df.
  induction cols as [|[k d] cols IH]; simpl; intros df H; [auto|].
  apply IH in H as [H|H]; [|auto].
  apply In_set_column in H as [H|H]; auto.
Qed.

Section CodesFacts.
Context {A : Type} (ltb : A -> A -> bool).
Hypothesis Hord : strict_total ltb.
Let ltb_irrefl : forall a, ltb a a = false := st_irrefl Hord.
Let ltb_trans :
  forall a b c, ltb a b = true -> ltb b c = true -> ltb a c = true :=
  st_trans Hord.
Let ltb_total :
  forall a b, ltb a b = false -> ltb b a = false -> a = b := st_total Hord.

Lemma codes_nonneg (col : list (option A)) :
  existsb is_none col = false ->
  Forall (fun z => (0 <= z)%Z) (codes (pd_Categorical ltb col)).
Proof.
  intros H. unfold pd_Categorical; simpl. apply Forall_forall.
  intros z Hz. apply in_map_iff in Hz as (v & <- & Hv).
  destruct v as [a|].
  - apply (code_of_nonneg ltb Hord).
    apply (In_sort_unique ltb Hord), (somes_In a col), Hv.
  - exfalso. assert (existsb is_none col = true); [|congruence].
    apply existsb_exists. exists None. auto.
Qed.

(** A missing entry is encoded as -1. *)
Lemma codes_missing (col : list (option A)) (i : nat) :
  nth_error col i = Some None ->
  nth_error (codes (pd_Categorical ltb col)) i = Some (-1)%Z.
Proof.
  intros H. unfold pd_Categorical; simpl.
  rewrite nth_error_map, H. reflexivity.
Qed.
End CodesFacts.

Lemma isnan_is_none (l : list float) : existsb isnan l = existsb is_none l.
Proof. induction l as [|[x|] l IH]; simpl; congruence. Qed.

Lemma cat_codes_nonneg (c : column) :
  has_missing c = false ->
  Forall (fun z => (0 <= z)%Z) (cat_codes (Categorical_of c)).
Proof.
  destruct c as [l|l|l]; simpl; intros H.
  - apply (codes_nonneg String.ltb string_order _ H).
  - rewrite isnan_is_none in H.
    apply (codes_nonneg ereal_ltb ereal_order _ H).
  - apply (codes_nonneg Z.ltb Z_order).
    apply existsb_is_none_map_Some.
Qed.

Lemma encode_categories_names (ds : Dataset) (df E : DataFrame) :
  encode_categories ds df = Ok E -> map fst E = map fst df.
Proof.
  unfold encode_categories. destruct (imbalanced (config ds)).
  - intros [= <-]. reflexivity.
  - intros H. apply bind_Ok_inv in H as (sub & Hsub & H). injection H as <-.
    apply getitem_Ok_inv in Hsub as [Hin ->].
    apply names_setitem. unfold apply. rewrite !map_map. simpl.
    rewrite map_id. exact Hin.
Qed.

(** ** Float arithmetic on finite values *)

Lemma nonneg_finite (x : float) : nonneg x -> finite x.
Proof. intros (r & -> & _). exists r. reflexivity. Qed.

Lemma fsub_finite (x y : float) : finite x -> finite y -> finite (fsub x y).
Proof. intros [a ->] [b ->]. eexists. reflexivity. Qed.

Lemma fsub_self (x : float) : finite x -> fsub x x = F 0.
Proof. intros [a ->]. unfold fsub, fneg, fadd, F. do 2 f_equal. lra. Qed.

Lemma fsqr_nonneg (x : float) : finite x -> nonneg (fsqr x).
Proof. intros [a ->]. exists (a * a)%R. split; [reflexivity|nra]. Qed.

Lemma fsqr_zero : fsqr (F 0) = F 0.
Proof. unfold fsqr, fmul, F. do 2 f_equal. lra. Qed.

Lemma fadd_nonneg (x y : float) : nonneg x -> nonneg y -> nonneg (fadd x y).
Proof.
  intros (a & -> & Ha) (b & -> & Hb). exists (a + b)%R.
  split; [reflexivity|lra].
Qed.

Lemma fold_fadd_nonneg (l : list float) (acc : float) :
  nonneg acc -> Forall nonneg l -> nonneg (fold_left fadd l acc).
Proof.
  revert acc. induction l as [|x l IH]; simpl; intros acc Ha Hl; [assumption|].
  inversion Hl; subst. apply IH; [apply fadd_nonneg|]; assumption.
Qed.

Lemma fsum_nonneg (l : list float) : Forall nonneg l -> nonneg (fsum l).
Proof.
  apply fold_fadd_nonneg. exists 0%R. split; [reflexivity|lra].
Qed.

Lemma fold_fadd_zero (l : list float) :
  Forall (fun x => x = F 0) l -> fold_left fadd l (F 0) = F 0.
Proof.
  induction l as [|x l IH]; simpl; intros H; [reflexivity|].
  inversion H; subst. replace (fadd (F 0) (F 0)) with (F 0); [auto|].
  unfold fadd, F. do 2 f_equal. lra.
Qed.

Lemma fsqrt_nonneg (x : float) : nonneg x -> nonneg (fsqrt x).
Proof.
  intros (a & -> & Ha). unfold fsqrt, F.
  rewrite (proj2 (Rltb_false a 0) Ha).
  exists (sqrt a). split; [reflexivity|apply sqrt_pos].
Qed.

Lemma fsqrt_zero : fsqrt (F 0) = F 0.
Proof.
  unfold fsqrt, F. rewrite (proj2 (Rltb_false 0 0)) by lra.
  rewrite sqrt_0. reflexivity.
Qed.

Lemma zip_with_length {B : Type} (op : float -> float -> B) (a b : list float) :
  List.length a = List.length b ->
  List.length (zip_with op a b) = List.length a.
Proof.
  intros H. unfold zip_with. rewrite length_map, length_combine. lia.
Qed.

Lemma zip_with_Forall {B : Type} (op : float -> float -> B)
      (P Q : float -> Prop) (R' : B -> Prop) (a b : list float) :
  (forall x y, P x -> Q y -> R' (op x y)) ->
  Forall P a -> Forall Q b -> Forall R' (zip_with op a b).
Proof.
  intros H Ha. revert b. induction Ha as [|x a Hx Ha IH]; intros b Hb.
  - constructor.
  - destruct Hb as [|y b Hy Hb]; [constructor|].
    unfold zip_with; simpl. constructor; [auto|]. apply IH, Hb.
Qed.

Lemma zip_with_fsub_self (a : list float) :
  Forall finite a -> Forall (fun x => x = F 0) (zip_with fsub a a).
Proof.
  induction 1 as [|x a Hx Ha IH]; [constructor|].
  unfold zip_with; simpl. constructor; [apply fsub_self, Hx|apply IH].
Qed.

Lemma broadcast_same_length {B : Type} (op : float -> float -> B)
      (a b : list float) :
  List.length a = List.length b -> broadcast op a b = Ok (zip_with op a b).
Proof.
  intros H. unfold broadcast. rewrite H, Nat.eqb_refl. reflexivity.
Qed.

Lemma l2_nonneg (a b : list float) :
  Forall finite a -> Forall finite b -> nonneg (l2 a b).
Proof.
  intros Ha Hb. unfold l2. apply fsqrt_nonneg, fsum_nonneg.
  apply Forall_map.
  apply (zip_with_Forall fsub finite finite (fun x => nonneg (fsqr x)));
    [|assumption|assumption].
  intros x y Hx Hy. apply fsqr_nonneg, fsub_finite; assumption.
Qed.

Lemma l2_self (a : list float) : Forall finite a -> l2 a a = F 0.
Proof.
  intros Ha. unfold l2, fsum. rewrite fold_fadd_zero; [apply fsqrt_zero|].
  apply Forall_map. apply zip_with_fsub_self in Ha.
  eapply Forall_impl; [|exact Ha]. simpl. intros x ->. apply fsqr_zero.
Qed.

Lemma euclidean_distance_unweighted (p : nat) (source : list float)
      (target : matrix) :
  List.length source = p -> width p target ->
  euclidean_distance source target None = Ok (map (l2 source) target).
Proof.
  intros Hs Ht. unfold euclidean_distance. apply mapM_Ok_map.
  intros t Hin. unfold width in Ht. rewrite Forall_forall in Ht.
  rewrite broadcast_same_length by (rewrite (Ht t Hin); assumption).
  reflexivity.
Qed.

Lemma euclidean_distance_weighted (p : nat) (source w : list float)
      (target : matrix) :
  List.length source = p -> List.length w = p -> width p target ->
  euclidean_distance source target (Some w)
  = Ok (map (weighted_l2 w source) target).
Proof.
  intros Hs Hw Ht. unfold euclidean_distance. apply mapM_Ok_map.
  intros t Hin. unfold width in Ht. rewrite Forall_forall in Ht.
  rewrite broadcast_same_length by (rewrite (Ht t Hin); assumption).
  simpl. rewrite broadcast_same_length; [reflexivity|].
  rewrite zip_with_length by (rewrite (Ht t Hin); assumption). congruence.
Qed.

(** ** Sorting and the two smallest entries *)

Lemma sort_leb_total (a b : float) : sort_leb a b = false -> sort_leb b a = true.
Proof.
  destruct a as [x|], b as [y|]; simpl; try discriminate; try reflexivity.
  destruct x, y; simpl; try discriminate; try reflexivity.
  rewrite !negb_false_iff, negb_true_iff, Rltb_true, Rltb_false. lra.
Qed.

Lemma sort_leb_trans (a b c : float) :
  sort_leb a b = true -> sort_leb b c = true -> sort_leb a c = true.
Proof.
  destruct a as [x|], b as [y|], c as [z|]; simpl; try discriminate;
    try reflexivity.
  destruct x, y, z; simpl; try discriminate; try reflexivity.
  rewrite !negb_true_iff, !Rltb_false. lra.
Qed.

Lemma In_insert_sorted (x a : float) (l : list float) :
  In x (insert_sorted a l) <-> x = a \/ In x l.
Proof.
  induction l as [|b l IH]; simpl; [intuition congruence|].
  destruct (sort_leb a b); simpl; [intuition congruence|].
  rewrite IH. intuition congruence.
Qed.

Lemma In_np_sort (x : float) (l : list float) : In x (np_sort l) <-> In x l.
Proof.
  induction l as [|a l IH]; simpl; [tauto|].
  rewrite In_insert_sorted, IH. intuition congruence.
Qed.

Lemma insert_sorted_length (a : float) (l : list float) :
  List.length (insert_sorted a l) = S (List.length l).
Proof.
  induction l as [|b l IH]; simpl; [reflexivity|].
  destruct (sort_leb a b); simpl; congruence.
Qed.

Lemma np_sort_length (l : list float) : List.length (np_sort l) = List.length l.
Proof.
  induction l as [|a l IH]; simpl; [reflexivity|].
  rewrite insert_sorted_length. congruence.
Qed.

Lemma insert_sorted_sorted (a : float) (l : list float) :
  StronglySorted (fun x y => sort_leb x y = true) l ->
  StronglySorted (fun x y => sort_leb x y = true) (insert_sorted a l).
Proof.
  induction 1 as [|b l Hs IH Hb]; simpl.
  - repeat constructor.
  - destruct (sort_leb a b) eqn:E.
    + constructor; [constructor; assumption|].
      constructor; [assumption|].
      rewrite Forall_forall in *. intros c Hc.
      apply (sort_leb_trans a b c E), Hb, Hc.
    + constructor; [assumption|].
      rewrite Forall_forall in *. intros c Hc.
      apply In_insert_sorted in Hc as [->|Hc]; [|auto].
      apply sort_leb_total, E.
Qed.

Lemma np_sort_sorted (l : list float) :
  StronglySorted (fun x y => sort_leb x y = true) (np_sort l).
Proof.
  induction l as [|a l IH]; simpl; [constructor|].
  apply insert_sorted_sorted, IH.
Qed.

(** With two entries or more, [partition_two] returns two of them, in
    order, the first below every entry. *)
Lemma partition_two_Ok (l : list float) :
  (2 <= List.length l)%nat ->
  exists first second,
    partition_two l = Ok (first, second)
    /\ In first l /\ In second l
    /\ sort_leb first second = true
    /\ (forall x, In x l -> sort_leb first x = true).
Proof.
  intros Hlen. unfold partition_two.
  pose proof (np_sort_length l) as HL.
  pose proof (np_sort_sorted l) as HS.
  assert (HI : forall x, In x (np_sort l) <-> In x l) by (intros; apply In_np_sort).
  destruct (np_sort l) as [|a [|b rest]]; simpl in HL; try lia.
  exists a, b. split; [reflexivity|].
  split; [apply HI; simpl; auto|].
  split; [apply HI; simpl; auto|].
  inversion HS as [|? ? _ Ha]; subst. rewrite Forall_forall in Ha.
  split; [apply Ha; simpl; auto|].
  intros x Hx. apply HI in Hx. destruct Hx as [<-|Hx]; [|auto].
  destruct a as [e|]; simpl; [|reflexivity].
  rewrite ereal_ltb_irrefl. reflexivity.
Qed.

Lemma sort_leb_F (a b : R) : sort_leb (F a) (F b) = true <-> (a <= b)%R.
Proof.
  unfold F; simpl. rewrite negb_true_iff. apply Rltb_false.
Qed.

Lemma fltb_F (a b : R) : fltb (F a) (F b) = true <-> (a < b)%R.
Proof. unfold fltb, F; simpl. apply Rltb_true. Qed.

Lemma fdiv_F (a b : R) : b <> 0%R -> fdiv (F a) (F b) = F (a / b).
Proof.
  intros H. unfold fdiv, F. rewrite (proj2 (Reqb_false b 0) H). reflexivity.
Qed.

Lemma In_map_nonneg {B : Type} (f : B -> float) (l : list B) (x : float) :
  (forall b, In b l -> nonneg (f b)) -> In x (map f l) -> nonneg x.
Proof. intros H Hx. apply in_map_iff in Hx as (b & <- & Hb). auto. Qed.

(** C5, as the code has it.  For a synthetic row and two or more real rows
    of the same width, all entries finite, the pass returns two finite
    distances with [0 <= s_r_l2_min_1 <= s_r_l2_min_2]; their ratio is a
    number in [0, 1] when [s_r_l2_min_2] is positive. *)
Theorem min_l2_distance_ordered (p : nat) (row : list float) (real_array : matrix) :
  List.length row = p -> width p real_array ->
  Forall finite row -> finite_matrix real_array ->
  (2 <= List.length real_array)%nat ->
  exists d1 d2 : R,
    min_l2_distance row real_array = Ok (mkSynth (F d1) (F d2))
    /\ (0 <= d1 <= d2)%R
    /\ ((0 < d2)%R ->
        exists q, fdiv (F d1) (F d2) = F q /\ (0 <= q <= 1)%R).
Proof.
  intros Hp Hw Hrow Hfin Hlen. unfold min_l2_distance.
  rewrite (euclidean_distance_unweighted p) by assumption. simpl.
  destruct (partition_two_Ok (map (l2 row) real_array))
    as (first & second & -> & H1 & H2 & Hle & _).
  { rewrite length_map. exact Hlen. }
  assert (Hnn : forall x, In x (map (l2 row) real_array) -> nonneg x).
  { intros x Hx. apply (In_map_nonneg (l2 row) real_array x); [|exact Hx].
    intros t Ht. apply l2_nonneg; [assumption|].
    unfold finite_matrix in Hfin. rewrite Forall_forall in Hfin. auto. }
  destruct (Hnn _ H1) as (a & -> & Ha). destruct (Hnn _ H2) as (b & -> & Hb).
  apply sort_leb_F in Hle. simpl.
  assert (Hratio : forall x y, (0 <= x <= y)%R -> (0 < y)%R ->
             exists q, fdiv (F x) (F y) = F q /\ (0 <= q <= 1)%R).
  { intros x y Hxy Hy. exists (x / y)%R. split; [apply fdiv_F; lra|].
    split.
    - apply Rmult_le_pos; [lra|]. left. apply Rinv_0_lt_compat, Hy.
    - apply (Rmult_le_reg_r y); [assumption|]. field_simplify; lra. }
  destruct (fltb (F a) (F b)) eqn:E.
  - exists a, b. split; [reflexivity|]. split; [lra|]. apply Hratio. lra.
  - assert (a = b) as <-.
    { destruct (Rlt_dec a b) as [Hlt|Hge]; [|lra].
      apply fltb_F in Hlt. congruence. }
    exists a, a. split; [reflexivity|]. split; [lra|]. apply Hratio. lra.
Qed.

Lemma finite_F (r : R) : finite (F r).
Proof. exists r. reflexivity. Qed.

Lemma min_l2_distance_ordered_witness :
  exists d1 d2 : R,
    min_l2_distance [F 0; F 0] [[F 3; F 4]; [F 0; F 1]] = Ok (mkSynth (F d1) (F d2))
    /\ (0 <= d1 <= d2)%R
    /\ ((0 < d2)%R ->
        exists q, fdiv (F d1) (F d2) = F q /\ (0 <= q <= 1)%R).
Proof.
  apply (min_l2_distance_ordered 2 [F 0; F 0] [[F 3; F 4]; [F 0; F 1]]).
  - reflexivity.
  - repeat constructor.
  - repeat constructor; apply finite_F.
  - repeat constructor; apply finite_F.
  - simpl. lia.
Defined.

Lemma fltb_irrefl (x : float) : fltb x x = false.
Proof. destruct x as [e|]; [apply ereal_ltb_irrefl|reflexivity]. Qed.

Lemma fdiv_zero_zero : fdiv (F 0) (F 0) = NaN.
Proof.
  unfold fdiv, F. rewrite (proj2 (Reqb_true 0 0) eq_refl).
  unfold Rsign. destruct (Rlt_dec 0 0); [lra|]. reflexivity.
Qed.

(** C5, as the spec has it, fails.  A synthetic row that equals two real
    rows has both distances 0, and [0 / 0] is NaN.  With a missing entry in
    a real row one distance is NaN, [first < second] is false, and the swap
    puts NaN first. *)
Lemma ratio_of_duplicate_is_nan :
  min_l2_distance [F 1; F 2] [[F 1; F 2]; [F 1; F 2]] = Ok (mkSynth (F 0) (F 0))
  /\ fdiv (F 0) (F 0) = NaN
  /\ nearest_neighbor_distance_ratio [mkSynth (F 0) (F 0)] = NaN
  /\ ~ (exists q, fdiv (F 0) (F 0) = F q /\ (0 <= q <= 1)%R)
  /\ min_l2_distance [F 1] [[F 1]; [NaN]] = Ok (mkSynth NaN (F 0))
  /\ fleb NaN (F 0) = false.
Proof.
  assert (E : min_l2_distance [F 1; F 2] [[F 1; F 2]; [F 1; F 2]]
              = Ok (mkSynth (F 0) (F 0))).
  { unfold min_l2_distance.
    rewrite (euclidean_distance_unweighted 2) by (repeat constructor).
    cbn [map bind]. rewrite l2_self by (repeat constructor; apply finite_F).
    unfold partition_two, np_sort. cbn [fold_right insert_sorted].
    rewrite (proj2 (sort_leb_F 0 0)) by lra. cbn [bind].
    rewrite fltb_irrefl. reflexivity. }
  split; [exact E|]. split; [exact fdiv_zero_zero|]. split; [|split; [|split]].
  - unfold nearest_neighbor_distance_ratio, np_mean. cbn [map s_r_l2_min_1 s_r_l2_min_2].
    rewrite fdiv_zero_zero. reflexivity.
  - intros (q & Hq & _). rewrite fdiv_zero_zero in Hq. discriminate.
  - unfold min_l2_distance.
    rewrite (euclidean_distance_unweighted 1) by (repeat constructor).
    cbn [map bind]. rewrite l2_self by (repeat constructor; apply finite_F).
    reflexivity.
  - reflexivity.
Qed.

(** ** Hitting rate and identifiability risk *)

Lemma count_true_le (l : list bool) : (count_true l <= List.length l)%nat.
Proof. unfold count_true. apply filter_length_le. Qed.

Lemma fltb_fsub_zero (a b : float) : fltb (fsub a b) (F 0) = fltb a b.
Proof.
  destruct a as [[x| |]|], b as [[y| |]|]; try reflexivity.
  unfold fsub, fneg, fadd, fltb, F; simpl.
  unfold Rltb. destruct (Rlt_dec (x + - y) 0), (Rlt_dec x y);
    try reflexivity; lra.
Qed.

Lemma rate_in_unit_interval (c n : nat) :
  (c <= n)%nat -> (1 <= n)%nat ->
  fdiv (of_nat c) (of_nat n) = F (INR c / INR n)
  /\ (0 <= INR c / INR n <= 1)%R.
Proof.
  intros Hc Hn. assert (0 < INR n)%R by (apply lt_0_INR; lia).
  split; [apply fdiv_F; lra|].
  pose proof (pos_INR c). apply le_INR in Hc. split.
  - apply Rmult_le_pos; [lra|]. left. apply Rinv_0_lt_compat. assumption.
  - apply (Rmult_le_reg_r (INR n)); [assumption|]. field_simplify; lra.
Qed.

(** C7.  For a statistics table with one row per real row and at least one
    real row, the hitting rate is the number of rows with a true hit flag
    over the number of real rows, the identifiability risk is the number of
    rows whose least weighted distance to the synthetic set is strictly
    below their second least weighted distance to the real set, over the
    number of real rows, and both lie in [0, 1]. *)
Theorem rates_in_unit_interval (ds : Dataset) (stats : list real_stats) :
  List.length stats = nrows (X ds) -> (1 <= nrows (X ds))%nat ->
  hitting_rate ds stats = F (INR (hit_count stats) / INR (nrows (X ds)))
  /\ (0 <= INR (hit_count stats) / INR (nrows (X ds)) <= 1)%R
  /\ epsilon_identifiability_risk ds stats
     = F (INR (closer_count stats) / INR (nrows (X ds)))
  /\ (0 <= INR (closer_count stats) / INR (nrows (X ds)) <= 1)%R.
Proof.
  intros Hlen Hn.
  assert (Hh : (hit_count stats <= nrows (X ds))%nat).
  { unfold hit_count. rewrite <- Hlen, <- (length_map hit stats).
    apply count_true_le. }
  assert (Hc : (closer_count stats <= nrows (X ds))%nat).
  { unfold closer_count. rewrite <- Hlen.
    rewrite <- (length_map (fun s => fltb (r_s_diff_min s) (r_r_diff_min s)) stats).
    apply count_true_le. }
  destruct (rate_in_unit_interval _ _ Hh Hn) as [E1 B1].
  destruct (rate_in_unit_interval _ _ Hc Hn) as [E2 B2].
  split; [exact E1|]. split; [exact B1|]. split; [|exact B2].
  unfold epsilon_identifiability_risk. rewrite map_map.
  rewrite (map_ext _ (fun s => fltb (r_s_diff_min s) (r_r_diff_min s))).
  - exact E2.
  - intros s. apply fltb_fsub_zero.
Qed.

Lemma rates_in_unit_interval_witness :
  hitting_rate toy toy_stats = F (INR (hit_count toy_stats) / INR (nrows (X toy)))
  /\ (0 <= INR (hit_count toy_stats) / INR (nrows (X toy)) <= 1)%R
  /\ epsilon_identifiability_risk toy toy_stats
     = F (INR (closer_count toy_stats) / INR (nrows (X toy)))
  /\ (0 <= INR (closer_count toy_stats) / INR (nrows (X toy)) <= 1)%R.
Proof.
  apply (rates_in_unit_interval toy toy_stats).
  - reflexivity.
  - simpl. lia.
Defined.

(** ** Infinities and NaN in sums *)

Lemma fdiv_by_zero (x : float) : not_finite (fdiv x (F 0)).
Proof.
  unfold not_finite, fdiv, F.
  destruct x as [[a| |]|]; try reflexivity.
  - rewrite (proj2 (Reqb_true 0 0) eq_refl).
    destruct (Rsign a); reflexivity.
  - rewrite (proj2 (Rltb_false 0 0)) by lra. reflexivity.
  - rewrite (proj2 (Rltb_false 0 0)) by lra. reflexivity.
Qed.

Lemma fsqr_not_ninf (x : float) : not_ninf (fsqr x).
Proof. destruct x as [[a| |]|]; unfold not_ninf, fsqr, fmul, F; simpl; discriminate. Qed.

Lemma fsqr_not_finite (x : float) : not_finite x -> not_finite (fsqr x).
Proof. destruct x as [[a| |]|]; unfold not_finite; simpl; try discriminate; reflexivity. Qed.

Lemma fsqrt_not_finite (x : float) : not_finite x -> not_finite (fsqrt x).
Proof. destruct x as [[a| |]|]; unfold not_finite; simpl; try discriminate; reflexivity. Qed.

Lemma fadd_not_ninf (x y : float) : not_ninf x -> not_ninf y -> not_ninf (fadd x y).
Proof.
  destruct x as [[a| |]|], y as [[b| |]|]; unfold not_ninf, fadd, F, NaN;
    intros; try discriminate; congruence.
Qed.

Lemma fadd_not_finite_l (x y : float) : not_finite x -> not_finite (fadd x y).
Proof.
  destruct x as [[a| |]|], y as [[b| |]|]; unfold not_finite; simpl;
    try discriminate; reflexivity.
Qed.

Lemma fadd_not_finite_r (x y : float) : not_finite y -> not_finite (fadd x y).
Proof.
  destruct x as [[a| |]|], y as [[b| |]|]; unfold not_finite; simpl;
    try discriminate; reflexivity.
Qed.

Lemma fold_fadd_not_finite (l : list float) (acc : float) :
  not_finite acc \/ Exists not_finite l ->
  not_finite (fold_left fadd l acc).
Proof.
  revert acc. induction l as [|x l IH]; simpl; intros acc H.
  - destruct H as [H|H]; [assumption|inversion H].
  - apply IH. destruct H as [H|H].
    + left. apply fadd_not_finite_l, H.
    + inversion H; subst; [left; apply fadd_not_finite_r; assumption|auto].
Qed.

Lemma zip_with_nth_error {B : Type} (op : float -> float -> B)
      (a b : list float) (j : nat) (x y : float) :
  nth_error a j = Some x -> nth_error b j = Some y ->
  nth_error (zip_with op a b) j = Some (op x y).
Proof.
  revert a b. induction j as [|j IH]; intros [|x' a] [|y' b]; simpl;
    try discriminate.
  - intros [= ->] [= ->]. reflexivity.
  - intros Ha Hb. apply (IH a b Ha Hb).
Qed.

Lemma nth_error_Some_lt {B : Type} (l : list B) (j : nat) (x : B) :
  nth_error l j = Some x -> (j < List.length l)%nat.
Proof. intros H. apply nth_error_Some. congruence. Qed.

Lemma nth_error_lt_Some {B : Type} (l : list B) (j : nat) :
  (j < List.length l)%nat -> exists x, nth_error l j = Some x.
Proof.
  intros H. destruct (nth_error l j) eqn:E; [eauto|].
  apply nth_error_None in E. lia.
Qed.

(** A zero weight makes the weighted distance an infinity or NaN. *)
Lemma weighted_l2_zero_weight (w a b : list float) (j : nat) :
  List.length a = List.length w -> List.length b = List.length w ->
  nth_error w j = Some (F 0) ->
  not_finite (weighted_l2 w a b).
Proof.
  intros Ha Hb Hw. unfold weighted_l2. apply fsqrt_not_finite.
  unfold fsum. apply fold_fadd_not_finite. right.
  pose proof (nth_error_Some_lt _ _ _ Hw) as Hj.
  destruct (nth_error_lt_Some a j) as (x & Hx); [lia|].
  destruct (nth_error_lt_Some b j) as (y & Hy); [lia|].
  apply Exists_exists. exists (fsqr (fdiv (fsub x y) (F 0))). split.
  - apply in_map. eapply nth_error_In.
    apply zip_with_nth_error; [|exact Hw].
    apply zip_with_nth_error; eassumption.
  - apply fsqr_not_finite, fdiv_by_zero.
Qed.

Lemma np_minimum_not_finite (a b : float) :
  not_finite a -> not_finite b -> not_finite (np_minimum a b).
Proof.
  destruct a as [[x| |]|], b as [[y| |]|]; unfold not_finite; simpl;
    try discriminate; reflexivity.
Qed.

Lemma np_min_not_finite (l : list float) :
  l <> [] -> Forall not_finite l ->
  exists m, np_min l = Ok m /\ not_finite m.
Proof.
  destruct l as [|x l]; [congruence|]. intros _ H. inversion H; subst.
  exists (fold_left np_minimum l x). split; [reflexivity|].
  clear H. revert x H2. induction l as [|y l IH]; simpl; intros x Hx; [assumption|].
  inversion H3; subst. apply IH; [assumption|].
  apply np_minimum_not_finite; assumption.
Qed.

(** ** The real-row pass *)

Lemma min_dist_real_synth_eq (p : nat) (row : list float)
      (real_array fake_array : matrix) (thres w : list float) :
  List.length row = p -> List.length w = p -> List.length thres = p ->
  width p real_array -> width p fake_array ->
  min_dist_real_synth row real_array fake_array thres w
  = ('(first, second) <- partition_two (map (weighted_l2 w row) real_array) ;;
     fake_min <- np_min (map (weighted_l2 w row) fake_array) ;;
     Ok (mkReal (existsb (fun h => h) (map (within thres row) fake_array))
                fake_min
                (if fltb first second then second else first))).
Proof.
  intros Hrow Hw Hth Hreal Hfake. unfold min_dist_real_synth.
  assert (Hf : forall f, In f fake_array -> List.length f = p).
  { unfold width in Hfake. rewrite Forall_forall in Hfake. exact Hfake. }
  rewrite (mapM_Ok_map _ (zip_with fsub row)).
  2:{ intros f Hin. apply broadcast_same_length. rewrite (Hf f Hin). exact Hrow. }
  cbn [bind].
  rewrite (mapM_Ok_map _ (fun d => forallb (fun h => h)
                             (zip_with (fun x t => fleb (fabs x) t) d thres))).
  2:{ intros d Hd. apply in_map_iff in Hd as (f & <- & Hin).
      rewrite broadcast_same_length; [reflexivity|].
      rewrite zip_with_length by (rewrite (Hf f Hin); exact Hrow). congruence. }
  cbn [bind].
  rewrite (mapM_Ok_map _ (fun d => fsqrt (fsum (map fsqr (zip_with fdiv d w))))).
  2:{ intros d Hd. apply in_map_iff in Hd as (f & <- & Hin).
      rewrite broadcast_same_length; [reflexivity|].
      rewrite zip_with_length by (rewrite (Hf f Hin); exact Hrow). congruence. }
  cbn [bind].
  rewrite (euclidean_distance_weighted p) by assumption. cbn [bind].
  rewrite !map_map. reflexivity.
Qed.

(** ** Entropy of a constant column *)

Lemma sort_unique_constant {A : Type} (ltb : A -> A -> bool) (e : A) (l : list A) :
  ltb e e = false -> Forall (eq e) l -> l <> [] -> sort_unique ltb l = [e].
Proof.
  intros He H. induction H as [|x l <- Hl IH]; [congruence|].
  intros _. simpl. destruct l as [|y l].
  - reflexivity.
  - rewrite IH by discriminate. simpl. rewrite He. reflexivity.
Qed.

Lemma count_constant {A : Type} (ltb : A -> A -> bool) (e : A) (l : list A) :
  ltb e e = false -> Forall (eq e) l -> count ltb e l = List.length l.
Proof.
  intros He H. induction H as [|x l <- Hl IH]; [reflexivity|].
  simpl. unfold same. rewrite He. simpl. congruence.
Qed.

Lemma unique_counts_constant (l : list float) (v : float) :
  Forall (eq v) l -> l <> [] -> unique_counts l = [List.length l].
Proof.
  intros H Hne. unfold unique_counts. destruct v as [e|].
  - assert (Hs : somes l = map (fun _ => e) l).
    { clear Hne. induction H as [|x l <- Hl IH]; simpl; congruence. }
    assert (Hn : existsb isnan l = false).
    { clear Hne Hs. induction H as [|x l <- Hl IH]; simpl; auto. }
    assert (Hc : Forall (eq e) (somes l)).
    { rewrite Hs. apply Forall_forall. intros x Hx.
      apply in_map_iff in Hx as (y & <- & _). reflexivity. }
    rewrite Hn, app_nil_r.
    rewrite (sort_unique_constant ereal_ltb e (somes l) (ereal_ltb_irrefl e) Hc).
    + simpl. rewrite (count_constant ereal_ltb e _ (ereal_ltb_irrefl e) Hc).
      rewrite Hs, length_map. reflexivity.
    + rewrite Hs. destruct l; [congruence|discriminate].
  - assert (Hs : somes l = []).
    { clear Hne. induction H as [|x l <- Hl IH]; simpl; congruence. }
    assert (Hf : filter isnan l = l).
    { clear Hne Hs. induction H as [|x l <- Hl IH]; simpl; congruence. }
    rewrite Hs, Hf. simpl.
    destruct l as [|x l]; [congruence|]. inversion H; subst. reflexivity.
Qed.

Lemma fsum_single (r : R) : fsum [F r] = F r.
Proof. unfold fsum; cbn [fold_left]. unfold fadd, F. do 2 f_equal. lra. Qed.

Lemma entropy_single (n : nat) : (1 <= n)%nat -> entropy [of_nat n] = F 0.
Proof.
  intros Hn. assert (Ha : (0 < INR n)%R) by (apply lt_0_INR; lia).
  unfold entropy, of_nat. cbn [map]. rewrite fsum_single.
  rewrite fdiv_F by lra.
  replace (INR n / INR n)%R with 1%R by (field; lra).
  unfold entr, F. rewrite (proj2 (Rltb_true 0 1)) by lra.
  fold (F (- (1) * ln 1)). rewrite fsum_single. unfold F.
  do 2 f_equal. rewrite ln_1. lra.
Qed.

Lemma entropy_nil : entropy [] = F 0.
Proof. reflexivity. Qed.

(** A column whose entries all round to the same value has entropy 0. *)
Lemma column_entropy_constant (column : list float) (v : float) :
  Forall (fun x => np_round x = v) column -> column_entropy column = F 0.
Proof.
  intros H. unfold column_entropy.
  destruct column as [|x column]; [reflexivity|].
  rewrite (unique_counts_constant (map np_round (x :: column)) v).
  - apply entropy_single. simpl. lia.
  - apply Forall_map. eapply Forall_impl; [|exact H]. simpl. auto.
  - discriminate.
Qed.

(** C10.  The weight of a column of the encoded real table whose entries
    all round to the same integer is 0; with that weight, the real-row pass
    still returns, and both weighted distances it returns (the least
    distance to the synthetic set and the second least distance to the real
    set) are an infinity or NaN: the division by the weight is not guarded. *)
Theorem zero_entropy_weight_unguarded
        (cols : list (list float)) (j : nat) (column : list float) (v : float)
        (row : list float) (real_array fake_array : matrix) (thres : list float) :
  nth_error cols j = Some column ->
  Forall (fun x => np_round x = v) column ->
  List.length row = List.length cols ->
  List.length thres = List.length cols ->
  width (List.length cols) real_array ->
  width (List.length cols) fake_array ->
  (2 <= List.length real_array)%nat ->
  (1 <= List.length fake_array)%nat ->
  nth_error (map column_entropy cols) j = Some (F 0)
  /\ exists r,
       min_dist_real_synth row real_array fake_array thres
                           (map column_entropy cols) = Ok r
       /\ not_finite (r_s_diff_min r)
       /\ not_finite (r_r_diff_min r).
Proof.
  intros Hj Hconst Hrow Hth Hreal Hfake Hn Hm.
  set (w := map column_entropy cols).
  assert (Hw : nth_error w j = Some (F 0)).
  { unfold w. rewrite nth_error_map, Hj. simpl.
    f_equal. apply (column_entropy_constant column v Hconst). }
  assert (Hlw : List.length w = List.length cols) by (unfold w; apply length_map).
  split; [exact Hw|].
  rewrite (min_dist_real_synth_eq (List.length cols)) by assumption.
  assert (Hnf : forall m, width (List.length cols) m ->
                  Forall not_finite (map (weighted_l2 w row) m)).
  { intros m Hwm. apply Forall_map. unfold width in Hwm.
    eapply Forall_impl; [|exact Hwm]. simpl. intros t Ht.
    apply (weighted_l2_zero_weight w row t j); congruence. }
  destruct (partition_two_Ok (map (weighted_l2 w row) real_array))
    as (first & second & -> & H1 & H2 & _).
  { rewrite length_map. exact Hn. }
  pose proof (Hnf real_array Hreal) as Hr. rewrite Forall_forall in Hr.
  destruct (np_min_not_finite (map (weighted_l2 w row) fake_array))
    as (m & -> & Hmin).
  { destruct fake_array; [simpl in Hm; lia|discriminate]. }
  { apply Hnf, Hfake. }
  cbn [bind]. eexists. split; [reflexivity|]. simpl. split; [exact Hmin|].
  destruct (fltb first second); auto.
Qed.

Lemma zero_entropy_weight_unguarded_witness :
  nth_error (map column_entropy [[F 1; F 1]; [F 0; F 2]]) 0 = Some (F 0)
  /\ exists r,
       min_dist_real_synth [F 1; F 0] [[F 1; F 0]; [F 1; F 2]] [[F 1; F 1]]
                           [F 0; F 0]
                           (map column_entropy [[F 1; F 1]; [F 0; F 2]]) = Ok r
       /\ not_finite (r_s_diff_min r)
       /\ not_finite (r_r_diff_min r).
Proof.
  apply (zero_entropy_weight_unguarded
           [[F 1; F 1]; [F 0; F 2]] 0 [F 1; F 1] (np_round (F 1))
           [F 1; F 0] [[F 1; F 0]; [F 1; F 2]] [[F 1; F 1]] [F 0; F 0]).
  - reflexivity.
  - repeat constructor.
  - reflexivity.
  - reflexivity.
  - repeat constructor.
  - repeat constructor.
  - simpl. lia.
  - simpl. lia.
Defined.

(** ** An exact copy *)

Lemma mapM_Ok_Forall {A B : Type} (f : A -> result B) (P : B -> Prop)
      (l : list A) :
  (forall a, In a l -> exists b, f a = Ok b /\ P b) ->
  exists bs, mapM f l = Ok bs /\ Forall P bs /\ List.length bs = List.length l.
Proof.
  induction l as [|a l IH]; simpl; intros H.
  - exists []. repeat split. constructor.
  - destruct (H a (or_introl eq_refl)) as (b & -> & Hb).
    destruct IH as (bs & -> & Hbs & Hlen); [auto|].
    exists (b :: bs). simpl. repeat split; [constructor; assumption|congruence].
Qed.

Lemma somes_finite (l : list float) : Forall finite l -> map Some (somes l) = l.
Proof.
  induction 1 as [|x l [r ->] Hl IH]; simpl; [reflexivity|].
  unfold F. rewrite IH. reflexivity.
Qed.

Lemma np_maximum_F (a b : R) :
  exists m, np_maximum (F a) (F b) = F m /\ (a <= m)%R.
Proof.
  unfold np_maximum, F; simpl. unfold Rltb. destruct (Rlt_dec a b).
  - exists b. split; [reflexivity|lra].
  - exists a. split; [reflexivity|lra].
Qed.

Lemma np_minimum_F (a b : R) :
  exists m, np_minimum (F a) (F b) = F m /\ (m <= a)%R.
Proof.
  unfold np_minimum, F; simpl. unfold Rltb. destruct (Rlt_dec b a).
  - exists b. split; [reflexivity|lra].
  - exists a. split; [reflexivity|lra].
Qed.

Lemma fold_np_maximum (l : list float) (a : R) :
  Forall finite l -> exists m, fold_left np_maximum l (F a) = F m /\ (a <= m)%R.
Proof.
  intros H. revert a. induction H as [|x l [b ->] Hl IH]; cbn [fold_left]; intros a.
  - exists a. split; [reflexivity|lra].
  - destruct (np_maximum_F a b) as (m & -> & Hm).
    destruct (IH m) as (m' & -> & Hm'). exists m'. split; [reflexivity|lra].
Qed.

Lemma fold_np_minimum (l : list float) (a : R) :
  Forall finite l -> exists m, fold_left np_minimum l (F a) = F m /\ (m <= a)%R.
Proof.
  intros H. revert a. induction H as [|x l [b ->] Hl IH]; cbn [fold_left]; intros a.
  - exists a. split; [reflexivity|lra].
  - destruct (np_minimum_F a b) as (m & -> & Hm).
    destruct (IH m) as (m' & -> & Hm'). exists m'. split; [reflexivity|lra].
Qed.

(** The range of a non-empty column of finite numbers is a number, not
    negative. *)
Lemma col_range_nonneg (l : list float) :
  l <> [] -> Forall finite l -> nonneg (fsub (col_max l) (col_min l)).
Proof.
  intros Hne H. unfold col_max, col_min, skipna_fold.
  rewrite (somes_finite l H).
  destruct H as [|x l [a ->] Hl]; [congruence|].
  destruct (fold_np_maximum l a Hl) as (M & -> & HM).
  destruct (fold_np_minimum l a Hl) as (m & -> & Hm).
  exists (M + - m)%R. split; [reflexivity|lra].
Qed.

Lemma fmul_nonneg (a : R) (x : float) :
  (0 <= a)%R -> nonneg x -> nonneg (fmul (F a) x).
Proof.
  intros Ha (b & -> & Hb). exists (a * b)%R. split; [reflexivity|nra].
Qed.

Lemma within_self (thres a : list float) :
  Forall finite a -> Forall nonneg thres -> within thres a a = true.
Proof.
  intros Ha Ht. unfold within. apply forallb_forall. intros h Hh.
  pose proof (zip_with_fsub_self a Ha) as Hz.
  assert (G : Forall (fun h => h = true)
                     (zip_with (fun x t => fleb (fabs x) t) (zip_with fsub a a) thres)).
  { apply (zip_with_Forall _ (fun x => x = F 0) nonneg); [|assumption|assumption].
    intros x t -> (b & -> & Hb). unfold fleb, fabs, fltb, feqb, F; simpl.
    rewrite Rabs_R0. unfold Rltb, Reqb.
    destruct (Rlt_dec 0 b); [reflexivity|].
    destruct (Req_dec_T 0 b); [reflexivity|lra]. }
  rewrite Forall_forall in G. auto.
Qed.

(** A row of the real array is at distance 0 from the array. *)
Lemma min_l2_distance_of_member (p : nat) (row : list float) (real_array : matrix) :
  In row real_array -> width p real_array -> finite_matrix real_array ->
  (2 <= List.length real_array)%nat ->
  exists s, min_l2_distance row real_array = Ok s /\ s_r_l2_min_1 s = F 0.
Proof.
  intros Hin Hw Hfin Hlen.
  assert (Hrow : Forall finite row).
  { unfold finite_matrix in Hfin. rewrite Forall_forall in Hfin. auto. }
  assert (Hp : List.length row = p).
  { unfold width in Hw. rewrite Forall_forall in Hw. auto. }
  unfold min_l2_distance.
  rewrite (euclidean_distance_unweighted p) by assumption. cbn [bind].
  destruct (partition_two_Ok (map (l2 row) real_array))
    as (first & second & -> & H1 & H2 & Hle & Hall).
  { rewrite length_map. exact Hlen. }
  assert (Hnn : forall x, In x (map (l2 row) real_array) -> nonneg x).
  { intros x Hx. apply (In_map_nonneg (l2 row) real_array x); [|exact Hx].
    intros t Ht. apply l2_nonneg; [assumption|].
    unfold finite_matrix in Hfin. rewrite Forall_forall in Hfin. auto. }
  destruct (Hnn _ H1) as (a & -> & Ha). destruct (Hnn _ H2) as (b & -> & Hb).
  assert (H0 : In (F 0) (map (l2 row) real_array)).
  { rewrite <- (l2_self row Hrow). apply in_map, Hin. }
  apply Hall, sort_leb_F in H0. apply sort_leb_F in Hle.
  assert (a = 0%R) as -> by lra. cbn [bind].
  destruct (fltb (F 0) (F b)) eqn:E.
  - eexists. split; reflexivity.
  - assert (b = 0%R) as ->.
    { destruct (Rlt_dec 0 b) as [Hlt|]; [|lra].
      apply fltb_F in Hlt. congruence. }
    eexists. split; reflexivity.
Qed.

(** A row of the real array is hit when the synthetic array is the real
    array. *)
Lemma min_dist_real_synth_of_copy (p : nat) (row : list float)
      (real_array : matrix) (thres w : list float) :
  In row real_array -> width p real_array -> finite_matrix real_array ->
  (2 <= List.length real_array)%nat ->
  List.length w = p -> List.length thres = p -> Forall nonneg thres ->
  exists s, min_dist_real_synth row real_array real_array thres w = Ok s
            /\ hit s = true.
Proof.
  intros Hin Hw Hfin Hlen Hlw Hlt Hth.
  assert (Hrow : Forall finite row).
  { unfold finite_matrix in Hfin. rewrite Forall_forall in Hfin. auto. }
  assert (Hp : List.length row = p).
  { unfold width in Hw. rewrite Forall_forall in Hw. auto. }
  rewrite (min_dist_real_synth_eq p) by assumption.
  destruct (partition_two_Ok (map (weighted_l2 w row) real_array))
    as (first & second & -> & _).
  { rewrite length_map. exact Hlen. }
  cbn [bind].
  destruct (map (weighted_l2 w row) real_array) as [|d ds] eqn:Ed.
  { destruct real_array; [simpl in Hlen; lia|discriminate]. }
  cbn [np_min bind]. eexists. split; [reflexivity|]. cbn [hit].
  apply existsb_exists. exists true. split; [|reflexivity].
  rewrite <- (within_self thres row Hrow Hth). apply in_map, Hin.
Qed.

Lemma values_finite (df : DataFrame) (N : nat) :
  finite_frame N df -> nrows df = N ->
  exists M, values df = Ok M /\ List.length M = N
            /\ width (List.length df) M /\ finite_matrix M.
Proof.
  intros Hdf Hn. unfold values.
  destruct (mapM_Ok_Forall (fun nc => to_floats (snd nc))
              (fun l => List.length l = N /\ Forall finite l) df)
    as (cols & -> & Hcols & Hlen).
  { intros [n c] Hin. destruct (Hdf n c Hin) as (l & Hl & H1 & H2). eauto. }
  cbn [bind]. eexists. split; [reflexivity|].
  rewrite Hn. split; [rewrite length_map, length_seq; reflexivity|].
  split.
  - unfold width. apply Forall_map, Forall_forall. intros i _.
    unfold row_at. rewrite length_map. exact Hlen.
  - unfold finite_matrix. apply Forall_map, Forall_forall. intros i Hi.
    apply in_seq in Hi. unfold row_at. apply Forall_map.
    eapply Forall_impl; [|exact Hcols]. simpl. intros c [Hc Hf].
    rewrite Forall_forall in Hf. apply Hf, nth_In. lia.
Qed.

Lemma thresholds_nonneg (ds : Dataset) (tp : R) (df : DataFrame) (N : nat) :
  finite_frame N df -> (1 <= N)%nat -> (0 <= tp)%R ->
  exists th, thresholds ds (F tp) df = Ok th
             /\ List.length th = List.length df /\ Forall nonneg th.
Proof.
  intros Hdf HN Htp. unfold thresholds.
  destruct (mapM_Ok_Forall
              (fun nc => l <- to_floats (snd nc) ;;
                 Ok (if existsb (String.eqb (fst nc))
                                (get_categories ds ++ [y_label (config ds)])
                     then F 0
                     else fmul (F tp) (fsub (col_max l) (col_min l))))
              nonneg df) as (th & Hth & Hnn & Hlen).
  { intros [n c] Hin. cbn [fst snd].
    destruct (Hdf n c Hin) as (l & -> & H1 & H2).
    cbn [bind]. eexists. split; [reflexivity|].
    destruct (existsb _ _).
    - exists 0%R. split; [reflexivity|lra].
    - apply fmul_nonneg; [assumption|]. apply col_range_nonneg; [|assumption].
      destruct l; [simpl in H1; lia|discriminate]. }
  exists th. auto.
Qed.

Lemma col_mean_zero (l : list float) :
  l <> [] -> Forall (fun x => x = F 0) l -> col_mean l = F 0.
Proof.
  intros Hne H. unfold col_mean.
  assert (Hf : Forall finite l).
  { eapply Forall_impl; [|exact H]. simpl. intros x ->. apply finite_F. }
  pose proof (somes_finite l Hf) as Hs.
  destruct (somes l) as [|e xs] eqn:E.
  - exfalso. apply Hne. rewrite <- Hs. reflexivity.
  - rewrite Hs. unfold fsum. rewrite (fold_fadd_zero l H).
    unfold of_nat. rewrite fdiv_F.
    + unfold F. do 2 f_equal. unfold Rdiv. apply Rmult_0_l.
    + apply not_0_INR. simpl. lia.
Qed.

Lemma count_true_all (l : list bool) :
  Forall (fun b => b = true) l -> count_true l = List.length l.
Proof.
  unfold count_true. induction 1 as [|b l -> Hl IH]; simpl; congruence.
Qed.

(** C6, as the code has it.  When the synthetic tables are the real tables
    and the encoded real table has [N >= 2] rows of finite numbers, the
    distance pass returns, with a non-negative threshold share; the mean
    distance to the closest record is 0 and the hitting rate is 1. *)
Theorem copy_has_zero_distance_and_full_hits
        (ds : Dataset) (tp : R) (real_data gen_data : DataFrame) (N : nat) :
  X_gen ds = X ds -> y_gen ds = y ds ->
  get_single_encoded_data ds = Ok (real_data, gen_data) ->
  finite_frame N real_data ->
  nrows real_data = N -> nrows (X ds) = N ->
  (2 <= N)%nat -> (0 <= tp)%R ->
  exists synth stats,
    compute_distances_hits ds (F tp) = Ok (synth, stats)
    /\ mean_distance_closest_record synth = F 0
    /\ hitting_rate ds stats = F 1.
Proof.
  intros HXg Hyg Henc Hfin Hn HnX HN Htp.
  assert (Hsame : gen_data = real_data).
  { unfold get_single_encoded_data in Henc. rewrite HXg, Hyg in Henc.
    destruct (encode_categories ds (X ds)); [|discriminate].
    destruct (encode_labels ds (y ds)); [|discriminate].
    simpl in Henc. congruence. }
  subst gen_data. unfold compute_distances_hits. rewrite Henc. cbn [bind].
  destruct (values_finite real_data N Hfin Hn) as (M & -> & HlM & HwM & HfM).
  cbn [bind].
  destruct (mapM_Ok_Forall (fun row => min_l2_distance row M)
              (fun s => s_r_l2_min_1 s = F 0) M) as (synth & -> & Hsy & Hls).
  { intros row Hin.
    apply (min_l2_distance_of_member (List.length real_data)); auto. lia. }
  cbn [bind].
  destruct (thresholds_nonneg ds tp real_data N Hfin) as (th & -> & Hlt & Hth);
    [lia|assumption|].
  cbn [bind].
  destruct (mapM_Ok_Forall
              (fun nc => l <- to_floats (snd nc) ;; Ok (column_entropy l))
              (fun _ => True) real_data) as (w & -> & _ & Hlw).
  { intros [n c] Hin. cbn [fst snd].
    destruct (Hfin n c Hin) as (l & -> & _).
    cbn [bind]. eauto. }
  cbn [bind].
  destruct (mapM_Ok_Forall
              (fun row => min_dist_real_synth row M M th w)
              (fun s => hit s = true) M) as (stats & -> & Hst & Hlst).
  { intros row Hin.
    apply (min_dist_real_synth_of_copy (List.length real_data)); auto. lia. }
  cbn [bind]. exists synth, stats. split; [reflexivity|]. split.
  - unfold mean_distance_closest_record. apply col_mean_zero.
    + destruct synth; [simpl in Hls; lia|discriminate].
    + apply Forall_map. exact Hsy.
  - unfold hitting_rate. rewrite count_true_all by (apply Forall_map; exact Hst).
    rewrite length_map, Hlst, HlM, HnX. unfold of_nat.
    rewrite fdiv_F by (apply not_0_INR; lia).
    unfold F. do 2 f_equal. field. apply not_0_INR. lia.
Qed.

Example one_row_is_fitted :
  (ds <- get_label_encoders one_row ;; compute_categories ds) = Ok one_row.
Proof. reflexivity. Qed.

Lemma toy_encoded_finite : finite_frame 3 toy_encoded.
Proof.
  intros n c H. simpl in H.
  repeat (destruct H as [[= <- <-]|H];
          [eexists; split; [reflexivity|]; split; [reflexivity|];
           repeat constructor; apply finite_F|]).
  contradiction.
Qed.

Lemma copy_has_zero_distance_and_full_hits_witness :
  exists synth stats,
    compute_distances_hits toy_copy (F (3 / 10)) = Ok (synth, stats)
    /\ mean_distance_closest_record synth = F 0
    /\ hitting_rate toy_copy stats = F 1.
Proof.
  apply (copy_has_zero_distance_and_full_hits
           toy_copy (3 / 10) toy_encoded toy_encoded 3).
  - reflexivity.
  - reflexivity.
  - reflexivity.
  - exact toy_encoded_finite.
  - reflexivity.
  - reflexivity.
  - lia.
  - lra.
Defined.

(** For a table with a single row the pass raises: it asks for the two
    nearest real rows, and [np.partition(.., 1)] rejects an array with one
    entry. *)
Lemma copy_of_one_row_raises :
  X_gen one_row = X one_row /\ y_gen one_row = y one_row
  /\ compute_distances_hits one_row (F (3 / 10)) = Raise ValueError
  /\ ~ (exists synth stats,
          compute_distances_hits one_row (F (3 / 10)) = Ok (synth, stats)
          /\ mean_distance_closest_record synth = F 0
          /\ hitting_rate one_row stats = F 1).
Proof.
  assert (E : compute_distances_hits one_row (F (3 / 10)) = Raise ValueError).
  { unfold compute_distances_hits.
    replace (get_single_encoded_data one_row)
      with (Ok ([("c"%string, IntCol [0%Z]); ("b"%string, IntCol [0%Z]);
                 ("x"%string, FloatCol [F 1]); ("label"%string, IntCol [0%Z])],
                [("c"%string, IntCol [0%Z]); ("b"%string, IntCol [0%Z]);
                 ("x"%string, FloatCol [F 1]); ("label"%string, IntCol [0%Z])]))
      by reflexivity.
    cbn [bind].
    replace (values [("c"%string, IntCol [0%Z]); ("b"%string, IntCol [0%Z]);
                     ("x"%string, FloatCol [F 1]); ("label"%string, IntCol [0%Z])])
      with (Ok [[of_int 0; of_int 0; F 1; of_int 0]]) by reflexivity.
    cbn [bind mapM]. unfold min_l2_distance.
    rewrite (euclidean_distance_unweighted 4) by (repeat constructor).
    reflexivity. }
  split; [reflexivity|]. split; [reflexivity|]. split; [exact E|].
  intros (synth & stats & H & _). rewrite E in H. discriminate.
Qed.

(** ** The Jensen-Shannon pass *)

Example swapped_is_fitted :
  (ds <- get_label_encoders swapped ;; compute_categories ds) = Ok swapped.
Proof. reflexivity. Qed.

Lemma F_eq (a b : R) : a = b -> F a = F b.
Proof. intros ->. reflexivity. Qed.

Lemma fadd_F (a b : R) : fadd (F a) (F b) = F (a + b).
Proof. reflexivity. Qed.

Lemma fsum_two (a b : R) : fsum [F a; F b] = F (a + b).
Proof. unfold fsum; cbn [fold_left]. rewrite !fadd_F. apply F_eq. lra. Qed.

Lemma rel_entr_pos (a b : R) :
  (0 < a)%R -> (0 < b)%R -> rel_entr (F a) (F b) = F (a * ln (a / b)).
Proof.
  intros Ha Hb. unfold rel_entr, F.
  rewrite (proj2 (Rltb_true 0 a) Ha), (proj2 (Rltb_true 0 b) Hb). reflexivity.
Qed.

Lemma rel_entr_zero (b : R) : (0 < b)%R -> rel_entr (F 0) (F b) = F 0.
Proof.
  intros Hb. unfold rel_entr, F.
  rewrite (proj2 (Rltb_false 0 0)) by lra.
  rewrite (proj2 (Reqb_true 0 0) eq_refl).
  rewrite (proj2 (Rltb_false b 0)) by lra. reflexivity.
Qed.

Lemma fsqrt_F (a : R) : (0 <= a)%R -> fsqrt (F a) = F (sqrt a).
Proof.
  intros Ha. unfold fsqrt, F. rewrite (proj2 (Rltb_false a 0) Ha). reflexivity.
Qed.

Lemma ln_2_pos : (0 < ln 2)%R.
Proof. rewrite <- ln_1. apply ln_increasing; lra. Qed.

(** The code's argument: the two encoded columns themselves. *)
Lemma jensenshannon_of_swapped_codes :
  jensenshannon [F 0; F 1] [F 1; F 0] = Ok (F (sqrt (ln 2))).
Proof.
  unfold jensenshannon. rewrite !fsum_two. cbn [map].
  replace (0 + 1)%R with 1%R by lra. replace (1 + 0)%R with 1%R by lra.
  rewrite !fdiv_F by lra.
  replace (0 / 1)%R with 0%R by lra. replace (1 / 1)%R with 1%R by lra.
  rewrite broadcast_same_length by reflexivity.
  unfold zip_with. cbn [combine map fst snd bind]. rewrite !fadd_F.
  replace (0 + 1)%R with 1%R by lra. replace (1 + 0)%R with 1%R by lra.
  rewrite !fdiv_F by lra.
  rewrite !broadcast_same_length by reflexivity.
  unfold zip_with. cbn [combine map fst snd bind].
  rewrite rel_entr_zero by lra. rewrite rel_entr_pos by lra.
  replace (1 * ln (1 / (1 / 2)))%R with (ln 2).
  2:{ replace (1 / (1 / 2))%R with 2%R by field. lra. }
  rewrite !fsum_two, fadd_F, fdiv_F by lra.
  replace ((0 + ln 2 + (ln 2 + 0)) / 2)%R with (ln 2) by field.
  rewrite fsqrt_F by (left; exact ln_2_pos). reflexivity.
Qed.

(** The distributions the spec names: both columns hold each code once. *)
Lemma jensenshannon_of_swapped_counts :
  jensenshannon (value_counts 2 [0; 1]%Z) (value_counts 2 [1; 0]%Z) = Ok (F 0).
Proof.
  change (value_counts 2 [0; 1]%Z) with [F 1; F 1].
  change (value_counts 2 [1; 0]%Z) with [F 1; F 1].
  unfold jensenshannon. rewrite !fsum_two. cbn [map].
  rewrite !fdiv_F by lra.
  rewrite broadcast_same_length by reflexivity.
  unfold zip_with. cbn [combine map fst snd bind]. rewrite !fadd_F.
  rewrite !fdiv_F by lra.
  rewrite !broadcast_same_length by reflexivity.
  unfold zip_with. cbn [combine map fst snd bind].
  replace ((1 / (1 + 1) + 1 / (1 + 1)) / 2)%R with (1 / (1 + 1))%R by field.
  rewrite !rel_entr_pos by lra.
  replace (1 / (1 + 1) / (1 / (1 + 1)))%R with 1%R by field.
  rewrite ln_1. rewrite !fsum_two, fadd_F, fdiv_F by lra.
  rewrite fsqrt_F by lra.
  apply f_equal, F_eq.
  replace ((1 / (1 + 1) * 0 + 1 / (1 + 1) * 0 +
            (1 / (1 + 1) * 0 + 1 / (1 + 1) * 0)) / 2)%R with 0%R by field.
  apply sqrt_0.
Qed.

(** C4.  The pass hands the encoded columns themselves to [jensenshannon],
    not their value counts.  For the real column [a, b] and the synthetic
    column [b, a] the two value-count distributions are equal, at
    Jensen-Shannon distance 0, and the pass reports [sqrt (ln 2)]. *)
Theorem jensen_shannon_distance_of_raw_codes :
  jensen_shannon_distance swapped = Ok [("c"%string, F (sqrt (ln 2)))]
  /\ jensenshannon (value_counts 2 [0; 1]%Z) (value_counts 2 [1; 0]%Z) = Ok (F 0)
  /\ F (sqrt (ln 2)) <> F 0.
Proof.
  split; [|split].
  - unfold jensen_shannon_distance.
    replace (get_single_encoded_data swapped)
      with (Ok ([("c"%string, IntCol [0; 1]%Z); ("label"%string, IntCol [0; 1]%Z)],
                [("c"%string, IntCol [1; 0]%Z); ("label"%string, IntCol [1; 0]%Z)]))
      by reflexivity.
    cbn [bind].
    replace (getitem [("c"%string, IntCol [0; 1]%Z); ("label"%string, IntCol [0; 1]%Z)]
                     (get_categories swapped))
      with (Ok [("c"%string, IntCol [0; 1]%Z)]) by reflexivity.
    replace (getitem [("c"%string, IntCol [1; 0]%Z); ("label"%string, IntCol [1; 0]%Z)]
                     (get_categories swapped))
      with (Ok [("c"%string, IntCol [1; 0]%Z)]) by reflexivity.
    cbn [bind mapM fst snd].
    change (lookup "c" [("c"%string, IntCol [1; 0]%Z)]) with (Some (IntCol [1; 0]%Z)).
    cbn iota.
    change (to_floats (IntCol [0; 1]%Z)) with (Ok [F 0; F 1]).
    change (to_floats (IntCol [1; 0]%Z)) with (Ok [F 1; F 0]).
    cbn [bind]. rewrite jensenshannon_of_swapped_codes. reflexivity.
  - exact jensenshannon_of_swapped_counts.
  - intros H. injection H as H.
    pose proof (sqrt_lt_R0 (ln 2) ln_2_pos). lra.
Qed.

(** ** The correlation ratio *)

Lemma fold_fadd_F (l : list R) (a : R) :
  fold_left fadd (map F l) (F a) = F (a + Rsum l).
Proof.
  revert a. induction l as [|x l IH]; intros a; cbn [map fold_left Rsum fold_right].
  - apply F_eq. lra.
  - rewrite fadd_F, IH. apply F_eq. unfold Rsum. lra.
Qed.

Lemma fsum_F (l : list R) : fsum (map F l) = F (Rsum l).
Proof. unfold fsum. rewrite fold_fadd_F. apply F_eq. lra. Qed.

Lemma zip_with_map_same {B C : Type} (op : float -> float -> C)
      (f g : B -> float) (l : list B) :
  zip_with op (map f l) (map g l) = map (fun b => op (f b) (g b)) l.
Proof.
  unfold zip_with. induction l as [|b l IH]; simpl; [reflexivity|].
  f_equal. exact IH.
Qed.

Lemma map_nth_seq {B C : Type} (phi : B -> C) (u : list B) (d : B) :
  map (fun i => phi (nth i u d)) (seq 0 (List.length u)) = map phi u.
Proof.
  induction u as [|b u IH]; simpl; [reflexivity|]. f_equal.
  rewrite <- seq_shift, map_map. exact IH.
Qed.

Lemma Rsum_app (a b : list R) : Rsum (a ++ b) = (Rsum a + Rsum b)%R.
Proof.
  unfold Rsum. induction a as [|x a IH]; simpl; [lra|]. rewrite IH. lra.
Qed.

Lemma Rsum_map_plus {B : Type} (f g : B -> R) (l : list B) :
  Rsum (map (fun b => f b + g b)%R l) = (Rsum (map f l) + Rsum (map g l))%R.
Proof.
  unfold Rsum. induction l as [|b l IH]; simpl; [lra|]. rewrite IH. lra.
Qed.

Lemma Rsum_map_ext {B : Type} (f g : B -> R) (l : list B) :
  (forall b, In b l -> f b = g b) -> Rsum (map f l) = Rsum (map g l).
Proof.
  intros H. f_equal. apply map_ext_in, H.
Qed.

Lemma Rsum_const_one {B : Type} (l : list B) :
  Rsum (map (fun _ => 1%R) l) = INR (List.length l).
Proof.
  unfold Rsum. induction l as [|b l IH]; [reflexivity|].
  cbn [map fold_right List.length]. rewrite IH, S_INR. lra.
Qed.

Lemma Rsum_nonneg_zero (l : list R) :
  Forall (fun x => (0 <= x)%R) l -> Rsum l = 0%R -> Forall (fun x => x = 0%R) l.
Proof.
  unfold Rsum. induction 1 as [|x l Hx Hl IH]; simpl; intros H; [constructor|].
  assert (0 <= fold_right Rplus 0 l)%R.
  { clear IH H. induction Hl; simpl; lra. }
  constructor; [lra|]. apply IH. lra.
Qed.

Section FactorizeFacts.
Context {A : Type} (ltb : A -> A -> bool).
Hypothesis Hord : strict_total ltb.

Lemma In_uniques (a : A) (l : list A) : In a (uniques ltb l) <-> In a l.
Proof.
  induction l as [|x l IH]; simpl; [tauto|].
  rewrite filter_In, IH. split.
  - intuition.
  - intros [->|H]; [auto|].
    destruct (same ltb x a) eqn:E.
    + apply (same_true_iff ltb Hord) in E. auto.
    + right. auto.
Qed.

Lemma NoDup_uniques (l : list A) : NoDup (uniques ltb l).
Proof.
  induction l as [|x l IH]; simpl; constructor.
  - rewrite filter_In. intros [_ H].
    rewrite (proj2 (same_true_iff ltb Hord x x) eq_refl) in H. discriminate.
  - apply NoDup_filter, IH.
Qed.

Lemma index_of_NoDup (u : list A) (a : A) (i : nat) :
  NoDup u -> nth_error u i = Some a -> index_of ltb a u = Some i.
Proof.
  intros Hnd. revert i. induction Hnd as [|x u Hx Hnd IH]; intros [|i]; simpl;
    try discriminate.
  - intros [= ->]. rewrite (proj2 (same_true_iff ltb Hord a a) eq_refl).
    reflexivity.
  - intros Hi. destruct (same ltb a x) eqn:E.
    + apply (same_true_iff ltb Hord) in E. subst.
      exfalso. apply Hx. eapply nth_error_In, Hi.
    + rewrite (IH i Hi). reflexivity.
Qed.

(** The code of a value is [i] exactly when the value is the [i]-th distinct
    value. *)
Lemma code_of_eqb (u : list A) (c : A) (i : nat) (g : A) :
  NoDup u -> In c u -> nth_error u i = Some g ->
  (code_of ltb u (Some c) =? Z.of_nat i)%Z = same ltb g c.
Proof.
  intros Hnd Hc Hg. simpl.
  destruct (index_of_In ltb Hord c u Hc) as (j & Hj & Hn). rewrite Hj.
  destruct (same ltb g c) eqn:E.
  - apply (same_true_iff ltb Hord) in E. subst g.
    rewrite (index_of_NoDup u c i Hnd Hg) in Hj. injection Hj as <-.
    apply Z.eqb_refl.
  - apply Z.eqb_neq. intros Hij. apply Nat2Z.inj in Hij. subst j.
    rewrite Hn in Hg. injection Hg as <-.
    rewrite (proj2 (same_true_iff ltb Hord c c) eq_refl) in E. discriminate.
Qed.

Lemma select_factorize (u cats : list A) (xs : list R) (i : nat) (g : A) :
  NoDup u -> (forall c, In c cats -> In c u) -> nth_error u i = Some g ->
  select (map (code_of ltb u) (map Some cats)) (map F xs) i
  = map F (selR ltb g (combine cats xs)).
Proof.
  intros Hnd Hin Hg. unfold select, selR. revert xs.
  induction cats as [|c cats IH]; intros [|x xs];
    cbn [map combine filter fst snd]; try reflexivity.
  rewrite (code_of_eqb u c i g Hnd (Hin c (or_introl eq_refl)) Hg).
  destruct (same ltb g c); cbn [map snd];
    rewrite IH by (intros; apply Hin; simpl; auto); reflexivity.
Qed.

Lemma Rsum_indicator (u : list A) (c : A) (a : R) :
  NoDup u -> In c u ->
  Rsum (map (fun g => if same ltb g c then a else 0%R) u) = a.
Proof.
  intros Hnd. unfold Rsum. induction Hnd as [|x u Hx Hnd IH]; simpl; [tauto|].
  intros [->|Hc].
  - rewrite (proj2 (same_true_iff ltb Hord c c) eq_refl).
    assert (E : fold_right Rplus 0%R
                  (map (fun g => if same ltb g c then a else 0%R) u) = 0%R).
    { clear IH Hnd. induction u as [|y u IHu]; simpl; [reflexivity|].
      destruct (same ltb y c) eqn:E.
      - apply (same_true_iff ltb Hord) in E. subst. exfalso. apply Hx. simpl; auto.
      - rewrite IHu; [lra|]. intros H. apply Hx. simpl; auto. }
    rewrite E. lra.
  - destruct (same ltb x c) eqn:E.
    + apply (same_true_iff ltb Hord) in E. subst. contradiction.
    + rewrite (IH Hc). lra.
Qed.

(** Summing group by group is summing over all rows. *)
Lemma Rsum_by_group (f : R -> R) (u : list A) (rows : list (A * R)) :
  NoDup u -> (forall cx, In cx rows -> In (fst cx) u) ->
  Rsum (map (fun g => Rsum (map f (selR ltb g rows))) u)
  = Rsum (map f (map snd rows)).
Proof.
  intros Hnd. induction rows as [|[c x] rows IH]; intros Hin.
  - unfold selR; simpl. unfold Rsum. clear Hnd Hin.
    induction u as [|g u IHu]; simpl; [reflexivity|].
    rewrite IHu. lra.
  - rewrite (Rsum_map_ext _
               (fun g => (if same ltb g c then f x else 0) +
                         Rsum (map f (selR ltb g rows)))%R).
    + rewrite Rsum_map_plus, IH by (intros; apply Hin; simpl; auto).
      rewrite (Rsum_indicator u c (f x) Hnd (Hin (c, x) (or_introl eq_refl))).
      reflexivity.
    + intros g _. unfold selR. simpl. destruct (same ltb g c); simpl.
      * unfold Rsum. simpl. reflexivity.
      * lra.
Qed.
End FactorizeFacts.

Lemma np_max_int_is (l : list Z) (m : Z) :
  In m l -> (forall x, In x l -> (x <= m)%Z) -> np_max_int l = Ok m.
Proof.
  destruct l as [|a l]; [contradiction|]. intros Hin Hle. unfold np_max_int.
  f_equal.
  assert (G : forall acc, (acc <= m)%Z -> (In m l \/ acc = m) ->
                (forall x, In x l -> (x <= m)%Z) -> fold_left Z.max l acc = m).
  { clear. induction l as [|b l IH]; simpl; intros acc Hacc Hm Hle.
    - destruct Hm as [Hm|Hm]; [contradiction|assumption].
    - apply IH.
      + pose proof (Hle b (or_introl eq_refl)). lia.
      + destruct Hm as [[Hm|Hm]|Hm]; [right; lia|auto|].
        subst acc.
        right. pose proof (Hle b (or_introl eq_refl)). lia.
      + auto. }
  apply G.
  - apply Hle. simpl; auto.
  - destruct Hin as [->|Hin]; auto.
  - intros x Hx. apply Hle. simpl; auto.
Qed.

Lemma combine_map_snd {B : Type} (a : list B) (b : list R) :
  List.length a = List.length b -> map snd (combine a b) = b.
Proof.
  revert b. induction a as [|x a IH]; intros [|y b]; simpl; try discriminate;
    [reflexivity|].
  intros [= H]. f_equal. auto.
Qed.

Lemma In_combine_l_ex {B : Type} (a : list B) (b : list R) (x : B) :
  List.length a = List.length b -> In x a -> exists y, In (x, y) (combine a b).
Proof.
  revert b. induction a as [|x' a IH]; intros [|y b]; simpl; try discriminate;
    [tauto|].
  intros [= H] [->|Hx]; [eauto|].
  destruct (IH b H Hx) as (y' & Hy). eauto.
Qed.

Lemma filter_negb_isnan_F (l : list R) :
  filter (fun x => negb (isnan x)) (map F l) = map F l.
Proof. induction l as [|x l IH]; simpl; congruence. Qed.

Lemma series_sum_F (l : list R) : series_sum (map F l) = F (Rsum l).
Proof. unfold series_sum. rewrite filter_negb_isnan_F. apply fsum_F. Qed.

Lemma np_average_F (m : list R) :
  m <> [] -> np_average (map F m) = F (Rmean m).
Proof.
  intros H. unfold np_average, Rmean, of_nat.
  rewrite fsum_F, length_map, fdiv_F; [reflexivity|].
  apply not_0_INR. destruct m; [congruence|discriminate].
Qed.

Lemma feqb_F (a b : R) : feqb (F a) (F b) = Reqb a b.
Proof. reflexivity. Qed.

Lemma Rmean_constant (m : list R) (mu : R) :
  m <> [] -> Forall (fun x => x = mu) m -> Rmean m = mu.
Proof.
  intros Hne H. unfold Rmean.
  assert (E : Rsum m = (INR (List.length m) * mu)%R).
  { clear Hne. unfold Rsum. induction H as [|x m -> Hm IH].
    - simpl. lra.
    - cbn [fold_right List.length]. rewrite IH, S_INR. lra. }
  rewrite E. field. apply not_0_INR. destruct m; [congruence|discriminate].
Qed.

Section CorrelationRatioFacts.
Context {A : Type} (ltb : A -> A -> bool).
Hypothesis Hord : strict_total ltb.

Lemma selR_nonempty (cats : list A) (xs : list R) (g : A) :
  List.length cats = List.length xs -> In g cats ->
  selR ltb g (combine cats xs) <> [].
Proof.
  intros Hlen Hg. destruct (In_combine_l_ex cats xs g Hlen Hg) as (y & Hy).
  assert (Hin : In y (selR ltb g (combine cats xs))).
  { unfold selR. apply in_map_iff. exists (g, y). split; [reflexivity|].
    apply filter_In. split; [assumption|]. simpl.
    apply (same_true_iff ltb Hord). reflexivity. }
  intros E. rewrite E in Hin. contradiction.
Qed.

Lemma selR_subset (cats : list A) (xs : list R) (g : A) (y : R) :
  In y (selR ltb g (combine cats xs)) -> In y xs.
Proof.
  unfold selR. intros H. apply in_map_iff in H as ([c x] & <- & H).
  apply filter_In in H as [H _]. apply in_combine_r in H. exact H.
Qed.

Lemma factorize_max (cats : list A) :
  cats <> [] ->
  np_max_int (pd_factorize ltb (map Some cats))
  = Ok (Z.of_nat (List.length (uniques ltb cats)) - 1)%Z.
Proof.
  intros Hne. unfold pd_factorize. rewrite somes_map_Some.
  set (u := uniques ltb cats).
  assert (Hnd : NoDup u) by apply (NoDup_uniques ltb Hord).
  assert (HK : (1 <= List.length u)%nat).
  { destruct cats as [|c cats]; [congruence|]. simpl. lia. }
  apply np_max_int_is.
  - destruct (nth_error_lt_Some u (List.length u - 1)) as (g & Hg); [lia|].
    assert (Hgc : In g cats).
    { apply (In_uniques ltb Hord). eapply nth_error_In, Hg. }
    replace (Z.of_nat (List.length u) - 1)%Z
      with (code_of ltb u (Some g)).
    + apply in_map, in_map, Hgc.
    + simpl. rewrite (index_of_NoDup ltb Hord u g _ Hnd Hg). lia.
  - intros x Hx. apply in_map_iff in Hx as (v & <- & Hv).
    apply in_map_iff in Hv as (c & <- & Hc). simpl.
    destruct (index_of_In ltb Hord c u) as (i & -> & Hi).
    + apply (In_uniques ltb Hord), Hc.
    + apply nth_error_Some_lt in Hi. lia.
Qed.

(** When the measurements do not vary, no group mean differs from the
    overall mean. *)
Lemma between_zero_when_total_zero (cats : list A) (xs : list R) (mu : R) :
  List.length cats = List.length xs ->
  Rsum (map (fun x => (x + - mu) * (x + - mu))%R xs) = 0%R ->
  Rsum (map (fun g =>
               INR (List.length (selR ltb g (combine cats xs)))
               * ((Rmean (selR ltb g (combine cats xs)) + - mu)
                  * (Rmean (selR ltb g (combine cats xs)) + - mu)))%R
            (uniques ltb cats)) = 0%R.
Proof.
  intros Hlen Hden.
  assert (Hall : forall x, In x xs -> x = mu).
  { apply Rsum_nonneg_zero in Hden.
    - intros x Hx. rewrite Forall_forall in Hden.
      specialize (Hden _ (in_map (fun x => (x + - mu) * (x + - mu))%R xs x Hx)).
      cbv beta in Hden. apply Rsqr_0_uniq in Hden. lra.
    - apply Forall_map, Forall_forall. intros x _. apply Rle_0_sqr. }
  rewrite (Rsum_map_ext _ (fun _ => 0%R)).
  - unfold Rsum. induction (uniques ltb cats) as [|g u IH]; simpl; lra.
  - intros g Hg. apply (proj1 (In_uniques ltb Hord g cats)) in Hg.
    rewrite (Rmean_constant (selR ltb g (combine cats xs)) mu).
    + ring.
    + apply (selR_nonempty cats xs g Hlen Hg).
    + apply Forall_forall. intros y Hy. apply Hall.
      apply (selR_subset cats xs g y Hy).
Qed.

Lemma ratio_of_codes_spec (cats : list A) (xs : list R) (m : column) :
  to_floats m = Ok (map F xs) ->
  List.length cats = List.length xs -> (1 <= List.length xs)%nat ->
  ratio_of_codes (pd_factorize ltb (map Some cats)) m
  = Ok (F (eta_squared ltb cats xs)).
Proof.
  intros Hm Hlen HN.
  assert (Hne : cats <> []).
  { destruct cats; [simpl in Hlen; lia|discriminate]. }
  unfold ratio_of_codes. rewrite (factorize_max cats Hne). cbn [bind].
  replace (Z.to_nat (Z.of_nat (List.length (uniques ltb cats)) - 1 + 1))
    with (List.length (uniques ltb cats)) by lia.
  rewrite Hm. cbn [bind]. unfold pd_factorize. rewrite somes_map_Some.
  set (u := uniques ltb cats). set (rows := combine cats xs).
  assert (Hnd : NoDup u) by apply (NoDup_uniques ltb Hord).
  assert (Hu : forall g, In g u -> In g cats).
  { intros g. apply (In_uniques ltb Hord). }
  assert (Hcm : map (select (map (code_of ltb u) (map Some cats)) (map F xs))
                    (seq 0 (List.length u))
                = map (fun g => map F (selR ltb g rows)) u).
  { destruct cats as [|d cats']; [congruence|].
    rewrite <- (map_nth_seq (fun g => map F (selR ltb g rows)) u d).
    apply map_ext_in. intros i Hi. apply in_seq in Hi.
    apply (select_factorize ltb Hord); [assumption| |].
    - intros c Hc. apply (In_uniques ltb Hord), Hc.
    - apply nth_error_nth'. lia. }
  rewrite Hcm. clear Hcm.
  assert (En : map (fun g => of_nat (List.length g))
                   (map (fun g => map F (selR ltb g rows)) u)
               = map F (map (fun g => INR (List.length (selR ltb g rows))) u)).
  { rewrite !map_map. apply map_ext. intros g. rewrite length_map. reflexivity. }
  assert (Eavg : map np_average (map (fun g => map F (selR ltb g rows)) u)
                 = map F (map (fun g => Rmean (selR ltb g rows)) u)).
  { rewrite !map_map. apply map_ext_in. intros g Hg.
    apply np_average_F. apply selR_nonempty; auto. }
  rewrite En, Eavg. clear En Eavg.
  assert (R1 : Rsum (map (fun g => INR (List.length (selR ltb g rows))) u)
               = INR (List.length xs)).
  { rewrite (Rsum_map_ext _ (fun g => Rsum (map (fun _ => 1%R) (selR ltb g rows)))).
    - rewrite (Rsum_by_group ltb Hord (fun _ => 1%R) u rows Hnd).
      + rewrite Rsum_const_one, length_map. unfold rows.
        rewrite length_combine, Hlen, Nat.min_id. reflexivity.
      + intros [c x] Hcx. apply (In_uniques ltb Hord).
        apply in_combine_l in Hcx. exact Hcx.
    - intros g _. symmetry. apply Rsum_const_one. }
  assert (R2 : Rsum (map (fun g => Rmean (selR ltb g rows)
                                   * INR (List.length (selR ltb g rows)))%R u)
               = Rsum xs).
  { rewrite (Rsum_map_ext _ (fun g => Rsum (map (fun x => x) (selR ltb g rows)))).
    - rewrite (Rsum_by_group ltb Hord (fun x => x) u rows Hnd).
      + rewrite map_id. unfold rows. rewrite combine_map_snd by assumption.
        reflexivity.
      + intros [c x] Hcx. apply (In_uniques ltb Hord).
        apply in_combine_l in Hcx. exact Hcx.
    - intros g Hg. rewrite map_id. unfold Rmean. field.
      apply not_0_INR. pose proof (selR_nonempty cats xs g Hlen (Hu g Hg)) as Hs.
      fold rows in Hs. destruct (selR ltb g rows); [congruence|discriminate]. }
  assert (Etot : fdiv (fsum (zip_with fmul
                               (map F (map (fun g => Rmean (selR ltb g rows)) u))
                               (map F (map (fun g => INR (List.length (selR ltb g rows))) u))))
                      (fsum (map F (map (fun g => INR (List.length (selR ltb g rows))) u)))
                 = F (Rmean xs)).
  { rewrite !map_map, zip_with_map_same.
    change (map (fun b => fmul (F (Rmean (selR ltb b rows)))
                               (F (INR (List.length (selR ltb b rows))))) u)
      with (map (fun b => F (Rmean (selR ltb b rows)
                            * INR (List.length (selR ltb b rows)))) u).
    rewrite <- (map_map (fun b => (Rmean (selR ltb b rows)
                                   * INR (List.length (selR ltb b rows)))%R) F).
    rewrite <- (map_map (fun b => INR (List.length (selR ltb b rows))) F).
    rewrite !fsum_F, R1, R2. rewrite fdiv_F by (apply not_0_INR; lia).
    reflexivity. }
  cbv zeta. rewrite Etot. clear Etot.
  set (mu := Rmean xs).
  assert (Enum : fsum (zip_with fmul
                         (map F (map (fun g => INR (List.length (selR ltb g rows))) u))
                         (map (fun a => fsqr (fsub a (F mu)))
                              (map F (map (fun g => Rmean (selR ltb g rows)) u))))
                 = F (Rsum (map (fun g =>
                                   INR (List.length (selR ltb g rows))
                                   * ((Rmean (selR ltb g rows) + - mu)
                                      * (Rmean (selR ltb g rows) + - mu)))%R u))).
  { rewrite !map_map, zip_with_map_same.
    rewrite <- fsum_F, map_map. reflexivity. }
  assert (Eden : series_sum (map (fun x => fsqr (fsub x (F mu))) (map F xs))
                 = F (Rsum (map (fun x => (x + - mu) * (x + - mu))%R xs))).
  { rewrite <- series_sum_F, !map_map. reflexivity. }
  rewrite Enum, Eden. clear Enum Eden. rewrite feqb_F. f_equal.
  unfold eta_squared, total_variance, between_group_variance, members.
  fold u. fold rows. fold mu.
  assert (HNr : INR (List.length xs) <> 0%R) by (apply not_0_INR; lia).
  assert (T : Rsum (map (fun x => (x - mu) ^ 2)%R xs)
              = Rsum (map (fun x => (x + - mu) * (x + - mu))%R xs)).
  { apply Rsum_map_ext. intros x _. ring. }
  assert (B : Rsum (map (fun g =>
                      INR (List.length (selR ltb g rows))
                      * (Rmean (selR ltb g rows) - mu) ^ 2)%R u)
              = Rsum (map (fun g =>
                             INR (List.length (selR ltb g rows))
                             * ((Rmean (selR ltb g rows) + - mu)
                                * (Rmean (selR ltb g rows) + - mu)))%R u)).
  { apply Rsum_map_ext. intros g _. ring. }
  rewrite T, B. clear T B.
  set (NUM := Rsum (map (fun g =>
                           INR (List.length (selR ltb g rows))
                           * ((Rmean (selR ltb g rows) + - mu)
                              * (Rmean (selR ltb g rows) + - mu)))%R u)).
  set (DEN := Rsum (map (fun x => (x + - mu) * (x + - mu))%R xs)).
  assert (Hz : DEN = 0%R -> NUM = 0%R).
  { intros H. apply (between_zero_when_total_zero cats xs mu Hlen H). }
  destruct (Req_dec_T DEN 0) as [Hd|Hd].
  - rewrite (proj2 (Reqb_true NUM 0) (Hz Hd)).
    rewrite (proj2 (Reqb_true (DEN / INR (List.length xs)) 0)); [reflexivity|].
    rewrite Hd. unfold Rdiv. apply Rmult_0_l.
  - rewrite (proj2 (Reqb_false (DEN / INR (List.length xs)) 0)).
    2:{ intros H. apply Hd.
        apply (Rmult_eq_reg_r (/ INR (List.length xs))).
        - unfold Rdiv in H. rewrite H. ring.
        - apply Rinv_neq_0_compat, HNr. }
    destruct (Req_dec_T NUM 0) as [Hn|Hn].
    + rewrite (proj2 (Reqb_true NUM 0) Hn). apply F_eq. rewrite Hn. field.
      split; assumption.
    + rewrite (proj2 (Reqb_false NUM 0) Hn). rewrite fdiv_F by assumption.
      apply F_eq. field. split; assumption.
Qed.
End CorrelationRatioFacts.

Lemma no_none_map_Some {A : Type} (l : list (option A)) :
  existsb is_none l = false -> l = map Some (somes l).
Proof.
  induction l as [|[a|] l IH]; simpl; intros H; [reflexivity| |discriminate].
  f_equal. auto.
Qed.

Lemma somes_length {A : Type} (l : list (option A)) :
  existsb is_none l = false -> List.length (somes l) = List.length l.
Proof.
  intros H. rewrite (no_none_map_Some l H) at 2. rewrite length_map. reflexivity.
Qed.

Lemma correlation_ratio_spec (c m : column) (xs : list R) :
  has_missing c = false -> to_floats m = Ok (map F xs) ->
  column_length c = List.length xs -> (1 <= List.length xs)%nat ->
  correlation_ratio c m = Ok (F (column_eta_squared c xs)).
Proof.
  intros Hc Hm Hlen HN. unfold correlation_ratio.
  destruct c as [l|l|l]; cbn [factorize_column column_eta_squared];
    simpl in Hc, Hlen.
  - rewrite (no_none_map_Some l Hc) at 1.
    apply (ratio_of_codes_spec String.ltb string_order); auto.
    rewrite somes_length; assumption.
  - rewrite isnan_is_none in Hc. rewrite (no_none_map_Some l Hc) at 1.
    apply (ratio_of_codes_spec ereal_ltb ereal_order); auto.
    rewrite somes_length; assumption.
  - apply (ratio_of_codes_spec Z.ltb Z_order); auto.
Qed.

Lemma finite_values_length (c : column) (l : list float) :
  to_floats c = Ok l -> List.length (finite_values c) = column_length c.
Proof.
  destruct c; simpl; try discriminate; intros _; apply length_map.
Qed.

Lemma row_at_of_maps {B C : Type} (f : B -> C -> float) (bs : list B) (cs : list C) :
  map (row_at (map (fun b => map (f b) cs) bs)) (seq 0 (List.length cs))
  = map (fun c => map (fun b => f b c) bs) cs.
Proof.
  destruct cs as [|d cs']; [reflexivity|].
  set (cs := d :: cs').
  rewrite <- (map_nth_seq (fun c => map (fun b => f b c) bs) cs d).
  apply map_ext_in. intros i Hi. apply in_seq in Hi.
  unfold row_at. rewrite map_map. apply map_ext. intros b.
  rewrite (nth_indep _ NaN (f b d)) by (rewrite length_map; lia).
  apply map_nth.
Qed.

(** C8.  With no categorical column or no continuous column the result is
    the one-entry array [0.], without error.  Otherwise, for columns of [N]
    rows, the categorical ones without missing entry and the continuous ones
    finite, the result has one row per continuous column and one entry per
    categorical column: the between-group variance over the total variance
    of the continuous column grouped by the values of the categorical
    column, and 0 when the total variance is 0. *)
Theorem ratio_mat_is_correlation_ratio
        (df : DataFrame) (continuous_columns categorical_columns : list string)
        (N : nat) :
  (categorical_columns = [] \/ continuous_columns = [] ->
   ratio_mat df continuous_columns categorical_columns = Ok (Vec [F 0]))
  /\ (categorical_columns <> [] -> continuous_columns <> [] ->
      (1 <= N)%nat ->
      (forall n, In n categorical_columns ->
         exists c, lookup n df = Some c /\ has_missing c = false
                   /\ column_length c = N) ->
      (forall n, In n continuous_columns ->
         exists c, lookup n df = Some c
                   /\ to_floats c = Ok (map F (finite_values c))
                   /\ column_length c = N) ->
      ratio_mat df continuous_columns categorical_columns
      = Ok (Mat (map (fun cont_col =>
                        map (fun cat_col =>
                               F (column_eta_squared
                                    (col_of df cat_col)
                                    (finite_values (col_of df cont_col))))
                            categorical_columns)
                     continuous_columns))).
Proof.
  split.
  - intros [-> | ->]; unfold ratio_mat; simpl; [reflexivity|].
    rewrite orb_true_r. reflexivity.
  - intros Hcat Hcont HN Hcats Hconts. unfold ratio_mat.
    destruct categorical_columns as [|k0 ks]; [congruence|].
    destruct continuous_columns as [|m0 ms]; [congruence|].
    set (cats := k0 :: ks) in *. set (conts := m0 :: ms) in *.
    cbn [List.length Nat.eqb orb].
    rewrite (mapM_Ok_map _
               (fun cat_col =>
                  map (fun cont_col =>
                         F (column_eta_squared
                              (col_of df cat_col)
                              (finite_values (col_of df cont_col)))) conts)).
    + cbn [bind].
      change (S (List.length ms)) with (List.length conts).
      rewrite (row_at_of_maps
                 (fun cat_col cont_col =>
                    F (column_eta_squared (col_of df cat_col)
                                          (finite_values (col_of df cont_col))))
                 cats conts).
      reflexivity.
    + intros cat Hk. apply mapM_Ok_map. intros cont Hm.
      destruct (Hcats cat Hk) as (c & Hc & Hmiss & Hlc).
      destruct (Hconts cont Hm) as (m & Hlm & Hfl & Hlen).
      unfold getcol, col_of. rewrite Hc, Hlm. cbn [bind].
      pose proof (finite_values_length m _ Hfl) as Hfv.
      apply correlation_ratio_spec; [assumption|assumption|lia|lia].
Qed.

Lemma ratio_mat_is_correlation_ratio_witness :
  ratio_mat toy_encoded ["x"%string] ["c"; "b"]%string
  = Ok (Mat [[F (column_eta_squared (IntCol [0; 1; 0]%Z) [1; 2; 4]%R);
              F (column_eta_squared (IntCol [1; 0; 1]%Z) [1; 2; 4]%R)]]).
Proof.
  apply (proj2 (ratio_mat_is_correlation_ratio
                  toy_encoded ["x"%string] ["c"; "b"]%string 3)).
  - discriminate.
  - discriminate.
  - lia.
  - intros n [<-|[<-|[]]]; eexists; (split; [reflexivity|]);
      split; reflexivity.
  - intros n [<-|[]]. eexists. split; [reflexivity|]. split; reflexivity.
Defined.

(** ** The store *)

Lemma extends_refl (h : Store) : extends h h.
Proof. apply firstn_all. Qed.

Lemma extends_length (h0 h : Store) :
  extends h0 h -> (List.length h0 <= List.length h)%nat.
Proof.
  unfold extends. intros H.
  pose proof (f_equal (@List.length DataFrame) H) as E.
  rewrite length_firstn in E. lia.
Qed.

Lemma extends_app (h0 h : Store) (d : DataFrame) :
  extends h0 h -> extends h0 (h ++ [d]).
Proof.
  intros H. pose proof (extends_length h0 h H) as L. unfold extends in *.
  rewrite firstn_app. replace (List.length h0 - List.length h)%nat with 0%nat by lia.
  simpl. rewrite app_nil_r. exact H.
Qed.

Lemma firstn_update (h : Store) (l n : nat) (d : DataFrame) :
  (n <= l)%nat -> firstn n (update h l d) = firstn n h.
Proof.
  revert l n. induction h as [|x h IH]; intros l n Hn; [destruct l; reflexivity|].
  destruct l as [|l]; simpl.
  - replace n with 0%nat by lia. reflexivity.
  - destruct n as [|n]; [reflexivity|]. simpl. f_equal. apply IH. lia.
Qed.

Lemma extends_update (h0 h : Store) (l : loc) (d : DataFrame) :
  extends h0 h -> fresh h0 l -> extends h0 (update h l d).
Proof.
  unfold extends, fresh. intros H Hl. rewrite firstn_update; assumption.
Qed.

Lemma extends_nth_error (h0 h : Store) (l : loc) :
  extends h0 h -> (l < List.length h0)%nat -> nth_error h l = nth_error h0 l.
Proof.
  unfold extends. intros H Hl.
  transitivity (nth_error (firstn (List.length h0) h) l).
  - rewrite nth_error_firstn.
    destruct (Nat.ltb_spec l (List.length h0)); [reflexivity|lia].
  - rewrite H. reflexivity.
Qed.

Lemma keeps_ret {A : Type} (h0 : Store) (a : A) (Q : A -> Prop) :
  Q a -> keeps h0 (ret a) Q.
Proof.
  intros Ha h Hh. simpl. split; [assumption|]. intros b [= <-]. exact Ha.
Qed.

Lemma keeps_bind {A B : Type} (h0 : Store) (m : M A) (f : A -> M B)
      (Q : A -> Prop) (Q' : B -> Prop) :
  keeps h0 m Q -> (forall a, Q a -> keeps h0 (f a) Q') ->
  keeps h0 (bindM m f) Q'.
Proof.
  intros Hm Hf h Hh. unfold bindM. destruct (Hm h Hh) as [He Hq].
  destruct (m h) as [[a|e] h']; simpl in *.
  - apply (Hf a (Hq a eq_refl) h' He).
  - split; [assumption|discriminate].
Qed.

Lemma keeps_weaken {A : Type} (h0 : Store) (m : M A) (Q Q' : A -> Prop) :
  keeps h0 m Q -> (forall a, Q a -> Q' a) -> keeps h0 m Q'.
Proof.
  intros Hm HQ h Hh. destruct (Hm h Hh) as [He Hq]. split; auto.
Qed.

Lemma keeps_lift {A : Type} (h0 : Store) (r : result A) :
  keeps h0 (lift r) (fun _ => True).
Proof. intros h Hh. simpl. auto. Qed.

Lemma keeps_read (h0 : Store) (l : loc) : keeps h0 (read l) (fun _ => True).
Proof.
  intros h Hh. unfold read. destruct (nth_error h l); simpl; auto.
Qed.

Lemma keeps_new (h0 : Store) (d : DataFrame) : keeps h0 (new d) (fresh h0).
Proof.
  intros h Hh. unfold new; simpl. split; [apply extends_app, Hh|].
  intros l [= <-]. apply extends_length, Hh.
Qed.

Lemma keeps_write (h0 : Store) (l : loc) (d : DataFrame) :
  fresh h0 l -> keeps h0 (write l d) (fun _ => True).
Proof.
  intros Hl h Hh. unfold write; simpl. split; [|auto].
  apply extends_update; assumption.
Qed.

Lemma keeps_forM_ {A : Type} (h0 : Store) (f : A -> M unit) (l : list A) :
  (forall a, keeps h0 (f a) (fun _ => True)) ->
  keeps h0 (forM_ f l) (fun _ => True).
Proof.
  intros Hf. induction l as [|a l IH]; simpl.
  - apply keeps_ret. exact I.
  - eapply keeps_bind; [apply Hf|]. intros _ _. exact IH.
Qed.

Lemma keeps_df_copy (h0 : Store) (l : loc) : keeps h0 (df_copy l) (fresh h0).
Proof.
  unfold df_copy. eapply keeps_bind; [apply keeps_read|].
  intros d _. apply keeps_new.
Qed.

Lemma keeps_df_getitem (h0 : Store) (l : loc) (names : list string) :
  keeps h0 (df_getitem l names) (fresh h0).
Proof.
  unfold df_getitem. eapply keeps_bind; [apply keeps_read|]. intros d _.
  eapply keeps_bind; [apply keeps_lift|]. intros sub _. apply keeps_new.
Qed.

Lemma keeps_df_apply (h0 : Store) (f : column -> column) (l : loc) :
  keeps h0 (df_apply f l) (fresh h0).
Proof.
  unfold df_apply. eapply keeps_bind; [apply keeps_read|].
  intros d _. apply keeps_new.
Qed.

Lemma keeps_df_setitem (h0 : Store) (l other : loc) :
  fresh h0 l -> keeps h0 (df_setitem l other) (fun _ => True).
Proof.
  intros Hl. unfold df_setitem. eapply keeps_bind; [apply keeps_read|].
  intros d _. eapply keeps_bind; [apply keeps_read|].
  intros o _. apply keeps_write, Hl.
Qed.

Lemma keeps_pd_concat (h0 : Store) (l : loc) (n : string) (v : list Z) :
  keeps h0 (pd_concat l n v) (fresh h0).
Proof.
  unfold pd_concat. eapply keeps_bind; [apply keeps_read|].
  intros d _. apply keeps_new.
Qed.

Lemma keeps_fillNa_with (h0 : Store) (fill : column -> result column) (l : loc) :
  fresh h0 l -> keeps h0 (fillNa_with fill l) (fresh h0).
Proof.
  intros Hl. unfold fillNa_with. eapply keeps_bind; [apply keeps_read|].
  intros d _. eapply keeps_bind.
  - apply keeps_forM_. intros col.
    eapply keeps_bind; [apply keeps_read|]. intros d' _.
    eapply keeps_bind; [apply keeps_lift|]. intros c _.
    eapply keeps_bind; [apply keeps_lift|]. intros c' _.
    apply keeps_write, Hl.
  - intros _ _. apply keeps_ret, Hl.
Qed.

Section MetricsFacts.
Variable corrcoef : DataFrame -> result matrix.
Variable theils_u : column -> column -> result float.
Variable norm_of_difference : matrix -> matrix -> result float.
Variable norm_of_difference_nd : ndarray -> ndarray -> result float.
Variable pearson_abs_difference : DataFrame -> DataFrame -> result matrix.
Variable wasserstein : list float -> list float -> result float.
Variable self : Dataset.
Variable tables : Tables.
Variable h0 : Store.

Lemma keeps_encode_categories_st (df : loc) :
  keeps h0 (encode_categories_st self df) (fun _ => True).
Proof.
  unfold encode_categories_st. destruct (imbalanced (config self)).
  - apply keeps_ret. exact I.
  - eapply keeps_bind; [apply keeps_df_copy|]. intros X_enc HX.
    eapply keeps_bind; [apply keeps_df_getitem|]. intros sub _.
    eapply keeps_bind; [apply keeps_df_apply|]. intros enc _.
    eapply keeps_bind; [apply keeps_df_setitem, HX|]. intros _ _.
    apply keeps_ret. exact I.
Qed.

Lemma keeps_encode_labels_st (df : loc) :
  keeps h0 (encode_labels_st self df) (fun _ => True).
Proof.
  unfold encode_labels_st. eapply keeps_bind; [apply keeps_read|].
  intros d _. apply keeps_lift.
Qed.

Lemma keeps_get_single_encoded_data_st :
  keeps h0 (get_single_encoded_data_st self tables)
        (fun p => fresh h0 (fst p) /\ fresh h0 (snd p)).
Proof.
  unfold get_single_encoded_data_st.
  eapply keeps_bind; [apply keeps_encode_categories_st|]. intros X_real _.
  eapply keeps_bind; [apply keeps_encode_categories_st|]. intros X_gen' _.
  eapply keeps_bind; [apply keeps_encode_labels_st|]. intros y_real _.
  eapply keeps_bind; [apply keeps_encode_labels_st|]. intros y_gen' _.
  eapply keeps_bind; [apply keeps_pd_concat|]. intros real_data Hr.
  eapply keeps_bind; [apply keeps_pd_concat|]. intros gen_data Hg.
  apply keeps_ret. split; assumption.
Qed.

Lemma keeps_get_continuous_st :
  keeps h0 (get_continuous_st self tables) (fun _ => True).
Proof.
  unfold get_continuous_st. eapply keeps_bind; [apply keeps_read|].
  intros d _. apply keeps_ret. exact I.
Qed.

Lemma keeps_compute_correlations_st (df : loc) :
  keeps h0 (compute_correlations_st corrcoef theils_u self tables df)
        (fun _ => True).
Proof.
  unfold compute_correlations_st.
  eapply keeps_bind; [apply keeps_get_continuous_st|]. intros continuous _.
  eapply keeps_bind; [apply keeps_df_getitem|]. intros num_mat Hn.
  eapply keeps_bind; [apply keeps_df_getitem|]. intros cat_mat Hc.
  eapply keeps_bind; [apply keeps_fillNa_with, Hn|]. intros num_mat' _.
  eapply keeps_bind; [apply keeps_fillNa_with, Hc|]. intros cat_mat' _.
  eapply keeps_bind; [apply keeps_read|]. intros n _.
  eapply keeps_bind; [apply keeps_lift|]. intros pearson _.
  eapply keeps_bind; [apply keeps_read|]. intros c _.
  eapply keeps_bind; [apply keeps_lift|]. intros theils _.
  eapply keeps_bind; [apply keeps_get_continuous_st|]. intros continuous' _.
  eapply keeps_bind; [apply keeps_read|]. intros d _.
  eapply keeps_bind; [apply keeps_lift|]. intros ratio _.
  apply keeps_ret. exact I.
Qed.

Lemma keeps_get_correlations_st :
  keeps h0 (get_correlations_st corrcoef theils_u norm_of_difference
                                norm_of_difference_nd self tables)
        (fun _ => True).
Proof.
  unfold get_correlations_st.
  eapply keeps_bind; [apply keeps_get_single_encoded_data_st|].
  intros [real_data gen_data] _.
  eapply keeps_bind; [apply keeps_compute_correlations_st|].
  intros [[real_pear real_theils] real_ratio] _.
  eapply keeps_bind; [apply keeps_compute_correlations_st|].
  intros [[gen_pear gen_theils] gen_ratio] _.
  eapply keeps_bind; [apply keeps_lift|]. intros a _.
  eapply keeps_bind; [apply keeps_lift|]. intros b _.
  eapply keeps_bind; [apply keeps_lift|]. intros c _.
  apply keeps_ret. exact I.
Qed.

Lemma keeps_get_pearson_correlation_st :
  keeps h0 (get_pearson_correlation_st pearson_abs_difference self tables)
        (fun _ => True).
Proof.
  unfold get_pearson_correlation_st.
  eapply keeps_bind; [apply keeps_get_single_encoded_data_st|].
  intros [real_data gen_data] _.
  eapply keeps_bind; [apply keeps_read|]. intros r _.
  eapply keeps_bind; [apply keeps_read|]. intros g _.
  apply keeps_lift.
Qed.

Lemma keeps_compute_distances_hits_st (thres_percent : float) :
  keeps h0 (compute_distances_hits_st self tables thres_percent) (fun _ => True).
Proof.
  unfold compute_distances_hits_st.
  eapply keeps_bind; [apply keeps_get_single_encoded_data_st|].
  intros [real_data gen_data] _.
  eapply keeps_bind; [apply keeps_df_copy|]. intros real_ddf Hr.
  eapply keeps_bind; [apply keeps_df_copy|]. intros gen_ddf Hg.
  eapply keeps_bind; [apply keeps_read|]. intros r _.
  eapply keeps_bind; [apply keeps_lift|]. intros real_array _.
  eapply keeps_bind; [apply keeps_read|]. intros g _.
  eapply keeps_bind; [apply keeps_lift|]. intros fake_array _.
  eapply keeps_bind; [apply keeps_lift|]. intros synth_dists _.
  eapply keeps_bind; [apply keeps_write, Hg|]. intros _ _.
  eapply keeps_bind; [apply keeps_read|]. intros d _.
  eapply keeps_bind; [apply keeps_lift|]. intros thres _.
  eapply keeps_bind; [apply keeps_lift|]. intros w _.
  eapply keeps_bind; [apply keeps_lift|]. intros real_hits_diffs _.
  eapply keeps_bind; [apply keeps_write, Hr|]. intros _ _.
  apply keeps_ret. exact I.
Qed.

Lemma keeps_jensen_shannon_distance_st :
  keeps h0 (jensen_shannon_distance_st self tables) (fun _ => True).
Proof.
  unfold jensen_shannon_distance_st.
  eapply keeps_bind; [apply keeps_get_single_encoded_data_st|].
  intros [real_data gen_data] _.
  eapply keeps_bind; [apply keeps_df_getitem|]. intros real_data' _.
  eapply keeps_bind; [apply keeps_df_getitem|]. intros gen_data' _.
  eapply keeps_bind; [apply keeps_read|]. intros r _.
  eapply keeps_bind; [apply keeps_read|]. intros g _.
  apply keeps_lift.
Qed.

Lemma keeps_wasserstein_distance_st :
  keeps h0 (wasserstein_distance_st wasserstein self tables) (fun _ => True).
Proof.
  unfold wasserstein_distance_st.
  eapply keeps_bind; [apply keeps_get_single_encoded_data_st|].
  intros [real_data gen_data] _.
  eapply keeps_bind; [apply keeps_get_continuous_st|]. intros continuous _.
  eapply keeps_bind; [apply keeps_df_getitem|]. intros real_data' _.
  eapply keeps_bind; [apply keeps_get_continuous_st|]. intros continuous' _.
  eapply keeps_bind; [apply keeps_df_getitem|]. intros gen_data' _.
  eapply keeps_bind; [apply keeps_read|]. intros r _.
  eapply keeps_bind; [apply keeps_read|]. intros g _.
  apply keeps_lift.
Qed.
End MetricsFacts.

Lemma keeps_container_state {A : Type} (h : Store) (m : M A) (Q : A -> Prop)
      (t : Tables) :
  keeps h m Q -> allocated h t ->
  container_state (snd (m h)) t = container_state h t.
Proof.
  intros Hk Ha. destruct (Hk h (extends_refl h)) as [He _].
  unfold container_state. apply map_ext_in. intros l Hl.
  unfold allocated in Ha. rewrite Forall_forall in Ha.
  apply extends_nth_error; auto.
Qed.

(** C9.  Whatever the store and the library routines, each metric
    computation ends, normally or with an exception, in a store where the
    eight tables of the container hold what they held before the call: the
    frames that are updated in place are copies made during the call. *)
Theorem metrics_leave_tables_unchanged
        (corrcoef : DataFrame -> result matrix)
        (theils_u : column -> column -> result float)
        (norm_of_difference : matrix -> matrix -> result float)
        (norm_of_difference_nd : ndarray -> ndarray -> result float)
        (pearson_abs_difference : DataFrame -> DataFrame -> result matrix)
        (wasserstein : list float -> list float -> result float)
        (self : Dataset) (tables : Tables) (thres_percent : float) (h : Store) :
  allocated h tables ->
  container_state
    (snd (get_correlations_st corrcoef theils_u norm_of_difference
                              norm_of_difference_nd self tables h)) tables
  = container_state h tables
  /\ container_state
       (snd (get_pearson_correlation_st pearson_abs_difference self tables h))
       tables
     = container_state h tables
  /\ container_state
       (snd (compute_distances_hits_st self tables thres_percent h)) tables
     = container_state h tables
  /\ container_state (snd (jensen_shannon_distance_st self tables h)) tables
     = container_state h tables
  /\ container_state
       (snd (wasserstein_distance_st wasserstein self tables h)) tables
     = container_state h tables.
Proof.
  intros Ha. repeat split.
  - eapply keeps_container_state; [apply keeps_get_correlations_st|exact Ha].
  - eapply keeps_container_state;
      [apply keeps_get_pearson_correlation_st|exact Ha].
  - eapply keeps_container_state;
      [apply keeps_compute_distances_hits_st|exact Ha].
  - eapply keeps_container_state;
      [apply keeps_jensen_shannon_distance_st|exact Ha].
  - eapply keeps_container_state;
      [apply keeps_wasserstein_distance_st|exact Ha].
Qed.

Lemma toy_store_allocated : allocated toy_store toy_tables.
Proof. unfold allocated. simpl. repeat constructor. Qed.

Lemma metrics_leave_tables_unchanged_witness :
  container_state
    (snd (get_correlations_st (fun _ => Ok []) (fun _ _ => Ok (F 0))
                              (fun _ _ => Ok (F 0)) (fun _ _ => Ok (F 0))
                              toy toy_tables toy_store)) toy_tables
  = container_state toy_store toy_tables
  /\ container_state
       (snd (get_pearson_correlation_st (fun _ _ => Ok []) toy toy_tables
                                        toy_store)) toy_tables
     = container_state toy_store toy_tables
  /\ container_state
       (snd (compute_distances_hits_st toy toy_tables (F (3 / 10)) toy_store))
       toy_tables
     = container_state toy_store toy_tables
  /\ container_state (snd (jensen_shannon_distance_st toy toy_tables toy_store))
                     toy_tables
     = container_state toy_store toy_tables
  /\ container_state
       (snd (wasserstein_distance_st (fun _ _ => Ok (F 0)) toy toy_tables
                                     toy_store)) toy_tables
     = container_state toy_store toy_tables.
Proof.
  apply (metrics_leave_tables_unchanged
           (fun _ => Ok []) (fun _ _ => Ok (F 0)) (fun _ _ => Ok (F 0))
           (fun _ _ => Ok (F 0)) (fun _ _ => Ok []) (fun _ _ => Ok (F 0))
           toy toy_tables (F (3 / 10)) toy_store).
  exact toy_store_allocated.
Defined.

(** ** The store computes what the functions on values compute *)

Lemma extends_trans (a b c : Store) : extends a b -> extends b c -> extends a c.
Proof.
  intros Hab Hbc. pose proof (extends_length a b Hab) as L.
  unfold extends in *.
  transitivity (firstn (List.length a) (firstn (List.length b) c)).
  - rewrite firstn_firstn. f_equal. lia.
  - rewrite Hbc. exact Hab.
Qed.

Lemma nth_error_snoc (h : Store) (d : DataFrame) :
  nth_error (h ++ [d]) (List.length h) = Some d.
Proof.
  rewrite nth_error_app2 by lia. rewrite Nat.sub_diag. reflexivity.
Qed.

Lemma nth_error_allocated (h : Store) (l : loc) (d : DataFrame) :
  nth_error h l = Some d -> (l < List.length h)%nat.
Proof. intros H. apply nth_error_Some. congruence. Qed.

Lemma nth_error_snoc_old (h : Store) (l : loc) (d x : DataFrame) :
  nth_error h l = Some d -> nth_error (h ++ [x]) l = Some d.
Proof.
  intros H. rewrite nth_error_app1; [assumption|].
  apply (nth_error_allocated h l d H).
Qed.

Lemma nth_error_update_same (h : Store) (l : loc) (d : DataFrame) :
  (l < List.length h)%nat -> nth_error (update h l d) l = Some d.
Proof.
  revert l. induction h as [|x h IH]; intros [|l] Hl; simpl in *; try lia.
  - reflexivity.
  - apply IH. lia.
Qed.

Lemma extends_nth_error_Some (h0 h : Store) (l : loc) (d : DataFrame) :
  extends h0 h -> nth_error h0 l = Some d -> nth_error h l = Some d.
Proof.
  intros He Hd. rewrite (extends_nth_error h0 h l He); [assumption|].
  apply (nth_error_allocated h0 l d Hd).
Qed.

Lemma bindM_Ok {A B : Type} (m : M A) (f : A -> M B) (h h1 : Store) (a : A) :
  m h = (Ok a, h1) -> bindM m f h = f a h1.
Proof. intros H. unfold bindM. rewrite H. reflexivity. Qed.

Lemma bindM_Raise {A B : Type} (m : M A) (f : A -> M B) (h h1 : Store) (e : exn) :
  m h = (Raise e, h1) -> bindM m f h = (Raise e, h1).
Proof. intros H. unfold bindM. rewrite H. reflexivity. Qed.

Lemma read_Some (h : Store) (l : loc) (d : DataFrame) :
  nth_error h l = Some d -> read l h = (Ok d, h).
Proof. intros H. unfold read. rewrite H. reflexivity. Qed.

(** The frame that [encode_categories_st] returns holds the table that
    [encode_categories] computes; both raise the same exception. *)
Lemma run_encode_categories_st (self : Dataset) (h : Store) (df : loc)
      (d : DataFrame) :
  nth_error h df = Some d ->
  exists h', extends h h'
    /\ match encode_categories self d with
       | Ok E => exists l, encode_categories_st self df h = (Ok l, h')
                           /\ nth_error h' l = Some E
       | Raise e => encode_categories_st self df h = (Raise e, h')
       end.
Proof.
  intros Hd. unfold encode_categories, encode_categories_st.
  destruct (imbalanced (config self)).
  - exists h. split; [apply extends_refl|]. exists df. split; [reflexivity|assumption].
  - set (f := fun col => IntCol (cat_codes (Categorical_of col))).
    assert (Hcopy : df_copy df h = (Ok (List.length h), h ++ [d])).
    { unfold df_copy. rewrite (bindM_Ok _ _ h h d (read_Some h df d Hd)).
      reflexivity. }
    rewrite (bindM_Ok _ _ _ _ _ Hcopy).
    pose proof (nth_error_snoc h d) as H1.
    destruct (getitem d (cats self)) as [sub|e] eqn:Eg; cbn [bind].
    + assert (Hget : df_getitem (List.length h) (cats self) (h ++ [d])
                     = (Ok (List.length (h ++ [d])), (h ++ [d]) ++ [sub])).
      { unfold df_getitem. rewrite (bindM_Ok _ _ _ _ _ (read_Some _ _ _ H1)).
        unfold lift at 1. unfold bindM at 1. rewrite Eg. reflexivity. }
      rewrite (bindM_Ok _ _ _ _ _ Hget).
      pose proof (nth_error_snoc (h ++ [d]) sub) as H2.
      assert (Happ : df_apply f (List.length (h ++ [d])) ((h ++ [d]) ++ [sub])
                     = (Ok (List.length ((h ++ [d]) ++ [sub])),
                        ((h ++ [d]) ++ [sub]) ++ [apply f sub])).
      { unfold df_apply. rewrite (bindM_Ok _ _ _ _ _ (read_Some _ _ _ H2)).
        reflexivity. }
      rewrite (bindM_Ok _ _ _ _ _ Happ).
      pose proof (nth_error_snoc ((h ++ [d]) ++ [sub]) (apply f sub)) as H3.
      set (h3 := ((h ++ [d]) ++ [sub]) ++ [apply f sub]) in *.
      assert (H1' : nth_error h3 (List.length h) = Some d).
      { unfold h3. apply nth_error_snoc_old, nth_error_snoc_old, H1. }
      assert (Hset : df_setitem (List.length h) (List.length ((h ++ [d]) ++ [sub])) h3
                     = (Ok tt, update h3 (List.length h) (setitem d (apply f sub)))).
      { unfold df_setitem. rewrite (bindM_Ok _ _ _ _ _ (read_Some _ _ _ H1')).
        rewrite (bindM_Ok _ _ _ _ _ (read_Some _ _ _ H3)). reflexivity. }
      rewrite (bindM_Ok _ _ _ _ _ Hset).
      exists (update h3 (List.length h) (setitem d (apply f sub))). split.
      * apply extends_update; [|unfold fresh; lia].
        unfold h3. apply extends_app, extends_app, extends_app, extends_refl.
      * exists (List.length h). split; [reflexivity|].
        apply nth_error_update_same. apply (nth_error_allocated h3 _ d H1').
    + exists (h ++ [d]). split; [apply extends_app, extends_refl|].
      apply bindM_Raise. unfold df_getitem.
      rewrite (bindM_Ok _ _ _ _ _ (read_Some _ _ _ H1)).
      unfold lift at 1. unfold bindM at 1. rewrite Eg. reflexivity.
Qed.

Lemma run_pd_concat (h : Store) (l : loc) (d : DataFrame) (n : string)
      (v : list Z) :
  nth_error h l = Some d ->
  pd_concat l n v h
  = (Ok (List.length h), h ++ [concat_axis1 d [(n, IntCol v)]]).
Proof.
  intros H. unfold pd_concat. rewrite (bindM_Ok _ _ _ _ _ (read_Some _ _ _ H)).
  reflexivity.
Qed.

Lemma run_encode_labels_st (self : Dataset) (h : Store) (l : loc) (d : DataFrame) :
  nth_error h l = Some d ->
  encode_labels_st self l h = (encode_labels self d, h).
Proof.
  intros H. unfold encode_labels_st.
  rewrite (bindM_Ok _ _ _ _ _ (read_Some _ _ _ H)). reflexivity.
Qed.

(** The two frames that [get_single_encoded_data_st] returns hold the two
    tables that [get_single_encoded_data] computes from the tables in the
    store. *)
Lemma run_get_single_encoded_data_st (self : Dataset) (tables : Tables)
      (h : Store) (dX dG dy dyg : DataFrame) :
  nth_error h (rX tables) = Some dX ->
  nth_error h (rX_gen tables) = Some dG ->
  nth_error h (ry tables) = Some dy ->
  nth_error h (ry_gen tables) = Some dyg ->
  exists h', extends h h'
    /\ match get_single_encoded_data (snapshot self tables h) with
       | Ok (real, gen) =>
           exists lr lg,
             get_single_encoded_data_st self tables h = (Ok (lr, lg), h')
             /\ nth_error h' lr = Some real /\ nth_error h' lg = Some gen
       | Raise e => get_single_encoded_data_st self tables h = (Raise e, h')
       end.
Proof.
  intros HX HG Hy Hyg.
  unfold get_single_encoded_data, get_single_encoded_data_st.
  cbn [snapshot X X_gen y y_gen config]. rewrite HX, HG, Hy, Hyg.
  change (encode_categories (snapshot self tables h))
    with (encode_categories self).
  change (encode_labels (snapshot self tables h)) with (encode_labels self).
  destruct (run_encode_categories_st self h (rX tables) dX HX) as (h1 & E1 & R1).
  destruct (encode_categories self dX) as [Er|e]; cbn [bind].
  2:{ exists h1. split; [assumption|]. apply bindM_Raise, R1. }
  destruct R1 as (l1 & R1 & C1). rewrite (bindM_Ok _ _ _ _ _ R1).
  pose proof (extends_nth_error_Some h h1 _ _ E1 HG) as HG1.
  destruct (run_encode_categories_st self h1 (rX_gen tables) dG HG1)
    as (h2 & E2 & R2).
  pose proof (extends_trans h h1 h2 E1 E2) as E02.
  destruct (encode_categories self dG) as [Eg|e]; cbn [bind].
  2:{ exists h2. split; [assumption|]. apply bindM_Raise, R2. }
  destruct R2 as (l2 & R2 & C2). rewrite (bindM_Ok _ _ _ _ _ R2).
  pose proof (extends_nth_error_Some h1 h2 _ _ E2 C1) as C1'.
  pose proof (run_encode_labels_st self h2 _ dy
                (extends_nth_error_Some h h2 _ _ E02 Hy)) as Ly.
  destruct (encode_labels self dy) as [yr|e]; cbn [bind].
  2:{ exists h2. split; [assumption|]. apply bindM_Raise, Ly. }
  rewrite (bindM_Ok _ _ _ _ _ Ly).
  pose proof (run_encode_labels_st self h2 _ dyg
                (extends_nth_error_Some h h2 _ _ E02 Hyg)) as Lg.
  destruct (encode_labels self dyg) as [yg|e]; cbn [bind].
  2:{ exists h2. split; [assumption|]. apply bindM_Raise, Lg. }
  rewrite (bindM_Ok _ _ _ _ _ Lg).
  rewrite (bindM_Ok _ _ _ _ _ (run_pd_concat h2 l1 Er _ yr C1')).
  set (real := concat_axis1 Er [(y_label (config self), IntCol yr)]).
  rewrite (bindM_Ok _ _ _ _ _
             (run_pd_concat (h2 ++ [real]) l2 Eg _ yg
                (nth_error_snoc_old h2 l2 Eg real C2))).
  set (gen := concat_axis1 Eg [(y_label (config self), IntCol yg)]).
  exists ((h2 ++ [real]) ++ [gen]). split.
  - apply extends_trans with h2; [assumption|].
    apply extends_app, extends_app, extends_refl.
  - exists (List.length h2), (List.length (h2 ++ [real])).
    split; [reflexivity|]. split.
    + apply nth_error_snoc_old, nth_error_snoc.
    + apply nth_error_snoc.
Qed.

Lemma fst_bindM_lift {A B : Type} (r : result A) (f : A -> M B) (h : Store) :
  fst (bindM (lift r) f h) = bind r (fun a => fst (f a h)).
Proof. unfold bindM, lift. destruct r; reflexivity. Qed.

Lemma fst_bindM_read {B : Type} (l : loc) (d : DataFrame) (f : DataFrame -> M B)
      (h : Store) :
  nth_error h l = Some d -> fst (bindM (read l) f h) = fst (f d h).
Proof. intros H. rewrite (bindM_Ok _ _ _ _ _ (read_Some _ _ _ H)). reflexivity. Qed.

Lemma fst_bindM_write {B : Type} (l : loc) (d : DataFrame) (f : unit -> M B)
      (h : Store) :
  fst (bindM (write l d) f h) = fst (f tt (update h l d)).
Proof. reflexivity. Qed.

Lemma bind_ext {A B : Type} (r : result A) (f g : A -> result B) :
  (forall a, f a = g a) -> bind r f = bind r g.
Proof. intros H. destruct r; simpl; auto. Qed.

Lemma run_df_copy (h : Store) (l : loc) (d : DataFrame) :
  nth_error h l = Some d -> df_copy l h = (Ok (List.length h), h ++ [d]).
Proof.
  intros H. unfold df_copy. rewrite (bindM_Ok _ _ _ _ _ (read_Some _ _ _ H)).
  reflexivity.
Qed.

Lemma nth_error_update_other (h : Store) (l l' : loc) (d : DataFrame) :
  l <> l' -> nth_error (update h l d) l' = nth_error h l'.
Proof.
  revert l l'. induction h as [|x h IH]; intros [|l] [|l'] H; simpl;
    try reflexivity; try congruence.
  apply IH. congruence.
Qed.

(** On a store that holds the four tables it reads, the distance pass on the
    store returns what [compute_distances_hits] returns on their contents. *)
Lemma compute_distances_hits_st_value (self : Dataset) (tables : Tables)
      (thres_percent : float) (h : Store) (dX dG dy dyg : DataFrame) :
  nth_error h (rX tables) = Some dX ->
  nth_error h (rX_gen tables) = Some dG ->
  nth_error h (ry tables) = Some dy ->
  nth_error h (ry_gen tables) = Some dyg ->
  fst (compute_distances_hits_st self tables thres_percent h)
  = compute_distances_hits (snapshot self tables h) thres_percent.
Proof.
  intros HX HG Hy Hyg.
  destruct (run_get_single_encoded_data_st self tables h dX dG dy dyg HX HG Hy Hyg)
    as (h' & _ & R).
  unfold compute_distances_hits, compute_distances_hits_st.
  destruct (get_single_encoded_data (snapshot self tables h)) as [[real gen]|e].
  2:{ rewrite (bindM_Raise _ _ _ _ _ R). reflexivity. }
  destruct R as (lr & lg & R & Cr & Cg). rewrite (bindM_Ok _ _ _ _ _ R).
  cbn [bind].
  rewrite (bindM_Ok _ _ _ _ _ (run_df_copy h' lr real Cr)).
  pose proof (nth_error_snoc_old h' lg gen real Cg) as Cg1.
  rewrite (bindM_Ok _ _ _ _ _ (run_df_copy (h' ++ [real]) lg gen Cg1)).
  set (h2 := (h' ++ [real]) ++ [gen]).
  assert (Hr2 : nth_error h2 (List.length h') = Some real).
  { unfold h2. apply nth_error_snoc_old, nth_error_snoc. }
  assert (Hg2 : nth_error h2 (List.length (h' ++ [real])) = Some gen).
  { unfold h2. apply nth_error_snoc. }
  rewrite (fst_bindM_read _ _ _ _ Hr2), fst_bindM_lift.
  apply bind_ext. intros real_array.
  rewrite (fst_bindM_read _ _ _ _ Hg2), fst_bindM_lift.
  apply bind_ext. intros fake_array.
  rewrite fst_bindM_lift. apply bind_ext. intros synth_dists.
  rewrite fst_bindM_write.
  match goal with
  | |- fst (bindM (read lr) _ ?hh) = _ =>
      assert (Cr3 : nth_error hh lr = Some real)
  end.
  { rewrite nth_error_update_other.
    - unfold h2. apply nth_error_snoc_old, nth_error_snoc_old, Cr.
    - pose proof (nth_error_allocated h' lr real Cr). rewrite length_app. simpl. lia. }
  rewrite (fst_bindM_read _ _ _ _ Cr3), fst_bindM_lift.
  change (thresholds (snapshot self tables h)) with (thresholds self).
  apply bind_ext. intros thres.
  rewrite fst_bindM_lift. apply bind_ext. intros w.
  rewrite fst_bindM_lift. apply bind_ext. intros real_hits_diffs.
  reflexivity.
Qed.

Lemma run_df_getitem (h : Store) (l : loc) (d : DataFrame) (names : list string) :
  nth_error h l = Some d ->
  df_getitem l names h
  = match getitem d names with
    | Ok sub => (Ok (List.length h), h ++ [sub])
    | Raise e => (Raise e, h)
    end.
Proof.
  intros H. unfold df_getitem. rewrite (bindM_Ok _ _ _ _ _ (read_Some _ _ _ H)).
  unfold lift, bindM. destruct (getitem d names); reflexivity.
Qed.

(** The same for the Jensen-Shannon pass. *)
Lemma jensen_shannon_distance_st_value (self : Dataset) (tables : Tables)
      (h : Store) (dX dG dy dyg : DataFrame) :
  nth_error h (rX tables) = Some dX ->
  nth_error h (rX_gen tables) = Some dG ->
  nth_error h (ry tables) = Some dy ->
  nth_error h (ry_gen tables) = Some dyg ->
  fst (jensen_shannon_distance_st self tables h)
  = jensen_shannon_distance (snapshot self tables h).
Proof.
  intros HX HG Hy Hyg.
  destruct (run_get_single_encoded_data_st self tables h dX dG dy dyg HX HG Hy Hyg)
    as (h' & _ & R).
  unfold jensen_shannon_distance, jensen_shannon_distance_st.
  destruct (get_single_encoded_data (snapshot self tables h)) as [[real gen]|e].
  2:{ rewrite (bindM_Raise _ _ _ _ _ R). reflexivity. }
  destruct R as (lr & lg & R & Cr & Cg). rewrite (bindM_Ok _ _ _ _ _ R).
  cbn [bind]. change (get_categories (snapshot self tables h)) with (get_categories self).
  pose proof (run_df_getitem h' lr real (get_categories self) Cr) as G1.
  destruct (getitem real (get_categories self)) as [r|e]; cbn [bind].
  2:{ rewrite (bindM_Raise _ _ _ _ _ G1). reflexivity. }
  rewrite (bindM_Ok _ _ _ _ _ G1).
  pose proof (run_df_getitem (h' ++ [r]) lg gen (get_categories self)
                (nth_error_snoc_old h' lg gen r Cg)) as G2.
  destruct (getitem gen (get_categories self)) as [g|e]; cbn [bind].
  2:{ rewrite (bindM_Raise _ _ _ _ _ G2). reflexivity. }
  rewrite (bindM_Ok _ _ _ _ _ G2).
  rewrite (fst_bindM_read _ r).
  2:{ apply nth_error_snoc_old, nth_error_snoc. }
  rewrite (fst_bindM_read _ g) by apply nth_error_snoc.
  reflexivity.
Qed.

(** ** A copy with a missing value *)

Lemma min_l2_distance_returns (p : nat) (row : list float) (real_array : matrix) :
  List.length row = p -> width p real_array ->
  (2 <= List.length real_array)%nat ->
  exists s, min_l2_distance row real_array = Ok s.
Proof.
  intros Hp Hw Hlen. unfold min_l2_distance.
  rewrite (euclidean_distance_unweighted p) by assumption. cbn [bind].
  destruct (partition_two_Ok (map (l2 row) real_array))
    as (first & second & -> & _).
  { rewrite length_map. exact Hlen. }
  cbn [bind]. eauto.
Qed.

Lemma min_dist_real_synth_returns (p : nat) (row : list float)
      (real_array fake_array : matrix) (thres w : list float) :
  List.length row = p -> List.length w = p -> List.length thres = p ->
  width p real_array -> width p fake_array ->
  (2 <= List.length real_array)%nat -> fake_array <> [] ->
  exists s, min_dist_real_synth row real_array fake_array thres w = Ok s
            /\ hit s = existsb (fun h => h) (map (within thres row) fake_array).
Proof.
  intros Hrow Hw Hth Hreal Hfake Hlen Hne.
  rewrite (min_dist_real_synth_eq p) by assumption.
  destruct (partition_two_Ok (map (weighted_l2 w row) real_array))
    as (first & second & -> & _).
  { rewrite length_map. exact Hlen. }
  cbn [bind].
  destruct (map (weighted_l2 w row) fake_array) as [|d ds] eqn:E.
  { destruct fake_array; [congruence|discriminate]. }
  cbn [np_min bind]. eexists. split; reflexivity.
Qed.

(** No threshold admits a difference that is NaN. *)
Lemma within_nan (thres a b : list float) (j : nat) (t : float) :
  nth_error (zip_with fsub a b) j = Some NaN -> nth_error thres j = Some t ->
  within thres a b = false.
Proof.
  intros Hd Ht. unfold within.
  destruct (forallb (fun h => h) _) eqn:E; [|reflexivity].
  rewrite forallb_forall in E.
  assert (Hin : In (fleb (fabs NaN) t)
                   (zip_with (fun x t => fleb (fabs x) t) (zip_with fsub a b) thres)).
  { eapply nth_error_In.
    apply (zip_with_nth_error (fun x t => fleb (fabs x) t) _ _ j NaN t Hd Ht). }
  apply E in Hin. discriminate.
Qed.

Lemma count_true_cons_false (l : list bool) :
  (count_true (false :: l) <= List.length l)%nat.
Proof. unfold count_true. simpl. apply filter_length_le. Qed.

(** [gap_copy] is an exact copy, the pass returns, and the row with the
    missing value is not hit: the hitting rate is below 1. *)
Lemma copy_with_missing_value_is_not_hit :
  exists synth stats,
    compute_distances_hits gap_copy (F (3 / 10)) = Ok (synth, stats)
    /\ hitting_rate gap_copy stats <> F 1.
Proof.
  unfold compute_distances_hits.
  replace (get_single_encoded_data gap_copy)
    with (Ok (gap_encoded, gap_encoded)) by reflexivity.
  cbn [bind].
  replace (values gap_encoded) with (Ok gap_array) by reflexivity.
  cbn [bind].
  assert (Hw : width 4 gap_array) by (repeat constructor).
  destruct (mapM_Ok_Forall (fun row => min_l2_distance row gap_array)
              (fun _ => True) gap_array) as (synth & -> & _).
  { intros row Hin.
    destruct (min_l2_distance_returns 4 row gap_array) as (s & Hs).
    - unfold width in Hw. rewrite Forall_forall in Hw. auto.
    - exact Hw.
    - simpl. lia.
    - eauto. }
  cbn [bind].
  destruct (thresholds gap_copy (F (3 / 10)) gap_encoded) as [thres|e] eqn:Eth;
    [|discriminate Eth].
  assert (Hlt : List.length thres = 4%nat).
  { apply mapM_Ok_length in Eth. exact Eth. }
  cbn [bind].
  destruct (mapM (fun nc => l <- to_floats (snd nc) ;; Ok (column_entropy l))
                 gap_encoded) as [w|e] eqn:Ew; [|discriminate Ew].
  assert (Hlw : List.length w = 4%nat).
  { apply mapM_Ok_length in Ew. exact Ew. }
  cbn [bind].
  assert (Hrow : forall row, In row gap_array ->
            exists s, min_dist_real_synth row gap_array gap_array thres w = Ok s
                      /\ hit s = existsb (fun h => h)
                                         (map (within thres row) gap_array)).
  { intros row Hin. apply (min_dist_real_synth_returns 4); auto.
    - unfold width in Hw. rewrite Forall_forall in Hw. auto.
    - simpl. lia.
    - discriminate. }
  unfold gap_array at 3. cbn [mapM].
  destruct (Hrow [of_int 0; of_int 1; F 1; of_int 0]) as (s0 & -> & _);
    [simpl; auto|].
  destruct (Hrow [of_int 1; of_int 0; NaN; of_int 1]) as (s1 & -> & H1);
    [simpl; auto|].
  destruct (Hrow [of_int 0; of_int 1; F 4; of_int 0]) as (s2 & -> & _);
    [simpl; auto 6|].
  cbn [bind]. eexists. eexists. split; [reflexivity|].
  assert (Hh1 : hit s1 = false).
  { rewrite H1. destruct (nth_error_lt_Some thres 2) as (t & Ht); [lia|].
    unfold gap_array. cbn [map existsb].
    rewrite !(within_nan thres _ _ 2 t) by (reflexivity || exact Ht).
    reflexivity. }
  unfold hitting_rate. cbn [map]. rewrite Hh1.
  change (nrows (X gap_copy)) with 3%nat.
  pose proof (count_true_cons_false [hit s2]) as Hc.
  assert (Hle : (count_true [hit s0; false; hit s2] <= 2)%nat).
  { unfold count_true in *. simpl in *. destruct (hit s0); simpl; lia. }
  unfold of_nat. rewrite fdiv_F by (apply not_0_INR; lia).
  intros Heq. injection Heq as Heq.
  apply le_INR in Hle.
  replace (INR 3) with 3%R in Heq by (simpl; lra).
  replace (INR 2) with 2%R in Hle by (simpl; lra).
  lra.
Qed.

(** C6, as the spec has it, fails.  An exact copy of a one-row table makes
    the pass raise, so there is no score; an exact copy of a table with a
    missing continuous value has a row that no synthetic row hits, so the
    hitting rate is not 1. *)
Lemma exact_copy_without_full_hits :
  (X_gen one_row = X one_row /\ y_gen one_row = y one_row
   /\ compute_distances_hits one_row (F (3 / 10)) = Raise ValueError)
  /\ (X_gen gap_copy = X gap_copy /\ y_gen gap_copy = y gap_copy
      /\ exists synth stats,
           compute_distances_hits gap_copy (F (3 / 10)) = Ok (synth, stats)
           /\ hitting_rate gap_copy stats <> F 1).
Proof.
  split.
  - destruct copy_of_one_row_raises as (H1 & H2 & H3 & _). auto.
  - split; [reflexivity|]. split; [reflexivity|].
    exact copy_with_missing_value_is_not_hit.
Qed.

(** ** The codec: errors, shape and order *)

Lemma getitem_Raise (df : DataFrame) (names : list string) :
  (exists n, In n names /\ ~ In n (map fst df)) ->
  getitem df names = Raise KeyError.
Proof.
  unfold getitem. induction names as [|a names IH]; intros (n & Hn & Hnot).
  - destruct Hn.
  - cbn [mapM]. destruct (lookup a df) as [c|] eqn:E; [|reflexivity].
    cbn [bind]. destruct Hn as [<-|Hn].
    + exfalso. apply Hnot. apply lookup_In_names. congruence.
    + rewrite IH by eauto. reflexivity.
Qed.

Lemma mapM_Ok_or_Raise {A B : Type} (f : A -> result B) (e : exn) (l : list A) :
  (forall a, In a l -> (exists b, f a = Ok b) \/ f a = Raise e) ->
  (exists bs, mapM f l = Ok bs) \/ mapM f l = Raise e.
Proof.
  induction l as [|a l IH]; intros H; cbn [mapM]; [eauto|].
  destruct (H a (or_introl eq_refl)) as [[b ->]| ->]; [|auto].
  cbn [bind]. destruct IH as [[bs ->]| ->]; cbn [bind]; eauto.
  intros x Hx. apply H. right. exact Hx.
Qed.

Lemma mapM_Raise {A B : Type} (f : A -> result B) (e : exn) (l : list A) :
  (forall a, In a l -> (exists b, f a = Ok b) \/ f a = Raise e) ->
  (exists a, In a l /\ f a = Raise e) ->
  mapM f l = Raise e.
Proof.
  induction l as [|a l IH]; intros H (x & Hx & Hfx); [destruct Hx|].
  cbn [mapM]. destruct (H a (or_introl eq_refl)) as [[b Hb]|Hb]; rewrite Hb;
    [|reflexivity].
  cbn [bind]. destruct Hx as [->|Hx]; [congruence|].
  rewrite IH; [reflexivity| |eauto].
  intros y Hy. apply H. right. exact Hy.
Qed.

Lemma encode_categories_lookup (ds : Dataset) (df E : DataFrame) :
  imbalanced (config ds) = false ->
  encode_categories ds df = Ok E ->
  (forall n, In n (cats ds) -> In n (map fst df))
  /\ map fst E = map fst df
  /\ (forall n, ~ In n (cats ds) -> lookup n E = lookup n df)
  /\ (forall n, In n (cats ds) ->
        lookup n E = Some (IntCol (cat_codes (Categorical_of (col_of df n))))).
Proof.
  intros Himb H. unfold encode_categories in H. rewrite Himb in H.
  apply bind_Ok_inv in H as (sub & Hsub & H). injection H as <-.
  apply getitem_Ok_inv in Hsub as (Hin & ->).
  set (f := fun col => IntCol (cat_codes (Categorical_of col))).
  assert (Hcols : apply f (map (fun n => (n, col_of df n)) (cats ds))
                  = map (fun n => (n, f (col_of df n))) (cats ds)).
  { unfold apply. rewrite map_map. reflexivity. }
  rewrite Hcols.
  assert (Hnames : map fst (map (fun n => (n, f (col_of df n))) (cats ds)) = cats ds).
  { rewrite map_map. cbn [fst]. apply map_id. }
  assert (Hfun : forall nc, In nc (map (fun n => (n, f (col_of df n))) (cats ds)) ->
                            snd nc = (fun n => f (col_of df n)) (fst nc)).
  { intros nc Hnc. apply in_map_iff in Hnc as (n & <- & _). reflexivity. }
  split; [exact Hin|]. split; [|split].
  - apply names_setitem. rewrite Hnames. exact Hin.
  - intros n Hn. rewrite (lookup_setitem _ _ _ n Hfun). rewrite Hnames.
    destruct (existsb (String.eqb n) (cats ds)) eqn:Ex; [|reflexivity].
    apply existsb_eqb_In in Ex. contradiction.
  - intros n Hn. rewrite (lookup_setitem _ _ _ n Hfun). rewrite Hnames.
    apply existsb_eqb_In in Hn. rewrite Hn. reflexivity.
Qed.

(** X1.  Without the imbalanced switch, on a table with at least one row,
    [encode_categories] returns a table exactly when every codec column is a
    column of the table it is given; a codec column that is absent is a
    [KeyError]. *)
Theorem encode_categories_needs_codec_columns
        (ds : Dataset) (df : DataFrame) (N : nat) :
  imbalanced (config ds) = false ->
  table N df -> (1 <= N)%nat ->
  ((forall n, In n (cats ds) -> In n (map fst df))
   <-> exists E, encode_categories ds df = Ok E)
  /\ ((exists n, In n (cats ds) /\ ~ In n (map fst df)) ->
      encode_categories ds df = Raise KeyError).
Proof.
  intros Himb _ _. split; [split|].
  - intros H. unfold encode_categories. rewrite Himb.
    rewrite (getitem_Ok df (cats ds) H). cbn [bind]. eauto.
  - intros [E H]. exact (proj1 (encode_categories_lookup ds df E Himb H)).
  - intros H. unfold encode_categories. rewrite Himb.
    rewrite (getitem_Raise df (cats ds) H). reflexivity.
Qed.

Lemma encode_categories_needs_codec_columns_witness :
  (exists E, encode_categories toy only_b = Ok E)
  /\ encode_categories toy [("c"%string, ObjCol [Some "a"%string])]
     = Raise KeyError.
Proof.
  destruct (encode_categories_needs_codec_columns toy only_b 2%nat eq_refl)
    as [H _].
  { split; [discriminate|]. repeat constructor. }
  { lia. }
  destruct (encode_categories_needs_codec_columns
              toy [("c"%string, ObjCol [Some "a"%string])] 1%nat eq_refl)
    as [_ H'].
  { split; [discriminate|]. repeat constructor. }
  { lia. }
  split.
  - apply (proj1 H). intros n Hn. simpl in Hn |- *. intuition.
  - apply H'. exists "b"%string. split; [simpl; auto|].
    simpl. intros [Hc|[]]. discriminate.
Defined.

Lemma index_of_lt {A : Type} (ltb : A -> A -> bool) (a : A) (l : list A) (i : nat) :
  index_of ltb a l = Some i -> (i < List.length l)%nat.
Proof.
  revert i; induction l as [|y l IH]; intros i; cbn [index_of]; [discriminate|].
  destruct (same ltb a y).
  - intros [= <-]. simpl. lia.
  - destruct (index_of ltb a l) as [k|]; [|discriminate].
    intros [= <-]. simpl. specialize (IH k eq_refl). lia.
Qed.

Lemma code_of_range {A : Type} (ltb : A -> A -> bool) (cs : list A) (v : option A) :
  (-1 <= code_of ltb cs v < Z.of_nat (List.length cs))%Z.
Proof.
  unfold code_of. destruct v as [a|]; [|lia].
  destruct (index_of ltb a cs) as [i|] eqn:E; [|lia].
  apply index_of_lt in E. lia.
Qed.

Lemma cat_codes_range (c : column) :
  List.length (cat_codes (Categorical_of c)) = column_length c
  /\ Forall (fun z => (-1 <= z < Z.of_nat (n_categories (Categorical_of c)))%Z)
            (cat_codes (Categorical_of c)).
Proof.
  destruct c as [l|l|l]; unfold n_categories; cbn; rewrite !length_map;
    (split; [reflexivity|]); apply Forall_forall; intros z Hz;
    apply in_map_iff in Hz as (v & <- & _); apply code_of_range.
Qed.

(** X2.  The encoded table has the column names of the table it was made
    from, in the same order; a column outside the codec is unchanged; a codec
    column is replaced by one integer code per row, each between -1 and the
    number of distinct values of that column less one. *)
Theorem encode_categories_shape (ds : Dataset) (df E : DataFrame) :
  imbalanced (config ds) = false ->
  encode_categories ds df = Ok E ->
  map fst E = map fst df
  /\ (forall n, ~ In n (cats ds) -> lookup n E = lookup n df)
  /\ (forall n, In n (cats ds) ->
        exists c codes,
          lookup n df = Some c /\ lookup n E = Some (IntCol codes)
          /\ List.length codes = column_length c
          /\ Forall (fun z =>
                       (-1 <= z < Z.of_nat (n_categories (Categorical_of c)))%Z)
                    codes).
Proof.
  intros Himb H.
  destruct (encode_categories_lookup ds df E Himb H) as (Hin & Hn & Hout & Hcat).
  split; [exact Hn|]. split; [exact Hout|].
  intros n Hc. specialize (Hcat n Hc).
  apply Hin in Hc. apply lookup_In_names in Hc.
  unfold col_of in Hcat. destruct (lookup n df) as [c|] eqn:El; [|congruence].
  exists c, (cat_codes (Categorical_of c)).
  destruct (cat_codes_range c) as [Hl Hr]. auto.
Qed.

Lemma encode_categories_shape_witness :
  exists E,
    encode_categories toy shuffled = Ok E
    /\ map fst E = map fst shuffled
    /\ lookup "x" E = lookup "x" shuffled
    /\ exists c codes,
         lookup "c" shuffled = Some c /\ lookup "c" E = Some (IntCol codes)
         /\ List.length codes = column_length c
         /\ Forall (fun z =>
                      (-1 <= z < Z.of_nat (n_categories (Categorical_of c)))%Z)
                   codes.
Proof.
  eexists. split; [reflexivity|].
  destruct (encode_categories_shape toy shuffled _ eq_refl eq_refl)
    as (H1 & H2 & H3).
  split; [exact H1|]. split.
  - apply H2. simpl. intros [H|[H|[]]]; discriminate.
  - apply H3. simpl. auto.
Defined.

Section CodeOrder.
Context {A : Type} (ltb : A -> A -> bool).
Hypothesis Hord : strict_total ltb.

Lemma increasing_nth (l : list A) (i j : nat) (a b : A) :
  increasing ltb l -> nth_error l i = Some a -> nth_error l j = Some b ->
  (i < j)%nat -> ltb a b = true.
Proof.
  intros Hs. revert i j. induction Hs as [|x l Hs IH Hall]; intros i j Hi Hj Hlt.
  - destruct i; discriminate.
  - destruct j as [|j]; [lia|]. cbn [nth_error] in Hj.
    destruct i as [|i]; cbn [nth_error] in Hi.
    + injection Hi as <-. apply nth_error_In in Hj.
      rewrite Forall_forall in Hall. auto.
    + apply (IH i j); auto. lia.
Qed.

Lemma increasing_nth_iff (l : list A) (i j : nat) (a b : A) :
  increasing ltb l -> nth_error l i = Some a -> nth_error l j = Some b ->
  (ltb a b = true <-> (i < j)%nat) /\ (a = b <-> i = j).
Proof.
  intros Hs Hi Hj.
  assert (Hlt : forall i j a b, nth_error l i = Some a -> nth_error l j = Some b ->
                  ltb a b = true -> (i < j)%nat).
  { clear i j a b Hi Hj. intros i j a b Hi Hj Hab.
    destruct (Nat.lt_trichotomy i j) as [H|[H|H]]; [exact H| |].
    - subst j. rewrite Hi in Hj. injection Hj as <-.
      rewrite (st_irrefl Hord) in Hab. discriminate.
    - pose proof (increasing_nth l j i b a Hs Hj Hi H) as Hba.
      pose proof (st_trans Hord _ _ _ Hab Hba) as Haa.
      rewrite (st_irrefl Hord) in Haa. discriminate. }
  split; split.
  - apply Hlt; assumption.
  - intros H. apply (increasing_nth l i j a b); assumption.
  - intros <-. destruct (Nat.lt_trichotomy i j) as [H|[H|H]]; [|exact H|].
    + pose proof (increasing_nth l i j a a Hs Hi Hj H) as Haa.
      rewrite (st_irrefl Hord) in Haa. discriminate.
    + pose proof (increasing_nth l j i a a Hs Hj Hi H) as Haa.
      rewrite (st_irrefl Hord) in Haa. discriminate.
  - intros <-. congruence.
Qed.

Lemma pd_Categorical_code (col : list (option A)) (i : nat) (a : A) :
  nth_error col i = Some (Some a) ->
  exists k, nth_error (codes (pd_Categorical ltb col)) i = Some (Z.of_nat k)
            /\ nth_error (categories (pd_Categorical ltb col)) k = Some a.
Proof.
  intros Hi. cbn [pd_Categorical codes categories].
  assert (Hin : In a (sort_unique ltb (somes col))).
  { apply (In_sort_unique ltb Hord). apply (somes_In a col).
    apply nth_error_In in Hi. exact Hi. }
  destruct (index_of_In ltb Hord a _ Hin) as (k & Hk & Hnth).
  exists k. split; [|exact Hnth].
  rewrite nth_error_map, Hi. cbn [option_map code_of]. rewrite Hk. reflexivity.
Qed.

Lemma pd_Categorical_order (col : list (option A)) (i j : nat) (a b : A) :
  nth_error col i = Some (Some a) -> nth_error col j = Some (Some b) ->
  exists ci cj,
    nth_error (codes (pd_Categorical ltb col)) i = Some ci
    /\ nth_error (codes (pd_Categorical ltb col)) j = Some cj
    /\ (ltb a b = true <-> (ci < cj)%Z) /\ (a = b <-> ci = cj).
Proof.
  intros Hi Hj.
  destruct (pd_Categorical_code col i a Hi) as (ki & Hci & Hki).
  destruct (pd_Categorical_code col j b Hj) as (kj & Hcj & Hkj).
  exists (Z.of_nat ki), (Z.of_nat kj). split; [exact Hci|]. split; [exact Hcj|].
  destruct (increasing_nth_iff _ ki kj a b
              (increasing_sort_unique ltb Hord (somes col)) Hki Hkj) as [H1 H2].
  split; [rewrite H1|rewrite H2]; lia.
Qed.
End CodeOrder.

Lemma nth_error_map_Some {B C : Type} (f : B -> C) (l : list B) (i : nat) (y : C) :
  nth_error (map f l) i = Some y -> exists x, nth_error l i = Some x /\ f x = y.
Proof.
  rewrite nth_error_map. destruct (nth_error l i) as [x|]; [|discriminate].
  intros [= <-]. eauto.
Qed.

Lemma cat_codes_order (c : column) (i j : nat) (a b : value) :
  nth_error (entries c) i = Some (Some a) ->
  nth_error (entries c) j = Some (Some b) ->
  exists ci cj,
    nth_error (cat_codes (Categorical_of c)) i = Some ci
    /\ nth_error (cat_codes (Categorical_of c)) j = Some cj
    /\ (value_ltb a b = true <-> (ci < cj)%Z) /\ (a = b <-> ci = cj).
Proof.
  destruct c as [l|l|l]; cbn [entries Categorical_of cat_codes]; intros Hi Hj.
  - apply nth_error_map_Some in Hi as ([s|] & Hi & Ea); [|discriminate].
    apply nth_error_map_Some in Hj as ([t|] & Hj & Eb); [|discriminate].
    injection Ea as <-. injection Eb as <-.
    destruct (pd_Categorical_order String.ltb string_order l i j s t Hi Hj)
      as (ci & cj & H1 & H2 & H3 & H4).
    exists ci, cj. repeat split; try assumption; try apply H3; try apply H4.
    + intros [= ->]. apply H4. reflexivity.
    + intros H. f_equal. apply H4. exact H.
  - apply nth_error_map_Some in Hi as ([s|] & Hi & Ea); [|discriminate].
    apply nth_error_map_Some in Hj as ([t|] & Hj & Eb); [|discriminate].
    injection Ea as <-. injection Eb as <-.
    destruct (pd_Categorical_order ereal_ltb ereal_order l i j s t Hi Hj)
      as (ci & cj & H1 & H2 & H3 & H4).
    exists ci, cj. repeat split; try assumption; try apply H3; try apply H4.
    + intros [= ->]. apply H4. reflexivity.
    + intros H. f_equal. apply H4. exact H.
  - apply nth_error_map_Some in Hi as (s & Hi & Ea).
    apply nth_error_map_Some in Hj as (t & Hj & Eb).
    injection Ea as <-. injection Eb as <-.
    assert (Hi' : nth_error (map Some l) i = Some (Some s))
      by (rewrite nth_error_map, Hi; reflexivity).
    assert (Hj' : nth_error (map Some l) j = Some (Some t))
      by (rewrite nth_error_map, Hj; reflexivity).
    destruct (pd_Categorical_order Z.ltb Z_order (map Some l) i j s t Hi' Hj')
      as (ci & cj & H1 & H2 & H3 & H4).
    exists ci, cj. repeat split; try assumption; try apply H3; try apply H4.
    + intros [= ->]. apply H4. reflexivity.
    + intros H. f_equal. apply H4. exact H.
Qed.

(** X3.  The codes keep the order of the values: for two rows of a codec
    column that are not missing, the first value is below the second exactly
    when its code is below the other code, and the values are equal exactly
    when the codes are equal. *)
Theorem encode_categories_keeps_order
        (ds : Dataset) (df E : DataFrame) (n : string) (c : column)
        (i j : nat) (a b : value) :
  imbalanced (config ds) = false ->
  encode_categories ds df = Ok E ->
  In n (cats ds) -> lookup n df = Some c ->
  nth_error (entries c) i = Some (Some a) ->
  nth_error (entries c) j = Some (Some b) ->
  exists codes ci cj,
    lookup n E = Some (IntCol codes)
    /\ nth_error codes i = Some ci /\ nth_error codes j = Some cj
    /\ (value_ltb a b = true <-> (ci < cj)%Z)
    /\ (a = b <-> ci = cj).
Proof.
  intros Himb H Hn Hc Hi Hj.
  destruct (encode_categories_lookup ds df E Himb H) as (_ & _ & _ & Hcat).
  specialize (Hcat n Hn). unfold col_of in Hcat. rewrite Hc in Hcat.
  destruct (cat_codes_order c i j a b Hi Hj) as (ci & cj & H1 & H2 & H3 & H4).
  exists (cat_codes (Categorical_of c)), ci, cj. auto.
Qed.

Lemma encode_categories_keeps_order_witness :
  exists E codes ci cj,
    encode_categories toy shuffled = Ok E
    /\ lookup "c" E = Some (IntCol codes)
    /\ nth_error codes 0 = Some ci /\ nth_error codes 1 = Some cj
    /\ (value_ltb (VObj "b") (VObj "a") = true <-> (ci < cj)%Z)
    /\ (VObj "b" = VObj "a" <-> ci = cj).
Proof.
  eexists.
  destruct (encode_categories_keeps_order
              toy shuffled _ "c"%string
              (ObjCol [Some "b"; Some "a"]%string) 0 1 (VObj "b") (VObj "a")
              eq_refl eq_refl (or_introl eq_refl) eq_refl eq_refl eq_refl)
    as (codes & ci & cj & H).
  exists codes, ci, cj. split; [reflexivity|exact H].
Defined.

Lemma from_code_Ok_or_Raise {A : Type} (cs : list A) (z : Z) :
  (exists v, from_code cs z = Ok v) \/ from_code cs z = Raise ValueError.
Proof.
  unfold from_code. destruct (z =? -1)%Z; [eauto|].
  destruct (z <? -1)%Z; [auto|].
  destruct (nth_error cs (Z.to_nat z)); eauto.
Qed.

Lemma from_code_out_of_range {A : Type} (cs : list A) (z : Z) :
  (z < -1 \/ Z.of_nat (List.length cs) <= z)%Z ->
  from_code cs z = Raise ValueError.
Proof.
  intros H. unfold from_code.
  destruct (Z.eqb_spec z (-1)) as [->|Hne]; [lia|].
  destruct (Z.ltb_spec z (-1)) as [Hlt|Hge]; [reflexivity|].
  destruct (nth_error cs (Z.to_nat z)) as [a|] eqn:E; [|reflexivity].
  apply nth_error_Some_lt in E. lia.
Qed.

Lemma from_codes_out_of_range {A : Type} (cs : list A) (cds : list Z) (z : Z) :
  In z cds -> (z < -1 \/ Z.of_nat (List.length cs) <= z)%Z ->
  from_codes cds cs = Raise ValueError.
Proof.
  intros Hz Hr. unfold from_codes. apply mapM_Raise.
  - intros a _. apply from_code_Ok_or_Raise.
  - exists z. split; [exact Hz|]. apply from_code_out_of_range. exact Hr.
Qed.

Lemma Categorical_from_codes_Ok_or_Raise (col : column) (c : categorical) :
  (exists x, Categorical_from_codes col c = Ok x)
  \/ Categorical_from_codes col c = Raise ValueError.
Proof.
  destruct col as [l|l|cds]; cbn [Categorical_from_codes]; auto.
  destruct c as [k|k|k];
    (destruct (mapM_Ok_or_Raise (from_code (categories k)) ValueError cds
                 (fun a _ => from_code_Ok_or_Raise (categories k) a))
      as [[bs Hb]|Hb]; unfold from_codes; rewrite Hb; cbn [bind]; eauto).
Qed.

Lemma Categorical_from_codes_out_of_range (cds : list Z) (c : categorical) (z : Z) :
  In z cds -> (z < -1 \/ Z.of_nat (n_categories c) <= z)%Z ->
  Categorical_from_codes (IntCol cds) c = Raise ValueError.
Proof.
  intros Hz Hr. unfold n_categories in Hr.
  destruct c as [k|k|k]; cbn [Categorical_from_codes category_values] in *;
    rewrite length_map in Hr;
    rewrite (from_codes_out_of_range (categories k) cds z Hz Hr); reflexivity.
Qed.

(** X4.  [decode_categories] raises [KeyError] when a column of the codebook
    is absent from the table, and [ValueError] when the columns are there but
    one of them holds a code below -1 or not below the number of categories
    of its codebook. *)
Theorem decode_categories_rejects_bad_tables (ds : Dataset) (df : DataFrame) :
  imbalanced (config ds) = false ->
  ((exists n, In n (map fst (X_cats ds)) /\ ~ In n (map fst df)) ->
   decode_categories ds df = Raise KeyError)
  /\ ((forall n, In n (map fst (X_cats ds)) -> In n (map fst df)) ->
      (exists n c cds z,
          lookup n (X_cats ds) = Some c /\ lookup n df = Some (IntCol cds)
          /\ In z cds /\ (z < -1 \/ Z.of_nat (n_categories c) <= z)%Z) ->
      decode_categories ds df = Raise ValueError).
Proof.
  intros Himb. unfold decode_categories. rewrite Himb. split.
  - intros H. rewrite (getitem_Raise df _ H). reflexivity.
  - intros Hall (n & c & cds & z & Hc & Hcol & Hz & Hr).
    rewrite (getitem_Ok df _ Hall). cbn [bind].
    rewrite (mapM_Raise _ ValueError); [reflexivity| |].
    + intros nc Hnc. apply in_map_iff in Hnc as (m & <- & Hm). cbn [fst snd].
      apply lookup_In_names in Hm.
      destruct (lookup m (X_cats ds)) as [k|]; [|congruence].
      destruct (Categorical_from_codes_Ok_or_Raise (col_of df m) k) as [[x ->]| ->];
        cbn [bind]; eauto.
    + exists (n, col_of df n). split.
      * apply in_map_iff. exists n. split; [reflexivity|].
        apply lookup_In_names. congruence.
      * cbn [fst snd]. rewrite Hc. unfold col_of. rewrite Hcol.
        rewrite (Categorical_from_codes_out_of_range cds c z Hz Hr). reflexivity.
Qed.

Lemma decode_categories_rejects_bad_tables_witness :
  decode_categories toy [("c"%string, IntCol [0; 1]%Z)] = Raise KeyError
  /\ decode_categories toy [("c"%string, IntCol [0; 2]%Z);
                            ("b"%string, IntCol [0; 1]%Z)] = Raise ValueError.
Proof.
  split.
  - apply (proj1 (decode_categories_rejects_bad_tables toy _ eq_refl)).
    exists "b"%string. split; [simpl; auto|].
    simpl. intros [H|[]]. discriminate.
  - apply (proj2 (decode_categories_rejects_bad_tables toy _ eq_refl)).
    + simpl. intuition.
    + exists "c"%string, (CatObj {| codes := [0; 1; 0]%Z;
                                  categories := ["a"; "b"]%string |}),
             [0; 2]%Z, 2%Z.
      repeat split; try reflexivity; [simpl; auto|]. right. simpl. lia.
Defined.

(** X5.  On the store, without the imbalanced switch: [encode_categories]
    leaves the table it is given as it is and returns a new one, whereas
    [decode_categories] writes the decoded columns into the table it is given
    and returns that same table. *)
Theorem decode_categories_updates_in_place
        (self : Dataset) (h : Store) (df : loc) (d : DataFrame) :
  imbalanced (config self) = false ->
  nth_error h df = Some d ->
  (forall E, encode_categories self d = Ok E ->
     exists l h', encode_categories_st self df h = (Ok l, h')
                  /\ l <> df
                  /\ nth_error h' l = Some E /\ nth_error h' df = Some d)
  /\ (forall D, decode_categories self d = Ok D ->
        exists h', decode_categories_st self df h = (Ok df, h')
                   /\ nth_error h' df = Some D).
Proof.
  intros Himb Hd. pose proof (nth_error_allocated h df d Hd) as Hlt. split.
  - intros E HE. unfold encode_categories in HE.
    unfold encode_categories_st. rewrite Himb in *.
    apply bind_Ok_inv in HE as (sub & Eg & HE). injection HE as <-.
    set (f := fun col => IntCol (cat_codes (Categorical_of col))).
    assert (Hcopy : df_copy df h = (Ok (List.length h), h ++ [d])).
    { unfold df_copy. rewrite (bindM_Ok _ _ h h d (read_Some h df d Hd)).
      reflexivity. }
    rewrite (bindM_Ok _ _ _ _ _ Hcopy).
    pose proof (nth_error_snoc h d) as H1.
    assert (Hget : df_getitem (List.length h) (cats self) (h ++ [d])
                   = (Ok (List.length (h ++ [d])), (h ++ [d]) ++ [sub])).
    { rewrite (run_df_getitem _ _ d _ H1), Eg. reflexivity. }
    rewrite (bindM_Ok _ _ _ _ _ Hget).
    pose proof (nth_error_snoc (h ++ [d]) sub) as H2.
    assert (Happ : df_apply f (List.length (h ++ [d])) ((h ++ [d]) ++ [sub])
                   = (Ok (List.length ((h ++ [d]) ++ [sub])),
                      ((h ++ [d]) ++ [sub]) ++ [apply f sub])).
    { unfold df_apply. rewrite (bindM_Ok _ _ _ _ _ (read_Some _ _ _ H2)).
      reflexivity. }
    rewrite (bindM_Ok _ _ _ _ _ Happ).
    pose proof (nth_error_snoc ((h ++ [d]) ++ [sub]) (apply f sub)) as H3.
    set (h3 := ((h ++ [d]) ++ [sub]) ++ [apply f sub]) in *.
    assert (H1' : nth_error h3 (List.length h) = Some d).
    { unfold h3. apply nth_error_snoc_old, nth_error_snoc_old, H1. }
    assert (Hset : df_setitem (List.length h) (List.length ((h ++ [d]) ++ [sub])) h3
                   = (Ok tt, update h3 (List.length h) (setitem d (apply f sub)))).
    { unfold df_setitem. rewrite (bindM_Ok _ _ _ _ _ (read_Some _ _ _ H1')).
      rewrite (bindM_Ok _ _ _ _ _ (read_Some _ _ _ H3)). reflexivity. }
    rewrite (bindM_Ok _ _ _ _ _ Hset).
    exists (List.length h), (update h3 (List.length h) (setitem d (apply f sub))).
    split; [reflexivity|]. split; [lia|]. split.
    + apply nth_error_update_same. apply (nth_error_allocated h3 _ d H1').
    + rewrite nth_error_update_other by lia.
      unfold h3. apply nth_error_snoc_old, nth_error_snoc_old, nth_error_snoc_old, Hd.
  - intros D HD. unfold decode_categories in HD.
    unfold decode_categories_st. rewrite Himb in *.
    apply bind_Ok_inv in HD as (sub & Eg & HD).
    apply bind_Ok_inv in HD as (dec & Edec & HD). injection HD as <-.
    assert (Hget : df_getitem df (map fst (X_cats self)) h
                   = (Ok (List.length h), h ++ [sub])).
    { rewrite (run_df_getitem _ _ d _ Hd), Eg. reflexivity. }
    rewrite (bindM_Ok _ _ _ _ _ Hget).
    pose proof (nth_error_snoc h sub) as H1.
    rewrite (bindM_Ok _ _ _ _ _ (read_Some _ _ _ H1)).
    unfold lift at 1. unfold bindM at 1. rewrite Edec.
    unfold new at 1. unfold bindM at 1.
    pose proof (nth_error_snoc (h ++ [sub]) dec) as H2.
    set (h2 := (h ++ [sub]) ++ [dec]) in *.
    assert (Hd2 : nth_error h2 df = Some d).
    { unfold h2. apply nth_error_snoc_old, nth_error_snoc_old, Hd. }
    assert (Hset : df_setitem df (List.length (h ++ [sub])) h2
                   = (Ok tt, update h2 df (setitem d dec))).
    { unfold df_setitem. rewrite (bindM_Ok _ _ _ _ _ (read_Some _ _ _ Hd2)).
      rewrite (bindM_Ok _ _ _ _ _ (read_Some _ _ _ H2)). reflexivity. }
    rewrite (bindM_Ok _ _ _ _ _ Hset).
    exists (update h2 df (setitem d dec)). split; [reflexivity|].
    apply nth_error_update_same. apply (nth_error_allocated h2 _ d Hd2).
Qed.

Lemma decode_categories_updates_in_place_witness :
  (forall E, encode_categories toy (X toy) = Ok E ->
     exists l h', encode_categories_st toy 0 toy_store = (Ok l, h')
                  /\ l <> 0%nat
                  /\ nth_error h' l = Some E /\ nth_error h' 0 = Some (X toy))
  /\ (forall D, decode_categories toy toy_encoded = Ok D ->
        exists h', decode_categories_st toy 0 [toy_encoded] = (Ok 0%nat, h')
                   /\ nth_error h' 0 = Some D).
Proof.
  split.
  - apply (decode_categories_updates_in_place toy toy_store 0 (X toy));
      reflexivity.
  - apply (decode_categories_updates_in_place toy [toy_encoded] 0 toy_encoded);
      reflexivity.
Defined.

Lemma StronglySorted_map {B C : Type} (R1 : B -> B -> Prop) (R2 : C -> C -> Prop)
      (f : B -> C) (l : list B) :
  (forall a b, R1 a b -> R2 (f a) (f b)) ->
  StronglySorted R1 l -> StronglySorted R2 (map f l).
Proof.
  intros Hf Hs. induction Hs as [|a l Hs IH Hall]; cbn [map]; constructor.
  - exact IH.
  - apply Forall_map. eapply Forall_impl; [|exact Hall]. intros b. apply Hf.
Qed.

Lemma Categorical_of_codebook (c : column) :
  StronglySorted (fun a b => value_ltb a b = true)
                 (category_values (Categorical_of c))
  /\ (forall v, In v (category_values (Categorical_of c))
                <-> In (Some v) (entries c))
  /\ List.length (cat_codes (Categorical_of c)) = column_length c.
Proof.
  destruct c as [l|l|l]; cbn [Categorical_of category_values pd_Categorical
                                categories entries cat_codes codes column_length].
  - split; [|split; [|apply length_map]].
    + apply (StronglySorted_map (fun a b => String.ltb a b = true)); [auto|].
      apply (increasing_sort_unique String.ltb string_order).
    + intros v. rewrite in_map_iff. split.
      * intros (s & <- & Hs). apply (proj1 (In_sort_unique String.ltb string_order _ _)) in Hs.
        apply somes_In in Hs. apply in_map_iff. exists (Some s). auto.
      * intros H. apply in_map_iff in H as ([s|] & E & Hs); [|discriminate].
        injection E as <-. exists s. split; [reflexivity|].
        apply (proj2 (In_sort_unique String.ltb string_order _ _)). apply somes_In. exact Hs.
  - split; [|split; [|apply length_map]].
    + apply (StronglySorted_map (fun a b => ereal_ltb a b = true)); [auto|].
      apply (increasing_sort_unique ereal_ltb ereal_order).
    + intros v. rewrite in_map_iff. split.
      * intros (s & <- & Hs). apply (proj1 (In_sort_unique ereal_ltb ereal_order _ _)) in Hs.
        apply somes_In in Hs. apply in_map_iff. exists (Some s). auto.
      * intros H. apply in_map_iff in H as ([s|] & E & Hs); [|discriminate].
        injection E as <-. exists s. split; [reflexivity|].
        apply (proj2 (In_sort_unique ereal_ltb ereal_order _ _)). apply somes_In. exact Hs.
  - split; [|split; [|rewrite !length_map; reflexivity]].
    + apply (StronglySorted_map (fun a b => Z.ltb a b = true)); [auto|].
      apply (increasing_sort_unique Z.ltb Z_order).
    + intros v. rewrite somes_map_Some, in_map_iff. split.
      * intros (s & <- & Hs). apply (proj1 (In_sort_unique Z.ltb Z_order _ _)) in Hs.
        apply in_map_iff. exists s. auto.
      * intros H. apply in_map_iff in H as (s & E & Hs).
        injection E as <-. exists s. split; [reflexivity|].
        apply (proj2 (In_sort_unique Z.ltb Z_order _ _)). exact Hs.
Qed.

(** X6.  [compute_categories] raises [KeyError] when the configuration names
    a categorical or binary column that the training table lacks.  When it
    returns, the codebook has one entry per configured column, in that order,
    and the categories of an entry are the distinct values of the training
    column that are not missing, in strictly increasing order, with one code
    per training row. *)
Theorem compute_categories_codebook (ds0 : Dataset) :
  ((exists n, In n (categorical_columns (config ds0) ++ binary_columns (config ds0))
              /\ ~ In n (map fst (X ds0))) ->
   compute_categories ds0 = Raise KeyError)
  /\ (forall ds, compute_categories ds0 = Ok ds ->
        cats ds = categorical_columns (config ds0) ++ binary_columns (config ds0)
        /\ map fst (X_cats ds) = cats ds
        /\ forall n, In n (cats ds) ->
             exists c k,
               lookup n (X ds0) = Some c /\ lookup n (X_cats ds) = Some k
               /\ StronglySorted (fun a b => value_ltb a b = true)
                                 (category_values k)
               /\ (forall v, In v (category_values k) <-> In (Some v) (entries c))
               /\ List.length (cat_codes k) = column_length c).
Proof.
  split.
  - intros H. unfold compute_categories. rewrite (getitem_Raise _ _ H). reflexivity.
  - intros ds H.
    destruct (compute_categories_Ok ds0 ds H) as (_ & Hc & Hin & Hx).
    split; [exact Hc|]. split.
    + rewrite Hx, map_map. cbn [fst]. apply map_id.
    + intros n Hn. pose proof (Hin n Hn) as Hn'.
      apply lookup_In_names in Hn'.
      destruct (lookup n (X ds0)) as [c|] eqn:El; [|congruence].
      exists c, (Categorical_of c). split; [reflexivity|]. split.
      * rewrite Hx.
        rewrite (lookup_of_function
                   (fun n => Categorical_of (col_of (X ds0) n))).
        -- unfold col_of. rewrite El. reflexivity.
        -- intros nc Hnc. apply in_map_iff in Hnc as (m & <- & _). reflexivity.
        -- rewrite map_map. cbn [fst]. rewrite map_id. exact Hn.
      * apply Categorical_of_codebook.
Qed.

Lemma compute_categories_codebook_witness :
  compute_categories
    {| config := toy_config; X := [("c"%string, ObjCol [Some "a"%string])];
       X_val := []; X_test := []; y := []; y_val := []; y_test := [];
       X_gen := []; y_gen := []; cats := []; X_cats := [];
       label_encoder := LEObj [] |} = Raise KeyError
  /\ exists c k,
       lookup "c" (X toy_missing) = Some c
       /\ lookup "c" (X_cats toy_missing) = Some k
       /\ StronglySorted (fun a b => value_ltb a b = true) (category_values k)
       /\ (forall v, In v (category_values k) <-> In (Some v) (entries c))
       /\ List.length (cat_codes k) = column_length c.
Proof.
  split.
  - apply (proj1 (compute_categories_codebook _)).
    exists "b"%string. split; [simpl; auto|].
    simpl. intros [H|[]]. discriminate.
  - destruct (proj2 (compute_categories_codebook toy_missing) toy_missing eq_refl)
      as (_ & _ & H).
    apply (H "c"%string). simpl. auto.
Defined.

(** ** The label encoder *)

Lemma somes_app {A : Type} (a b : list (option A)) :
  somes (a ++ b) = somes a ++ somes b.
Proof.
  induction a as [|[x|] a IH]; cbn [somes app]; [reflexivity| |exact IH].
  rewrite IH. reflexivity.
Qed.

Section LabelFacts.
Context {A : Type} (ltb : A -> A -> bool).
Hypothesis Hord : strict_total ltb.

Lemma somes_fit_classes (fitted : list (option A)) :
  somes (fit_classes ltb fitted) = sort_unique ltb (somes fitted).
Proof.
  unfold fit_classes. rewrite somes_app, somes_map_Some.
  destruct (existsb is_none fitted); cbn [somes]; apply app_nil_r.
Qed.

Lemma existsb_is_none_In (l : list (option A)) :
  existsb is_none l = true <-> In None l.
Proof.
  rewrite existsb_exists. split.
  - intros ([x|] & Hx & E); [discriminate|exact Hx].
  - intros H. exists None. auto.
Qed.

Lemma existsb_is_none_fit_classes (fitted : list (option A)) :
  existsb is_none (fit_classes ltb fitted) = existsb is_none fitted.
Proof.
  unfold fit_classes. rewrite existsb_app, existsb_is_none_map_Some.
  destruct (existsb is_none fitted); reflexivity.
Qed.

Lemma index_of_None (a : A) (l : list A) :
  ~ In a l -> index_of ltb a l = None.
Proof.
  induction l as [|y l IH]; intros Hn; cbn [index_of]; [reflexivity|].
  destruct (same ltb a y) eqn:E.
  - apply (same_true_iff ltb Hord) in E. subst y. exfalso. apply Hn. left. reflexivity.
  - rewrite IH; [reflexivity|]. intros H. apply Hn. right. exact H.
Qed.

(** A label that was seen in [fit] has a class index, and the class at that
    index is the label. *)
Lemma class_index_seen (fitted : list (option A)) (v : option A) :
  In v fitted ->
  exists i, class_index ltb (fit_classes ltb fitted) v = Some i
            /\ nth_error (fit_classes ltb fitted) i = Some v.
Proof.
  intros Hv. destruct v as [a|]; cbn [class_index].
  - rewrite somes_fit_classes.
    assert (Hin : In a (sort_unique ltb (somes fitted))).
    { apply (In_sort_unique ltb Hord). apply somes_In. exact Hv. }
    destruct (index_of_In ltb Hord a _ Hin) as (i & Hi & Hnth).
    exists i. split; [exact Hi|]. unfold fit_classes.
    rewrite nth_error_app1
      by (rewrite length_map; apply (nth_error_Some_lt _ _ _ Hnth)).
    rewrite nth_error_map, Hnth. reflexivity.
  - rewrite existsb_is_none_fit_classes.
    rewrite (proj2 (existsb_is_none_In fitted) Hv).
    exists (List.length (somes (fit_classes ltb fitted))). split; [reflexivity|].
    rewrite somes_fit_classes. unfold fit_classes.
    rewrite (proj2 (existsb_is_none_In fitted) Hv).
    rewrite nth_error_app2 by (rewrite length_map; lia).
    rewrite length_map, Nat.sub_diag. reflexivity.
Qed.

Lemma class_index_unseen (fitted : list (option A)) (v : option A) :
  ~ In v fitted -> class_index ltb (fit_classes ltb fitted) v = None.
Proof.
  intros Hv. destruct v as [a|]; cbn [class_index].
  - rewrite somes_fit_classes. apply index_of_None.
    intros H. apply Hv. apply somes_In.
    apply (proj1 (In_sort_unique ltb Hord _ _)) in H. exact H.
  - rewrite existsb_is_none_fit_classes.
    destruct (existsb is_none fitted) eqn:E; [|reflexivity].
    apply existsb_is_none_In in E. contradiction.
Qed.

Lemma transform_round_trip (fitted l : list (option A)) :
  incl l fitted ->
  exists cds,
    transform_labels ltb (fit_classes ltb fitted) l = Ok cds
    /\ inverse_transform_labels (fit_classes ltb fitted) cds = Ok l
    /\ List.length cds = List.length l
    /\ Forall (fun z => (0 <= z < Z.of_nat (List.length (fit_classes ltb fitted)))%Z)
              cds.
Proof.
  unfold transform_labels, inverse_transform_labels.
  induction l as [|v l IH]; intros Hincl.
  - exists []. repeat split. constructor.
  - destruct IH as (cds & H1 & H2 & H3 & H4).
    { intros x Hx. apply Hincl. right. exact Hx. }
    destruct (class_index_seen fitted v (Hincl v (or_introl eq_refl)))
      as (i & Hi & Hnth).
    exists (Z.of_nat i :: cds). cbn [mapM]. rewrite Hi, H1. cbn [bind].
    split; [reflexivity|].
    destruct (Z.ltb_spec (Z.of_nat i) 0) as [Hneg|_]; [lia|].
    rewrite Nat2Z.id, Hnth, H2. cbn [bind].
    split; [reflexivity|]. split; [simpl; congruence|].
    constructor; [|exact H4].
    apply nth_error_Some_lt in Hnth. lia.
Qed.

Lemma transform_unseen (fitted l : list (option A)) :
  (exists v, In v l /\ ~ In v fitted) ->
  transform_labels ltb (fit_classes ltb fitted) l = Raise ValueError.
Proof.
  intros (v & Hv & Hn). unfold transform_labels. apply mapM_Raise.
  - intros a _. destruct (class_index ltb (fit_classes ltb fitted) a); eauto.
  - exists v. split; [exact Hv|]. rewrite (class_index_unseen fitted v Hn).
    reflexivity.
Qed.
End LabelFacts.

Lemma inverse_transform_out_of_range {A : Type} (classes : list (option A))
      (cds : list Z) (z : Z) :
  In z cds -> (z < 0 \/ Z.of_nat (List.length classes) <= z)%Z ->
  inverse_transform_labels classes cds = Raise ValueError.
Proof.
  intros Hz Hr. unfold inverse_transform_labels. apply mapM_Raise.
  - intros c _. destruct (c <? 0)%Z; [auto|].
    destruct (nth_error classes (Z.to_nat c)); eauto.
  - exists z. split; [exact Hz|].
    destruct (Z.ltb_spec z 0) as [_|Hge]; [reflexivity|].
    destruct (nth_error classes (Z.to_nat z)) as [v|] eqn:E; [|reflexivity].
    apply nth_error_Some_lt in E. lia.
Qed.

Lemma get_label_encoders_Ok (ds0 ds : Dataset) (m : string) (fitted : column) :
  get_label_encoders ds0 = Ok ds -> y ds0 = [(m, fitted)] ->
  label_encoder ds
  = match fitted with
    | ObjCol l => LEObj (fit_classes String.ltb l)
    | FloatCol l => LEFloat (fit_classes ereal_ltb l)
    | IntCol l => LEInt (fit_classes Z.ltb (map Some l))
    end.
Proof.
  intros H Hy. unfold get_label_encoders in H. rewrite Hy in H.
  destruct fitted as [l|l|l]; cbn in H; injection H as <-; reflexivity.
Qed.

Lemma incl_map_Some {A : Type} (l1 l2 : list A) :
  incl l1 l2 -> incl (map Some l1) (map Some l2).
Proof.
  intros H v Hv. apply in_map_iff in Hv as (x & <- & Hx).
  apply in_map. apply H. exact Hx.
Qed.

(** X7.  Labels survive the label encoder: with the encoder fitted on the
    training labels, a non-empty column of labels that all occur among the
    training labels is encoded without error into one code per row, each at
    least 0 and below the number of classes, and decoding those codes gives
    the column back. *)
Theorem label_round_trip (ds0 ds : Dataset) (m n : string) (fitted c : column) :
  get_label_encoders ds0 = Ok ds -> y ds0 = [(m, fitted)] ->
  seen c fitted -> column_length c <> 0%nat ->
  exists cds,
    encode_labels ds [(n, c)] = Ok cds
    /\ decode_labels ds cds = Ok c
    /\ List.length cds = column_length c
    /\ Forall (fun z => (0 <= z < Z.of_nat (n_classes (label_encoder ds)))%Z) cds.
Proof.
  intros H Hy Hseen Hne.
  rewrite (get_label_encoders_Ok ds0 ds m fitted H Hy).
  unfold encode_labels, decode_labels.
  rewrite (get_label_encoders_Ok ds0 ds m fitted H Hy).
  destruct c as [l|l|l], fitted as [f|f|f]; cbn [seen] in Hseen;
    try contradiction; cbn [column_length n_classes] in *.
  - destruct (transform_round_trip String.ltb string_order f l Hseen)
      as (cds & H1 & H2 & H3 & H4).
    exists cds. split; [exact H1|]. split; [|auto].
    destruct cds as [|z cds]; [destruct l; [contradiction|discriminate]|].
    rewrite H2. reflexivity.
  - destruct (transform_round_trip ereal_ltb ereal_order f l Hseen)
      as (cds & H1 & H2 & H3 & H4).
    exists cds. split; [exact H1|]. split; [|auto].
    destruct cds as [|z cds]; [destruct l; [contradiction|discriminate]|].
    rewrite H2. reflexivity.
  - destruct (transform_round_trip Z.ltb Z_order (map Some f) (map Some l)
                (incl_map_Some l f Hseen)) as (cds & H1 & H2 & H3 & H4).
    rewrite length_map in H3.
    exists cds. split; [exact H1|]. split; [|auto].
    destruct cds as [|z cds]; [destruct l; [contradiction|discriminate]|].
    rewrite H2. cbn [bind]. unfold int_values.
    rewrite existsb_is_none_map_Some, somes_map_Some. reflexivity.
Qed.

Lemma label_round_trip_witness :
  exists cds,
    encode_labels toy [("label"%string, ObjCol [Some "v"; Some "v"; Some "u"]%string)]
    = Ok cds
    /\ decode_labels toy cds = Ok (ObjCol [Some "v"; Some "v"; Some "u"]%string)
    /\ List.length cds = 3%nat
    /\ Forall (fun z => (0 <= z < Z.of_nat (n_classes (label_encoder toy)))%Z) cds.
Proof.
  apply (label_round_trip toy toy "label"%string "label"%string
           (ObjCol [Some "u"; Some "v"; Some "u"]%string)
           (ObjCol [Some "v"; Some "v"; Some "u"]%string)).
  - reflexivity.
  - reflexivity.
  - simpl. intros x Hx. simpl in Hx |- *. intuition.
  - simpl. discriminate.
Defined.

(** X8.  What the fitted label encoder rejects: a column with a label that
    does not occur among the training labels cannot be encoded, and a code
    below 0 or not below the number of classes cannot be decoded; both are a
    [ValueError]. *)
Theorem label_encoder_rejects_unseen
        (ds0 ds : Dataset) (m n : string) (fitted c : column) :
  get_label_encoders ds0 = Ok ds -> y ds0 = [(m, fitted)] ->
  (unseen c fitted -> encode_labels ds [(n, c)] = Raise ValueError)
  /\ (forall cds z,
        In z cds ->
        (z < 0 \/ Z.of_nat (n_classes (label_encoder ds)) <= z)%Z ->
        decode_labels ds cds = Raise ValueError).
Proof.
  intros H Hy. pose proof (get_label_encoders_Ok ds0 ds m fitted H Hy) as Hle.
  split.
  - intros Hun. unfold encode_labels. rewrite Hle.
    destruct c as [l|l|l], fitted as [f|f|f]; cbn [unseen] in Hun;
      try contradiction.
    + apply (transform_unseen String.ltb string_order). exact Hun.
    + apply (transform_unseen ereal_ltb ereal_order). exact Hun.
    + apply (transform_unseen Z.ltb Z_order).
      destruct Hun as (v & Hv & Hn). exists (Some v). split; [apply in_map, Hv|].
      intros Hin. apply in_map_iff in Hin as (x & [= ->] & Hx). contradiction.
  - intros cds z Hz Hr. unfold decode_labels.
    destruct cds as [|z0 cds]; [destruct Hz|].
    destruct (label_encoder ds) as [cl|cl|cl]; cbn [n_classes] in Hr;
      rewrite (inverse_transform_out_of_range cl (z0 :: cds) z Hz Hr);
      reflexivity.
Qed.

Lemma label_encoder_rejects_unseen_witness :
  encode_labels toy [("label"%string, ObjCol [Some "u"; Some "w"]%string)]
  = Raise ValueError
  /\ decode_labels toy [0; 2]%Z = Raise ValueError.
Proof.
  destruct (label_encoder_rejects_unseen
              toy toy "label"%string "label"%string
              (ObjCol [Some "u"; Some "v"; Some "u"]%string)
              (ObjCol [Some "u"; Some "w"]%string) eq_refl eq_refl)
    as [H1 H2].
  split.
  - apply H1. exists (Some "w"%string). split; [simpl; auto|].
    simpl. intros [E|[E|[E|[]]]]; discriminate.
  - apply (H2 [0; 2]%Z 2%Z); [simpl; auto|]. right. simpl. lia.
Defined.

(** ** The distance pass: shape and bounds *)

Lemma nrows_encode_categories (ds : Dataset) (df E : DataFrame) :
  encode_categories ds df = Ok E -> nrows E = nrows df.
Proof.
  intros H. destruct (imbalanced (config ds)) eqn:Himb.
  - unfold encode_categories in H. rewrite Himb in H. congruence.
  - destruct (encode_categories_lookup ds df E Himb H) as (Hin & Hn & Hout & Hcat).
    destruct df as [|[m c] df]; destruct E as [|[m' c'] E]; try discriminate;
      [reflexivity|].
    cbn [map fst] in Hn. injection Hn as -> _. cbn [nrows].
    destruct (in_dec string_dec m (cats ds)) as [Hm|Hm].
    + specialize (Hcat m Hm). unfold col_of in Hcat. cbn [lookup] in Hcat.
      rewrite String.eqb_refl in Hcat. injection Hcat as ->.
      apply (proj1 (cat_codes_range c)).
    + specialize (Hout m Hm). cbn [lookup] in Hout.
      rewrite String.eqb_refl in Hout. congruence.
Qed.

Lemma values_length (df : DataFrame) (M : matrix) :
  values df = Ok M -> List.length M = nrows df.
Proof.
  unfold values. intros H. apply bind_Ok_inv in H as (cols & _ & H).
  injection H as <-. rewrite length_map, length_seq. reflexivity.
Qed.

Lemma encode_categories_nil (ds : Dataset) (df E : DataFrame) :
  encode_categories ds df = Ok E -> df <> [] -> E <> [].
Proof.
  intros H Hne ->. apply Hne.
  pose proof (encode_categories_names ds df [] H) as Hn.
  destruct df; [reflexivity|discriminate].
Qed.

(** The two distances of a synthetic row are distances to real rows; the
    first is the least of all. *)
Lemma min_l2_distance_nearest (p : nat) (row : list float) (real_array : matrix) :
  List.length row = p -> width p real_array ->
  Forall finite row -> finite_matrix real_array ->
  (2 <= List.length real_array)%nat ->
  exists d1 d2 : R,
    min_l2_distance row real_array = Ok (mkSynth (F d1) (F d2))
    /\ (0 <= d1 <= d2)%R
    /\ (exists t, In t real_array /\ l2 row t = F d1)
    /\ (exists t, In t real_array /\ l2 row t = F d2)
    /\ (forall t, In t real_array -> exists d, l2 row t = F d /\ (d1 <= d)%R).
Proof.
  intros Hp Hw Hrow Hfin Hlen. unfold min_l2_distance.
  rewrite (euclidean_distance_unweighted p) by assumption. cbn [bind].
  destruct (partition_two_Ok (map (l2 row) real_array))
    as (first & second & -> & H1 & H2 & Hle & Hall).
  { rewrite length_map. exact Hlen. }
  assert (Hnn : forall t, In t real_array -> nonneg (l2 row t)).
  { intros t Ht. apply l2_nonneg; [assumption|].
    unfold finite_matrix in Hfin. rewrite Forall_forall in Hfin. auto. }
  apply in_map_iff in H1 as (t1 & E1 & Ht1).
  apply in_map_iff in H2 as (t2 & E2 & Ht2).
  destruct (Hnn t1 Ht1) as (a & Ea & Ha). destruct (Hnn t2 Ht2) as (b & Eb & Hb).
  rewrite Ea in E1. rewrite Eb in E2. subst first second.
  apply sort_leb_F in Hle. cbn [bind].
  assert (Hmin : forall t, In t real_array ->
                   exists d, l2 row t = F d /\ (a <= d)%R).
  { intros t Ht. destruct (Hnn t Ht) as (d & Ed & _). exists d. split; [exact Ed|].
    apply sort_leb_F. rewrite <- Ed. apply Hall. apply in_map. exact Ht. }
  destruct (fltb (F a) (F b)) eqn:E.
  - exists a, b. split; [reflexivity|]. split; [lra|].
    split; [exists t1; auto|]. split; [exists t2; auto|]. exact Hmin.
  - assert (a = b) as <-.
    { destruct (Rlt_dec a b) as [Hlt|Hge]; [|lra].
      apply fltb_F in Hlt. congruence. }
    exists a, a. split; [reflexivity|]. split; [lra|].
    split; [exists t1; auto|]. split; [exists t2; auto|]. exact Hmin.
Qed.

(** On two encoded tables of finite numbers with the same number of columns,
    the real one with two rows or more and the synthetic one not empty, the
    distance pass returns the rows that [min_l2_distance] and
    [min_dist_real_synth] compute from the two arrays. *)
Lemma compute_distances_hits_finite
      (ds : Dataset) (tp : R) (real_data gen_data : DataFrame) (N G : nat) :
  get_single_encoded_data ds = Ok (real_data, gen_data) ->
  finite_frame N real_data -> nrows real_data = N ->
  finite_frame G gen_data -> nrows gen_data = G ->
  List.length gen_data = List.length real_data ->
  (2 <= N)%nat -> (1 <= G)%nat -> (0 <= tp)%R ->
  exists real_array fake_array thres w synth stats,
    values real_data = Ok real_array /\ values gen_data = Ok fake_array
    /\ List.length real_array = N /\ List.length fake_array = G
    /\ width (List.length real_data) real_array
    /\ width (List.length real_data) fake_array
    /\ finite_matrix real_array /\ finite_matrix fake_array
    /\ List.length thres = List.length real_data /\ Forall nonneg thres
    /\ List.length w = List.length real_data
    /\ compute_distances_hits ds (F tp) = Ok (synth, stats)
    /\ Forall2 (fun row s => min_l2_distance row real_array = Ok s)
               fake_array synth
    /\ Forall2 (fun row s =>
                  min_dist_real_synth row real_array fake_array thres w = Ok s)
               real_array stats.
Proof.
  intros Henc Hfin Hn Hfg Hg Hcols HN HG Htp.
  unfold compute_distances_hits. rewrite Henc. cbn [bind].
  destruct (values_finite real_data N Hfin Hn) as (M & EM & HlM & HwM & HfM).
  destruct (values_finite gen_data G Hfg Hg) as (K & EK & HlK & HwK & HfK).
  rewrite EM, EK. cbn [bind]. rewrite Hcols in HwK.
  destruct (mapM_Ok_Forall (fun row => min_l2_distance row M) (fun _ => True) K)
    as (synth & Esy & _ & Hls).
  { intros row Hin.
    assert (Hr1 : List.length row = List.length real_data).
    { unfold width in HwK. rewrite Forall_forall in HwK. auto. }
    destruct (min_l2_distance_returns (List.length real_data) row M
                Hr1 HwM ltac:(lia)) as (s & E).
    eauto. }
  rewrite Esy. cbn [bind].
  destruct (thresholds_nonneg ds tp real_data N Hfin) as (th & Eth & Hlt & Hth);
    [lia|assumption|].
  rewrite Eth. cbn [bind].
  destruct (mapM_Ok_Forall
              (fun nc => l <- to_floats (snd nc) ;; Ok (column_entropy l))
              (fun _ => True) real_data) as (w & -> & _ & Hlw).
  { intros [n c] Hin. cbn [fst snd].
    destruct (Hfin n c Hin) as (l & -> & _).
    cbn [bind]. eauto. }
  cbn [bind].
  destruct (mapM_Ok_Forall
              (fun row => min_dist_real_synth row M K th w)
              (fun _ => True) M) as (stats & Est & _ & Hlst).
  { intros row Hin.
    assert (Hr1 : List.length row = List.length real_data).
    { unfold width in HwM. rewrite Forall_forall in HwM. auto. }
    assert (HK : K <> []).
    { destruct K; [simpl in HlK; lia|discriminate]. }
    destruct (min_dist_real_synth_returns (List.length real_data) row M K th w
                Hr1 Hlw Hlt HwM HwK ltac:(lia) HK) as (s & -> & _).
    eauto. }
  rewrite Est. cbn [bind].
  exists M, K, th, w, synth, stats.
  repeat (split; [first [reflexivity | assumption]|]).
  split; [apply mapM_Ok_Forall2; exact Esy|].
  apply mapM_Ok_Forall2. exact Est.
Qed.

Lemma toy_copy_distances_return :
  exists synth stats,
    compute_distances_hits toy_copy (F (3 / 10)) = Ok (synth, stats).
Proof.
  destruct (compute_distances_hits_finite toy_copy (3 / 10) toy_encoded toy_encoded
              3 3) as (M & K & th & w & synth & stats & H);
    try reflexivity; try exact toy_encoded_finite; try lia; try lra.
  exists synth, stats. apply H.
Qed.

Lemma Forall2_impl_In {B C : Type} (R1 R2 : B -> C -> Prop) (l : list B) (r : list C) :
  Forall2 R1 l r -> (forall a b, In a l -> R1 a b -> R2 a b) -> Forall2 R2 l r.
Proof.
  induction 1 as [|a b l r Hab Hlr IH]; intros H; constructor.
  - apply H; [left; reflexivity|exact Hab].
  - apply IH. intros x y Hx. apply H. right. exact Hx.
Qed.

Lemma Forall2_Forall_r {B C : Type} (R1 : B -> C -> Prop) (P : C -> Prop)
      (l : list B) (r : list C) :
  Forall2 R1 l r -> (forall a b, In a l -> R1 a b -> P b) -> Forall P r.
Proof.
  induction 1 as [|a b l r Hab Hlr IH]; intros H; constructor.
  - apply (H a); [left; reflexivity|exact Hab].
  - apply IH. intros x y Hx. apply H. right. exact Hx.
Qed.

(** X10.  Distance to the closest record: on encoded tables of finite
    numbers, each synthetic row gets two distances that are Euclidean
    distances from that row to rows of the real table, and the first one is
    the least distance from that row to any real row. *)
Theorem closest_record_is_nearest
        (ds : Dataset) (tp : R) (real_data gen_data : DataFrame) (N G : nat) :
  get_single_encoded_data ds = Ok (real_data, gen_data) ->
  finite_frame N real_data -> nrows real_data = N ->
  finite_frame G gen_data -> nrows gen_data = G ->
  List.length gen_data = List.length real_data ->
  (2 <= N)%nat -> (1 <= G)%nat -> (0 <= tp)%R ->
  exists real_array fake_array synth stats,
    values real_data = Ok real_array /\ values gen_data = Ok fake_array
    /\ compute_distances_hits ds (F tp) = Ok (synth, stats)
    /\ Forall2 (fun row s =>
                  exists d1 d2 : R,
                    s = mkSynth (F d1) (F d2)
                    /\ (exists t, In t real_array /\ l2 row t = F d1)
                    /\ (exists t, In t real_array /\ l2 row t = F d2)
                    /\ (forall t, In t real_array ->
                          exists d, l2 row t = F d /\ (d1 <= d)%R))
               fake_array synth.
Proof.
  intros Henc Hfin Hn Hfg Hg Hcols HN HG Htp.
  destruct (compute_distances_hits_finite ds tp real_data gen_data N G
              Henc Hfin Hn Hfg Hg Hcols HN HG Htp)
    as (M & K & th & w & synth & stats & EM & EK & HlM & HlK & HwM & HwK & HfM
        & HfK & _ & _ & _ & E & Hsy & _).
  exists M, K, synth, stats. repeat (split; [assumption|]).
  apply (Forall2_impl_In _ _ _ _ Hsy). intros row s Hin Hs.
  assert (Hr1 : List.length row = List.length real_data).
  { unfold width in HwK. rewrite Forall_forall in HwK. auto. }
  assert (Hr2 : Forall finite row).
  { unfold finite_matrix in HfK. rewrite Forall_forall in HfK. auto. }
  destruct (min_l2_distance_nearest (List.length real_data) row M
              Hr1 HwM Hr2 HfM ltac:(lia)) as (d1 & d2 & E' & _ & H1 & H2 & H3).
  exists d1, d2. split; [congruence|]. auto.
Qed.

Lemma closest_record_is_nearest_witness :
  exists real_array fake_array synth stats,
    values toy_encoded = Ok real_array /\ values toy_encoded = Ok fake_array
    /\ compute_distances_hits toy_copy (F (3 / 10)) = Ok (synth, stats)
    /\ Forall2 (fun row s =>
                  exists d1 d2 : R,
                    s = mkSynth (F d1) (F d2)
                    /\ (exists t, In t real_array /\ l2 row t = F d1)
                    /\ (exists t, In t real_array /\ l2 row t = F d2)
                    /\ (forall t, In t real_array ->
                          exists d, l2 row t = F d /\ (d1 <= d)%R))
               fake_array synth.
Proof.
  apply (closest_record_is_nearest toy_copy (3 / 10) toy_encoded toy_encoded 3 3).
  - reflexivity.
  - exact toy_encoded_finite.
  - reflexivity.
  - exact toy_encoded_finite.
  - reflexivity.
  - reflexivity.
  - lia.
  - lia.
  - lra.
Defined.

Lemma fold_fadd_unit (l : list float) (a : R) :
  Forall (fun x => exists r, x = F r /\ (0 <= r <= 1)%R) l ->
  exists s, fold_left fadd l (F a) = F s
            /\ (a <= s <= a + INR (List.length l))%R.
Proof.
  revert a. induction l as [|x l IH]; intros a H.
  - exists a. split; [reflexivity|]. simpl. lra.
  - inversion H as [|? ? (r & -> & Hr) Hl]; subst. cbn [fold_left].
    rewrite fadd_F. destruct (IH (a + r)%R Hl) as (s & -> & Hs).
    exists s. split; [reflexivity|].
    change (List.length (F r :: l)) with (S (List.length l)).
    rewrite S_INR. lra.
Qed.

Lemma np_mean_unit (l : list float) :
  l <> [] -> Forall (fun x => exists r, x = F r /\ (0 <= r <= 1)%R) l ->
  exists q, np_mean l = F q /\ (0 <= q <= 1)%R.
Proof.
  intros Hne H. unfold np_mean, fsum.
  destruct (fold_fadd_unit l 0 H) as (s & -> & Hs).
  assert (Hn : (0 < INR (List.length l))%R).
  { apply lt_0_INR. destruct l; [contradiction|simpl; lia]. }
  unfold of_nat. rewrite fdiv_F by lra.
  exists (s / INR (List.length l))%R. split; [reflexivity|]. split.
  - apply Rmult_le_pos; [lra|]. left. apply Rinv_0_lt_compat, Hn.
  - apply (Rmult_le_reg_r (INR (List.length l))); [exact Hn|].
    unfold Rdiv. rewrite Rmult_assoc, Rinv_l by lra. lra.
Qed.

Lemma col_mean_nonneg (l : list float) :
  l <> [] -> Forall nonneg l -> nonneg (col_mean l).
Proof.
  intros Hne H. unfold col_mean.
  assert (Hf : Forall finite l).
  { eapply Forall_impl; [|exact H]. intros x. apply nonneg_finite. }
  pose proof (somes_finite l Hf) as Hs.
  destruct (somes l) as [|e xs] eqn:E.
  - exfalso. apply Hne. rewrite <- Hs. reflexivity.
  - rewrite Hs. destruct (fsum_nonneg l H) as (s & -> & Hs0).
    assert (Hn : (0 < INR (List.length (e :: xs)))%R).
    { apply lt_0_INR. simpl. lia. }
    unfold of_nat. rewrite fdiv_F by lra.
    exists (s / INR (List.length (e :: xs)))%R. split; [reflexivity|].
    apply Rmult_le_pos; [lra|]. left. apply Rinv_0_lt_compat, Hn.
Qed.

(** X11.  On encoded tables of finite numbers the distance pass returns,
    the mean distance to the closest record is a number that is not
    negative, and, when no synthetic row has a second distance of 0, the
    nearest neighbour distance ratio is a number in [0, 1]. *)
Theorem distance_scores_bounded
        (ds : Dataset) (tp : R) (real_data gen_data : DataFrame) (N G : nat) :
  get_single_encoded_data ds = Ok (real_data, gen_data) ->
  finite_frame N real_data -> nrows real_data = N ->
  finite_frame G gen_data -> nrows gen_data = G ->
  List.length gen_data = List.length real_data ->
  (2 <= N)%nat -> (1 <= G)%nat -> (0 <= tp)%R ->
  exists synth stats,
    compute_distances_hits ds (F tp) = Ok (synth, stats)
    /\ (exists m, mean_distance_closest_record synth = F m /\ (0 <= m)%R)
    /\ (Forall (fun s => s_r_l2_min_2 s <> F 0) synth ->
        exists q, nearest_neighbor_distance_ratio synth = F q
                  /\ (0 <= q <= 1)%R).
Proof.
  intros Henc Hfin Hn Hfg Hg Hcols HN HG Htp.
  destruct (compute_distances_hits_finite ds tp real_data gen_data N G
              Henc Hfin Hn Hfg Hg Hcols HN HG Htp)
    as (M & K & th & w & synth & stats & EM & EK & HlM & HlK & HwM & HwK & HfM
        & HfK & _ & _ & _ & E & Hsy & _).
  exists synth, stats. split; [exact E|].
  assert (Hb : Forall (fun s => exists d1 d2 : R,
                         s = mkSynth (F d1) (F d2) /\ (0 <= d1 <= d2)%R) synth).
  { apply (Forall2_Forall_r _ _ _ _ Hsy). intros row s Hin Hs.
    assert (Hr1 : List.length row = List.length real_data).
    { unfold width in HwK. rewrite Forall_forall in HwK. auto. }
    assert (Hr2 : Forall finite row).
    { unfold finite_matrix in HfK. rewrite Forall_forall in HfK. auto. }
    destruct (min_l2_distance_nearest (List.length real_data) row M
                Hr1 HwM Hr2 HfM ltac:(lia)) as (d1 & d2 & E' & Hd & _).
    exists d1, d2. split; [congruence|exact Hd]. }
  assert (Hne : synth <> []).
  { apply Forall2_length in Hsy. destruct synth; [|discriminate].
    simpl in Hsy. lia. }
  split.
  - unfold mean_distance_closest_record. apply col_mean_nonneg.
    + destruct synth; [contradiction|discriminate].
    + apply Forall_map. eapply Forall_impl; [|exact Hb].
      intros s (d1 & d2 & -> & Hd). exists d1. split; [reflexivity|lra].
  - intros Hpos. unfold nearest_neighbor_distance_ratio. apply np_mean_unit.
    + destruct synth; [contradiction|discriminate].
    + apply Forall_map. rewrite Forall_forall in Hb, Hpos |- *.
      intros s Hs. destruct (Hb s Hs) as (d1 & d2 & -> & Hd).
      specialize (Hpos _ Hs). cbn [s_r_l2_min_1 s_r_l2_min_2] in *.
      assert (Hd2 : (0 < d2)%R).
      { destruct (Req_dec d2 0) as [->|]; [contradiction|lra]. }
      exists (d1 / d2)%R. split; [apply fdiv_F; lra|]. split.
      * apply Rmult_le_pos; [lra|]. left. apply Rinv_0_lt_compat, Hd2.
      * apply (Rmult_le_reg_r d2); [exact Hd2|].
        unfold Rdiv. rewrite Rmult_assoc, Rinv_l by lra. lra.
Qed.

Lemma distance_scores_bounded_witness :
  exists synth stats,
    compute_distances_hits toy_copy (F (3 / 10)) = Ok (synth, stats)
    /\ (exists m, mean_distance_closest_record synth = F m /\ (0 <= m)%R)
    /\ (Forall (fun s => s_r_l2_min_2 s <> F 0) synth ->
        exists q, nearest_neighbor_distance_ratio synth = F q
                  /\ (0 <= q <= 1)%R).
Proof.
  apply (distance_scores_bounded toy_copy (3 / 10) toy_encoded toy_encoded 3 3).
  - reflexivity.
  - exact toy_encoded_finite.
  - reflexivity.
  - exact toy_encoded_finite.
  - reflexivity.
  - reflexivity.
  - lia.
  - lia.
  - lra.
Defined.

(** ** Hits *)

Lemma fleb_fabs_zero (x y : float) :
  fleb (fabs (fsub x y)) (F 0) = true -> x = y /\ finite x.
Proof.
  destruct x as [[a| |]|], y as [[b| |]|];
    unfold fleb, fabs, fsub, fadd, fneg, fltb, feqb, F; simpl;
    try discriminate.
  intros H. apply orb_true_iff in H.
  assert (E : Rabs (a + - b) = 0%R).
  { destruct H as [H|H].
    - apply Rltb_true in H. pose proof (Rabs_pos (a + - b)). lra.
    - apply Reqb_true in H. exact H. }
  destruct (Req_dec (a + - b) 0) as [E0|E0].
  - split; [|exists a; reflexivity]. do 2 f_equal. lra.
  - apply Rabs_no_R0 in E0. contradiction.
Qed.

Lemma forallb_nth_error (l : list bool) (j : nat) (b : bool) :
  forallb (fun h => h) l = true -> nth_error l j = Some b -> b = true.
Proof.
  intros H Hj. apply nth_error_In in Hj.
  rewrite forallb_forall in H. apply H. exact Hj.
Qed.

(** X12.  A training row that occurs among the synthetic rows is a hit: for
    a row of finite numbers and thresholds that are not negative,
    [min_dist_real_synth] returns with the hit flag set, whatever the other
    synthetic rows and the weights are. *)
Theorem verbatim_row_is_hit
        (p : nat) (row : list float) (real_array fake_array : matrix)
        (thres w : list float) :
  List.length row = p -> List.length w = p -> List.length thres = p ->
  width p real_array -> width p fake_array ->
  (2 <= List.length real_array)%nat ->
  In row fake_array -> Forall finite row -> Forall nonneg thres ->
  exists s, min_dist_real_synth row real_array fake_array thres w = Ok s
            /\ hit s = true.
Proof.
  intros Hp Hw Ht Hwr Hwf Hlen Hin Hfin Hth.
  assert (Hne : fake_array <> []) by (intros ->; destruct Hin).
  destruct (min_dist_real_synth_returns p row real_array fake_array thres w
              Hp Hw Ht Hwr Hwf Hlen Hne) as (s & E & Hs).
  exists s. split; [exact E|]. rewrite Hs.
  apply existsb_exists. exists true. split; [|reflexivity].
  rewrite <- (within_self thres row Hfin Hth). apply in_map, Hin.
Qed.

Lemma verbatim_row_is_hit_witness :
  exists s, min_dist_real_synth [F 1; F 2] [[F 1; F 2]; [F 0; F 5]]
                                [[F 7; F 7]; [F 1; F 2]] [F 0; F 0] [F 1; F 1]
            = Ok s
            /\ hit s = true.
Proof.
  apply (verbatim_row_is_hit 2).
  - reflexivity.
  - reflexivity.
  - reflexivity.
  - repeat constructor.
  - repeat constructor.
  - simpl. lia.
  - simpl. auto.
  - repeat constructor; apply finite_F.
  - repeat constructor; exists 0%R; (split; [reflexivity|lra]).
Defined.

(** X13.  A hit needs agreement where the threshold is 0 (the codec columns
    and the label): when [min_dist_real_synth] returns with the hit flag
    set, some synthetic row has, in every column whose threshold is 0, the
    very entry of the training row, and that entry is a finite number. *)
Theorem hit_agrees_where_threshold_is_zero
        (p : nat) (row : list float) (real_array fake_array : matrix)
        (thres w : list float) (s : real_stats) :
  List.length row = p -> List.length w = p -> List.length thres = p ->
  width p real_array -> width p fake_array ->
  min_dist_real_synth row real_array fake_array thres w = Ok s ->
  hit s = true ->
  exists f, In f fake_array
    /\ forall j x, nth_error thres j = Some (F 0) -> nth_error row j = Some x ->
         nth_error f j = Some x /\ finite x.
Proof.
  intros Hp Hw Ht Hwr Hwf E Hhit.
  rewrite (min_dist_real_synth_eq p) in E by assumption.
  apply bind_Ok_inv in E as ([first second] & _ & E).
  apply bind_Ok_inv in E as (fake_min & _ & E). injection E as <-.
  cbn [hit] in Hhit. apply existsb_exists in Hhit as (b & Hb & ->).
  apply in_map_iff in Hb as (f & Hb & Hf).
  exists f. split; [exact Hf|]. intros j x Hj Hx.
  assert (Hlf : List.length f = p).
  { unfold width in Hwf. rewrite Forall_forall in Hwf. auto. }
  destruct (nth_error_lt_Some f j) as (y & Hy).
  { rewrite Hlf, <- Hp. apply (nth_error_Some_lt _ _ _ Hx). }
  unfold within in Hb.
  pose proof (zip_with_nth_error fsub row f j x y Hx Hy) as Hd.
  pose proof (zip_with_nth_error (fun x t => fleb (fabs x) t)
                (zip_with fsub row f) thres j (fsub x y) (F 0) Hd Hj) as Hz.
  pose proof (forallb_nth_error _ _ _ Hb Hz) as Hle.
  apply fleb_fabs_zero in Hle as [-> Hfin]. auto.
Qed.

Lemma hit_agrees_where_threshold_is_zero_witness :
  exists s f,
    min_dist_real_synth [F 1; F 2] [[F 1; F 2]; [F 0; F 5]]
                        [[F 7; F 7]; [F 1; F 3]] [F 0; F 1] [F 1; F 1] = Ok s
    /\ In f [[F 7; F 7]; [F 1; F 3]]
    /\ forall j x, nth_error [F 0; F 1] j = Some (F 0) ->
         nth_error [F 1; F 2] j = Some x ->
         nth_error f j = Some x /\ finite x.
Proof.
  assert (W : width 2 [[F 1; F 2]; [F 0; F 5]]) by (repeat constructor).
  assert (W' : width 2 [[F 7; F 7]; [F 1; F 3]]) by (repeat constructor).
  destruct (min_dist_real_synth_returns 2 [F 1; F 2] [[F 1; F 2]; [F 0; F 5]]
              [[F 7; F 7]; [F 1; F 3]] [F 0; F 1] [F 1; F 1]
              eq_refl eq_refl eq_refl W W' (le_n 2) ltac:(discriminate))
    as (s & E & Hs).
  exists s.
  destruct (hit_agrees_where_threshold_is_zero 2 [F 1; F 2]
              [[F 1; F 2]; [F 0; F 5]] [[F 7; F 7]; [F 1; F 3]]
              [F 0; F 1] [F 1; F 1] s eq_refl eq_refl eq_refl W W' E)
    as (f & Hf & H).
  - rewrite Hs. cbn [map existsb].
    apply orb_true_iff. right. rewrite orb_false_r.
    unfold within. cbn [zip_with combine map fst snd forallb].
    replace (fsub (F 1) (F 1)) with (F 0) by (symmetry; apply fsub_self, finite_F).
    replace (fsub (F 2) (F 3)) with (F (2 + - 3)) by reflexivity.
    unfold fleb, fabs, fltb, feqb, F. cbn.
    rewrite Rabs_R0, (proj2 (Reqb_true 0 0) eq_refl), orb_true_r.
    replace (Rabs (2 + -3)) with 1%R by (rewrite Rabs_left; lra).
    rewrite (proj2 (Reqb_true 1 1) eq_refl), orb_true_r. reflexivity.
  - exists f. auto.
Defined.

(** ** The Jensen-Shannon pass: row counts and identical tables *)

Lemma broadcast_mismatch {B : Type} (op : float -> float -> B) (a b : list float) :
  List.length a <> List.length b ->
  List.length a <> 1%nat -> List.length b <> 1%nat ->
  broadcast op a b = Raise ValueError.
Proof.
  intros Hab Ha Hb. unfold broadcast.
  destruct (Nat.eqb_spec (List.length a) (List.length b)) as [E|_];
    [contradiction|].
  destruct a as [|x [|x' a]], b as [|y [|y' b]]; simpl in *;
    try reflexivity; contradiction.
Qed.

Lemma jensenshannon_mismatch (p q : list float) :
  List.length p <> List.length q ->
  List.length p <> 1%nat -> List.length q <> 1%nat ->
  jensenshannon p q = Raise ValueError.
Proof.
  intros Hpq Hp Hq. unfold jensenshannon.
  rewrite broadcast_mismatch by (rewrite ?length_map; assumption).
  reflexivity.
Qed.

Lemma get_single_encoded_data_Ok (ds : Dataset) (real gen : DataFrame) :
  get_single_encoded_data ds = Ok (real, gen) ->
  exists X_real X_gen' y_real y_gen',
    encode_categories ds (X ds) = Ok X_real
    /\ encode_categories ds (X_gen ds) = Ok X_gen'
    /\ encode_labels ds (y ds) = Ok y_real
    /\ encode_labels ds (y_gen ds) = Ok y_gen'
    /\ real = concat_axis1 X_real [(y_label (config ds), IntCol y_real)]
    /\ gen = concat_axis1 X_gen' [(y_label (config ds), IntCol y_gen')].
Proof.
  unfold get_single_encoded_data. intros H.
  apply bind_Ok_inv in H as (X_real & H1 & H).
  apply bind_Ok_inv in H as (X_gen' & H2 & H).
  apply bind_Ok_inv in H as (y_real & H3 & H).
  apply bind_Ok_inv in H as (y_gen' & H4 & H).
  injection H as <- <-. exists X_real, X_gen', y_real, y_gen'. auto 10.
Qed.

(** The codec columns of the encoded view. *)
Lemma encoded_codec_columns (ds : Dataset) (df E tl : DataFrame) :
  imbalanced (config ds) = false ->
  encode_categories ds df = Ok E ->
  getitem (E ++ tl) (cats ds)
  = Ok (map (fun n => (n, IntCol (cat_codes (Categorical_of (col_of df n)))))
            (cats ds)).
Proof.
  intros Himb H.
  destruct (encode_categories_lookup ds df E Himb H) as (Hin & Hn & _ & Hcat).
  rewrite getitem_Ok.
  - f_equal. apply map_ext_in. intros n Hc. f_equal. unfold col_of at 1.
    rewrite lookup_app by (rewrite Hn; auto). rewrite (Hcat n Hc). reflexivity.
  - intros n Hc. rewrite map_app. apply in_or_app. left. rewrite Hn. auto.
Qed.

Lemma rel_entr_self (r : R) : (0 <= r)%R -> rel_entr (F r) (F r) = F 0.
Proof.
  intros [Hr|<-].
  - rewrite rel_entr_pos by assumption. apply F_eq.
    replace (r / r)%R with 1%R by (field; lra). rewrite ln_1. lra.
  - unfold rel_entr, F.
    rewrite (proj2 (Rltb_false 0 0)) by lra.
    rewrite (proj2 (Reqb_true 0 0) eq_refl). reflexivity.
Qed.

Lemma fold_fadd_nan (l : list float) : fold_left fadd l NaN = NaN.
Proof. induction l as [|x l IH]; [reflexivity|exact IH]. Qed.

Lemma fsum_nan {B : Type} (l : list B) :
  l <> [] -> fsum (map (fun _ => NaN) l) = NaN.
Proof.
  destruct l as [|x l]; [contradiction|]. intros _.
  unfold fsum. cbn [map fold_left]. apply fold_fadd_nan.
Qed.

Lemma Rsum_zeros {B : Type} (l : list B) : Rsum (map (fun _ => 0%R) l) = 0%R.
Proof. induction l as [|x l IH]; simpl; [reflexivity|]. rewrite IH. lra. Qed.

(** The distance of an array of numbers that are not negative to itself:
    0 when the entries do not sum to 0, NaN when they do. *)
Lemma jensenshannon_self (rs : list R) :
  Forall (fun r => (0 <= r)%R) rs ->
  exists d, jensenshannon (map F rs) (map F rs) = Ok d
            /\ ((0 < Rsum rs)%R -> d = F 0)
            /\ (rs <> [] -> Rsum rs = 0%R -> d = NaN).
Proof.
  intros Hnn. destruct rs as [|r0 rs'] eqn:Ers.
  { eexists. split; [reflexivity|]. split.
    - simpl. lra.
    - intros H. contradiction. }
  rewrite <- Ers in *. assert (Hne : rs <> []) by (rewrite Ers; discriminate).
  clear Ers r0 rs'.
  unfold jensenshannon. rewrite fsum_F.
  destruct (Req_dec (Rsum rs) 0) as [E0|E0].
  - pose proof (Rsum_nonneg_zero rs Hnn E0) as Hz.
    assert (Hp : map (fun x => fdiv x (F (Rsum rs))) (map F rs)
                 = map (fun _ => NaN) rs).
    { rewrite map_map. apply map_ext_in. intros r Hr.
      rewrite Forall_forall in Hz. rewrite (Hz r Hr), E0. apply fdiv_zero_zero. }
    rewrite Hp. rewrite broadcast_same_length by reflexivity.
    rewrite zip_with_map_same. cbn [bind]. rewrite map_map.
    rewrite !broadcast_same_length by (rewrite !length_map; reflexivity).
    rewrite zip_with_map_same. cbn [bind].
    change (fun b : R => rel_entr NaN (fdiv (fadd NaN NaN) (F 2)))
      with (fun _ : R => NaN).
    rewrite (fsum_nan rs Hne).
    exists NaN. split; [reflexivity|]. split; [lra|reflexivity].
  - assert (Hpos : (0 < Rsum rs)%R).
    { assert (0 <= Rsum rs)%R; [|lra].
      clear -Hnn. induction Hnn; simpl; lra. }
    set (S := Rsum rs) in *.
    assert (Hp : map (fun x => fdiv x (F S)) (map F rs)
                 = map F (map (fun r => r / S)%R rs)).
    { rewrite !map_map. apply map_ext. intros r. apply fdiv_F. lra. }
    rewrite Hp. set (ps := map (fun r => (r / S)%R) rs).
    assert (Hps : Forall (fun r => (0 <= r)%R) ps).
    { unfold ps. apply Forall_map. eapply Forall_impl; [|exact Hnn].
      intros r Hr. apply Rmult_le_pos; [exact Hr|].
      left. apply Rinv_0_lt_compat, Hpos. }
    rewrite broadcast_same_length by reflexivity.
    rewrite zip_with_map_same. cbn [bind]. rewrite map_map.
    assert (Hm : map (fun x => fdiv (fadd (F x) (F x)) (F 2)) ps = map F ps).
    { apply map_ext. intros r. rewrite fadd_F, fdiv_F by lra.
      apply F_eq. field. }
    rewrite Hm.
    rewrite !broadcast_same_length by reflexivity.
    rewrite zip_with_map_same. cbn [bind].
    assert (Hl : map (fun b => rel_entr (F b) (F b)) ps
                 = map F (map (fun _ => 0%R) ps)).
    { rewrite map_map. apply map_ext_in. intros r Hr.
      rewrite Forall_forall in Hps. apply rel_entr_self. auto. }
    rewrite Hl, fsum_F, Rsum_zeros, fadd_F, fdiv_F by lra.
    rewrite fsqrt_F by lra.
    exists (F (sqrt ((0 + 0) / 2))). split; [reflexivity|]. split.
    + intros _. apply F_eq. replace ((0 + 0) / 2)%R with 0%R by lra.
      apply sqrt_0.
    + intros _ H. contradiction.
Qed.

Lemma Rsum_IZR_pos (l : list Z) :
  Forall (fun z => (0 <= z)%Z) l -> Exists (fun z => (0 < z)%Z) l ->
  (0 < Rsum (map IZR l))%R.
Proof.
  intros Hnn Hex.
  assert (H0 : forall l, Forall (fun z => (0 <= z)%Z) l -> (0 <= Rsum (map IZR l))%R).
  { clear. induction 1 as [|z l Hz _ IH]; simpl; [lra|].
    apply IZR_le in Hz. lra. }
  induction Hex as [z l Hz|z l Hex IH]; inversion Hnn; subst; simpl.
  - apply IZR_lt in Hz. specialize (H0 l ltac:(assumption)). lra.
  - match goal with H : (0 <= z)%Z |- _ => apply IZR_le in H end.
    specialize (IH ltac:(assumption)). lra.
Qed.

Lemma Rsum_IZR_zero (l : list Z) :
  Forall (fun z => z = 0%Z) l -> Rsum (map IZR l) = 0%R.
Proof. induction 1 as [|z l -> _ IH]; simpl; [reflexivity|]. rewrite IH. lra. Qed.

Lemma map_of_int (l : list Z) : map of_int l = map F (map IZR l).
Proof. rewrite map_map. reflexivity. Qed.

Lemma mapM_Ok_pointwise {A B : Type} (f : A -> result B) (P : A -> B -> Prop)
      (l : list A) :
  (forall a, In a l -> exists b, f a = Ok b /\ P a b) ->
  exists bs, mapM f l = Ok bs /\ Forall2 P l bs.
Proof.
  induction l as [|a l IH]; intros H.
  - exists []. split; [reflexivity|constructor].
  - destruct (H a (or_introl eq_refl)) as (b & Hb & Pb).
    destruct IH as (bs & Hbs & Pbs).
    { intros x Hx. apply H. right. exact Hx. }
    exists (b :: bs). cbn [mapM]. rewrite Hb, Hbs. split; [reflexivity|].
    constructor; assumption.
Qed.

Lemma Forall2_map_fst {A B C : Type} (P : A * C -> A * B -> Prop)
      (l : list (A * C)) (r : list (A * B)) :
  Forall2 P l r -> (forall a b, P a b -> fst b = fst a) ->
  map fst r = map fst l.
Proof.
  induction 1 as [|a b l r Hab _ IH]; intros H; cbn [map]; [reflexivity|].
  rewrite (H a b Hab), IH by exact H. reflexivity.
Qed.

Lemma Forall2_In_r {A B : Type} (P : A -> B -> Prop) (l : list A) (r : list B)
      (b : B) :
  Forall2 P l r -> In b r -> exists a, In a l /\ P a b.
Proof.
  induction 1 as [|a b' l r Hab _ IH]; intros Hin; [destruct Hin|].
  destruct Hin as [->|Hin].
  - exists a. split; [left; reflexivity|exact Hab].
  - destruct (IH Hin) as (x & Hx & Px). exists x. split; [right; exact Hx|exact Px].
Qed.

(** ** The entropy weights *)

Lemma Rsum_nonneg (l : list R) :
  Forall (fun x => (0 <= x)%R) l -> (0 <= Rsum l)%R.
Proof. induction 1; simpl; lra. Qed.

Lemma Rsum_ge_member (l : list R) (c : R) :
  Forall (fun x => (0 <= x)%R) l -> In c l -> (c <= Rsum l)%R.
Proof.
  induction 1 as [|x l Hx Hl IH]; intros Hin; [destruct Hin|].
  pose proof (Rsum_nonneg l Hl). simpl. destruct Hin as [->|Hin]; [lra|].
  specialize (IH Hin). lra.
Qed.

Lemma Rsum_ge_two {A : Type} (f : A -> R) (u : list A) (a b : A) :
  (forall x, (0 <= f x)%R) -> In a u -> In b u -> a <> b ->
  (f a + f b <= Rsum (map f u))%R.
Proof.
  intros Hf. induction u as [|x u IH]; intros Ha Hb Hab; [destruct Ha|].
  assert (Hnn : Forall (fun x => (0 <= x)%R) (map f u)).
  { apply Forall_map, Forall_forall. intros y _. apply Hf. }
  cbn [map Rsum fold_right]. fold (Rsum (map f u)).
  destruct Ha as [->|Ha], Hb as [->|Hb].
  - contradiction.
  - pose proof (Rsum_ge_member _ _ Hnn (in_map f u b Hb)). lra.
  - pose proof (Rsum_ge_member _ _ Hnn (in_map f u a Ha)). lra.
  - specialize (IH Ha Hb Hab). pose proof (Hf x). lra.
Qed.

Lemma Rsum_pos_member (l : list R) (c : R) :
  Forall (fun x => (0 <= x)%R) l -> In c l -> (0 < c)%R -> (0 < Rsum l)%R.
Proof.
  intros Hl Hin Hc. pose proof (Rsum_ge_member l c Hl Hin). lra.
Qed.

Lemma count_pos {A : Type} (ltb : A -> A -> bool) (v : A) (l : list A) :
  ltb v v = false -> In v l -> (1 <= count ltb v l)%nat.
Proof.
  intros Hirr. induction l as [|y l IH]; intros Hin; [destruct Hin|].
  cbn [count]. destruct Hin as [->|Hin].
  - unfold same. rewrite Hirr. simpl. lia.
  - specialize (IH Hin). destruct (same ltb v y); lia.
Qed.

Lemma np_round_finite (x : float) : finite x -> finite (np_round x).
Proof. intros (r & ->). eexists. reflexivity. Qed.

Lemma existsb_isnan_finite (l : list float) :
  Forall finite l -> existsb isnan l = false.
Proof.
  induction 1 as [|x l (r & ->) _ IH]; [reflexivity|]. simpl. exact IH.
Qed.

Lemma entr_unit (p : R) :
  (0 < p <= 1)%R ->
  entr (F p) = F (- p * ln p) /\ (0 <= - p * ln p)%R
  /\ ((p < 1)%R -> (0 < - p * ln p)%R).
Proof.
  intros [Hp H1]. split; [|split].
  - unfold entr, F. rewrite (proj2 (Rltb_true 0 p) Hp). reflexivity.
  - assert (ln p <= 0)%R.
    { destruct H1 as [H1| ->]; [|rewrite ln_1; lra].
      left. rewrite <- ln_1. apply ln_increasing; assumption. }
    nra.
  - intros Hlt. assert (ln p < 0)%R.
    { rewrite <- ln_1. apply ln_increasing; assumption. }
    nra.
Qed.

(** X16.  The entropy weight of a column of finite numbers is a number that
    is not negative, and it is 0 exactly when all entries round to the same
    value: those are the columns whose weight the weighted distances divide
    by zero. *)
Theorem column_entropy_zero_iff_constant (column : list float) :
  Forall finite column ->
  exists e : R,
    column_entropy column = F e /\ (0 <= e)%R
    /\ (e = 0%R <->
        forall x y, In x column -> In y column -> np_round x = np_round y).
Proof.
  intros Hfin.
  assert (Hconst : (forall x y, In x column -> In y column ->
                      np_round x = np_round y) -> column_entropy column = F 0).
  { intros H. destruct column as [|x0 column].
    - apply (column_entropy_constant [] NaN). constructor.
    - apply (column_entropy_constant _ (np_round x0)).
      apply Forall_forall. intros x Hx. apply H; [exact Hx|left; reflexivity]. }
  destruct column as [|x0 column'] eqn:Ecol.
  { exists 0%R. split; [apply Hconst; intros x y []|]. split; [lra|].
    split; [intros _ x y []|reflexivity]. }
  assert (Hx0 : In x0 column) by (rewrite Ecol; left; reflexivity).
  rewrite <- Ecol in *. clear Ecol column'.
  unfold column_entropy in *.
  set (a := map np_round column) in *.
  assert (Ha : Forall finite a).
  { unfold a. apply Forall_map. eapply Forall_impl; [|exact Hfin].
    intros x. apply np_round_finite. }
  unfold unique_counts in *. rewrite (existsb_isnan_finite a Ha) in *.
  rewrite app_nil_r in *.
  set (l := somes a) in *. set (u := sort_unique ereal_ltb l) in *.
  rewrite map_map in *.
  set (cnt := fun v => INR (count ereal_ltb v l)).
  change (map (fun x => of_nat (count ereal_ltb x l)) u)
    with (map (fun v => F (cnt v)) u) in *.
  assert (Hpk : map (fun v => F (cnt v)) u = map F (map cnt u))
    by (rewrite map_map; reflexivity).
  rewrite Hpk in *. unfold entropy in *. rewrite fsum_F in *.
  set (T := Rsum (map cnt u)) in *.
  assert (Hcnt : forall v, (0 <= cnt v)%R) by (intros v; apply pos_INR).
  assert (Hnn : Forall (fun x => (0 <= x)%R) (map cnt u)).
  { apply Forall_map, Forall_forall. intros v _. apply Hcnt. }
  assert (Hone : forall v, In v u -> (1 <= cnt v <= T)%R).
  { intros v Hv. split.
    - unfold cnt. change 1%R with (INR 1). apply le_INR.
      apply count_pos; [apply ereal_ltb_irrefl|].
      apply (In_sort_unique ereal_ltb ereal_order). exact Hv.
    - apply Rsum_ge_member; [exact Hnn|]. apply in_map. exact Hv. }
  assert (Hmem : forall r, In (F r) column -> In (Fin (IZR (Rround r))) u).
  { intros r Hr. apply (In_sort_unique ereal_ltb ereal_order).
    unfold l. apply somes_In. unfold a.
    change (Some (Fin (IZR (Rround r)))) with (np_round (F r)).
    apply in_map. exact Hr. }
  assert (HT : (0 < T)%R).
  { pose proof Hfin as Hf. rewrite Forall_forall in Hf.
    destruct (Hf x0 Hx0) as (r0 & ->).
    destruct (Hone _ (Hmem r0 Hx0)) as [H1 H2]. lra. }
  set (es := map (fun c => (- (c / T) * ln (c / T))%R) (map cnt u)).
  assert (Hunit : forall v, In v u -> (0 < cnt v / T <= 1)%R).
  { intros v Hv. destruct (Hone v Hv) as [H1 H2]. split.
    - apply Rmult_lt_0_compat; [lra|]. apply Rinv_0_lt_compat, HT.
    - apply (Rmult_le_reg_r T); [exact HT|].
      unfold Rdiv. rewrite Rmult_assoc, Rinv_l by lra. lra. }
  assert (Hes : map (fun c => entr (fdiv c (F T))) (map F (map cnt u)) = map F es).
  { unfold es. rewrite !map_map. apply map_ext_in. intros v Hv.
    rewrite fdiv_F by lra. apply (proj1 (entr_unit _ (Hunit v Hv))). }
  rewrite Hes, fsum_F in *.
  assert (Hesnn : Forall (fun x => (0 <= x)%R) es).
  { unfold es. rewrite map_map. apply Forall_map, Forall_forall. intros v Hv.
    apply (proj1 (proj2 (entr_unit _ (Hunit v Hv)))). }
  exists (Rsum es). split; [reflexivity|]. split; [apply Rsum_nonneg, Hesnn|].
  split.
  - intros He x y Hx Hy.
    rewrite Forall_forall in Hfin.
    destruct (Hfin x Hx) as (rx & ->). destruct (Hfin y Hy) as (ry & ->).
    change (np_round (F rx)) with (F (IZR (Rround rx))).
    change (np_round (F ry)) with (F (IZR (Rround ry))).
    destruct (Req_dec (IZR (Rround rx)) (IZR (Rround ry))) as [E|E];
      [rewrite E; reflexivity|].
    exfalso.
    pose proof (Hmem rx Hx) as Hvx. pose proof (Hmem ry Hy) as Hvy.
    set (vx := Fin (IZR (Rround rx))) in *. set (vy := Fin (IZR (Rround ry))) in *.
    assert (Hxy : vx <> vy) by (unfold vx, vy; intros [= H]; contradiction).
    pose proof (Rsum_ge_two cnt u vx vy Hcnt Hvx Hvy Hxy) as H2. fold T in H2.
    destruct (Hone vx Hvx) as [Hx1 _]. destruct (Hone vy Hvy) as [Hy1 _].
    assert (Hlt : (cnt vx / T < 1)%R).
    { apply (Rmult_lt_reg_r T); [exact HT|].
      unfold Rdiv. rewrite Rmult_assoc, Rinv_l by lra. lra. }
    pose proof (proj2 (proj2 (entr_unit _ (Hunit vx Hvx))) Hlt) as Hpos.
    assert (Hin : In (- (cnt vx / T) * ln (cnt vx / T))%R es).
    { unfold es. rewrite map_map.
      apply (in_map (fun v => (- (cnt v / T) * ln (cnt v / T))%R) u vx Hvx). }
    pose proof (Rsum_pos_member es _ Hesnn Hin Hpos). lra.
  - intros H. specialize (Hconst H). injection Hconst as Hc. exact Hc.
Qed.

Lemma column_entropy_zero_iff_constant_witness :
  exists e : R,
    column_entropy [F 1; F 2; F 1] = F e /\ (0 <= e)%R
    /\ (e = 0%R <->
        forall x y, In x [F 1; F 2; F 1] -> In y [F 1; F 2; F 1] ->
                    np_round x = np_round y).
Proof.
  apply column_entropy_zero_iff_constant.
  repeat constructor; apply finite_F.
Defined.

(** ** The correlation ratio lies in [0, 1] *)

Lemma Rsum_sq_shift (l : list R) (a : R) :
  Rsum (map (fun x => (x - a) ^ 2)%R l)
  = (Rsum (map (fun x => x ^ 2)%R l) - 2 * a * Rsum l
     + INR (List.length l) * a ^ 2)%R.
Proof.
  induction l as [|x l IH].
  - simpl. lra.
  - change (List.length (x :: l)) with (S (List.length l)). rewrite S_INR.
    cbn [map Rsum fold_right]. fold (Rsum l).
    fold (Rsum (map (fun x => (x - a) ^ 2)%R l)).
    fold (Rsum (map (fun x => x ^ 2)%R l)).
    rewrite IH. ring.
Qed.

Lemma Rsum_sq_nonneg (l : list R) (a : R) :
  (0 <= Rsum (map (fun x => (x - a) ^ 2)%R l))%R.
Proof.
  apply Rsum_nonneg, Forall_map, Forall_forall. intros x _. apply pow2_ge_0.
Qed.

(** The squared deviations of a group from any centre are at least those of
    the group mean from that centre, once per member. *)
Lemma group_deviation (m : list R) (mu : R) :
  (INR (List.length m) * (Rmean m - mu) ^ 2
   <= Rsum (map (fun x => (x - mu) ^ 2)%R m))%R.
Proof.
  destruct m as [|x0 m'] eqn:Em.
  - simpl. lra.
  - rewrite <- Em. assert (Hn : (0 < INR (List.length m))%R).
    { apply lt_0_INR. rewrite Em. simpl. lia. }
    clear Em x0 m'.
    pose proof (Rsum_sq_nonneg m (Rmean m)) as H0.
    rewrite Rsum_sq_shift in H0. rewrite Rsum_sq_shift.
    assert (Hm : (Rmean m * INR (List.length m) = Rsum m)%R).
    { unfold Rmean. field. lra. }
    set (n := INR (List.length m)) in *. set (S1 := Rsum m) in *.
    set (S2 := Rsum (map (fun x => (x ^ 2)%R) m)) in *.
    set (g := Rmean m) in *.
    replace (n * (g - mu) ^ 2)%R
      with (n * g ^ 2 - 2 * mu * (g * n) + n * mu ^ 2)%R by ring.
    rewrite Hm.
    replace (S2 - 2 * g * S1 + n * g ^ 2)%R
      with (S2 - 2 * g * (g * n) + n * g ^ 2)%R in H0 by (rewrite Hm; ring).
    nra.
Qed.

Section EtaBounds.
Context {A : Type} (ltb : A -> A -> bool).
Hypothesis Hord : strict_total ltb.

Lemma between_le_total (cats : list A) (xs : list R) :
  List.length cats = List.length xs -> (1 <= List.length xs)%nat ->
  (0 <= between_group_variance ltb cats xs <= total_variance xs)%R.
Proof.
  intros Hlen HN. unfold between_group_variance, total_variance, members.
  assert (Hn : (0 < INR (List.length xs))%R) by (apply lt_0_INR; lia).
  set (mu := Rmean xs). set (rows := combine cats xs).
  set (B := Rsum (map (fun g => (INR (List.length (selR ltb g rows))
                                 * (Rmean (selR ltb g rows) - mu) ^ 2)%R)
                      (uniques ltb cats))).
  set (T := Rsum (map (fun x => ((x - mu) ^ 2)%R) xs)).
  assert (HB : (0 <= B)%R).
  { apply Rsum_nonneg, Forall_map, Forall_forall. intros g _.
    apply Rmult_le_pos; [apply pos_INR|apply pow2_ge_0]. }
  assert (HBT : (B <= T)%R).
  { unfold T. rewrite <- (combine_map_snd cats xs Hlen). fold rows.
    rewrite <- (Rsum_by_group ltb Hord (fun x => ((x - mu) ^ 2)%R)
                  (uniques ltb cats) rows (NoDup_uniques ltb Hord cats)).
    - unfold B. clear. induction (uniques ltb cats) as [|g u IH]; [simpl; lra|].
      cbn [map Rsum fold_right]. 
      pose proof (group_deviation (selR ltb g rows) mu). unfold Rsum in *. lra.
    - intros [c x] Hin. cbn [fst]. apply (In_uniques ltb Hord).
      apply (in_combine_l _ _ _ _ Hin). }
  split.
  - apply Rmult_le_pos; [exact HB|]. left. apply Rinv_0_lt_compat, Hn.
  - apply Rmult_le_compat_r; [|exact HBT]. left. apply Rinv_0_lt_compat, Hn.
Qed.

Lemma eta_squared_unit (cats : list A) (xs : list R) :
  List.length cats = List.length xs -> (1 <= List.length xs)%nat ->
  (0 <= eta_squared ltb cats xs <= 1)%R.
Proof.
  intros Hlen HN. unfold eta_squared.
  destruct (between_le_total cats xs Hlen HN) as [H0 H1].
  destruct (Reqb (total_variance xs) 0) eqn:E; [lra|].
  apply Reqb_false in E.
  assert (HT : (0 < total_variance xs)%R) by lra.
  split.
  - apply Rmult_le_pos; [exact H0|]. left. apply Rinv_0_lt_compat, HT.
  - apply (Rmult_le_reg_r (total_variance xs)); [exact HT|].
    unfold Rdiv. rewrite Rmult_assoc, Rinv_l by lra. lra.
Qed.
End EtaBounds.

(** X17.  The correlation ratio is a number in [0, 1]: for a categorical
    column without missing entries and a column of as many finite
    measurements, at least one, [correlation_ratio] returns a number that is
    at least 0 and at most 1. *)
Theorem correlation_ratio_in_unit_interval (c m : column) (xs : list R) :
  has_missing c = false -> to_floats m = Ok (map F xs) ->
  column_length c = List.length xs -> (1 <= List.length xs)%nat ->
  exists e : R, correlation_ratio c m = Ok (F e) /\ (0 <= e <= 1)%R.
Proof.
  intros Hmiss Hm Hlen HN.
  exists (column_eta_squared c xs).
  split; [apply correlation_ratio_spec; assumption|].
  destruct c as [l|l|l]; cbn [column_eta_squared column_length has_missing] in *.
  - apply (eta_squared_unit String.ltb string_order); [|exact HN].
    rewrite somes_length by exact Hmiss. exact Hlen.
  - apply (eta_squared_unit ereal_ltb ereal_order); [|exact HN].
    rewrite isnan_is_none in Hmiss.
    rewrite somes_length by exact Hmiss. exact Hlen.
  - apply (eta_squared_unit Z.ltb Z_order); assumption.
Qed.

Lemma correlation_ratio_in_unit_interval_witness :
  exists e : R,
    correlation_ratio (ObjCol [Some "a"; Some "b"; Some "a"]%string)
                      (FloatCol [F 1; F 2; F 4]) = Ok (F e)
    /\ (0 <= e <= 1)%R.
Proof.
  apply (correlation_ratio_in_unit_interval _ _ [1; 2; 4]%R).
  - reflexivity.
  - reflexivity.
  - reflexivity.
  - simpl. lia.
Defined.

(** X18.  What [ratio_mat] rejects, with columns to pair: a first
    categorical column that the table lacks is a [KeyError]; a table
    without rows is a [ValueError], the largest code of an empty column
    being asked for. *)
Theorem ratio_mat_rejects_missing_and_empty
        (df : DataFrame) (cat_col cont_col : string)
        (categorical_columns continuous_columns : list string) :
  (lookup cat_col df = None ->
   ratio_mat df (cont_col :: continuous_columns) (cat_col :: categorical_columns)
   = Raise KeyError)
  /\ (forall c m,
        lookup cat_col df = Some c -> lookup cont_col df = Some m ->
        column_length c = 0%nat ->
        ratio_mat df (cont_col :: continuous_columns)
                  (cat_col :: categorical_columns)
        = Raise ValueError).
Proof.
  split.
  - intros H. unfold ratio_mat. cbn [List.length Nat.eqb orb mapM].
    unfold getcol. rewrite H. reflexivity.
  - intros c m Hc Hm Hlen. unfold ratio_mat.
    cbn [List.length Nat.eqb orb mapM]. unfold getcol. rewrite Hc, Hm.
    cbn [bind]. unfold correlation_ratio.
    assert (E : factorize_column c = []).
    { destruct c as [l|l|l]; destruct l; try discriminate; reflexivity. }
    rewrite E. reflexivity.
Qed.

Lemma ratio_mat_rejects_missing_and_empty_witness :
  ratio_mat toy_encoded ["x"%string] ["z"%string] = Raise KeyError
  /\ ratio_mat [("c"%string, IntCol []); ("x"%string, FloatCol [])]
               ["x"%string] ["c"%string] = Raise ValueError.
Proof.
  split.
  - apply (proj1 (ratio_mat_rejects_missing_and_empty
                    toy_encoded "z"%string "x"%string [] [])).
    reflexivity.
  - apply (proj2 (ratio_mat_rejects_missing_and_empty
                    [("c"%string, IntCol []); ("x"%string, FloatCol [])]
                    "c"%string "x"%string [] []) (IntCol []) (FloatCol []));
      reflexivity.
Defined.

(** ** Oversampling *)

Lemma length_copies (m : nat) (B : Type) (l : list B) :
  List.length (copies m B l) = (m * List.length l)%nat.
Proof.
  induction m as [|m IH]; [reflexivity|].
  cbn [copies]. rewrite length_app, IH. simpl. reflexivity.
Qed.

Lemma map_copies (m : nat) (B C : Type) (g : B -> C) (l : list B) :
  map g (copies m B l) = copies m C (map g l).
Proof.
  induction m as [|m IH]; [reflexivity|].
  cbn [copies]. rewrite map_app, IH. reflexivity.
Qed.

Lemma In_copies (m : nat) (B : Type) (l : list B) (x : B) :
  (1 <= m)%nat -> In x (copies m B l) <-> In x l.
Proof.
  intros Hm. induction m as [|m IH]; [lia|].
  cbn [copies]. rewrite in_app_iff. destruct m as [|m'].
  - simpl. tauto.
  - rewrite IH by lia. tauto.
Qed.

Lemma nth_error_copies (m : nat) (B : Type) (l : list B) (i : nat) :
  (i < m * List.length l)%nat ->
  nth_error (copies m B l) i = nth_error l (i mod List.length l).
Proof.
  revert i. induction m as [|m IH]; intros i Hi; [simpl in Hi; lia|].
  cbn [copies]. destruct (Nat.lt_ge_cases i (List.length l)) as [Hlt|Hge].
  - rewrite nth_error_app1 by exact Hlt. rewrite Nat.mod_small by exact Hlt.
    reflexivity.
  - rewrite nth_error_app2 by exact Hge. rewrite IH by (simpl in Hi; lia).
    f_equal.
    replace i with ((i - List.length l) + 1 * List.length l)%nat at 2 by lia.
    rewrite Nat.Div0.mod_add. reflexivity.
Qed.

Lemma column_length_on_rows (f : forall B : Type, list B -> list B) (c : column)
      (k : nat) :
  (forall B l, List.length (f B l) = k) -> column_length (on_rows f c) = k.
Proof. intros H. destruct c; cbn; apply H. Qed.

Lemma entries_on_rows (f : forall B : Type, list B -> list B) (c : column) :
  (forall B C (g : B -> C) l, map g (f B l) = f C (map g l)) ->
  entries (on_rows f c) = f _ (entries c).
Proof. intros H. destruct c; cbn; apply H. Qed.

Lemma lookup_apply (f : column -> column) (df : DataFrame) (n : string) :
  lookup n (apply f df) = option_map f (lookup n df).
Proof.
  induction df as [|[m c] df IH]; [reflexivity|].
  cbn [apply map lookup fst snd]. destruct (String.eqb n m); [reflexivity|].
  exact IH.
Qed.

Lemma names_apply (f : column -> column) (df : DataFrame) :
  map fst (apply f df) = map fst df.
Proof. unfold apply. rewrite map_map. reflexivity. Qed.

Lemma nrows_apply (f : column -> column) (df : DataFrame) (g : nat -> nat) :
  g 0%nat = 0%nat -> (forall c, column_length (f c) = g (column_length c)) ->
  nrows (apply f df) = g (nrows df).
Proof.
  intros H0 H. destruct df as [|[m c] df]; cbn; [symmetry; exact H0|apply H].
Qed.

Lemma oversample_Ok (multiplier : Z) (ds : Dataset) :
  (0 < multiplier)%Z ->
  oversample multiplier ds
  = Ok (set_X_y ds
          (apply (on_rows (copies (Z.to_nat multiplier))) (X ds))
          (apply (on_rows (copies (Z.to_nat multiplier))) (y ds))).
Proof.
  intros H. unfold oversample, concat_copies.
  destruct (Z.leb_spec multiplier 0) as [Hle|_]; [lia|]. reflexivity.
Qed.

(** X19.  [oversample] with a multiplier that is not positive raises
    [ValueError] and changes nothing.  With a positive multiplier [m] the
    features and the labels keep their columns, every column has [m] times
    its rows, and row [i] of a column is row [i mod N] of the column of [N]
    rows it was made from, so that features and labels stay aligned. *)
Theorem oversample_repeats_rows (multiplier : Z) (ds : Dataset) :
  ((multiplier <= 0)%Z -> oversample multiplier ds = Raise ValueError)
  /\ ((0 < multiplier)%Z ->
      exists ds',
        oversample multiplier ds = Ok ds'
        /\ map fst (X ds') = map fst (X ds)
        /\ map fst (y ds') = map fst (y ds)
        /\ nrows (X ds') = (Z.to_nat multiplier * nrows (X ds))%nat
        /\ nrows (y ds') = (Z.to_nat multiplier * nrows (y ds))%nat
        /\ forall T T', (T = X ds /\ T' = X ds') \/ (T = y ds /\ T' = y ds') ->
           forall n c, lookup n T = Some c ->
             exists c',
               lookup n T' = Some c'
               /\ column_length c' = (Z.to_nat multiplier * column_length c)%nat
               /\ forall i, (i < Z.to_nat multiplier * column_length c)%nat ->
                    nth_error (entries c') i
                    = nth_error (entries c) (i mod column_length c)).
Proof.
  split.
  - intros H. unfold oversample, concat_copies.
    destruct (Z.leb_spec multiplier 0) as [_|Hlt]; [reflexivity|lia].
  - intros H. rewrite (oversample_Ok multiplier ds H).
    set (m := Z.to_nat multiplier). eexists. split; [reflexivity|].
    cbn [set_X_y X y]. rewrite !names_apply.
    split; [reflexivity|]. split; [reflexivity|].
    assert (Hlen : forall c, column_length (on_rows (copies m) c)
                             = (m * column_length c)%nat).
    { intros c. destruct c; cbn; apply length_copies. }
    split; [apply (nrows_apply _ _ (fun k => (m * k)%nat)); [lia|exact Hlen]|].
    split; [apply (nrows_apply _ _ (fun k => (m * k)%nat)); [lia|exact Hlen]|].
    intros T T' HT n c Hc.
    exists (on_rows (copies m) c). split.
    + destruct HT as [[-> ->]|[-> ->]]; rewrite lookup_apply, Hc; reflexivity.
    + split; [apply Hlen|]. intros i Hi.
      rewrite (entries_on_rows (copies m) c)
        by (intros; apply map_copies).
      assert (El : List.length (entries c) = column_length c)
        by (destruct c; cbn; apply length_map).
      rewrite nth_error_copies by (rewrite El; exact Hi).
      rewrite El. reflexivity.
Qed.

Lemma oversample_repeats_rows_witness :
  oversample 0 toy = Raise ValueError
  /\ exists ds',
       oversample 2 toy = Ok ds'
       /\ map fst (X ds') = map fst (X toy)
       /\ map fst (y ds') = map fst (y toy)
       /\ nrows (X ds') = (2 * nrows (X toy))%nat
       /\ nrows (y ds') = (2 * nrows (y toy))%nat
       /\ forall T T', (T = X toy /\ T' = X ds') \/ (T = y toy /\ T' = y ds') ->
          forall n c, lookup n T = Some c ->
            exists c',
              lookup n T' = Some c'
              /\ column_length c' = (2 * column_length c)%nat
              /\ forall i, (i < 2 * column_length c)%nat ->
                   nth_error (entries c') i
                   = nth_error (entries c) (i mod column_length c).
Proof.
  split.
  - apply (proj1 (oversample_repeats_rows 0 toy)). lia.
  - apply (proj2 (oversample_repeats_rows 2 toy)). lia.
Defined.

Section CopiesFacts.
Context {A : Type} (ltb : A -> A -> bool).
Hypothesis Hord : strict_total ltb.

Lemma In_somes_copies (m : nat) (l : list (option A)) (a : A) :
  (1 <= m)%nat -> In a (somes (copies m _ l)) <-> In a (somes l).
Proof.
  intros Hm. rewrite !somes_In. apply In_copies. exact Hm.
Qed.

Lemma existsb_is_none_copies (m : nat) (l : list (option A)) :
  (1 <= m)%nat -> existsb is_none (copies m _ l) = existsb is_none l.
Proof.
  intros Hm. apply eq_true_iff_eq. rewrite !existsb_exists. split.
  - intros (x & Hx & E). exists x. split; [|exact E].
    apply (proj1 (In_copies m _ l x Hm)). exact Hx.
  - intros (x & Hx & E). exists x. split; [|exact E].
    apply (proj2 (In_copies m _ l x Hm)). exact Hx.
Qed.

Lemma fit_classes_copies (m : nat) (l : list (option A)) :
  (1 <= m)%nat -> fit_classes ltb (copies m _ l) = fit_classes ltb l.
Proof.
  intros Hm. unfold fit_classes. rewrite existsb_is_none_copies by exact Hm.
  f_equal. f_equal. apply (sort_unique_ext ltb Hord).
  intros a. apply In_somes_copies. exact Hm.
Qed.

Lemma pd_Categorical_copies (m : nat) (l : list (option A)) :
  (1 <= m)%nat ->
  categories (pd_Categorical ltb (copies m _ l)) = categories (pd_Categorical ltb l)
  /\ codes (pd_Categorical ltb (copies m _ l))
     = copies m _ (codes (pd_Categorical ltb l)).
Proof.
  intros Hm. cbn [pd_Categorical categories codes].
  assert (E : sort_unique ltb (somes (copies m _ l)) = sort_unique ltb (somes l)).
  { apply (sort_unique_ext ltb Hord). intros a. apply In_somes_copies. exact Hm. }
  rewrite E. split; [reflexivity|apply map_copies].
Qed.
End CopiesFacts.

Lemma Categorical_of_copies (m : nat) (c : column) :
  (1 <= m)%nat ->
  category_values (Categorical_of (on_rows (copies m) c))
  = category_values (Categorical_of c)
  /\ cat_codes (Categorical_of (on_rows (copies m) c))
     = copies m _ (cat_codes (Categorical_of c)).
Proof.
  intros Hm. destruct c as [l|l|l];
    cbn [on_rows Categorical_of category_values cat_codes].
  - destruct (pd_Categorical_copies String.ltb string_order m l Hm) as [E1 E2].
    split; [exact (f_equal (map VObj) E1)|exact E2].
  - destruct (pd_Categorical_copies ereal_ltb ereal_order m l Hm) as [E1 E2].
    split; [exact (f_equal (map VFloat) E1)|exact E2].
  - rewrite map_copies.
    destruct (pd_Categorical_copies Z.ltb Z_order m (map Some l) Hm) as [E1 E2].
    split; [exact (f_equal (map VInt) E1)|exact E2].
Qed.

(** X20.  Oversampling changes neither the label classes nor the codebook:
    the label encoder fitted on the oversampled labels is the one fitted on
    the labels, and every feature column has the categories it had, its
    codes being the codes it had, repeated. *)
Theorem oversample_keeps_categories (multiplier : Z) (ds ds' : Dataset) :
  oversample multiplier ds = Ok ds' ->
  fit_label_encoder (y ds') = fit_label_encoder (y ds)
  /\ forall n c, lookup n (X ds) = Some c ->
       exists c',
         lookup n (X ds') = Some c'
         /\ category_values (Categorical_of c')
            = category_values (Categorical_of c)
         /\ cat_codes (Categorical_of c')
            = copies (Z.to_nat multiplier) _ (cat_codes (Categorical_of c)).
Proof.
  intros H.
  assert (Hpos : (0 < multiplier)%Z).
  { unfold oversample, concat_copies in H.
    destruct (Z.leb_spec multiplier 0); [discriminate|assumption]. }
  rewrite (oversample_Ok multiplier ds Hpos) in H. injection H as <-.
  cbn [set_X_y X y]. set (m := Z.to_nat multiplier).
  assert (Hm : (1 <= m)%nat) by (unfold m; lia).
  split.
  - destruct (y ds) as [|[n c] tl]; [reflexivity|].
    destruct c as [l|l|l], tl as [|p tl];
      cbn [apply map fst snd on_rows fit_label_encoder]; try reflexivity.
    + exact (f_equal (fun k => Ok (LEObj k))
                     (fit_classes_copies String.ltb string_order m l Hm)).
    + exact (f_equal (fun k => Ok (LEFloat k))
                     (fit_classes_copies ereal_ltb ereal_order m l Hm)).
    + rewrite map_copies.
      exact (f_equal (fun k => Ok (LEInt k))
                     (fit_classes_copies Z.ltb Z_order m (map Some l) Hm)).
  - intros n c Hc. exists (on_rows (copies m) c).
    split; [rewrite lookup_apply, Hc; reflexivity|].
    apply Categorical_of_copies. exact Hm.
Qed.

Lemma oversample_keeps_categories_witness :
  exists ds',
    oversample 3 toy = Ok ds'
    /\ fit_label_encoder (y ds') = fit_label_encoder (y toy)
    /\ forall n c, lookup n (X toy) = Some c ->
         exists c',
           lookup n (X ds') = Some c'
           /\ category_values (Categorical_of c')
              = category_values (Categorical_of c)
           /\ cat_codes (Categorical_of c')
              = copies 3 _ (cat_codes (Categorical_of c)).
Proof.
  eexists. split; [reflexivity|].
  apply (oversample_keeps_categories 3 toy). reflexivity.
Defined.

(** ** Removing rows *)

Lemma existsb_eqb_seq (s k : nat) :
  existsb (Nat.eqb s) (seq 0 k) = Nat.ltb s k.
Proof.
  apply eq_true_iff_eq. rewrite existsb_exists, Nat.ltb_lt. split.
  - intros (x & Hx & E). apply Nat.eqb_eq in E. subst x.
    apply in_seq in Hx. lia.
  - intros H. exists s. split; [apply in_seq; lia|apply Nat.eqb_refl].
Qed.

Lemma drop_positions_seq_from (k : nat) (B : Type) (l : list B) (s : nat) :
  map snd (filter (fun ix => negb (existsb (Nat.eqb (fst ix)) (seq 0 k)))
                  (combine (seq s (List.length l)) l))
  = skipn (k - s) l.
Proof.
  revert s. induction l as [|x l IH]; intros s.
  - cbn. rewrite skipn_nil. reflexivity.
  - cbn [List.length seq combine filter fst]. rewrite existsb_eqb_seq.
    destruct (Nat.ltb_spec s k) as [Hlt|Hge]; cbn [negb].
    + rewrite IH. replace (k - s)%nat with (S (k - S s)) by lia. reflexivity.
    + cbn [map snd]. rewrite IH.
      replace (k - S s)%nat with 0%nat by lia.
      replace (k - s)%nat with 0%nat by lia. reflexivity.
Qed.

Lemma drop_positions_seq (k : nat) (B : Type) (l : list B) :
  drop_positions (seq 0 k) B l = skipn k l.
Proof.
  unfold drop_positions. rewrite drop_positions_seq_from.
  rewrite Nat.sub_0_r. reflexivity.
Qed.

Lemma apply_ext_in (f g : column -> column) (df : DataFrame) :
  (forall nc, In nc df -> f (snd nc) = g (snd nc)) -> apply f df = apply g df.
Proof.
  intros H. unfold apply. apply map_ext_in. intros nc Hnc.
  rewrite (H nc Hnc). reflexivity.
Qed.

Lemma apply_apply (f g : column -> column) (df : DataFrame) :
  apply f (apply g df) = apply (fun c => f (g c)) df.
Proof. unfold apply. rewrite map_map. reflexivity. Qed.

Lemma table_nrows (N : nat) (df : DataFrame) : table N df -> nrows df = N.
Proof.
  intros [Hne Hall]. destruct df as [|[n c] df]; [contradiction|].
  inversion Hall as [|? ? Hc _]. exact Hc.
Qed.

Lemma table_apply (N K : nat) (f : column -> column) (df : DataFrame) :
  table N df -> (forall c, column_length c = N -> column_length (f c) = K) ->
  table K (apply f df).
Proof.
  intros [Hne Hall] Hf. split.
  - destruct df; [contradiction|discriminate].
  - unfold apply. apply Forall_map. eapply Forall_impl; [|exact Hall].
    intros [n c] Hc. cbn [fst snd] in *. apply Hf. exact Hc.
Qed.

Lemma forallb_ltb_seq (k N : nat) :
  forallb (fun r => Nat.ltb r N) (seq 0 k) = true <-> (k <= N)%nat.
Proof.
  rewrite forallb_forall. split.
  - intros H. destruct k as [|k]; [lia|].
    specialize (H k ltac:(apply in_seq; lia)). apply Nat.ltb_lt in H. lia.
  - intros H r Hr. apply in_seq in Hr. apply Nat.ltb_lt. lia.
Qed.

(** Dropping the first [k] row labels of a table of [N >= k] rows. *)
Lemma df_drop_seq (k N : nat) (df : DataFrame) :
  table N df -> (k <= N)%nat ->
  df_drop (seq 0 k) df = Ok (apply (on_rows (fun B => @skipn B k)) df)
  /\ table (N - k) (apply (on_rows (fun B => @skipn B k)) df).
Proof.
  intros Ht Hk. unfold df_drop. rewrite (table_nrows N df Ht).
  rewrite (proj2 (forallb_ltb_seq k N) Hk). split.
  - f_equal. apply apply_ext_in. intros [n c] _. cbn [snd].
    destruct c; cbn [on_rows]; rewrite drop_positions_seq; reflexivity.
  - apply (table_apply N); [exact Ht|]. intros c Hc.
    destruct c; cbn [on_rows column_length] in *; rewrite length_skipn; lia.
Qed.

Lemma on_rows_skipn_all (k N : nat) (df : DataFrame) :
  table N df -> (N <= k)%nat ->
  apply (on_rows (fun B => @skipn B N)) df
  = apply (on_rows (fun B => @skipn B k)) df.
Proof.
  intros [_ Hall] Hk. apply apply_ext_in. intros [n c] Hin.
  rewrite Forall_forall in Hall. specialize (Hall _ Hin). cbn [snd] in *.
  destruct c; cbn [on_rows column_length] in *;
    rewrite !skipn_all2 by lia; reflexivity.
Qed.

Lemma drop_first_n_Ok (n : Z) (ds : Dataset) (N : nat) :
  (0 <= n)%Z -> table N (X ds) -> table N (y ds) ->
  drop_first_n n ds
  = (Ok tt,
     set_X_y ds (apply (on_rows (fun B => @skipn B (Z.to_nat n))) (X ds))
                (apply (on_rows (fun B => @skipn B (Z.to_nat n))) (y ds)))
  /\ table (N - Z.to_nat n)
           (apply (on_rows (fun B => @skipn B (Z.to_nat n))) (X ds))
  /\ table (N - Z.to_nat n)
           (apply (on_rows (fun B => @skipn B (Z.to_nat n))) (y ds)).
Proof.
  intros Hn HX Hy. unfold drop_first_n, remove, head_index.
  destruct (Z.leb_spec 0 n) as [_|Hneg]; [|lia].
  rewrite (table_nrows N _ HX). set (k := Z.to_nat n).
  destruct (df_drop_seq (Nat.min k N) N (X ds) HX (Nat.le_min_r k N)) as [EX TX].
  destruct (df_drop_seq (Nat.min k N) N (y ds) Hy (Nat.le_min_r k N)) as [Ey Ty].
  rewrite EX, Ey.
  destruct (Nat.le_ge_cases k N) as [Hle|Hge].
  - rewrite Nat.min_l in * by exact Hle. auto.
  - rewrite Nat.min_r in * by exact Hge.
    rewrite (on_rows_skipn_all k N (X ds) HX Hge) in *.
    rewrite (on_rows_skipn_all k N (y ds) Hy Hge) in *.
    replace (N - k)%nat with (N - N)%nat by lia. auto.
Qed.

(** X21.  [drop_first_n] with [n >= 0], on features and labels of [N] rows
    each: the first [n] rows go from both tables, which are left with
    [N - n] rows each (none when [n > N]); dropping [n] rows and then [m]
    rows is dropping [n + m] rows. *)
Theorem drop_first_n_cuts_both (n m : Z) (ds : Dataset) (N : nat) :
  (0 <= n)%Z -> (0 <= m)%Z -> table N (X ds) -> table N (y ds) ->
  exists ds',
    drop_first_n n ds = (Ok tt, ds')
    /\ X ds' = apply (on_rows (fun B => @skipn B (Z.to_nat n))) (X ds)
    /\ y ds' = apply (on_rows (fun B => @skipn B (Z.to_nat n))) (y ds)
    /\ table (N - Z.to_nat n) (X ds') /\ table (N - Z.to_nat n) (y ds')
    /\ drop_first_n m ds' = drop_first_n (n + m) ds.
Proof.
  intros Hn Hm HX Hy.
  destruct (drop_first_n_Ok n ds N Hn HX Hy) as (E & TX & Ty).
  set (ds1 := set_X_y ds
                 (apply (on_rows (fun B => @skipn B (Z.to_nat n))) (X ds))
                 (apply (on_rows (fun B => @skipn B (Z.to_nat n))) (y ds))) in *.
  exists ds1. split; [exact E|].
  split; [reflexivity|]. split; [reflexivity|].
  split; [exact TX|]. split; [exact Ty|].
  destruct (drop_first_n_Ok m ds1 (N - Z.to_nat n) Hm TX Ty) as (E2 & _).
  destruct (drop_first_n_Ok (n + m) ds N ltac:(lia) HX Hy) as (E3 & _).
  rewrite E2, E3. f_equal. unfold ds1, set_X_y.
  cbn [config X y X_val X_test y_val y_test X_gen y_gen cats X_cats label_encoder].
  rewrite !apply_apply.
  assert (Hs : forall df,
             apply (fun c => on_rows (fun B => @skipn B (Z.to_nat m))
                                     (on_rows (fun B => @skipn B (Z.to_nat n)) c)) df
             = apply (on_rows (fun B => @skipn B (Z.to_nat (n + m)))) df).
  { intros df. apply apply_ext_in. intros [k c] _. cbn [snd].
    destruct c; cbn [on_rows]; rewrite skipn_skipn;
      replace (Z.to_nat m + Z.to_nat n)%nat with (Z.to_nat (n + m)) by lia;
      reflexivity. }
  rewrite !Hs. reflexivity.
Qed.

Lemma toy_tables_have_three_rows : table 3 (X toy) /\ table 3 (y toy).
Proof. split; (split; [discriminate|repeat constructor]). Qed.

Lemma drop_first_n_cuts_both_witness :
  exists ds',
    drop_first_n 1 toy = (Ok tt, ds')
    /\ X ds' = apply (on_rows (fun B => @skipn B (Z.to_nat 1))) (X toy)
    /\ y ds' = apply (on_rows (fun B => @skipn B (Z.to_nat 1))) (y toy)
    /\ table (3 - Z.to_nat 1) (X ds') /\ table (3 - Z.to_nat 1) (y ds')
    /\ drop_first_n 1 ds' = drop_first_n (1 + 1) toy.
Proof.
  apply (drop_first_n_cuts_both 1 1 toy 3).
  - lia.
  - lia.
  - exact (proj1 toy_tables_have_three_rows).
  - exact (proj2 toy_tables_have_three_rows).
Defined.

(** X22.  [remove] cuts the features before it looks at the labels: when
    the labels have fewer rows than are to be dropped, [drop_first_n] raises
    [KeyError] with the features already cut and the labels as they were,
    so that the two tables no longer match. *)
Theorem drop_first_n_fails_after_cutting_features
        (n : Z) (ds : Dataset) (N M : nat) :
  table N (X ds) -> table M (y ds) ->
  (Z.of_nat M < n <= Z.of_nat N)%Z ->
  exists ds',
    drop_first_n n ds = (Raise KeyError, ds')
    /\ table (N - Z.to_nat n) (X ds')
    /\ y ds' = y ds.
Proof.
  intros HX Hy Hn. unfold drop_first_n, remove, head_index.
  destruct (Z.leb_spec 0 n) as [_|Hneg]; [|lia].
  rewrite (table_nrows N _ HX).
  assert (Hk : (M < Z.to_nat n <= N)%nat) by lia.
  set (k := Z.to_nat n) in *.
  rewrite Nat.min_l by apply Hk.
  destruct (df_drop_seq k N (X ds) HX (proj2 Hk)) as [EX TX].
  rewrite EX. unfold df_drop at 1. rewrite (table_nrows M _ Hy).
  destruct (forallb (fun r => Nat.ltb r M) (seq 0 k)) eqn:E.
  { apply forallb_ltb_seq in E. destruct Hk. lia. }
  eexists. split; [reflexivity|]. cbn [set_X_y X y].
  split; [exact TX|reflexivity].
Qed.

Lemma drop_first_n_fails_after_cutting_features_witness :
  exists ds',
    drop_first_n 2 (set_X_y toy (X toy) [("label"%string, ObjCol [Some "u"%string])])
    = (Raise KeyError, ds')
    /\ table (3 - Z.to_nat 2) (X ds')
    /\ y ds' = [("label"%string, ObjCol [Some "u"%string])].
Proof.
  apply (drop_first_n_fails_after_cutting_features
           2 (set_X_y toy (X toy) [("label"%string, ObjCol [Some "u"%string])])
           3 1).
  - exact (proj1 toy_tables_have_three_rows).
  - split; [discriminate|repeat constructor].
  - lia.
Defined.

(** ** One table of features and label *)

Lemma pad_column_full (N : nat) (c : column) :
  column_length c = N -> pad_column N c = c.
Proof.
  intros H. destruct c as [l|l|l]; cbn [pad_column column_length] in *.
  - rewrite H, Nat.sub_diag. cbn [repeat]. rewrite app_nil_r. reflexivity.
  - rewrite H, Nat.sub_diag. cbn [repeat]. rewrite app_nil_r. reflexivity.
  - rewrite H, Nat.ltb_irrefl. reflexivity.
Qed.

Lemma filter_all {B : Type} (f : B -> bool) (l : list B) :
  (forall x, In x l -> f x = true) -> filter f l = l.
Proof.
  induction l as [|x l IH]; intros H; [reflexivity|].
  cbn [filter]. rewrite (H x (or_introl eq_refl)), IH; [reflexivity|].
  intros y Hy. apply H. right. exact Hy.
Qed.

Lemma filter_none {B : Type} (f : B -> bool) (l : list B) :
  (forall x, In x l -> f x = false) -> filter f l = [].
Proof.
  induction l as [|x l IH]; intros H; [reflexivity|].
  cbn [filter]. rewrite (H x (or_introl eq_refl)), IH; [reflexivity|].
  intros y Hy. apply H. right. exact Hy.
Qed.

(** X23.  The single table and back: for features and a one-column label
    of [N] rows each, the label column bearing the configured name and no
    feature bearing it, [set_split_result] applied to [get_single_df] sets
    the synthetic features to the features and the synthetic label to the
    label.  A table without the label column is a [KeyError], raised after
    the synthetic features have been replaced. *)
Theorem split_of_single_df (ds : Dataset) (N : nat) (c : column) :
  (table N (X ds) ->
   y ds = [(y_label (config ds), c)] -> column_length c = N ->
   ~ In (y_label (config ds)) (map fst (X ds)) ->
   set_split_result (get_single_df ds) ds = (Ok tt, set_gen ds (X ds) (y ds)))
  /\ (forall data,
        ~ In (y_label (config ds)) (map fst data) ->
        set_split_result data ds = (Raise KeyError, set_gen ds data (y_gen ds))).
Proof.
  split.
  - intros HX Hy Hc Hnot.
    assert (E : get_single_df ds = X ds ++ y ds).
    { unfold get_single_df, concat_axis1. rewrite (table_nrows N _ HX), Hy.
      cbn [nrows]. rewrite Hc, Nat.max_id.
      unfold apply. rewrite <- (map_id (X ds ++ [(y_label (config ds), c)])) at 2.
      apply map_ext_in. intros [n k] Hin. cbn [fst snd]. f_equal.
      apply pad_column_full. apply in_app_or in Hin as [Hin|[[= <- <-]|[]]];
        [|exact Hc].
      destruct HX as [_ HX]. rewrite Forall_forall in HX. apply (HX _ Hin). }
    assert (Hkeep : forall data : DataFrame,
              ~ In (y_label (config ds)) (map fst data) ->
              filter (fun nc => negb (String.eqb (fst nc) (y_label (config ds))))
                     data = data
              /\ filter (fun nc => String.eqb (fst nc) (y_label (config ds)))
                        data = []).
    { intros data Hd. split; [apply filter_all|apply filter_none];
        intros [n k] Hin; cbn [fst];
        (destruct (String.eqb_spec n (y_label (config ds))) as [->|];
         [|reflexivity]);
        exfalso; apply Hd; apply (in_map fst) in Hin; exact Hin. }
    rewrite E. unfold set_split_result. rewrite Hy, !filter_app.
    destruct (Hkeep (X ds) Hnot) as [-> ->].
    cbn [filter fst]. rewrite String.eqb_refl. cbn [negb app].
    rewrite app_nil_r. reflexivity.
  - intros data Hnot. unfold set_split_result.
    assert (Hkeep :
              filter (fun nc => negb (String.eqb (fst nc) (y_label (config ds))))
                     data = data
              /\ filter (fun nc => String.eqb (fst nc) (y_label (config ds)))
                        data = []).
    { split; [apply filter_all|apply filter_none];
        intros [n k] Hin; cbn [fst];
        (destruct (String.eqb_spec n (y_label (config ds))) as [->|];
         [|reflexivity]);
        exfalso; apply Hnot; apply (in_map fst) in Hin; exact Hin. }
    destruct Hkeep as [-> ->]. reflexivity.
Qed.

Lemma split_of_single_df_witness :
  set_split_result (get_single_df toy) toy = (Ok tt, set_gen toy (X toy) (y toy))
  /\ set_split_result (X toy) toy
     = (Raise KeyError, set_gen toy (X toy) (y_gen toy)).
Proof.
  split.
  - apply (proj1 (split_of_single_df toy 3
                    (ObjCol [Some "u"; Some "v"; Some "u"]%string))).
    + exact (proj1 toy_tables_have_three_rows).
    + reflexivity.
    + reflexivity.
    + simpl. intros [H|[H|[H|[]]]]; discriminate.
  - apply (proj2 (split_of_single_df toy 3 (ObjCol []))).
    simpl. intros [H|[H|[H|[]]]]; discriminate.
Defined.

(** ** Feature kinds *)

(** X24.  Every feature is of one kind: the continuous columns are the
    columns of the training table that are neither codec columns nor the
    label, each named once, in increasing order of their names. *)
Theorem continuous_columns_are_the_rest (ds : Dataset) :
  increasing String.ltb (get_continuous ds)
  /\ forall n,
       In n (get_continuous ds)
       <-> In n (map fst (X ds))
           /\ ~ In n (get_categories ds) /\ n <> y_label (config ds).
Proof.
  unfold get_continuous, columns_difference, get_categories. split.
  - apply (increasing_sort_unique String.ltb string_order).
  - intros n. rewrite (In_sort_unique String.ltb string_order), filter_In.
    rewrite negb_true_iff, <- not_true_iff_false, existsb_eqb_In, in_app_iff.
    simpl. intuition congruence.
Qed.

(** ** Classes *)

Section CountFacts.
Context {A : Type} (ltb : A -> A -> bool).
Hypothesis Hord : strict_total ltb.

Lemma NoDup_increasing (l : list A) : increasing ltb l -> NoDup l.
Proof.
  induction 1 as [|a l Hs IH Hall]; constructor; [|exact IH].
  intros Hin. rewrite Forall_forall in Hall. specialize (Hall a Hin).
  rewrite (st_irrefl Hord) in Hall. discriminate.
Qed.

Lemma length_uniques (l : list A) :
  List.length (uniques ltb l) = List.length (sort_unique ltb l).
Proof.
  apply Nat.le_antisymm; apply NoDup_incl_length.
  - apply (NoDup_uniques ltb Hord).
  - intros a Ha. apply (proj2 (In_sort_unique ltb Hord a l)).
    apply (proj1 (In_uniques ltb Hord a l)). exact Ha.
  - apply NoDup_increasing, (increasing_sort_unique ltb Hord).
  - intros a Ha. apply (proj2 (In_uniques ltb Hord a l)).
    apply (proj1 (In_sort_unique ltb Hord a l)). exact Ha.
Qed.

Lemma length_fit_classes (l : list (option A)) :
  List.length (fit_classes ltb l)
  = (List.length (uniques ltb (somes l))
     + if existsb is_none l then 1 else 0)%nat.
Proof.
  unfold fit_classes. rewrite length_app, length_map, length_uniques.
  destruct (existsb is_none l); reflexivity.
Qed.

Lemma In_insert_by_count (x y : A * nat) (l : list (A * nat)) :
  In y (insert_by_count x l) <-> y = x \/ In y l.
Proof.
  induction l as [|z l IH]; cbn [insert_by_count].
  - simpl. intuition.
  - destruct (Nat.leb (snd z) (snd x)); simpl; [intuition|].
    rewrite IH. intuition.
Qed.

Lemma In_sorted_by_count (y : A * nat) (l : list (A * nat)) :
  In y (fold_right insert_by_count [] l) <-> In y l.
Proof.
  induction l as [|x l IH]; cbn [fold_right]; [reflexivity|].
  rewrite In_insert_by_count, IH. simpl. intuition.
Qed.

Lemma list_sum_cons (a : nat) (l : list nat) :
  list_sum (a :: l) = (a + list_sum l)%nat.
Proof. reflexivity. Qed.

Lemma list_sum_insert_by_count (x : A * nat) (l : list (A * nat)) :
  list_sum (map snd (insert_by_count x l)) = (snd x + list_sum (map snd l))%nat.
Proof.
  induction l as [|z l IH]; cbn [insert_by_count]; [reflexivity|].
  destruct (Nat.leb (snd z) (snd x)); cbn [map]; rewrite !list_sum_cons;
    [reflexivity|].
  rewrite IH. lia.
Qed.

Lemma list_sum_sorted_by_count (l : list (A * nat)) :
  list_sum (map snd (fold_right insert_by_count [] l)) = list_sum (map snd l).
Proof.
  induction l as [|x l IH]; cbn [fold_right]; [reflexivity|].
  rewrite list_sum_insert_by_count, IH. reflexivity.
Qed.

Lemma length_selR (g : A) (cats : list A) :
  List.length (selR ltb g (combine cats (map (fun _ => 0%R) cats)))
  = count ltb g cats.
Proof.
  unfold selR. rewrite length_map.
  induction cats as [|c cats IH]; [reflexivity|].
  cbn [map combine filter fst count].
  destruct (same ltb g c); cbn [List.length]; rewrite IH; reflexivity.
Qed.

Lemma Rsum_INR {B : Type} (h : B -> nat) (u : list B) :
  Rsum (map (fun b => INR (h b)) u) = INR (list_sum (map h u)).
Proof.
  induction u as [|b u IH]; [reflexivity|].
  cbn [map]. rewrite list_sum_cons, plus_INR, <- IH. reflexivity.
Qed.

(** The counts of the distinct values add up to the number of values. *)
Lemma list_sum_counts (l : list A) :
  list_sum (map (fun v => count ltb v l) (uniques ltb l)) = List.length l.
Proof.
  apply INR_eq. rewrite <- Rsum_INR.
  set (rows := combine l (map (fun _ => 0%R) l)).
  assert (E : Rsum (map (fun g => Rsum (map (fun _ => 1%R) (selR ltb g rows)))
                        (uniques ltb l))
              = Rsum (map (fun _ => 1%R) (map snd rows))).
  { apply (Rsum_by_group ltb Hord (fun _ => 1%R)).
    - apply (NoDup_uniques ltb Hord).
    - intros [c x] Hin. cbn [fst]. apply (proj2 (In_uniques ltb Hord _ _)).
      apply (in_combine_l _ _ _ _ Hin). }
  rewrite Rsum_const_one in E. unfold rows in E at 2.
  rewrite length_map, length_combine, length_map, Nat.min_id in E.
  rewrite <- E. apply Rsum_map_ext. intros g _.
  rewrite Rsum_const_one. unfold rows. rewrite length_selR. reflexivity.
Qed.

Lemma pd_value_counts_spec (l : list (option A)) :
  (forall v k, In (v, k) (pd_value_counts ltb l)
               <-> In v (somes l) /\ k = count ltb v (somes l))
  /\ list_sum (map snd (pd_value_counts ltb l)) = List.length (somes l)
  /\ List.length (pd_value_counts ltb l) = List.length (uniques ltb (somes l)).
Proof.
  unfold pd_value_counts. split; [|split].
  - intros v k. rewrite In_sorted_by_count, in_map_iff. split.
    + intros (w & [= <- <-] & Hw).
      apply (proj1 (In_uniques ltb Hord _ _)) in Hw. auto.
    + intros [Hv ->]. exists v. split; [reflexivity|].
      apply (proj2 (In_uniques ltb Hord _ _)). exact Hv.
  - rewrite list_sum_sorted_by_count, map_map. cbn [snd]. apply list_sum_counts.
  - assert (Hl : forall q : list (A * nat),
               List.length (fold_right insert_by_count [] q) = List.length q).
    { induction q as [|x q IH]; [reflexivity|]. cbn [fold_right].
      assert (Hi : forall (x : A * nat) (r : list (A * nat)),
                   List.length (insert_by_count x r) = S (List.length r)).
      { clear. intros x r. induction r as [|z r IH]; [reflexivity|].
        cbn [insert_by_count]. destruct (Nat.leb (snd z) (snd x)); simpl; congruence. }
      rewrite Hi, IH. reflexivity. }
    rewrite Hl, length_map. reflexivity.
Qed.
End CountFacts.

(** X25.  The number of classes and the label encoder: with the encoder
    fitted on a one-column label table, [num_classes] is the number of
    classes of the encoder when no training label is missing, and one less
    when some label is missing, a missing label being a class of the encoder
    but not counted by [num_classes]. *)
Theorem num_classes_matches_encoder (ds0 ds : Dataset) (c : column) :
  get_label_encoders ds0 = Ok ds ->
  y ds0 = [(y_label (config ds0), c)] ->
  exists k,
    num_classes ds = Ok k
    /\ n_classes (label_encoder ds)
       = (k + if has_missing c then 1 else 0)%nat.
Proof.
  intros H Hy.
  rewrite (get_label_encoders_Ok ds0 ds _ c H Hy).
  assert (Hds : y ds = y ds0 /\ config ds = config ds0).
  { unfold get_label_encoders in H.
    destruct (fit_label_encoder (y ds0)); [|discriminate].
    injection H as <-. split; reflexivity. }
  destruct Hds as [Ey Ec].
  unfold num_classes, label_column, getcol. rewrite Ey, Ec, Hy.
  cbn [lookup]. rewrite String.eqb_refl. cbn [bind].
  eexists. split; [reflexivity|].
  destruct c as [l|l|l]; cbn [n_classes series_nunique has_missing].
  - apply (length_fit_classes String.ltb string_order).
  - rewrite isnan_is_none. apply (length_fit_classes ereal_ltb ereal_order).
  - rewrite (length_fit_classes Z.ltb Z_order), somes_map_Some,
      existsb_is_none_map_Some. reflexivity.
Qed.

Lemma num_classes_matches_encoder_witness :
  exists k,
    num_classes toy = Ok k
    /\ n_classes (label_encoder toy)
       = (k + if has_missing (ObjCol [Some "u"; Some "v"; Some "u"]%string)
              then 1 else 0)%nat.
Proof.
  apply (num_classes_matches_encoder toy toy); reflexivity.
Defined.

Lemma np_maximum_Rmax (a b : R) : np_maximum (F a) (F b) = F (Rmax a b).
Proof.
  unfold np_maximum, F. cbn [ereal_ltb]. unfold Rltb, Rmax.
  destruct (Rlt_dec a b), (Rle_dec a b); try reflexivity; try lra.
  apply (f_equal (fun r => Some (Fin r))). lra.
Qed.

Lemma np_minimum_Rmin (a b : R) : np_minimum (F a) (F b) = F (Rmin a b).
Proof.
  unfold np_minimum, F. cbn [ereal_ltb]. unfold Rltb, Rmin.
  destruct (Rlt_dec b a), (Rle_dec a b); try reflexivity; lra.
Qed.

Lemma fold_Rmax (l : list R) (a : R) :
  exists M, fold_left np_maximum (map F l) (F a) = F M
            /\ (M = a \/ In M l) /\ (a <= M)%R /\ (forall r, In r l -> (r <= M)%R).
Proof.
  revert a. induction l as [|x l IH]; intros a.
  - exists a. split; [reflexivity|]. split; [auto|]. split; [lra|]. intros r [].
  - cbn [map fold_left]. rewrite np_maximum_Rmax.
    destruct (IH (Rmax a x)) as (M & E & Hin & Hge & Hall).
    exists M. split; [exact E|].
    pose proof (Rmax_l a x). pose proof (Rmax_r a x). split; [|split].
    + destruct Hin as [->|Hin]; [|right; right; exact Hin].
      unfold Rmax. destruct (Rle_dec a x); [right; left; reflexivity|left; reflexivity].
    + lra.
    + intros r [<-|Hr]; [lra|auto].
Qed.

Lemma fold_Rmin (l : list R) (a : R) :
  exists M, fold_left np_minimum (map F l) (F a) = F M
            /\ (M = a \/ In M l) /\ (M <= a)%R /\ (forall r, In r l -> (M <= r)%R).
Proof.
  revert a. induction l as [|x l IH]; intros a.
  - exists a. split; [reflexivity|]. split; [auto|]. split; [lra|]. intros r [].
  - cbn [map fold_left]. rewrite np_minimum_Rmin.
    destruct (IH (Rmin a x)) as (M & E & Hin & Hge & Hall).
    exists M. split; [exact E|].
    pose proof (Rmin_l a x). pose proof (Rmin_r a x). split; [|split].
    + destruct Hin as [->|Hin]; [|right; right; exact Hin].
      unfold Rmin. destruct (Rle_dec a x); [left; reflexivity|right; left; reflexivity].
    + lra.
    + intros r [<-|Hr]; [lra|auto].
Qed.

Lemma Forall_finite_map_F (rs : list R) : Forall finite (map F rs).
Proof. apply Forall_map, Forall_forall. intros r _. apply finite_F. Qed.

(** The largest and the least entry of a column of numbers. *)
Lemma col_max_F (rs : list R) :
  rs <> [] ->
  exists M, col_max (map F rs) = F M /\ In M rs /\ (forall r, In r rs -> (r <= M)%R).
Proof.
  intros Hne. unfold col_max, skipna_fold.
  rewrite (somes_finite _ (Forall_finite_map_F rs)).
  destruct rs as [|a l]; [contradiction|]. cbn [map].
  destruct (fold_Rmax l a) as (M & E & Hin & Hge & Hall).
  exists M. split; [exact E|]. split.
  - destruct Hin as [->|Hin]; [left; reflexivity|right; exact Hin].
  - intros r [<-|Hr]; [exact Hge|auto].
Qed.

Lemma col_min_F (rs : list R) :
  rs <> [] ->
  exists M, col_min (map F rs) = F M /\ In M rs /\ (forall r, In r rs -> (M <= r)%R).
Proof.
  intros Hne. unfold col_min, skipna_fold.
  rewrite (somes_finite _ (Forall_finite_map_F rs)).
  destruct rs as [|a l]; [contradiction|]. cbn [map].
  destruct (fold_Rmin l a) as (M & E & Hin & Hge & Hall).
  exists M. split; [exact E|]. split.
  - destruct Hin as [->|Hin]; [left; reflexivity|right; exact Hin].
  - intros r [<-|Hr]; [exact Hge|auto].
Qed.

Lemma series_value_counts_pos (c : column) (v : value) (k : nat) :
  In (v, k) (series_value_counts c) -> (1 <= k)%nat.
Proof.
  destruct c as [l|l|l]; cbn [series_value_counts]; intros H;
    apply in_map_iff in H as ([w j] & [= <- <-] & H); cbn [snd].
  - apply (pd_value_counts_spec String.ltb string_order) in H as [Hw ->].
    apply count_pos; [apply string_ltb_irrefl|exact Hw].
  - apply (pd_value_counts_spec ereal_ltb ereal_order) in H as [Hw ->].
    apply count_pos; [apply ereal_ltb_irrefl|exact Hw].
  - apply (pd_value_counts_spec Z.ltb Z_order) in H as [Hw ->].
    apply count_pos; [apply Z_ltb_irrefl|exact Hw].
Qed.

(** X26.  The imbalance ratio: with at least one labelled training row,
    every class count is at least 1, [min_class_count] is the least of
    them, and [get_imbalance_ratio] is the largest class count over the
    least one, a number that is at least 1. *)
Theorem imbalance_ratio_is_largest_over_least
        (ds : Dataset) (cc : list (value * nat)) :
  class_counts ds = Ok cc -> cc <> [] ->
  exists M m : nat,
    In M (map snd cc) /\ In m (map snd cc)
    /\ (forall k, In k (map snd cc) -> (1 <= m <= k)%nat /\ (k <= M)%nat)
    /\ min_class_count ds = Ok (of_nat m)
    /\ get_imbalance_ratio ds = Ok (F (INR M / INR m))
    /\ (1 <= INR M / INR m)%R.
Proof.
  intros Hcc Hne.
  assert (Hpos : forall k, In k (map snd cc) -> (1 <= k)%nat).
  { intros k Hk. apply in_map_iff in Hk as ([v j] & <- & Hin). cbn [snd].
    unfold class_counts in Hcc. apply bind_Ok_inv in Hcc as (c & _ & Hc).
    injection Hc as <-. apply (series_value_counts_pos c v j Hin). }
  unfold min_class_count, get_imbalance_ratio. rewrite Hcc. cbn [bind].
  set (rs := map (fun vn : value * nat => INR (snd vn)) cc).
  assert (Efl : map (fun vn : value * nat => of_nat (snd vn)) cc = map F rs).
  { unfold rs. rewrite map_map. reflexivity. }
  rewrite Efl.
  assert (Hrs : rs <> []).
  { unfold rs. destruct cc; [contradiction|discriminate]. }
  assert (Hin_rs : forall r, In r rs -> exists k, In k (map snd cc) /\ r = INR k).
  { intros r Hr. unfold rs in Hr. apply in_map_iff in Hr as ([v j] & <- & Hin).
    exists j. split; [|reflexivity]. apply (in_map snd) in Hin. exact Hin. }
  assert (Hrs_in : forall k, In k (map snd cc) -> In (INR k) rs).
  { intros k Hk. apply in_map_iff in Hk as ([v j] & <- & Hin).
    unfold rs. apply (in_map (fun vn : value * nat => INR (snd vn))) in Hin.
    exact Hin. }
  assert (Hrs_pos : forall r, In r rs -> (1 <= r)%R).
  { intros r Hr. destruct (Hin_rs r Hr) as (k & Hk & ->).
    change 1%R with (INR 1). apply le_INR. auto. }
  destruct (col_max_F rs Hrs) as (Mr & EM & HMin & HMall).
  destruct (col_min_F rs Hrs) as (mr & Em & Hmin & Hmall).
  destruct (Hin_rs Mr HMin) as (M & HM & ->).
  destruct (Hin_rs mr Hmin) as (m & Hm & ->).
  rewrite EM, Em.
  assert (Eratio : map (fun n => fdiv (F (INR M)) n) (map F rs)
                   = map F (map (fun r => (INR M / r)%R) rs)).
  { rewrite !map_map. apply map_ext_in. intros r Hr.
    apply fdiv_F. specialize (Hrs_pos r Hr). lra. }
  rewrite Eratio.
  destruct (col_max_F (map (fun r => (INR M / r)%R) rs)) as (q & Eq & Hqin & Hqall).
  { destruct rs; [contradiction|discriminate]. }
  rewrite Eq.
  apply in_map_iff in Hqin as (r0 & <- & Hr0).
  pose proof (Hrs_pos _ HMin) as HM1. pose proof (Hrs_pos _ Hr0) as Hr01.
  pose proof (Hrs_pos _ Hmin) as Hm1.
  assert (Hr0min : forall r, In r rs -> (r0 <= r)%R).
  { intros r Hr. pose proof (Hrs_pos r Hr) as Hr1.
    specialize (Hqall (INR M / r)%R
                      (in_map (fun r => (INR M / r)%R) rs r Hr)).
    destruct (Rle_dec r0 r) as [Hle|Hgt]; [exact Hle|]. exfalso.
    assert (Hlt : (r < r0)%R) by lra.
    assert (H1 : (/ r0 < / r)%R) by (apply Rinv_lt_contravar; nra).
    unfold Rdiv in Hqall. nra. }
  assert (E0 : r0 = INR m).
  { pose proof (Hr0min _ Hmin). pose proof (Hmall _ Hr0). lra. }
  subst r0.
  exists M, m. split; [exact HM|]. split; [exact Hm|]. split.
  - intros k Hk. pose proof (Hrs_in k Hk) as Hk'.
    pose proof (Hmall _ Hk') as H1. pose proof (HMall _ Hk') as H2.
    apply INR_le in H1. apply INR_le in H2. specialize (Hpos m Hm). lia.
  - split; [reflexivity|]. split; [reflexivity|].
    specialize (HMall _ Hmin).
    apply (Rmult_le_reg_r (INR m)); [lra|].
    unfold Rdiv. rewrite Rmult_assoc, Rinv_l by lra. lra.
Qed.

Lemma imbalance_ratio_is_largest_over_least_witness :
  exists M m : nat,
    In M (map snd [(VObj "u", 2%nat); (VObj "v", 1%nat)])
    /\ In m (map snd [(VObj "u", 2%nat); (VObj "v", 1%nat)])
    /\ (forall k, In k (map snd [(VObj "u", 2%nat); (VObj "v", 1%nat)]) ->
          (1 <= m <= k)%nat /\ (k <= M)%nat)
    /\ min_class_count toy = Ok (of_nat m)
    /\ get_imbalance_ratio toy = Ok (F (INR M / INR m))
    /\ (1 <= INR M / INR m)%R.
Proof.
  apply (imbalance_ratio_is_largest_over_least toy).
  - reflexivity.
  - discriminate.
Defined.

(** ** The rows of a class *)

Lemma where_true_from (m : list bool) (s : nat) :
  (forall i, In i (map fst (filter snd (combine (seq s (List.length m)) m))) ->
             (s <= i < s + List.length m)%nat)
  /\ List.length (filter snd (combine (seq s (List.length m)) m)) = count_true m.
Proof.
  revert s. induction m as [|b m IH]; intros s.
  - split; [intros i []|reflexivity].
  - destruct (IH (S s)) as [H1 H2]. cbn [List.length seq combine filter snd].
    unfold count_true in *. cbn [filter].
    destruct b; cbn [map fst List.length In]; split.
    + intros i [<-|Hi]; [lia|]. specialize (H1 i Hi). lia.
    + rewrite H2. reflexivity.
    + intros i Hi. specialize (H1 i Hi). lia.
    + exact H2.
Qed.

Lemma where_true_lt (m : list bool) (i : nat) :
  In i (where_true m) -> (i < List.length m)%nat.
Proof. intros H. apply (proj1 (where_true_from m 0)) in H. lia. Qed.

Lemma length_where_true (m : list bool) :
  List.length (where_true m) = count_true m.
Proof.
  unfold where_true. rewrite length_map. apply (proj2 (where_true_from m 0)).
Qed.

Lemma length_take_positions (idx : list nat) (B : Type) (l : list B) :
  (forall i, In i idx -> (i < List.length l)%nat) ->
  List.length (take_positions idx B l) = List.length idx.
Proof.
  unfold take_positions. induction idx as [|i idx IH]; intros H; [reflexivity|].
  cbn [map]. destruct (nth_error_lt_Some l i (H i (or_introl eq_refl))) as (x & ->).
  cbn [somes List.length]. rewrite IH; [reflexivity|].
  intros j Hj. apply H. right. exact Hj.
Qed.

Lemma count_true_eq_str (cls : string) (l : list (option string)) :
  count_true (eq_str cls (ObjCol l)) = count String.ltb cls (somes l).
Proof.
  unfold count_true. cbn [eq_str].
  induction l as [|[s|] l IH]; cbn [map filter somes count]; [reflexivity| |exact IH].
  assert (E : String.eqb s cls = same String.ltb cls s).
  { apply eq_true_iff_eq. rewrite String.eqb_eq.
    rewrite (same_true_iff String.ltb string_order). split; congruence. }
  rewrite E. destruct (same String.ltb cls s); cbn [List.length]; rewrite IH;
    reflexivity.
Qed.

(** X27.  The rows of a class: for a label column of strings and features
    of as many rows, [get_class_rows] returns for every class name a table
    with the columns of the features and as many rows as labels are equal to
    that name; these numbers are the class counts, and the class counts add
    up to the number of labels that are not missing. *)
Theorem class_rows_match_class_counts
        (ds : Dataset) (l : list (option string)) (N : nat) :
  label_column ds = Ok (ObjCol l) -> table N (X ds) -> List.length l = N ->
  (forall cls,
     exists R, get_class_rows ds cls = Ok R
               /\ map fst R = map fst (X ds)
               /\ table (count String.ltb cls (somes l)) R)
  /\ exists cc,
       class_counts ds = Ok cc
       /\ (forall cls k, In (VObj cls, k) cc
                         <-> In (Some cls) l /\ k = count String.ltb cls (somes l))
       /\ list_sum (map snd cc) = List.length (somes l).
Proof.
  intros Hc HX Hl. split.
  - intros cls. unfold get_class_rows, class_rows.
    unfold label_column in Hc. rewrite Hc. cbn [bind].
    set (idx := where_true (eq_str cls (ObjCol l))).
    assert (Hidx : forall i, In i idx -> (i < N)%nat).
    { intros i Hi. apply where_true_lt in Hi. cbn [eq_str] in Hi.
      rewrite length_map in Hi. lia. }
    unfold df_loc. rewrite (table_nrows N _ HX).
    assert (E : forallb (fun r => Nat.ltb r N) idx = true).
    { apply forallb_forall. intros i Hi. apply Nat.ltb_lt. auto. }
    rewrite E. eexists. split; [reflexivity|].
    split; [apply names_apply|].
    apply (table_apply N); [exact HX|]. intros c Hlen.
    rewrite <- count_true_eq_str, <- length_where_true. fold idx.
    destruct c as [k|k|k]; cbn [on_rows column_length] in *;
      apply length_take_positions; intros i Hi; rewrite Hlen; auto.
  - unfold class_counts. rewrite Hc. cbn [bind series_value_counts].
    eexists. split; [reflexivity|].
    destruct (pd_value_counts_spec String.ltb string_order l) as (H1 & H2 & _).
    split.
    + intros cls k. rewrite in_map_iff. split.
      * intros ([s j] & [= <- <-] & Hin). apply H1 in Hin as [Hs ->].
        split; [apply somes_In; exact Hs|reflexivity].
      * intros [Hs ->]. exists (cls, count String.ltb cls (somes l)).
        split; [reflexivity|]. apply H1. split; [|reflexivity].
        apply somes_In. exact Hs.
    + rewrite map_map. cbn [snd]. exact H2.
Qed.

Lemma class_rows_match_class_counts_witness :
  (forall cls,
     exists R, get_class_rows toy cls = Ok R
               /\ map fst R = map fst (X toy)
               /\ table (count String.ltb cls
                               (somes [Some "u"; Some "v"; Some "u"]%string)) R)
  /\ exists cc,
       class_counts toy = Ok cc
       /\ (forall cls k,
             In (VObj cls, k) cc
             <-> In (Some cls) [Some "u"; Some "v"; Some "u"]%string
                 /\ k = count String.ltb cls
                              (somes [Some "u"; Some "v"; Some "u"]%string))
       /\ list_sum (map snd cc)
          = List.length (somes [Some "u"; Some "v"; Some "u"]%string).
Proof.
  apply (class_rows_match_class_counts toy _ 3).
  - reflexivity.
  - exact (proj1 toy_tables_have_three_rows).
  - reflexivity.
Defined.

(** ** Imputation *)

Section ModeFacts.
Context {A : Type} (ltb : A -> A -> bool).
Hypothesis Hord : strict_total ltb.

(** The value chosen among the distinct values [u], in increasing order, is
    one of them, no value of [u] occurs more often, and no value of [u] that
    occurs as often is below it. *)
Lemma most_frequent_spec (u l : list A) :
  increasing ltb u -> u <> [] ->
  exists m, most_frequent ltb u l = Some m /\ In m u
            /\ (forall v, In v u -> (count ltb v l <= count ltb m l)%nat)
            /\ (forall v, In v u -> count ltb v l = count ltb m l ->
                          ltb v m = false).
Proof.
  induction 1 as [|g u Hs IH Hall]; intros Hne; [contradiction|].
  cbn [most_frequent]. destruct u as [|g' u'].
  - cbn [most_frequent]. exists g. split; [reflexivity|].
    split; [left; reflexivity|].
    split; intros v [<-|[]]; [lia|]. intros _. apply (st_irrefl Hord).
  - destruct IH as (b & -> & Hb & Hmax & Htie); [discriminate|].
    rewrite Forall_forall in Hall.
    destruct (Nat.leb_spec (count ltb b l) (count ltb g l)) as [Hle|Hgt].
    + exists g. split; [reflexivity|]. split; [left; reflexivity|]. split.
      * intros v [<-|Hv]; [lia|]. specialize (Hmax v Hv). lia.
      * intros v [<-|Hv] _; [apply (st_irrefl Hord)|].
        destruct (ltb v g) eqn:E; [|reflexivity].
        pose proof (st_trans Hord _ _ _ (Hall v Hv) E) as Hgg.
        rewrite (st_irrefl Hord) in Hgg. discriminate.
    + exists b. split; [reflexivity|]. split; [right; exact Hb|]. split.
      * intros v [<-|Hv]; [lia|auto].
      * intros v [<-|Hv] Hc; [lia|auto].
Qed.

Lemma count_In (v : A) (l : list A) : (1 <= count ltb v l)%nat -> In v l.
Proof.
  induction l as [|y l IH]; cbn [count]; [lia|].
  destruct (same ltb v y) eqn:E.
  - apply (same_true_iff ltb Hord) in E. subst y. intros _. left. reflexivity.
  - intros H. right. exact (IH H).
Qed.

Lemma mode_none (l : list (option A)) :
  somes l = [] -> mode ltb l = Raise KeyError.
Proof. unfold mode. intros ->. reflexivity. Qed.

Lemma mode_spec (l : list (option A)) :
  somes l <> [] ->
  exists m, mode ltb l = Ok m /\ In (Some m) l
            /\ (forall v, (count ltb v (somes l) <= count ltb m (somes l))%nat)
            /\ (forall v, count ltb v (somes l) = count ltb m (somes l) ->
                          ltb v m = false).
Proof.
  unfold mode. intros Hne.
  destruct (most_frequent_spec (sort_unique ltb (somes l)) (somes l))
    as (m & -> & Hm & Hmax & Htie).
  { apply (increasing_sort_unique ltb Hord). }
  { destruct (somes l) as [|a s] eqn:E; [contradiction|].
    intros Hnil.
    assert (Ha : In a (sort_unique ltb (a :: s)))
      by (apply (proj2 (In_sort_unique ltb Hord a (a :: s))); left; reflexivity).
    rewrite Hnil in Ha. destruct Ha. }
  apply (proj1 (In_sort_unique ltb Hord m (somes l))) in Hm.
  pose proof (count_pos ltb m (somes l) (st_irrefl Hord m) Hm) as Hpos.
  exists m. split; [reflexivity|].
  split; [apply (proj1 (somes_In m l)); exact Hm|]. split.
  - intros v. destruct (count ltb v (somes l)) as [|k] eqn:Ek; [lia|].
    rewrite <- Ek. apply Hmax.
    apply (proj2 (In_sort_unique ltb Hord v (somes l))).
    apply count_In. lia.
  - intros v Hc. apply Htie; [|exact Hc].
    apply (proj2 (In_sort_unique ltb Hord v (somes l))).
    apply count_In. lia.
Qed.
End ModeFacts.

Lemma existsb_is_none_fillna {A : Type} (m : A) (l : list (option A)) :
  existsb is_none (fillna m l) = false.
Proof.
  unfold fillna. induction l as [|[a|] l IH]; cbn [map existsb is_none orb];
    [reflexivity|exact IH|exact IH].
Qed.

Lemma nth_error_fillna {A : Type} (m : A) (l : list (option A)) (i : nat) :
  nth_error (fillna m l) i
  = option_map (fun x => match x with
                         | None => Some m
                         | Some _ => x
                         end) (nth_error l i).
Proof. unfold fillna. apply nth_error_map. Qed.

(** X28.  [fillNa_cate], one column: a column of labels without a present
    value, empty or all missing, is a [KeyError].  Otherwise the column comes
    back with every missing entry replaced by one value and the present
    entries as they were; that value occurs in the column, no label occurs
    more often, and no label that occurs as often is below it.  A column of
    integers comes back unchanged, unless it is empty, which is a
    [KeyError]. *)
Theorem fillNa_cate_column_gets_its_mode (l : list (option string)) :
  (somes l = [] -> fill_cate (ObjCol l) = Raise KeyError)
  /\ (somes l <> [] ->
      exists m,
        fill_cate (ObjCol l) = Ok (ObjCol (fillna m l))
        /\ In (Some m) l
        /\ existsb is_none (fillna m l) = false
        /\ (forall i a, nth_error l i = Some (Some a) ->
                        nth_error (fillna m l) i = Some (Some a))
        /\ (forall i, nth_error l i = Some None ->
                      nth_error (fillna m l) i = Some (Some m))
        /\ (forall v, (count String.ltb v (somes l)
                       <= count String.ltb m (somes l))%nat)
        /\ (forall v, count String.ltb v (somes l)
                      = count String.ltb m (somes l) ->
                      String.ltb v m = false))
  /\ fill_cate (IntCol []) = Raise KeyError
  /\ (forall z zs, fill_cate (IntCol (z :: zs)) = Ok (IntCol (z :: zs))).
Proof.
  split; [|split; [|split]].
  - intros H. cbn [fill_cate]. rewrite (mode_none String.ltb l H). reflexivity.
  - intros H.
    destruct (mode_spec String.ltb string_order l H)
      as (m & Hm & Hin & Hmax & Htie).
    exists m. cbn [fill_cate]. rewrite Hm. cbn [bind].
    split; [reflexivity|]. split; [exact Hin|].
    split; [apply existsb_is_none_fillna|].
    split; [|split; [|split; [exact Hmax|exact Htie]]].
    + intros i a Hi. rewrite nth_error_fillna, Hi. reflexivity.
    + intros i Hi. rewrite nth_error_fillna, Hi. reflexivity.
  - reflexivity.
  - intros z zs. cbn [fill_cate].
    destruct (mode_spec Z.ltb Z_order (map Some (z :: zs))) as (m & -> & _).
    + cbn. discriminate.
    + reflexivity.
Qed.

Lemma fillNa_cate_column_gets_its_mode_witness :
  somes [Some "b"; None; Some "a"; Some "a"; Some "b"]%string <> []
  /\ exists m,
       fill_cate (ObjCol [Some "b"; None; Some "a"; Some "a"; Some "b"]%string)
       = Ok (ObjCol (fillna m [Some "b"; None; Some "a"; Some "a"; Some "b"]%string))
       /\ In (Some m) [Some "b"; None; Some "a"; Some "a"; Some "b"]%string.
Proof.
  assert (H : somes [Some "b"; None; Some "a"; Some "a"; Some "b"]%string <> [])
    by (cbn; discriminate).
  split; [exact H|].
  destruct (proj1 (proj2 (fillNa_cate_column_gets_its_mode
                            [Some "b"; None; Some "a"; Some "a"; Some "b"]%string)) H)
    as (m & H1 & H2 & _).
  exists m. split; [exact H1|exact H2].
Defined.

Lemma Rsum_between (xs : list R) (lo hi : R) :
  Forall (fun x => (lo <= x <= hi)%R) xs ->
  (INR (List.length xs) * lo <= Rsum xs <= INR (List.length xs) * hi)%R.
Proof.
  induction 1 as [|x xs Hx _ IH].
  - cbn. lra.
  - cbn [List.length Rsum fold_right]. fold (Rsum xs). rewrite S_INR. lra.
Qed.

Lemma list_extrema (xs : list R) :
  xs <> [] ->
  exists lo hi, In lo xs /\ In hi xs
                /\ Forall (fun x => (lo <= x <= hi)%R) xs.
Proof.
  induction xs as [|x xs IH]; intros Hne; [contradiction|].
  destruct xs as [|y ys].
  - exists x, x. split; [left; reflexivity|]. split; [left; reflexivity|].
    constructor; [lra|constructor].
  - destruct IH as (lo & hi & Hlo & Hhi & Hall); [discriminate|].
    exists (Rmin x lo), (Rmax x hi).
    pose proof (Rmin_l x lo). pose proof (Rmin_r x lo).
    pose proof (Rmax_l x hi). pose proof (Rmax_r x hi).
    split; [|split].
    + unfold Rmin. destruct (Rle_dec x lo); [left; reflexivity|right; exact Hlo].
    + unfold Rmax. destruct (Rle_dec x hi); [right; exact Hhi|left; reflexivity].
    + constructor; [lra|].
      apply (Forall_impl _ (P := fun x => (lo <= x <= hi)%R)); [|exact Hall].
      intros a Ha. cbn beta in Ha. lra.
Qed.

Lemma map_Some_Fin (xs : list R) : map Some (map Fin xs) = map F xs.
Proof. rewrite map_map. reflexivity. Qed.

Lemma col_mean_finite (l : list float) (xs : list R) :
  somes l = map Fin xs -> xs <> [] ->
  col_mean l = F (Rsum xs / INR (List.length xs)).
Proof.
  intros Hs Hne. unfold col_mean. rewrite Hs.
  destruct xs as [|x xs']; [contradiction|].
  change (fdiv (fsum (map Some (map Fin (x :: xs'))))
               (of_nat (List.length (map Fin (x :: xs'))))
          = F (Rsum (x :: xs') / INR (List.length (x :: xs')))).
  rewrite map_Some_Fin, fsum_F, length_map. unfold of_nat.
  apply fdiv_F. apply not_0_INR. discriminate.
Qed.

(** X29.  [fillNa_cont], one column: in a column of floats whose present
    entries are finite numbers, at least one, every missing entry is replaced
    by the sum of the present entries divided by their number, the present
    entries stay as they were and no entry is left missing; the value filled
    in lies between two present entries.  A column of floats with no present
    entry comes back as it was, and so do a column of integers and a column
    of labels with no present entry; a column with a label in it is a
    [TypeError]. *)
Theorem fillNa_cont_column_gets_its_mean (l : list float) (xs : list R) :
  somes l = map Fin xs ->
  (xs <> [] ->
   let m := (Rsum xs / INR (List.length xs))%R in
   fill_cont (FloatCol l) = Ok (FloatCol (fillna (Fin m) l))
   /\ Forall finite (fillna (Fin m) l)
   /\ (forall i a, nth_error l i = Some (Some a) ->
                   nth_error (fillna (Fin m) l) i = Some (Some a))
   /\ (forall i, nth_error l i = Some NaN ->
                 nth_error (fillna (Fin m) l) i = Some (F m))
   /\ exists lo hi, In lo xs /\ In hi xs /\ (lo <= m <= hi)%R)
  /\ (xs = [] -> fill_cont (FloatCol l) = Ok (FloatCol l))
  /\ (forall zs, fill_cont (IntCol zs) = Ok (IntCol zs))
  /\ (forall ss, somes ss = [] -> fill_cont (ObjCol ss) = Ok (ObjCol ss))
  /\ (forall ss, somes ss <> [] -> fill_cont (ObjCol ss) = Raise TypeError).
Proof.
  intros Hs. split; [|split; [|split; [|split]]].
  - intros Hne m.
    pose proof (col_mean_finite l xs Hs Hne) as Hmean. fold m in Hmean.
    split; [|split; [|split; [|split]]].
    + cbn [fill_cont]. rewrite Hmean. unfold fillna. do 2 f_equal.
      apply map_ext. intros [a|]; reflexivity.
    + apply Forall_forall. intros x Hx. unfold fillna in Hx.
      apply in_map_iff in Hx as (y & <- & Hy). destruct y as [a|].
      * assert (Ha : In a (map Fin xs))
          by (rewrite <- Hs; apply (proj2 (somes_In a l)); exact Hy).
        apply in_map_iff in Ha as (r & <- & _). exists r. reflexivity.
      * exists m. reflexivity.
    + intros i a Hi. rewrite nth_error_fillna.
      exact (f_equal (option_map (fun x : option ereal =>
                                    match x with
                                    | None => Some (Fin m)
                                    | Some _ => x
                                    end)) Hi).
    + intros i Hi. rewrite nth_error_fillna.
      exact (f_equal (option_map (fun x : option ereal =>
                                    match x with
                                    | None => Some (Fin m)
                                    | Some _ => x
                                    end)) Hi).
    + destruct (list_extrema xs Hne) as (lo & hi & Hlo & Hhi & Hall).
      exists lo, hi. split; [exact Hlo|]. split; [exact Hhi|].
      pose proof (Rsum_between xs lo hi Hall) as [H1 H2].
      assert (Hn : (0 < INR (List.length xs))%R).
      { apply lt_0_INR. destruct xs; [contradiction|cbn; lia]. }
      unfold m. unfold Rdiv.
      pose proof (Rinv_0_lt_compat _ Hn) as Hinv.
      assert (Hone : (INR (List.length xs) * / INR (List.length xs) = 1)%R)
        by (apply Rinv_r; lra).
      pose proof (Rmult_le_compat_r _ _ _ (Rlt_le _ _ Hinv) H1) as G1.
      pose proof (Rmult_le_compat_r _ _ _ (Rlt_le _ _ Hinv) H2) as G2.
      replace (INR (List.length xs) * lo * / INR (List.length xs))%R
        with (lo * (INR (List.length xs) * / INR (List.length xs)))%R in G1
        by ring.
      replace (INR (List.length xs) * hi * / INR (List.length xs))%R
        with (hi * (INR (List.length xs) * / INR (List.length xs)))%R in G2
        by ring.
      rewrite Hone in G1, G2. lra.
  - intros ->. cbn [map] in Hs. cbn [fill_cont]. do 2 f_equal.
    unfold col_mean. rewrite Hs.
    rewrite <- (map_id l) at 2. apply map_ext_in. intros x Hx.
    destruct x as [a|]; [reflexivity|reflexivity].
  - reflexivity.
  - intros ss H. cbn [fill_cont]. rewrite H. reflexivity.
  - intros ss H. cbn [fill_cont]. destruct (somes ss); [contradiction|reflexivity].
Qed.

Lemma fillNa_cont_column_gets_its_mean_witness :
  somes [F 1; NaN; F 4] = map Fin [1%R; 4%R]
  /\ [1%R; 4%R] <> []
  /\ fill_cont (FloatCol [F 1; NaN; F 4])
     = Ok (FloatCol (fillna (Fin (Rsum [1%R; 4%R] / INR 2)) [F 1; NaN; F 4])).
Proof.
  split; [reflexivity|]. split; [discriminate|].
  apply (proj1 (fillNa_cont_column_gets_its_mean [F 1; NaN; F 4] [1%R; 4%R]
                  eq_refl)).
  discriminate.
Defined.

(** ** The loops of [fillNa_cont] and [fillNa_cate] *)

Lemma update_same (h : Store) (l : loc) (d : DataFrame) :
  nth_error h l = Some d -> update h l d = h.
Proof.
  revert l. induction h as [|x h IH]; intros [|l] H; cbn in *;
    try discriminate.
  - injection H as ->. reflexivity.
  - f_equal. apply IH. exact H.
Qed.

Lemma update_update (h : Store) (l : loc) (a b : DataFrame) :
  update (update h l a) l b = update h l b.
Proof.
  revert l. induction h as [|x h IH]; intros [|l]; cbn; try reflexivity.
  f_equal. apply IH.
Qed.

Lemma lookup_app_notin {B : Type} (n : string) (a b : list (string * B)) :
  ~ In n (map fst a) -> lookup n (a ++ b) = lookup n b.
Proof.
  induction a as [|[k d] a IH]; cbn [map fst In app lookup]; intros Hn;
    [reflexivity|].
  destruct (String.eqb_spec n k) as [->|Hk].
  - exfalso. apply Hn. left. reflexivity.
  - apply IH. intros H. apply Hn. right. exact H.
Qed.

Lemma set_column_app_notin (a b : DataFrame) (n : string) (c : column) :
  ~ In n (map fst a) -> set_column (a ++ b) n c = a ++ set_column b n c.
Proof.
  induction a as [|[k d] a IH]; cbn [map fst In app set_column]; intros Hn;
    [reflexivity|].
  destruct (String.eqb_spec n k) as [->|Hk].
  - exfalso. apply Hn. left. reflexivity.
  - f_equal. apply IH. intros H. apply Hn. right. exact H.
Qed.

Lemma Forall2_names (fill : column -> result column) (d d' : DataFrame) :
  Forall2 (fun nc nc' => fst nc' = fst nc /\ fill (snd nc) = Ok (snd nc')) d d' ->
  map fst d' = map fst d.
Proof. induction 1 as [|x y d d' [H _] _ IH]; cbn; [reflexivity|congruence]. Qed.

(** The loop over the columns [mid], on a frame whose earlier columns are
    [pre]: each is filled in place, then the loop goes on. *)
Lemma fill_loop (fill : column -> result column) (df : loc)
      (tl : list string) (rest : DataFrame) (mid mid' : DataFrame) :
  Forall2 (fun nc nc' => fst nc' = fst nc /\ fill (snd nc) = Ok (snd nc'))
          mid mid' ->
  forall (pre : DataFrame) (h : Store),
    nth_error h df = Some (pre ++ mid ++ rest) ->
    NoDup (map fst (pre ++ mid)) ->
    forM_ (fun col =>
             d <~ read df ;;
             c <~ lift (getcol d col) ;;
             c <~ lift (fill c) ;;
             write df (set_column d col c)) (map fst mid ++ tl) h
    = forM_ (fun col =>
               d <~ read df ;;
               c <~ lift (getcol d col) ;;
               c <~ lift (fill c) ;;
               write df (set_column d col c)) tl
            (update h df (pre ++ mid' ++ rest)).
Proof.
  induction 1 as [|[n c] [n' c'] mid mid' [Hn Hc] _ IH]; intros pre h Hh Hnd.
  - cbn [map app] in Hh |- *. rewrite (update_same h df _ Hh). reflexivity.
  - cbn [fst snd] in Hn, Hc. subst n'.
    assert (Hnotin : ~ In n (map fst pre)).
    { rewrite map_app in Hnd. cbn [map fst] in Hnd.
      apply NoDup_remove_2 in Hnd. intros H. apply Hnd. apply in_or_app.
      left. exact H. }
    assert (Hlt : (df < List.length h)%nat).
    { apply nth_error_Some. rewrite Hh. discriminate. }
    cbn [map fst app forM_]. unfold bindM at 1. unfold bindM at 1.
    unfold read at 1. rewrite Hh. unfold bindM at 1. unfold lift at 1.
    unfold getcol. rewrite (lookup_app_notin n pre _ Hnotin).
    cbn [app lookup]. rewrite String.eqb_refl.
    unfold bindM at 1. unfold lift at 1. rewrite Hc.
    unfold write at 1.
    rewrite (set_column_app_notin pre _ n c' Hnotin).
    cbn [app set_column]. rewrite String.eqb_refl.
    specialize (IH (pre ++ [(n, c')])
                   (update h df (pre ++ (n, c') :: mid ++ rest))).
    rewrite <- !app_assoc in IH. cbn [app] in IH.
    rewrite update_update in IH. apply IH.
    + apply nth_error_update_same. exact Hlt.
    + rewrite !map_app in Hnd |- *. cbn [map fst] in Hnd |- *. exact Hnd.
Qed.

(** X30.  [fillNa_cont] and [fillNa_cate] on a frame with distinct column
    names: the loop fills the columns in order, each in place.  When every column
    can be filled, the frame itself is returned and holds the filled columns.
    When a column cannot be filled, its error is raised, and the frame is
    left with the columns before it filled and that column and the later ones
    as they were. *)
Theorem fillNa_fills_in_place_until_a_column_fails
        (fill : column -> result column) (h : Store) (df : loc)
        (cols cols' rest : DataFrame) :
  nth_error h df = Some (cols ++ rest) ->
  NoDup (map fst (cols ++ rest)) ->
  Forall2 (fun nc nc' => fst nc' = fst nc /\ fill (snd nc) = Ok (snd nc'))
          cols cols' ->
  (rest = [] -> fillNa_with fill df h = (Ok df, update h df cols'))
  /\ (forall n c rest' e,
        rest = (n, c) :: rest' -> fill c = Raise e ->
        fillNa_with fill df h = (Raise e, update h df (cols' ++ rest))).
Proof.
  intros Hh Hnd HF.
  assert (Hnd' : NoDup (map fst ([] ++ cols))).
  { cbn [app]. rewrite map_app in Hnd. exact (NoDup_app_remove_r _ _ Hnd). }
  split.
  - intros ->. rewrite app_nil_r in Hh.
    unfold fillNa_with. unfold bindM at 1. unfold read at 1. rewrite Hh.
    unfold bindM at 1.
    pose proof (fill_loop fill df [] [] cols cols' HF [] h) as Hloop.
    rewrite !app_nil_r in Hloop. cbn [app] in Hloop.
    rewrite (Hloop Hh Hnd'). reflexivity.
  - intros n c rest' e -> He.
    unfold fillNa_with. unfold bindM at 1. unfold read at 1. rewrite Hh.
    unfold bindM at 1. rewrite map_app.
    pose proof (fill_loop fill df (map fst ((n, c) :: rest')) ((n, c) :: rest')
                          cols cols' HF [] h Hh Hnd') as Hloop.
    cbn [app] in Hloop. rewrite Hloop.
    assert (Hlt : (df < List.length h)%nat).
    { apply nth_error_Some. rewrite Hh. discriminate. }
    cbn [map fst forM_]. unfold bindM at 1. unfold bindM at 1.
    unfold read at 1. rewrite (nth_error_update_same h df _ Hlt).
    unfold bindM at 1. unfold lift at 1. unfold getcol.
    assert (Hnotin : ~ In n (map fst cols')).
    { rewrite (Forall2_names fill cols cols' HF).
      rewrite map_app in Hnd. cbn [map fst] in Hnd.
      apply NoDup_remove_2 in Hnd. intros H. apply Hnd. apply in_or_app.
      left. exact H. }
    rewrite (lookup_app_notin n cols' _ Hnotin). cbn [lookup].
    rewrite String.eqb_refl. unfold bindM at 1. unfold lift at 1. rewrite He.
    reflexivity.
Qed.

Lemma fillNa_fills_in_place_until_a_column_fails_witness :
  fillNa_cate 0%nat [[("a", ObjCol [Some "x"; None]); ("b", ObjCol [None])]]%string
  = (Raise KeyError,
     [[("a", ObjCol [Some "x"; Some "x"]); ("b", ObjCol [None])]]%string).
Proof.
  refine (proj2 (fillNa_fills_in_place_until_a_column_fails
                   fill_cate
                   [[("a", ObjCol [Some "x"; None]); ("b", ObjCol [None])]]%string
                   0%nat
                   [("a", ObjCol [Some "x"; None])]%string
                   [("a", ObjCol [Some "x"; Some "x"])]%string
                   [("b", ObjCol [None])]%string
                   eq_refl _ _)
                "b"%string (ObjCol [None]) [] KeyError eq_refl eq_refl).
  - repeat constructor; cbn; intuition discriminate.
  - repeat constructor.
Defined.

(** ** The encoded tables: features and label side by side *)

Lemma column_length_pad_column (n : nat) (c : column) :
  column_length (pad_column n c) = Nat.max (column_length c) n.
Proof.
  destruct c as [l|l|l]; cbn [pad_column column_length].
  - rewrite length_app, repeat_length. lia.
  - rewrite length_app, repeat_length. lia.
  - destruct (Nat.ltb_spec (List.length l) n) as [Hlt|Hge];
      cbn [column_length].
    + rewrite length_app, length_map, repeat_length. lia.
    + lia.
Qed.

Lemma nrows_concat_axis1 (a b : DataFrame) :
  nrows (concat_axis1 a b) = Nat.max (nrows a) (nrows b).
Proof.
  unfold concat_axis1. destruct a as [|[n c] a].
  - destruct b as [|[m d] b]; [reflexivity|].
    cbn [app apply map nrows fst snd]. rewrite column_length_pad_column. lia.
  - cbn [app apply map nrows fst snd]. rewrite column_length_pad_column. lia.
Qed.

Lemma encode_labels_length (ds : Dataset) (df : DataFrame) (l : list Z) :
  encode_labels ds df = Ok l -> List.length l = nrows df.
Proof.
  unfold encode_labels.
  destruct df as [|[n c] [|? ?]]; [discriminate| |destruct c; discriminate].
  destruct c as [v|v|v], (label_encoder ds) as [cl|cl|cl]; try discriminate;
    unfold transform_labels; intros H; apply mapM_Ok_length in H;
    rewrite H; cbn [nrows column_length]; rewrite ?length_map; reflexivity.
Qed.

(** Features of [N] rows and a label of no more rows: the features are as
    they were, and the label is stretched to [N] rows. *)
Lemma concat_axis1_label (N : nat) (a : DataFrame) (n : string) (l : list Z) :
  table N a -> (List.length l <= N)%nat ->
  concat_axis1 a [(n, IntCol l)] = a ++ [(n, pad_column N (IntCol l))].
Proof.
  intros Ha Hl. unfold concat_axis1. rewrite (table_nrows N a Ha).
  cbn [nrows column_length]. rewrite (Nat.max_l N _ Hl).
  unfold apply. rewrite map_app. cbn [map fst snd]. f_equal.
  destruct Ha as [_ Hall]. rewrite <- (map_id a) at 2.
  apply map_ext_in. intros [m c] Hin. cbn [fst snd].
  rewrite Forall_forall in Hall. specialize (Hall (m, c) Hin). cbn [snd] in Hall.
  rewrite (pad_column_full N c Hall). reflexivity.
Qed.

Lemma encode_categories_table (ds : Dataset) (df E : DataFrame) (N : nat) :
  encode_categories ds df = Ok E -> table N df -> table N E.
Proof.
  intros H [Hne Hall]. split.
  - apply (encode_categories_nil ds df E H Hne).
  - unfold encode_categories in H. destruct (imbalanced (config ds)).
    + injection H as <-. exact Hall.
    + apply bind_Ok_inv in H as (sub & Hsub & H). injection H as <-.
      apply getitem_Ok_inv in Hsub as [Hin ->].
      rewrite Forall_forall in Hall |- *. intros nc Hnc.
      apply In_setitem in Hnc as [Hnc|Hnc]; [auto|].
      unfold apply in Hnc. rewrite map_map in Hnc.
      apply in_map_iff in Hnc as (m & <- & Hm). cbn [fst snd column_length].
      rewrite (proj1 (cat_codes_range (col_of df m))).
      specialize (Hin m Hm). apply lookup_In_names in Hin.
      unfold col_of. destruct (lookup m df) as [c|] eqn:E; [|congruence].
      apply lookup_In in E. exact (Hall (m, c) E).
Qed.

(** The encoded real table, for features of [N] rows and no more labels. *)
Lemma encoded_real_table (ds : Dataset) (real gen : DataFrame) (N : nat) :
  get_single_encoded_data ds = Ok (real, gen) ->
  table N (X ds) -> (nrows (y ds) <= N)%nat ->
  exists X_real y_real,
    encode_categories ds (X ds) = Ok X_real
    /\ encode_labels ds (y ds) = Ok y_real
    /\ real = X_real ++ [(y_label (config ds), pad_column N (IntCol y_real))].
Proof.
  intros Henc HX Hy.
  destruct (get_single_encoded_data_Ok ds real gen Henc)
    as (X_real & X_gen' & y_real & y_gen' & E1 & _ & E3 & _ & -> & _).
  exists X_real, y_real. split; [exact E1|]. split; [exact E3|].
  apply concat_axis1_label.
  - apply (encode_categories_table ds (X ds)); assumption.
  - rewrite (encode_labels_length ds (y ds) y_real E3). exact Hy.
Qed.

Lemma cat_codes_missing (c : column) (i : nat) :
  nth_error (entries c) i = Some None ->
  nth_error (cat_codes (Categorical_of c)) i = Some (-1)%Z.
Proof.
  destruct c as [l|l|l]; cbn [entries Categorical_of cat_codes]; intros H;
    rewrite nth_error_map in H.
  - destruct (nth_error l i) as [[s|]|] eqn:E; cbn in H; try discriminate.
    apply (codes_missing String.ltb). exact E.
  - unfold float in *.
    destruct (nth_error l i) as [[s|]|] eqn:E; cbn in H; try discriminate.
    apply (codes_missing ereal_ltb). exact E.
  - destruct (nth_error l i); discriminate.
Qed.

Lemma fill_cate_codes (z : Z) (zs : list Z) :
  fill_cate (IntCol (z :: zs)) = Ok (IntCol (z :: zs)).
Proof.
  cbn [fill_cate].
  destruct (mode_spec Z.ltb Z_order (map Some (z :: zs))) as (m & -> & _).
  - cbn. discriminate.
  - reflexivity.
Qed.

(** C3.  Nothing is imputed before the codec runs: the code encodes first
    and imputes, if at all, afterwards.  For features of [N] rows and no more
    labels: a missing entry of a codec column is the code -1 in the encoded
    table, and the mode imputation that [compute_correlations] applies to
    the encoded codes leaves it there; a missing entry of a float column
    outside the codec is still missing in the encoded table, which the
    distance and the Jensen-Shannon passes read as it is.  So the encoded
    table has a missing value, or a code for one, whenever the features
    have. *)
Theorem encoded_data_is_not_imputed
        (ds : Dataset) (real gen : DataFrame) (N : nat) :
  imbalanced (config ds) = false ->
  get_single_encoded_data ds = Ok (real, gen) ->
  table N (X ds) -> (nrows (y ds) <= N)%nat ->
  (forall n c i,
     In n (cats ds) -> lookup n (X ds) = Some c ->
     nth_error (entries c) i = Some None ->
     exists codes,
       lookup n real = Some (IntCol codes)
       /\ nth_error codes i = Some (-1)%Z
       /\ fill_cate (IntCol codes) = Ok (IntCol codes)
       /\ ~ no_sentinel (cats ds) real)
  /\ (forall n l i,
        ~ In n (cats ds) -> lookup n (X ds) = Some (FloatCol l) ->
        nth_error l i = Some NaN ->
        lookup n real = Some (FloatCol l) /\ ~ no_missing real).
Proof.
  intros Himb Henc HX Hy.
  destruct (encoded_real_table ds real gen N Henc HX Hy)
    as (X_real & y_real & E1 & _ & ->).
  destruct (encode_categories_lookup ds (X ds) X_real Himb E1)
    as (Hin & Hnames & Hout & Hcat).
  split.
  - intros n c i Hn Hc Hi.
    assert (Hl : lookup n (X_real ++ [(y_label (config ds),
                                       pad_column N (IntCol y_real))])
                 = Some (IntCol (cat_codes (Categorical_of c)))).
    { rewrite lookup_app by (rewrite Hnames; auto).
      rewrite (Hcat n Hn). unfold col_of. rewrite Hc. reflexivity. }
    pose proof (cat_codes_missing c i Hi) as Hcode.
    exists (cat_codes (Categorical_of c)).
    split; [exact Hl|]. split; [exact Hcode|]. split.
    + destruct (cat_codes (Categorical_of c)) as [|z zs];
        [destruct i; discriminate|apply fill_cate_codes].
    + intros Hno. destruct (Hno n Hn) as (l & Hl' & Hnn).
      rewrite Hl in Hl'. injection Hl' as <-.
      apply nth_error_In in Hcode. rewrite Forall_forall in Hnn.
      specialize (Hnn _ Hcode). lia.
  - intros n l i Hn Hc Hi.
    assert (Hl : lookup n (X_real ++ [(y_label (config ds),
                                       pad_column N (IntCol y_real))])
                 = Some (FloatCol l)).
    { rewrite lookup_app.
      - rewrite (Hout n Hn). exact Hc.
      - rewrite Hnames. apply lookup_In_names. rewrite Hc. discriminate. }
    split; [exact Hl|].
    intros Hno. specialize (Hno n (FloatCol l) (lookup_In n _ _ Hl)).
    cbn [has_missing] in Hno.
    assert (Ht : existsb isnan l = true).
    { apply existsb_exists. exists NaN. split; [|reflexivity].
      apply nth_error_In in Hi. exact Hi. }
    rewrite Ht in Hno. discriminate.
Qed.

Lemma encoded_data_is_not_imputed_witness :
  exists real gen,
    get_single_encoded_data toy_missing = Ok (real, gen)
    /\ (exists codes,
          lookup "c"%string real = Some (IntCol codes)
          /\ nth_error codes 1 = Some (-1)%Z
          /\ fill_cate (IntCol codes) = Ok (IntCol codes)
          /\ ~ no_sentinel (cats toy_missing) real)
    /\ lookup "x"%string real = Some (FloatCol [F 1; F 2; NaN])
    /\ ~ no_missing real.
Proof.
  assert (E : exists real gen,
             get_single_encoded_data toy_missing = Ok (real, gen))
    by (eexists; eexists; reflexivity).
  destruct E as (real & gen & E). exists real, gen. split; [exact E|].
  destruct (encoded_data_is_not_imputed toy_missing real gen 3%nat)
    as [Hcat Hcont].
  - reflexivity.
  - exact E.
  - split; [discriminate|]. repeat constructor.
  - cbn. lia.
  - split.
    + apply (Hcat "c"%string (ObjCol [Some "a"; None; Some "b"]%string) 1%nat).
      * cbn. auto.
      * reflexivity.
      * reflexivity.
    + apply (Hcont "x"%string [F 1; F 2; NaN] 2%nat).
      * cbn. intros [H|[H|[]]]; discriminate.
      * reflexivity.
      * reflexivity.
Defined.

(** X9.  When the distance pass returns, it returns one pair of distances
    per row of the encoded synthetic table and one statistics row per row of
    the encoded training table, and an encoded table has the rows of the
    longer of its features and its labels.  When the training labels are not
    more than the training rows, of which there is at least one, the hitting
    rate and the epsilon identifiability risk computed from that result are
    numbers in [0, 1]. *)
Theorem computed_rates_in_unit_interval
        (ds : Dataset) (tp : float)
        (synth : list synth_stats) (stats : list real_stats) :
  compute_distances_hits ds tp = Ok (synth, stats) ->
  List.length synth = Nat.max (nrows (X_gen ds)) (nrows (y_gen ds))
  /\ List.length stats = Nat.max (nrows (X ds)) (nrows (y ds))
  /\ ((nrows (y ds) <= nrows (X ds))%nat -> (1 <= nrows (X ds))%nat ->
      exists h e : R,
        hitting_rate ds stats = F h /\ (0 <= h <= 1)%R
        /\ epsilon_identifiability_risk ds stats = F e /\ (0 <= e <= 1)%R).
Proof.
  intros H. unfold compute_distances_hits in H.
  apply bind_Ok_inv in H as ([real_data gen_data] & Henc & H).
  apply bind_Ok_inv in H as (real_array & Hreal & H).
  apply bind_Ok_inv in H as (fake_array & Hfake & H).
  apply bind_Ok_inv in H as (synth' & Hsynth & H).
  apply bind_Ok_inv in H as (thres & _ & H).
  apply bind_Ok_inv in H as (w & _ & H).
  apply bind_Ok_inv in H as (stats' & Hstats & H).
  injection H as <- <-.
  destruct (get_single_encoded_data_Ok ds real_data gen_data Henc)
    as (X_real & X_gen' & y_real & y_gen' & E1 & E2 & E3 & E4 & -> & ->).
  assert (Hls : List.length synth'
                = Nat.max (nrows (X_gen ds)) (nrows (y_gen ds))).
  { rewrite (mapM_Ok_length _ _ _ Hsynth), (values_length _ _ Hfake).
    rewrite nrows_concat_axis1, (nrows_encode_categories ds _ _ E2).
    cbn [nrows column_length].
    rewrite (encode_labels_length ds _ _ E4). reflexivity. }
  assert (Hlr : List.length stats' = Nat.max (nrows (X ds)) (nrows (y ds))).
  { rewrite (mapM_Ok_length _ _ _ Hstats), (values_length _ _ Hreal).
    rewrite nrows_concat_axis1, (nrows_encode_categories ds _ _ E1).
    cbn [nrows column_length].
    rewrite (encode_labels_length ds _ _ E3). reflexivity. }
  split; [exact Hls|]. split; [exact Hlr|].
  intros Hy HN. rewrite (Nat.max_l _ _ Hy) in Hlr.
  unfold hitting_rate, epsilon_identifiability_risk.
  set (c1 := count_true (map hit stats')).
  set (c2 := count_true _).
  assert (H1 : (c1 <= nrows (X ds))%nat).
  { unfold c1. rewrite <- Hlr, <- (length_map hit stats'). apply count_true_le. }
  assert (H2 : (c2 <= nrows (X ds))%nat).
  { unfold c2. rewrite <- Hlr.
    rewrite <- (length_map (fun s => fsub (r_s_diff_min s) (r_r_diff_min s)) stats').
    rewrite <- (length_map (fun d => fltb d (F 0))). apply count_true_le. }
  destruct (rate_in_unit_interval c1 _ H1 HN) as [R1 B1].
  destruct (rate_in_unit_interval c2 _ H2 HN) as [R2 B2].
  exists (INR c1 / INR (nrows (X ds)))%R, (INR c2 / INR (nrows (X ds)))%R. auto.
Qed.

Lemma computed_rates_in_unit_interval_witness :
  exists synth stats,
    compute_distances_hits toy_copy (F (3 / 10)) = Ok (synth, stats)
    /\ List.length synth = 3%nat
    /\ List.length stats = 3%nat
    /\ exists h e : R,
         hitting_rate toy_copy stats = F h /\ (0 <= h <= 1)%R
         /\ epsilon_identifiability_risk toy_copy stats = F e /\ (0 <= e <= 1)%R.
Proof.
  destruct toy_copy_distances_return as (synth & stats & H).
  exists synth, stats. split; [exact H|].
  destruct (computed_rates_in_unit_interval toy_copy (F (3 / 10)) synth stats H)
    as (H1 & H2 & H3).
  split; [exact H1|]. split; [exact H2|].
  apply H3; cbn; lia.
Defined.

Lemma lookup_concat_axis1 (a b : DataFrame) (n : string) :
  lookup n (concat_axis1 a b)
  = option_map (pad_column (Nat.max (nrows a) (nrows b))) (lookup n (a ++ b)).
Proof. unfold concat_axis1. apply lookup_apply. Qed.

Lemma to_floats_pad_codes (M : nat) (l : list Z) :
  exists v, to_floats (pad_column M (IntCol l)) = Ok v
            /\ List.length v = Nat.max (List.length l) M.
Proof.
  pose proof (column_length_pad_column M (IntCol l)) as Hlen.
  cbn [pad_column column_length] in Hlen |- *.
  destruct (Nat.ltb (List.length l) M); cbn [to_floats column_length] in *.
  - eexists. split; [reflexivity|]. exact Hlen.
  - eexists. split; [reflexivity|]. rewrite length_map. exact Hlen.
Qed.

(** X14.  The Jensen-Shannon pass needs encoded tables of equal length.  An
    encoded table has the rows of the longer of its features and its labels;
    when these numbers differ between the training and the synthetic data,
    neither of them being 1, and there is a codec column, the pass raises
    [ValueError]. *)
Theorem jensen_shannon_distance_unequal_rows
        (ds : Dataset) (real gen : DataFrame) (n : string) (rest : list string)
        (N G : nat) :
  imbalanced (config ds) = false ->
  get_single_encoded_data ds = Ok (real, gen) ->
  get_categories ds = n :: rest ->
  table N (X ds) -> table G (X_gen ds) ->
  Nat.max N (nrows (y ds)) <> Nat.max G (nrows (y_gen ds)) ->
  Nat.max N (nrows (y ds)) <> 1%nat ->
  Nat.max G (nrows (y_gen ds)) <> 1%nat ->
  jensen_shannon_distance ds = Raise ValueError.
Proof.
  intros Himb Henc Hcats HX HG Hne H1 H2.
  unfold jensen_shannon_distance. rewrite Henc. cbn [bind].
  destruct (get_single_encoded_data_Ok ds real gen Henc)
    as (X_real & X_gen' & y_real & y_gen' & E1 & E2 & E3 & E4 & -> & ->).
  unfold get_categories in *.
  pose proof (encode_categories_table ds _ _ N E1 HX) as TX.
  pose proof (encode_categories_table ds _ _ G E2 HG) as TG.
  destruct (encode_categories_lookup ds (X ds) X_real Himb E1)
    as (Hin1 & Hn1 & _ & Hc1).
  destruct (encode_categories_lookup ds (X_gen ds) X_gen' Himb E2)
    as (Hin2 & Hn2 & _ & Hc2).
  assert (Hcol : forall (T E : DataFrame) (K : nat) (yl : list Z),
             table K T -> table K E -> map fst E = map fst T ->
             (forall m, In m (cats ds) -> In m (map fst T)) ->
             (forall m, In m (cats ds) ->
                lookup m E = Some (IntCol (cat_codes (Categorical_of (col_of T m))))) ->
             forall m, In m (cats ds) ->
               exists c v,
                 lookup m (concat_axis1 E [(y_label (config ds), IntCol yl)])
                 = Some c
                 /\ to_floats c = Ok v
                 /\ List.length v = Nat.max K (List.length yl)).
  { intros T E K yl HT HE Hnm Hin Hc m Hm.
    rewrite lookup_concat_axis1, lookup_app by (rewrite Hnm; auto).
    rewrite (Hc m Hm). cbn [option_map].
    rewrite (table_nrows K E HE). cbn [nrows column_length].
    destruct (to_floats_pad_codes (Nat.max K (List.length yl))
                (cat_codes (Categorical_of (col_of T m)))) as (v & Ev & Hv).
    eexists. exists v. split; [reflexivity|]. split; [exact Ev|].
    rewrite Hv, (proj1 (cat_codes_range _)).
    assert (Hlen : column_length (col_of T m) = K).
    { specialize (Hin m Hm). apply lookup_In_names in Hin. unfold col_of.
      destruct (lookup m T) as [c|] eqn:El; [|congruence].
      apply lookup_In in El. destruct HT as [_ Hall].
      rewrite Forall_forall in Hall. exact (Hall (m, c) El). }
    rewrite Hlen. lia. }
  assert (Hn : In n (cats ds)) by (rewrite Hcats; left; reflexivity).
  destruct (Hcol (X ds) X_real N y_real HX TX Hn1 Hin1 Hc1 n Hn)
    as (cr & vr & Lr & Fr & Nr).
  destruct (Hcol (X_gen ds) X_gen' G y_gen' HG TG Hn2 Hin2 Hc2 n Hn)
    as (cg & vg & Lg & Fg & Ng).
  rewrite (encode_labels_length ds _ _ E3) in Nr.
  rewrite (encode_labels_length ds _ _ E4) in Ng.
  assert (Hsub : forall D, (forall m, In m (cats ds) -> In m (map fst D)) ->
             getitem D (cats ds) = Ok (map (fun m => (m, col_of D m)) (cats ds))).
  { intros D HD. apply getitem_Ok. exact HD. }
  assert (Hnames : forall E yl, (forall m, In m (cats ds) -> In m (map fst E)) ->
             forall m, In m (cats ds) ->
               In m (map fst (concat_axis1 E [(y_label (config ds), IntCol yl)]))).
  { intros E yl HE m Hm. unfold concat_axis1. rewrite names_apply, map_app.
    apply in_or_app. left. auto. }
  rewrite (Hsub _ (Hnames X_real y_real ltac:(rewrite Hn1; exact Hin1))).
  cbn [bind].
  rewrite (Hsub _ (Hnames X_gen' y_gen' ltac:(rewrite Hn2; exact Hin2))).
  rewrite Hcats. cbn [bind map mapM fst snd lookup].
  rewrite String.eqb_refl. unfold col_of. rewrite Lr, Lg, Fr, Fg. cbn [bind].
  rewrite jensenshannon_mismatch; [reflexivity| | |]; congruence.
Qed.

Lemma jensen_shannon_distance_unequal_rows_witness :
  jensen_shannon_distance
    {| config := toy_config;
       X := X toy; X_val := X_val toy; X_test := X_test toy;
       y := y toy; y_val := y_val toy; y_test := y_test toy;
       X_gen := only_b; y_gen := [("label"%string, ObjCol [Some "u"; Some "v"]%string)];
       cats := cats toy; X_cats := X_cats toy;
       label_encoder := label_encoder toy |} = Raise ValueError.
Proof.
  assert (E : exists real gen,
             get_single_encoded_data
               {| config := toy_config;
                  X := X toy; X_val := X_val toy; X_test := X_test toy;
                  y := y toy; y_val := y_val toy; y_test := y_test toy;
                  X_gen := only_b;
                  y_gen := [("label"%string, ObjCol [Some "u"; Some "v"]%string)];
                  cats := cats toy; X_cats := X_cats toy;
                  label_encoder := label_encoder toy |} = Ok (real, gen))
    by (eexists; eexists; reflexivity).
  destruct E as (real & gen & E).
  apply (jensen_shannon_distance_unequal_rows _ real gen "c"%string ["b"%string]
           3%nat 2%nat).
  - reflexivity.
  - exact E.
  - reflexivity.
  - split; [discriminate|]. repeat constructor.
  - split; [discriminate|]. repeat constructor.
  - cbn. lia.
  - cbn. lia.
  - cbn. lia.
Defined.

(** X15.  Identical tables: when the synthetic tables are the training
    tables, the features have [N] rows and the labels no more, and no codec
    column has a missing value, the pass returns one distance per codec
    column; the distance is 0 for a column with a code above 0, and NaN for a
    column with rows whose codes are all 0 (a column with a single
    category). *)
Theorem jensen_shannon_distance_of_copy
        (ds : Dataset) (real gen : DataFrame) (N : nat) :
  X_gen ds = X ds -> y_gen ds = y ds ->
  imbalanced (config ds) = false ->
  get_single_encoded_data ds = Ok (real, gen) ->
  table N (X ds) -> (nrows (y ds) <= N)%nat ->
  (forall n, In n (cats ds) -> has_missing (col_of (X ds) n) = false) ->
  exists dists,
    jensen_shannon_distance ds = Ok dists
    /\ map fst dists = cats ds
    /\ forall n d, In (n, d) dists ->
         exists cds,
           lookup n real = Some (IntCol cds)
           /\ (Exists (fun z => (0 < z)%Z) cds -> d = F 0)
           /\ (cds <> [] -> Forall (fun z => z = 0%Z) cds -> d = NaN).
Proof.
  intros HXg Hyg Himb Henc HX Hy Hmiss.
  unfold jensen_shannon_distance. rewrite Henc. cbn [bind].
  destruct (encoded_real_table ds real gen N Henc HX Hy)
    as (X_real & y_real & E1 & E3 & ->).
  assert (Hgen : gen = X_real ++ [(y_label (config ds),
                                   pad_column N (IntCol y_real))]).
  { destruct (get_single_encoded_data_Ok ds _ gen Henc)
      as (X_real' & X_gen' & y_real' & y_gen' & E1' & E2 & E3' & E4 & Hr & ->).
    rewrite HXg, E1 in E2. injection E2 as <-.
    rewrite Hyg, E3 in E4. injection E4 as <-.
    apply concat_axis1_label.
    - apply (encode_categories_table ds (X ds)); assumption.
    - rewrite (encode_labels_length ds (y ds) y_real E3). exact Hy. }
  rewrite Hgen.
  unfold get_categories.
  rewrite !(encoded_codec_columns ds (X ds) X_real _ Himb E1). cbn [bind].
  set (code := fun n => cat_codes (Categorical_of (col_of (X ds) n))).
  set (sub := map (fun n => (n, IntCol (code n))) (cats ds)).
  set (f := fun nx : string * column =>
              match lookup (fst nx) sub with
              | Some g => p <- to_floats (snd nx) ;; q <- to_floats g ;;
                          d <- jensenshannon p q ;; Ok (fst nx, d)
              | None => Raise KeyError
              end).
  assert (Hlook : forall n, In n (cats ds) -> lookup n sub = Some (IntCol (code n))).
  { intros n Hn. unfold sub.
    apply (lookup_of_function (fun n => IntCol (code n))).
    - intros nc Hnc. apply in_map_iff in Hnc as (m & <- & _). reflexivity.
    - rewrite map_map. cbn [fst]. rewrite map_id. exact Hn. }
  assert (Hreal : forall n, In n (cats ds) ->
                    lookup n (X_real ++ [(y_label (config ds),
                                          pad_column N (IntCol y_real))])
                    = Some (IntCol (code n))).
  { intros n Hn.
    destruct (encode_categories_lookup ds (X ds) X_real Himb E1)
      as (Hin & Hnm & _ & Hcat).
    rewrite lookup_app by (rewrite Hnm; auto). apply Hcat. exact Hn. }
  assert (Hrow : forall n, In n (cats ds) ->
            exists d, f (n, IntCol (code n)) = Ok (n, d)
              /\ (Exists (fun z => (0 < z)%Z) (code n) -> d = F 0)
              /\ (code n <> [] -> Forall (fun z => z = 0%Z) (code n) -> d = NaN)).
  { intros n Hn. unfold f. cbn [fst snd]. rewrite (Hlook n Hn).
    cbn [to_floats bind]. rewrite map_of_int.
    assert (Hnn : Forall (fun z => (0 <= z)%Z) (code n)).
    { apply cat_codes_nonneg. apply Hmiss. exact Hn. }
    destruct (jensenshannon_self (map IZR (code n))) as (d & -> & Hd1 & Hd2).
    { apply Forall_map. eapply Forall_impl; [|exact Hnn].
      intros z Hz. apply IZR_le in Hz. exact Hz. }
    cbn [bind]. exists d. split; [reflexivity|]. split.
    - intros Hex. apply Hd1. apply Rsum_IZR_pos; assumption.
    - intros Hne Hz. apply Hd2.
      + destruct (code n); [contradiction|discriminate].
      + apply Rsum_IZR_zero. exact Hz. }
  destruct (mapM_Ok_pointwise f
              (fun nc nd =>
                 fst nd = fst nc
                 /\ (Exists (fun z => (0 < z)%Z) (code (fst nc)) -> snd nd = F 0)
                 /\ (code (fst nc) <> [] ->
                     Forall (fun z => z = 0%Z) (code (fst nc)) -> snd nd = NaN))
              sub) as (dists & Hd & Hall).
  { intros [n c] Hin. apply in_map_iff in Hin as (m & [= <- <-] & Hm).
    destruct (Hrow m Hm) as (d & E & Hd). exists (m, d). auto. }
  exists dists. split; [exact Hd|]. split.
  - rewrite (Forall2_map_fst _ _ _ Hall (fun a b H => proj1 H)).
    unfold sub. rewrite map_map. cbn [fst]. apply map_id.
  - intros n d Hin.
    destruct (Forall2_In_r _ _ _ _ Hall Hin) as ([m c] & Hm & E & H1 & H2).
    cbn [fst snd] in *.
    apply in_map_iff in Hm as (m' & [= <- <-] & Hm). rewrite E.
    exists (code m'). split; [apply Hreal; exact Hm|]. auto.
Qed.

Lemma jensen_shannon_distance_of_copy_witness :
  exists dists,
    jensen_shannon_distance toy_copy = Ok dists
    /\ map fst dists = cats toy_copy
    /\ forall n d, In (n, d) dists ->
         exists cds,
           lookup n toy_encoded = Some (IntCol cds)
           /\ (Exists (fun z => (0 < z)%Z) cds -> d = F 0)
           /\ (cds <> [] -> Forall (fun z => z = 0%Z) cds -> d = NaN).
Proof.
  apply (jensen_shannon_distance_of_copy toy_copy toy_encoded toy_encoded 3%nat).
  - reflexivity.
  - reflexivity.
  - reflexivity.
  - reflexivity.
  - split; [discriminate|]. repeat constructor.
  - cbn. lia.
  - intros n Hn. simpl in Hn. destruct Hn as [<-|[<-|[]]]; reflexivity.
Defined.
